(** * The layer store: reference-counted, content-addressed layers

    A shallow embedding of [layerStore] (package [layer]): the index of
    read-only layers [layerMap], the index of mounts [mounts], and the
    operations [Get], [Register], [Release], [CreateRWLayer],
    [ReleaseRWLayer] and [newStoreFromGraphDriver].

    Go objects that are shared through pointers ([*roLayer]) live in an
    explicit heap; the index and the parent links hold addresses.  The graph
    driver and the metadata store are collaborators whose calls can fail:
    every operation takes an environment that fixes the outcome of each
    external call it makes. *)

From stdpp Require Import base gmap sets list strings fin_maps.
From Stdlib Require Import ZArith Lia.

Local Open Scope string_scope.
Local Open Scope Z_scope.
Local Open Scope nat_scope.

(** ** Identifiers *)

Abbreviation ChainID := string (only parsing).
Abbreviation DiffID := string (only parsing).
(** Address of a [roLayer] object. *)
Abbreviation ptr := nat (only parsing).

(** maxLayerDepth represents the maximum number of layers which can be
    chained together. *)
Definition maxLayerDepth : nat := 125.

(** ** Errors and results *)

Inductive error : Type :=
  | ErrLayerDoesNotExist
  | ErrMaxDepthExceeded
  | ErrMountNameConflict
  | ErrMountDoesNotExist
  | ErrLayerNotRetained
  | ErrOther (msg : string).

#[global] Instance error_eq_dec : EqDecision error.
Proof. solve_decision. Defined.

(** A Go pair [(T, error)] in which exactly one side is meaningful. *)
Inductive result (A : Type) : Type :=
  | Ok (a : A)
  | Err (e : error).
Arguments Ok {A} a.
Arguments Err {A} e.

(** What running a piece of code can do: return, panic, dereference an
    address that holds no object ([Fault]; no Go execution does this), or
    exhaust the recursion budget of the model ([Diverge]). *)
Inductive outcome (A : Type) : Type :=
  | Done (a : A)
  | Panic (msg : string)
  | Fault
  | Diverge.
Arguments Done {A} a.
Arguments Panic {A} msg.
Arguments Fault {A}.
Arguments Diverge {A}.

#[global] Instance outcome_ret : MRet outcome := fun A a => Done a.
#[global] Instance outcome_bind : MBind outcome := fun A B f m =>
  match m with
  | Done a => f a
  | Panic msg => Panic msg
  | Fault => Fault
  | Diverge => Diverge
  end.

(** ** Data model *)

(** A [Layer] handle as the store sees it: the identity of the handle object
    (the key of [roLayer.references]) and what its [ChainID()] returns. *)
Record Layer : Type := mkLayer {
  layer_ref : nat;
  layer_ChainID : ChainID;
}.

(** An [RWLayer] handle: its identity and what its [Name()] returns. *)
Record RWLayer : Type := mkRWLayer {
  rw_ref : nat;
  rw_Name : string;
}.

Record roLayer : Type := mkRoLayer {
  chainID : ChainID;
  diffID : DiffID;
  parent : option ptr;
  cacheID : string;
  layerSize : Z;
  referenceCount : nat;
  references : gset nat;
}.

Record mountedLayer : Type := mkMountedLayer {
  mname : string;
  mountID : string;
  initID : string;
  mparent : option ptr;
  mreferences : gset nat;
}.

Record Metadata : Type := mkMetadata {
  mChainID : ChainID;
  mDiffID : DiffID;
  mSize : Z;
  mDiffSize : Z;
}.

(** Modelled from the spec: the metadata store ([fileMetadataStore]) is not
    part of the sources.  It holds one record per ChainID (diff ID, size,
    cache ID, parent chain ID) and one record per mount name (mount ID,
    init ID, parent chain ID); an empty string stands for an absent parent or
    init ID. *)
Record layerRecord : Type := mkLayerRecord {
  rec_diffID : DiffID;
  rec_size : Z;
  rec_cacheID : string;
  rec_parent : ChainID;
}.

Record mountRecord : Type := mkMountRecord {
  rec_mountID : string;
  rec_initID : string;
  rec_mountParent : ChainID;
}.

Record fileMetadataStore : Type := mkMetadataStore {
  layers : gmap string layerRecord;
  mountRecs : gmap string mountRecord;
}.

(** The store.  [driver] is the set of backing stores (cache IDs) that exist
    in the graph driver; [heap] holds the [roLayer] objects; [next_ptr] and
    [next_ref] are the next fresh object address and handle identity. *)
Record layerStore : Type := mkStore {
  store : fileMetadataStore;
  driver : gset string;
  heap : gmap nat roLayer;
  layerMap : gmap string nat;
  mounts : gmap string mountedLayer;
  next_ptr : nat;
  next_ref : nat;
}.

Definition with_store (ms : fileMetadataStore) (s : layerStore) : layerStore :=
  mkStore ms (driver s) (heap s) (layerMap s) (mounts s) (next_ptr s) (next_ref s).
Definition with_driver (d : gset string) (s : layerStore) : layerStore :=
  mkStore (store s) d (heap s) (layerMap s) (mounts s) (next_ptr s) (next_ref s).
Definition with_heap (h : gmap nat roLayer) (s : layerStore) : layerStore :=
  mkStore (store s) (driver s) h (layerMap s) (mounts s) (next_ptr s) (next_ref s).
Definition with_layerMap (m : gmap string nat) (s : layerStore) : layerStore :=
  mkStore (store s) (driver s) (heap s) m (mounts s) (next_ptr s) (next_ref s).
Definition with_mounts (m : gmap string mountedLayer) (s : layerStore) : layerStore :=
  mkStore (store s) (driver s) (heap s) (layerMap s) m (next_ptr s) (next_ref s).
Definition with_next_ptr (n : nat) (s : layerStore) : layerStore :=
  mkStore (store s) (driver s) (heap s) (layerMap s) (mounts s) n (next_ref s).
Definition with_next_ref (n : nat) (s : layerStore) : layerStore :=
  mkStore (store s) (driver s) (heap s) (layerMap s) (mounts s) (next_ptr s) n.

Definition with_layers (m : gmap string layerRecord) (ms : fileMetadataStore)
  : fileMetadataStore := mkMetadataStore m (mountRecs ms).
Definition with_mountRecs (m : gmap string mountRecord) (ms : fileMetadataStore)
  : fileMetadataStore := mkMetadataStore (layers ms) m.

Definition set_referenceCount (c : nat) (n : roLayer) : roLayer :=
  mkRoLayer (chainID n) (diffID n) (parent n) (cacheID n) (layerSize n) c (references n).
Definition set_references (r : gset nat) (n : roLayer) : roLayer :=
  mkRoLayer (chainID n) (diffID n) (parent n) (cacheID n) (layerSize n) (referenceCount n) r.
Definition set_mreferences (r : gset nat) (m : mountedLayer) : mountedLayer :=
  mkMountedLayer (mname m) (mountID m) (initID m) (mparent m) r.

(** The empty store over a metadata store and a driver. *)
Definition empty_store (ms : fileMetadataStore) (d : gset string) : layerStore :=
  mkStore ms d ∅ ∅ ∅ 0 0.

(** Reading and writing the object at an address. *)
Definition deref (s : layerStore) (p : ptr) : outcome roLayer :=
  match heap s !! p with
  | Some n => Done n
  | None => Fault
  end.

Definition set_node (p : ptr) (n : roLayer) (s : layerStore) : layerStore :=
  with_heap (<[p := n]> (heap s)) s.

(** Allocating the object [node] and entering it in [layerMap] under its
    chain ID: [ls.layerMap[chainID] = node]. *)
Definition publish (node : roLayer) (s : layerStore) : layerStore :=
  let a := next_ptr s in
  with_next_ptr (S a)
    (with_layerMap (<[chainID node := a]> (layerMap s)) (set_node a node s)).

(** The recursion budget of the walks along parent links: no chain of
    distinct objects is longer than the number of objects ever allocated. *)
Definition fuel (s : layerStore) : nat := S (next_ptr s).

(** ** Methods of [roLayer] and [mountedLayer] *)

(** Modelled from the spec: [roLayer.depth] is not part of the sources; it is
    the root-to-node parent-chain length, a root having depth 1 (a chain of
    125 layers is accepted, the 126th registration is refused). *)
Fixpoint depth_loop (k : nat) (s : layerStore) (l : ptr) : outcome nat :=
  match k with
  | O => Diverge
  | S k' =>
      n ← deref s l;
      match parent n with
      | None => Done 1
      | Some p => d ← depth_loop k' s p; Done (d + 1)
      end
  end.

Definition depth (s : layerStore) (l : ptr) : outcome nat :=
  depth_loop (fuel s) s l.

(** Modelled from the spec: [roLayer.Size] is not part of the sources; the
    cumulative size is computed by walking the parents. *)
Fixpoint Size_loop (k : nat) (s : layerStore) (l : ptr) : outcome Z :=
  match k with
  | O => Diverge
  | S k' =>
      n ← deref s l;
      match parent n with
      | None => Done (layerSize n)
      | Some p => z ← Size_loop k' s p; Done (layerSize n + z)%Z
      end
  end.

Definition Size (s : layerStore) (l : ptr) : outcome Z :=
  Size_loop (fuel s) s l.

(** Modelled from the spec: the reference bookkeeping of [roLayer]
    ([getReference], [hasReference], [hasReferences], [deleteReference]) is
    not part of the sources.  [references] is the set of live handle objects;
    [getReference] makes a fresh handle and registers it.  The count itself is
    incremented by [get] (and starts at 1 for a new layer), so that a newly
    registered layer is returned with reference count 1. *)
Definition hasReference (n : roLayer) (l : Layer) : bool :=
  bool_decide (layer_ref l ∈ references n).

Definition hasReferences (n : roLayer) : bool :=
  negb (bool_decide (references n = ∅)).

Definition deleteReference (n : roLayer) (l : Layer) : roLayer :=
  set_references (references n ∖ {[layer_ref l]}) n.

Definition getReference (p : ptr) (s : layerStore) : outcome (Layer * layerStore) :=
  n ← deref s p;
  let h := next_ref s in
  Done (mkLayer h (chainID n),
        with_next_ref (S h) (set_node p (set_references ({[h]} ∪ references n) n) s)).

(** Modelled from the spec: the reference bookkeeping of [mountedLayer] is
    not part of the sources.  [deleteReference] fails with
    [ErrLayerNotRetained] for a handle that is not held; [retakeReference]
    reinserts the handle. *)
Definition m_hasReferences (m : mountedLayer) : bool :=
  negb (bool_decide (mreferences m = ∅)).

Definition m_deleteReference (m : mountedLayer) (l : RWLayer) : result mountedLayer :=
  if bool_decide (rw_ref l ∈ mreferences m)
  then Ok (set_mreferences (mreferences m ∖ {[rw_ref l]}) m)
  else Err ErrLayerNotRetained.

Definition m_retakeReference (m : mountedLayer) (l : RWLayer) : mountedLayer :=
  set_mreferences ({[rw_ref l]} ∪ mreferences m) m.

Definition m_getReference (m : mountedLayer) (s : layerStore)
  : RWLayer * mountedLayer * layerStore :=
  let h := next_ref s in
  (mkRWLayer h (mname m), set_mreferences ({[h]} ∪ mreferences m) m,
   with_next_ref (S h) s).

(** ** The read-only layer graph *)

(** [ls.get]: look the layer up and retain it. *)
Definition get (layer : ChainID) (s : layerStore) : outcome (option ptr * layerStore) :=
  match layerMap s !! layer with
  | None => Done (None, s)
  | Some p =>
      n ← deref s p;
      Done (Some p, set_node p (set_referenceCount (S (referenceCount n)) n) s)
  end.

Definition Get (l : ChainID) (s : layerStore) : outcome (result Layer * layerStore) :=
  '(lo, s1) ← get l s;
  match lo with
  | None => Done (Err ErrLayerDoesNotExist, s1)
  | Some p => '(h, s2) ← getReference p s1; Done (Ok h, s2)
  end.

(** Outcome of the external calls of one [deleteLayer]: whether the rename
    of the metadata directory took place, and the errors of
    [driver.Remove] and [os.RemoveAll]. *)
Record deleteEnv : Type := mkDeleteEnv {
  del_rename : bool;
  del_remove : option error;
  del_removeAll : option error;
}.

Definition delete_ok : deleteEnv := mkDeleteEnv true None None.

Definition deleteLayer (e : deleteEnv) (l : ptr) (s : layerStore)
  : outcome (result Metadata * layerStore) :=
  n ← deref s l;
  let s1 := if del_rename e
            then with_store (with_layers (delete (chainID n) (layers (store s))) (store s)) s
            else s in
  match del_remove e with
  | Some err => Done (Err err, s1)
  | None =>
      let s2 := with_driver (driver s1 ∖ {[cacheID n]}) s1 in
      match del_removeAll e with
      | Some err => Done (Err err, s2)
      | None =>
          z ← Size s2 l;
          Done (Ok (mkMetadata (chainID n) (diffID n) z (layerSize n)), s2)
      end
  end.

(** The [for] loop of [releaseLayer]; [dpth] and [removed] are its local
    variables [depth] and [removed], [l] the layer it stands on. *)
Fixpoint releaseLayer_loop (k : nat) (e : nat → deleteEnv) (dpth : nat)
    (removed : list Metadata) (l : ptr) (s : layerStore)
  : outcome (result (list Metadata) * layerStore) :=
  match k with
  | O => Diverge
  | S k' =>
      n ← deref s l;
      if bool_decide (referenceCount n = 0) then Panic "layer not retained" else
      let n1 := set_referenceCount (referenceCount n - 1) n in
      let s1 := set_node l n1 s in
      if negb (bool_decide (referenceCount n1 = 0)) then Done (Ok removed, s1) else
      if bool_decide (length removed = 0) && bool_decide (0 < dpth)
      then Panic "cannot remove layer with child" else
      if hasReferences n1 then Panic "cannot delete referenced layer" else
      let s2 := with_layerMap (delete (chainID n1) (layerMap s1)) s1 in
      '(r, s3) ← deleteLayer (e dpth) l s2;
      match r with
      | Err err => Done (Err err, s3)
      | Ok metadata =>
          let removed' := (removed ++ [metadata])%list in
          match parent n1 with
          | None => Done (Ok removed', s3)
          | Some p => releaseLayer_loop k' e (S dpth) removed' p s3
          end
      end
  end.

Definition releaseLayer (e : nat → deleteEnv) (l : ptr) (s : layerStore)
  : outcome (result (list Metadata) * layerStore) :=
  releaseLayer_loop (fuel s) e 0 [] l s.

Definition Release (e : nat → deleteEnv) (l : Layer) (s : layerStore)
  : outcome (result (list Metadata) * layerStore) :=
  match layerMap s !! layer_ChainID l with
  | None => Done (Ok [], s)
  | Some p =>
      n ← deref s p;
      if hasReference n l
      then releaseLayer e p (set_node p (deleteReference n l) s)
      else Done (Err ErrLayerNotRetained, s)
  end.

(** ** Collaborators *)

(** Modelled from the spec: the content digests come from libraries outside
    the sources.  [digest] is the canonical digest of a diff stream and
    [chainDigest] is [identity.ChainID] of a parent chain ID and a diff
    ID. *)
Class Digester : Type := mkDigester {
  digest : list Init.Byte.byte → DiffID;
  chainDigest : ChainID → DiffID → ChainID;
}.

(** Modelled from the spec: the graph driver is specified at its interface
    only.  A successful [Create]/[CreateReadWrite] adds the backing store, a
    successful [Remove] deletes it, a failed call changes nothing. *)
Definition driver_Create (r : option error) (id : string) (s : layerStore) : layerStore :=
  match r with
  | None => with_driver ({[id]} ∪ driver s) s
  | Some _ => s
  end.

Definition driver_Remove (r : option error) (id : string) (s : layerStore) : layerStore :=
  match r with
  | None => with_driver (driver s ∖ {[id]}) s
  | Some _ => s
  end.

(** Modelled from the spec: the setters of the mount record create the
    record when it is absent and overwrite one field. *)
Definition mount_record (name : string) (ms : fileMetadataStore) : mountRecord :=
  default (mkMountRecord "" "" "") (mountRecs ms !! name).

Definition SetMountID (name id : string) (ms : fileMetadataStore) : fileMetadataStore :=
  let r := mount_record name ms in
  with_mountRecs (<[name := mkMountRecord id (rec_initID r) (rec_mountParent r)]> (mountRecs ms)) ms.

Definition SetInitID (name id : string) (ms : fileMetadataStore) : fileMetadataStore :=
  let r := mount_record name ms in
  with_mountRecs (<[name := mkMountRecord (rec_mountID r) id (rec_mountParent r)]> (mountRecs ms)) ms.

Definition SetMountParent (name : string) (c : ChainID) (ms : fileMetadataStore)
  : fileMetadataStore :=
  let r := mount_record name ms in
  with_mountRecs (<[name := mkMountRecord (rec_mountID r) (rec_initID r) c]> (mountRecs ms)) ms.

Definition RemoveMount (name : string) (ms : fileMetadataStore) : fileMetadataStore :=
  with_mountRecs (delete name (mountRecs ms)) ms.

(** Modelled from the spec: committing a transaction persists the whole
    record under the final chain ID; a transaction that is cancelled, or
    whose commit fails, persists nothing. *)
Definition Commit (c : ChainID) (r : layerRecord) (ms : fileMetadataStore)
  : fileMetadataStore := with_layers (<[c := r]> (layers ms)) ms.

(** ** Register *)

(** Outcome of the external calls of one [Register]. *)
Record registerEnv : Type := mkRegisterEnv {
  reg_cacheID : string;
  reg_create : option error;
  reg_startTx : option error;
  reg_applyTar : result Z;
  reg_storeLayer : option error;
  reg_commit : option error;
  reg_remove : option error;
  reg_cancel : option error;
  reg_release : nat → deleteEnv;
}.

(** The deferred closure "Release parent chain if error". *)
Definition release_parent (e : nat → deleteEnv) (p : option ptr) (s : layerStore)
  : outcome layerStore :=
  match p with
  | None => Done s
  | Some pp => '(_, s') ← releaseLayer e pp s; Done s'
  end.

(** The deferred closure "Cleaning up cache layer after error": the errors of
    [driver.Remove] and of [tx.Cancel] are logged only. *)
Definition cleanup_cache (e : registerEnv) (s : layerStore) : layerStore :=
  driver_Remove (reg_remove e) (reg_cacheID e) s.

(** Return [nil, cErr] before the transaction exists. *)
Definition register_fail_early {A} (e : registerEnv) (p : option ptr) (err : error)
    (s : layerStore) : outcome (result A * layerStore) :=
  s' ← release_parent (reg_release e) p s; Done (Err err, s').

(** Return [nil, cErr] once the cleanup closure is deferred. *)
Definition register_fail {A} (e : registerEnv) (p : option ptr) (err : error)
    (s : layerStore) : outcome (result A * layerStore) :=
  s' ← release_parent (reg_release e) p (cleanup_cache e s); Done (Err err, s').

(** [registerWithDescriptor] from "Create new roLayer" on; [p] is the
    retained parent and [pid] its cache ID. *)
Definition register_layer `{Digester} (e : registerEnv) (ts : list Init.Byte.byte)
    (p : option ptr) (pid : string) (s : layerStore)
  : outcome (result Layer * layerStore) :=
  match reg_create e with
  | Some err => register_fail_early e p err s
  | None =>
      let s1 := driver_Create None (reg_cacheID e) s in
      match reg_startTx e with
      | Some err => register_fail_early e p err s1
      | None =>
          match reg_applyTar e with
          | Err err => register_fail e p err s1
          | Ok applySize =>
              let dID := digest ts in
              pchain ← match p with
                       | None => Done None
                       | Some pp => np ← deref s1 pp; Done (Some (chainID np))
                       end;
              let chain := match pchain with
                           | None => dID
                           | Some pc => chainDigest pc dID
                           end in
              match reg_storeLayer e with
              | Some err => register_fail e p err s1
              | None =>
                  '(existingLayer, s2) ← get chain s1;
                  match existingLayer with
                  | Some x =>
                      '(h, s3) ← getReference x s2;
                      s4 ← release_parent (reg_release e) p (cleanup_cache e s3);
                      Done (Ok h, s4)
                  | None =>
                      match reg_commit e with
                      | Some err => register_fail e p err s2
                      | None =>
                          let r := mkLayerRecord dID applySize (reg_cacheID e)
                                     (default "" pchain) in
                          let layer := mkRoLayer chain dID p (reg_cacheID e) applySize 1 ∅ in
                          let a := next_ptr s2 in
                          let s3 := with_store (Commit chain r (store s2)) s2 in
                          let s4 := publish layer s3 in
                          '(h, s5) ← getReference a s4;
                          Done (Ok h, s5)
                      end
                  end
              end
          end
      end
  end.

Definition registerWithDescriptor `{Digester} (e : registerEnv)
    (ts : list Init.Byte.byte) (parent : ChainID) (s : layerStore)
  : outcome (result Layer * layerStore) :=
  if decide (parent = "") then register_layer e ts None "" s
  else
    '(po, s1) ← get parent s;
    match po with
    | None => Done (Err ErrLayerDoesNotExist, s1)
    | Some p =>
        np ← deref s1 p;
        d ← depth s1 p;
        if bool_decide (maxLayerDepth ≤ d)
        then register_fail_early e (Some p) ErrMaxDepthExceeded s1
        else register_layer e ts (Some p) (cacheID np) s1
    end.

Definition Register `{Digester} (e : registerEnv) (ts : list Init.Byte.byte)
    (parent : ChainID) (s : layerStore) : outcome (result Layer * layerStore) :=
  registerWithDescriptor e ts parent s.

(** ** Mounted layers *)

Record CreateRWLayerOpts : Type := mkCreateRWLayerOpts {
  MountLabel : string;
  StorageOpt : gmap string string;
  InitFunc : option (string → option error);
}.

(** Outcome of the external calls of one [CreateRWLayer]: the mount ID
    chosen by [ls.mountID], the calls of [initMount]
    ([CreateReadWrite], [Get], [Put]), the [CreateReadWrite] of the mount,
    the three setters of [saveMount], and the [deleteLayer] calls of the
    deferred parent release. *)
Record createRWEnv : Type := mkCreateRWEnv {
  crw_mountID : string;
  crw_initCreate : option error;
  crw_initGet : result string;
  crw_initPut : option error;
  crw_create : option error;
  crw_setMountID : option error;
  crw_setInitID : option error;
  crw_setMountParent : option error;
  crw_release : nat → deleteEnv;
}.

Definition initMount (e : createRWEnv) (graphID : string)
    (initFunc : string → option error) (s : layerStore) : result string * layerStore :=
  let initID' := graphID ++ "-init" in
  match crw_initCreate e with
  | Some err => (Err err, s)
  | None =>
      let s1 := driver_Create None initID' s in
      match crw_initGet e with
      | Err err => (Err err, s1)
      | Ok path =>
          match initFunc path with
          | Some err => (Err err, s1)
          | None =>
              match crw_initPut e with
              | Some err => (Err err, s1)
              | None => (Ok initID', s1)
              end
          end
      end
  end.

Definition saveMount (e : createRWEnv) (mount : mountedLayer) (s : layerStore)
  : outcome (option error * layerStore) :=
  match crw_setMountID e with
  | Some err => Done (Some err, s)
  | None =>
      let s1 := with_store (SetMountID (mname mount) (mountID mount) (store s)) s in
      match (if decide (initID mount = "") then None else crw_setInitID e) with
      | Some err => Done (Some err, s1)
      | None =>
          let s2 := if decide (initID mount = "") then s1
                    else with_store (SetInitID (mname mount) (initID mount) (store s1)) s1 in
          match mparent mount with
          | None => Done (None, with_mounts (<[mname mount := mount]> (mounts s2)) s2)
          | Some p =>
              np ← deref s2 p;
              match crw_setMountParent e with
              | Some err => Done (Some err, s2)
              | None =>
                  let s3 := with_store (SetMountParent (mname mount) (chainID np) (store s2)) s2 in
                  Done (None, with_mounts (<[mname mount := mount]> (mounts s3)) s3)
              end
          end
      end
  end.

(** Return [nil, retErr]: the deferred closure releases the parent chain. *)
Definition createRW_fail {A} (e : createRWEnv) (p : option ptr) (err : error)
    (s : layerStore) : outcome (result A * layerStore) :=
  s' ← release_parent (crw_release e) p s; Done (Err err, s').

(** [CreateRWLayer] once the parent is resolved. *)
Definition createRW_mount (e : createRWEnv) (name : string)
    (opts : option CreateRWLayerOpts) (p : option ptr) (parentID : string)
    (s : layerStore) : outcome (result RWLayer * layerStore) :=
  let m := mkMountedLayer name (crw_mountID e) "" p ∅ in
  let initFunc := opts ≫= InitFunc in
  let '(ir, s1) := match initFunc with
                   | None => (Ok None, s)
                   | Some f =>
                       match initMount e (mountID m) f s with
                       | (Ok i, s') => (Ok (Some i), s')
                       | (Err err, s') => (Err err, s')
                       end
                   end in
  match ir with
  | Err err => createRW_fail e p err s1
  | Ok io =>
      let m1 := mkMountedLayer name (crw_mountID e) (default "" io) p ∅ in
      match crw_create e with
      | Some err => createRW_fail e p err s1
      | None =>
          let s2 := driver_Create None (mountID m1) s1 in
          '(sr, s3) ← saveMount e m1 s2;
          match sr with
          | Some err => createRW_fail e p err s3
          | None =>
              let '(h, m2, s4) := m_getReference m1 s3 in
              Done (Ok h, with_mounts (<[name := m2]> (mounts s4)) s4)
          end
      end
  end.

Definition CreateRWLayer (e : createRWEnv) (name : string) (parent : ChainID)
    (opts : option CreateRWLayerOpts) (s : layerStore)
  : outcome (result RWLayer * layerStore) :=
  match mounts s !! name with
  | Some _ => Done (Err ErrMountNameConflict, s)
  | None =>
      if decide (parent = "") then createRW_mount e name opts None "" s
      else
        '(po, s1) ← get parent s;
        match po with
        | None => Done (Err ErrLayerDoesNotExist, s1)
        | Some p =>
            np ← deref s1 p;
            createRW_mount e name opts (Some p) (cacheID np) s1
        end
  end.

Definition GetRWLayer (id : string) (s : layerStore) : result RWLayer * layerStore :=
  match mounts s !! id with
  | None => (Err ErrMountDoesNotExist, s)
  | Some m =>
      let '(h, m1, s1) := m_getReference m s in
      (Ok h, with_mounts (<[id := m1]> (mounts s1)) s1)
  end.

(** Outcome of the external calls of one [ReleaseRWLayer]. *)
Record releaseRWEnv : Type := mkReleaseRWEnv {
  rrw_removeMount : option error;
  rrw_removeInit : option error;
  rrw_removeMeta : option error;
  rrw_release : nat → deleteEnv;
}.

Definition ReleaseRWLayer (e : releaseRWEnv) (l : RWLayer) (s : layerStore)
  : outcome (result (list Metadata) * layerStore) :=
  let name := rw_Name l in
  match mounts s !! name with
  | None => Done (Ok [], s)
  | Some m =>
      match m_deleteReference m l with
      | Err err => Done (Err err, s)
      | Ok m1 =>
          let s1 := with_mounts (<[name := m1]> (mounts s)) s in
          let retaken := with_mounts (<[name := m_retakeReference m1 l]> (mounts s1)) in
          if m_hasReferences m1 then Done (Ok [], s1) else
          match rrw_removeMount e with
          | Some err => Done (Err err, retaken s1)
          | None =>
              let s2 := driver_Remove None (mountID m1) s1 in
              match (if decide (initID m1 = "") then None else rrw_removeInit e) with
              | Some err => Done (Err err, retaken s2)
              | None =>
                  let s3 := if decide (initID m1 = "") then s2
                            else driver_Remove None (initID m1) s2 in
                  match rrw_removeMeta e with
                  | Some err => Done (Err err, retaken s3)
                  | None =>
                      let s4 := with_store (RemoveMount (mname m1) (store s3)) s3 in
                      let s5 := with_mounts (delete name (mounts s4)) s4 in
                      match mparent m1 with
                      | Some p => releaseLayer (rrw_release e) p s5
                      | None => Done (Ok [], s5)
                      end
                  end
              end
          end
      end
  end.

(** ** Loading the store *)

Definition new_roLayer (layer : ChainID) (r : layerRecord) (p : option ptr) : roLayer :=
  mkRoLayer layer (rec_diffID r) p (rec_cacheID r) (rec_size r) 0 ∅.

(** [loadLayer]; [k] bounds the depth of the recursion on the parent.  The
    new object is entered in [layerMap] only after its parent is loaded; it
    gets its address at that point, nothing can reach it before. *)
Fixpoint loadLayer (k : nat) (layer : ChainID) (s : layerStore)
  : outcome (result ptr * layerStore) :=
  match layerMap s !! layer with
  | Some cl => Done (Ok cl, s)
  | None =>
      match layers (store s) !! layer with
      | None => Done (Err (ErrOther "failed to get diff id"), s)
      | Some r =>
          let load (p : option ptr) (s' : layerStore) :=
            (Ok (next_ptr s'), publish (new_roLayer layer r p) s') in
          if decide (rec_parent r = "") then Done (load None s)
          else
            match k with
            | O => Diverge
            | S k' =>
                '(pr, s1) ← loadLayer k' (rec_parent r) s;
                match pr with
                | Err err => Done (Err err, s1)
                | Ok p => Done (load (Some p) s1)
                end
            end
      end
  end.

(** The loop over the layer IDs of [newStoreFromGraphDriver]. *)
Fixpoint loadLayers (k : nat) (ids : list ChainID) (s : layerStore) : outcome layerStore :=
  match ids with
  | [] => Done s
  | id :: rest =>
      '(r, s1) ← loadLayer k id s;
      match r with
      | Err _ => loadLayers k rest s1
      | Ok l =>
          n ← deref s1 l;
          match parent n with
          | None => loadLayers k rest s1
          | Some p =>
              np ← deref s1 p;
              loadLayers k rest
                (set_node p (set_referenceCount (S (referenceCount np)) np) s1)
          end
      end
  end.

Definition loadMount (k : nat) (mount : string) (s : layerStore)
  : outcome (option error * layerStore) :=
  match mounts s !! mount with
  | Some _ => Done (None, s)
  | None =>
      match mountRecs (store s) !! mount with
      | None => Done (Some (ErrOther "mount id not found"), s)
      | Some r =>
          let ml := mkMountedLayer mount (rec_mountID r) (rec_initID r) in
          if decide (rec_mountParent r = "")
          then Done (None, with_mounts (<[mount := ml None ∅]> (mounts s)) s)
          else
            '(pr, s1) ← loadLayer k (rec_mountParent r) s;
            match pr with
            | Err err => Done (Some err, s1)
            | Ok p =>
                np ← deref s1 p;
                let s2 := set_node p (set_referenceCount (S (referenceCount np)) np) s1 in
                Done (None, with_mounts (<[mount := ml (Some p) ∅]> (mounts s2)) s2)
            end
      end
  end.

Fixpoint loadMounts (k : nat) (ms : list string) (s : layerStore) : outcome layerStore :=
  match ms with
  | [] => Done s
  | m :: rest => '(_, s1) ← loadMount k m s; loadMounts k rest s1
  end.

(** Modelled from the spec: [List] enumerates the chain IDs and the mount
    names that have a record, each once.  [newFSMetadataStore] and [List]
    fail as the environment says. *)
Definition List (ms : fileMetadataStore) : list ChainID * list string :=
  ((map_to_list (layers ms)).*1, (map_to_list (mountRecs ms)).*1).

Record newStoreEnv : Type := mkNewStoreEnv {
  ns_open : option error;
  ns_list : option error;
}.

Definition newStoreFromGraphDriver (e : newStoreEnv) (ms : fileMetadataStore)
    (d : gset string) : outcome (result layerStore) :=
  match ns_open e with
  | Some err => Done (Err err)
  | None =>
      match ns_list e with
      | Some err => Done (Err err)
      | None =>
          let ls := empty_store ms d in
          let '(ids, mnts) := List ms in
          let k := size (layers ms) in
          s1 ← loadLayers k ids ls;
          s2 ← loadMounts k mnts s1;
          Done (Ok s2)
      end
  end.

(** ** The reference-counting invariant *)

Definition parent_of (s : layerStore) (q : ptr) : option ptr :=
  heap s !! q ≫= parent.

(** The indexed layers whose parent is [p], and the mounts on [p]. *)
Definition children (s : layerStore) (p : ptr) : gmap string nat :=
  filter (λ kv, parent_of s kv.2 = Some p) (layerMap s).

Definition mounted_on (s : layerStore) (p : ptr) : gmap string mountedLayer :=
  filter (λ kv, mparent kv.2 = Some p) (mounts s).

(** The object at [p] is the one the index holds under its chain ID. *)
Definition indexed (s : layerStore) (p : ptr) : Prop :=
  ∃ n, heap s !! p = Some n ∧ layerMap s !! chainID n = Some p.

(** References that are owed to a layer: taken by [get] and not yet turned
    into a handle, a child or a mount. *)
Definition no_credit : ptr → nat := λ _, 0.
Definition credit_at (p : ptr) : ptr → nat := λ q, if decide (q = p) then 1 else 0.
Definition credit_opt (p : option ptr) : ptr → nat :=
  match p with
  | None => no_credit
  | Some pp => credit_at pp
  end.
Definition credit_add (c1 c2 : ptr → nat) : ptr → nat := λ q, c1 q + c2 q.

(** The invariant of the store.  Every indexed layer counts at least its
    live handles, its indexed children, the mounts on it and the references
    owed to it; parents are indexed and older than their children; handle
    identities and addresses in use are below the allocation counters. *)
Record inv (credit : ptr → nat) (s : layerStore) : Prop := mkInv {
  inv_index : ∀ c p, layerMap s !! c = Some p →
    ∃ n, heap s !! p = Some n ∧ chainID n = c;
  inv_parent : ∀ c p n pp, layerMap s !! c = Some p → heap s !! p = Some n →
    parent n = Some pp → pp < p ∧ indexed s pp;
  inv_mount : ∀ m ml pp, mounts s !! m = Some ml → mparent ml = Some pp →
    indexed s pp;
  inv_count : ∀ c p n, layerMap s !! c = Some p → heap s !! p = Some n →
    size (references n) + size (children s p) + size (mounted_on s p) + credit p
      ≤ referenceCount n;
  inv_ptr : ∀ p, is_Some (heap s !! p) → p < next_ptr s;
  inv_ref : ∀ p n r, heap s !! p = Some n → r ∈ references n → r < next_ref s;
  inv_mref : ∀ m ml r, mounts s !! m = Some ml → r ∈ mreferences ml → r < next_ref s;
}.

Definition wf (s : layerStore) : Prop := inv no_credit s.

(** A parent chain that descends to a root through ever older objects. *)
Inductive chain_ok (s : layerStore) : ptr → Prop :=
  | chain_root l n :
      heap s !! l = Some n → parent n = None → chain_ok s l
  | chain_step l n pp :
      heap s !! l = Some n → parent n = Some pp → pp < l →
      chain_ok s pp → chain_ok s l.

(** Two stores whose objects have the same parent links. *)
Definition same_shape (s s' : layerStore) : Prop :=
  ∀ q, parent <$> heap s' !! q = parent <$> heap s !! q.

(** Two stores with the same objects, indices and counters. *)
Definition same_mem (s s' : layerStore) : Prop :=
  heap s' = heap s ∧ layerMap s' = layerMap s ∧ mounts s' = mounts s ∧
  next_ptr s' = next_ptr s ∧ next_ref s' = next_ref s.

(** ** Sequences of public calls *)

Inductive call : Type :=
  | CallGet (l : ChainID)
  | CallRegister (e : registerEnv) (ts : list Init.Byte.byte) (parent : ChainID)
  | CallRelease (e : nat → deleteEnv) (l : Layer)
  | CallCreateRWLayer (e : createRWEnv) (name : string) (parent : ChainID)
      (opts : option CreateRWLayerOpts)
  | CallGetRWLayer (id : string)
  | CallReleaseRWLayer (e : releaseRWEnv) (l : RWLayer).

Definition run_call `{Digester} (c : call) (s : layerStore) : outcome layerStore :=
  match c with
  | CallGet l => '(_, s') ← Get l s; Done s'
  | CallRegister e ts parent => '(_, s') ← Register e ts parent s; Done s'
  | CallRelease e l => '(_, s') ← Release e l s; Done s'
  | CallCreateRWLayer e name parent opts =>
      '(_, s') ← CreateRWLayer e name parent opts s; Done s'
  | CallGetRWLayer id => Done (GetRWLayer id s).2
  | CallReleaseRWLayer e l => '(_, s') ← ReleaseRWLayer e l s; Done s'
  end.

Fixpoint run `{Digester} (cs : list call) (s : layerStore) : outcome layerStore :=
  match cs with
  | [] => Done s
  | c :: rest => s' ← run_call c s; run rest s'
  end.

(** What the mount [m] adds to the count of the layer at [q]. *)
Definition on_parent (q : ptr) (m : mountedLayer) : nat :=
  if decide (mparent m = Some q) then 1 else 0.

(** ** Concrete stores used to exercise the statements *)

(** A digester for the examples: the diff ID spells the stream and the chain
    ID spells the path of diff IDs. *)
Definition toyDigester : Digester :=
  mkDigester String.string_of_list_byte (λ p d, p ++ "/" ++ d).

Definition state_of {A} (o : outcome (A * layerStore)) : layerStore :=
  match o with
  | Done (_, s) => s
  | _ => empty_store (mkMetadataStore ∅ ∅) ∅
  end.

Definition all_deleted : nat → deleteEnv := λ _, delete_ok.

(** A registration whose external calls all succeed, with cache ID [c]. *)
Definition register_ok (c : string) : registerEnv :=
  mkRegisterEnv c None None (Ok 10%Z) None None None None all_deleted.

Definition store0 : layerStore := empty_store (mkMetadataStore ∅ ∅) ∅.

(** One root layer "a", held by handle 0. *)
Definition store_root : layerStore :=
  state_of (Register (H:=toyDigester) (register_ok "c1") [Byte.x61] "" store0).

(** root "a" <- mid "a/b", held by handles 0 and 1. *)
Definition store_mid : layerStore :=
  state_of (Register (H:=toyDigester) (register_ok "c2") [Byte.x62] "a" store_root).

(** root "a" <- mid "a/b" <- leaf "a/b/c", held by handles 0, 1 and 2. *)
Definition store_leaf : layerStore :=
  state_of (Register (H:=toyDigester) (register_ok "c3") [Byte.x63] "a/b" store_mid).

(** ** Environments in which the external calls succeed *)

(** Every external call of a [CreateRWLayer] with options [opts] succeeds. *)
Definition createRW_ok (e : createRWEnv) (opts : option CreateRWLayerOpts) : Prop :=
  crw_initCreate e = None ∧
  (∃ path, crw_initGet e = Ok path ∧ ∀ f, opts ≫= InitFunc = Some f → f path = None) ∧
  crw_initPut e = None ∧ crw_create e = None ∧
  crw_setMountID e = None ∧ crw_setInitID e = None ∧ crw_setMountParent e = None.

(** ** How far a [CreateRWLayer] gets *)

(** [initMount] is called and its [CreateReadWrite] succeeds: the init
    backing store "<mount ID>-init" exists. *)
Definition init_store_created (e : createRWEnv) (opts : option CreateRWLayerOpts) : bool :=
  match opts ≫= InitFunc, crw_initCreate e with
  | Some _, None => true
  | _, _ => false
  end.

(** The init layer, if the options ask for one, is set up. *)
Definition init_done (e : createRWEnv) (opts : option CreateRWLayerOpts) : bool :=
  match opts ≫= InitFunc with
  | None => true
  | Some f =>
      match crw_initCreate e, crw_initGet e with
      | None, Ok path =>
          match f path, crw_initPut e with
          | None, None => true
          | _, _ => false
          end
      | _, _ => false
      end
  end.

(** The [CreateReadWrite] of the mount is reached and succeeds: the
    writable backing store exists. *)
Definition mount_store_created (e : createRWEnv) (opts : option CreateRWLayerOpts) : bool :=
  init_done e opts && match crw_create e with None => true | Some _ => false end.

(** [SetMountID] is reached and succeeds: the mount record holds the mount
    ID. *)
Definition mount_id_saved (e : createRWEnv) (opts : option CreateRWLayerOpts) : bool :=
  mount_store_created e opts &&
  match crw_setMountID e with None => true | Some _ => false end.

(** [SetInitID] is reached and succeeds: the mount record holds the init
    ID. *)
Definition init_id_saved (e : createRWEnv) (opts : option CreateRWLayerOpts) : bool :=
  mount_id_saved e opts &&
  match opts ≫= InitFunc, crw_setInitID e with
  | Some _, None => true
  | _, _ => false
  end.

(** The backing stores that the call has created. *)
Definition created_stores (e : createRWEnv) (opts : option CreateRWLayerOpts)
  : gset string :=
  (if mount_store_created e opts then {[crw_mountID e]} else ∅) ∪
  (if init_store_created e opts then {[crw_mountID e ++ "-init"]} else ∅).

(** The first removal step of [ReleaseRWLayer] that fails for the mount [m]:
    the writable store, the init store (when there is one), the mount
    record. *)
Definition rrw_failure (e : releaseRWEnv) (m : mountedLayer) : option error :=
  match rrw_removeMount e with
  | Some err => Some err
  | None =>
      match (if decide (initID m = "") then None else rrw_removeInit e) with
      | Some err => Some err
      | None => rrw_removeMeta e
      end
  end.

(** The store once the mount [m], indexed under [name], is gone: its
    writable and init backing stores, its record and its index entry. *)
Definition unmounted (name : string) (m : mountedLayer) (s : layerStore) : layerStore :=
  let d := driver s ∖ {[mountID m]} in
  let d' := if decide (initID m = "") then d else d ∖ {[initID m]} in
  with_mounts (delete name (mounts s))
    (with_store (RemoveMount (mname m) (store s)) (with_driver d' s)).

Definition createRW_env_ok : createRWEnv :=
  mkCreateRWEnv "m1" None (Ok "/mnt") None None None None None all_deleted.

Definition releaseRW_env_ok : releaseRWEnv :=
  mkReleaseRWEnv None None None all_deleted.

(** The root layer "a" with the mount "box" on it, held by handle 1. *)
Definition store_mounted : layerStore :=
  state_of (CreateRWLayer createRW_env_ok "box" "a" None store_root).

(** A mount "box" held by the two handles 1 and 2. *)
Definition store_mounted2 : layerStore := (GetRWLayer "box" store_mounted).2.

Definition releaseRW_env_fail : releaseRWEnv :=
  mkReleaseRWEnv (Some (ErrOther "device busy")) None None all_deleted.

(** ** The chain ID that [Register] computes *)

(** The parent object that [Register] resolves, if a parent is given. *)
Definition resolved_parent (s : layerStore) (parent : ChainID) : option roLayer :=
  if decide (parent = "") then None
  else layerMap s !! parent ≫= λ p, heap s !! p.

(** diffID for a root layer, the digest of the parent's chain ID and the
    diffID otherwise. *)
Definition computed_chainID `{Digester} (po : option roLayer)
    (ts : list Init.Byte.byte) : ChainID :=
  match po with
  | None => digest ts
  | Some np => chainDigest (chainID np) (digest ts)
  end.

(** The parent named by [parent], if any, is indexed, retained (its
    reference count is positive) and not too deep. *)
Definition parent_usable (s : layerStore) (parent : ChainID) : Prop :=
  parent = "" ∨
  ∃ p np d, layerMap s !! parent = Some p ∧ heap s !! p = Some np ∧
    0 < referenceCount np ∧ depth s p = Done d ∧ d < maxLayerDepth.

(** The parent named by [parent], if it is indexed, is retained. *)
Definition parent_retained (s : layerStore) (parent : ChainID) : Prop :=
  ∀ p np, layerMap s !! parent = Some p → heap s !! p = Some np →
    0 < referenceCount np.

(** A registration whose diff application fails. *)
Definition register_applyTar_fails : registerEnv :=
  mkRegisterEnv "c9" None None (Err (ErrOther "bad tar")) None None None None all_deleted.

(** Options with an init function that succeeds. *)
Definition opts_init : CreateRWLayerOpts :=
  mkCreateRWLayerOpts "" ∅ (Some (λ _, None)).

(** The init layer is set up, then creating the writable store fails. *)
Definition createRW_env_create_fails : createRWEnv :=
  mkCreateRWEnv "m1" None (Ok "/mnt") None (Some (ErrOther "no space")) None None None
    all_deleted.

(** Both stores are created and the mount ID is saved, then saving the
    init ID fails. *)
Definition createRW_env_save_fails : createRWEnv :=
  mkCreateRWEnv "m1" None (Ok "/mnt") None None None (Some (ErrOther "disk full")) None
    all_deleted.

(** Registering [k] layers, each on top of the previous one, starting
    above [parent]: whether all were accepted, the chain ID of the top, and
    the store. *)
Fixpoint register_chain (k : nat) (parent : ChainID) (s : layerStore)
  : bool * ChainID * layerStore :=
  match k with
  | O => (true, parent, s)
  | S k' =>
      match Register (H:=toyDigester) (register_ok ("c" ++ parent)) [Byte.x61] parent s with
      | Done (Ok h, s') => register_chain k' (layer_ChainID h) s'
      | Done (Err _, s') => (false, parent, s')
      | _ => (false, parent, s)
      end
  end.

Definition result_of {A} (o : outcome (A * layerStore)) : option A :=
  match o with
  | Done (r, _) => Some r
  | _ => None
  end.

(** The depth of the layer indexed under [c]. *)
Definition depth_of (s : layerStore) (c : ChainID) : option nat :=
  match layerMap s !! c with
  | Some p => match depth s p with Done d => Some d | _ => None end
  | None => None
  end.




(** [s1] is [s0] in which the parent [p], if any, has been retained. *)
Definition retained (s0 : layerStore) (p : option ptr) (s1 : layerStore) : Prop :=
  match p with
  | None => heap s1 = heap s0
  | Some pp => ∃ n, heap s0 !! pp = Some n ∧ 0 < referenceCount n ∧
      heap s1 = <[pp := set_referenceCount (S (referenceCount n)) n]> (heap s0)
  end.

(** The object [n] once [Register] has found it again: retained once more
    and holding the new handle [h]. *)
Definition reused (h : nat) (n : roLayer) : roLayer :=
  set_references ({[h]} ∪ references n) (set_referenceCount (S (referenceCount n)) n).

(** ** What a release deletes *)

(** The layers whose count drops to zero when the layer [l] is released:
    [l] itself if its count is 1, then its parent if the parent's count is 1,
    and so on up the chain; in child-to-root order. *)
Fixpoint cascade (k : nat) (s : layerStore) (l : ptr) : list ptr :=
  match k with
  | O => []
  | S k' =>
      match heap s !! l with
      | Some n =>
          if bool_decide (referenceCount n = 1)
          then l :: match parent n with
                    | Some p => cascade k' s p
                    | None => []
                    end
          else []
      | None => []
      end
  end.

(** The layer at which the walk stops: the first one, from [l] upwards,
    whose count is not 1. *)
Fixpoint stop (k : nat) (s : layerStore) (l : ptr) : option ptr :=
  match k with
  | O => None
  | S k' =>
      match heap s !! l with
      | Some n =>
          if bool_decide (referenceCount n = 1)
          then match parent n with
               | Some p => stop k' s p
               | None => None
               end
          else Some l
      | None => None
      end
  end.

Definition doomed (s : layerStore) (l : ptr) : list ptr := cascade (fuel s) s l.
Definition survivor (s : layerStore) (l : ptr) : option ptr := stop (fuel s) s l.

Definition chain_of (s : layerStore) (q : ptr) : ChainID :=
  default "" (chainID <$> heap s !! q).
Definition cache_of (s : layerStore) (q : ptr) : string :=
  default "" (cacheID <$> heap s !! q).
Definition size_of (s : layerStore) (q : ptr) : Z :=
  match Size s q with
  | Done z => z
  | _ => 0%Z
  end.

(** The [Metadata] record of the layer at [q]. *)
Definition metadata_of (s : layerStore) (q : ptr) : Metadata :=
  mkMetadata (chain_of s q) (default "" (diffID <$> heap s !! q)) (size_of s q)
    (default 0%Z (layerSize <$> heap s !! q)).

Definition decremented (n : roLayer) : roLayer :=
  set_referenceCount (referenceCount n - 1) n.

(** [s'] is [s] once the layers [ds] are deleted and the count of [st], if
    any, is decremented. *)
Definition cascaded (s : layerStore) (ds : list ptr) (st : option ptr)
    (s' : layerStore) : Prop :=
  (∀ c, layerMap s' !! c
        = if decide (c ∈ chain_of s <$> ds) then None else layerMap s !! c) ∧
  (∀ c, layers (store s') !! c
        = if decide (c ∈ chain_of s <$> ds) then None else layers (store s) !! c) ∧
  mountRecs (store s') = mountRecs (store s) ∧
  driver s' = driver s ∖ list_to_set (cache_of s <$> ds) ∧
  mounts s' = mounts s ∧ next_ptr s' = next_ptr s ∧ next_ref s' = next_ref s ∧
  (∀ q, heap s' !! q
        = if decide (q ∈ ds) then decremented <$> heap s !! q
          else if decide (st = Some q) then decremented <$> heap s !! q
          else heap s !! q).

(** A chain that a release can walk without panic: counts are positive,
    and a layer whose count is 1 has no live handle. *)
Inductive releasable (s : layerStore) : ptr → Prop :=
  | rel_stop l n :
      heap s !! l = Some n → 1 < referenceCount n → releasable s l
  | rel_root l n :
      heap s !! l = Some n → referenceCount n = 1 → references n = ∅ →
      parent n = None → releasable s l
  | rel_step l n pp :
      heap s !! l = Some n → referenceCount n = 1 → references n = ∅ →
      parent n = Some pp → pp < l → releasable s pp → releasable s l.

(** The fields of a layer that never change once it is created. *)
Definition static (n : roLayer) : ChainID * DiffID * option ptr * string * Z :=
  (chainID n, diffID n, parent n, cacheID n, layerSize n).

Definition same_static (s s' : layerStore) : Prop :=
  next_ptr s' = next_ptr s ∧ ∀ q, static <$> heap s' !! q = static <$> heap s !! q.

(** The objects below address [b] are the same. *)
Definition agree_below (b : ptr) (s s' : layerStore) : Prop :=
  ∀ q, q < b → heap s' !! q = heap s !! q.

(** The chain root "a" <- mid "a/b" <- leaf "a/b/c" once the handles on
    root and mid are released: only the handle 2 on the leaf keeps it. *)
Definition store_chain3 : layerStore :=
  state_of (Release all_deleted (mkLayer 1 "a/b")
              (state_of (Release all_deleted (mkLayer 0 "a") store_leaf))).

(** The same with a second leaf "a/b/d" on mid, held by handle 3. *)
Definition store_two_leaves : layerStore :=
  state_of (Release all_deleted (mkLayer 1 "a/b")
    (state_of (Release all_deleted (mkLayer 0 "a")
       (state_of (Register (H:=toyDigester) (register_ok "c4") [Byte.x64] "a/b"
                    store_leaf))))).

(** The root layer "a" once its handle is released while the mount "box"
    is on it: only the mount, held by handle 1, keeps the layer. *)
Definition store_mount_only : layerStore :=
  state_of (Release all_deleted (mkLayer 0 "a") store_mounted).

(** The store once the layer [n] at [l] is deleted. *)
Definition dropped (l : ptr) (n : roLayer) (s : layerStore) : layerStore :=
  mkStore (with_layers (delete (chainID n) (layers (store s))) (store s))
    (driver s ∖ {[cacheID n]})
    (<[l := decremented n]> (heap s))
    (delete (chainID n) (layerMap s)) (mounts s) (next_ptr s) (next_ref s).

(** ** What the metadata store says about reference counts *)

(** The records of the layers whose parent is [c], and the records of the
    mounts on [c]. *)
Definition child_records (ms : fileMetadataStore) (c : ChainID) : gmap string layerRecord :=
  filter (λ kv, rec_parent kv.2 = c) (layers ms).

Definition mount_records (ms : fileMetadataStore) (c : ChainID) : gmap string mountRecord :=
  filter (λ kv, rec_mountParent kv.2 = c) (mountRecs ms).

(** A metadata store as the layer store writes it: no record under the
    empty chain ID, the parent of every layer record and of every mount record
    has a record, and parent links descend along [rank]. *)
Record closed (rank : ChainID → nat) (ms : fileMetadataStore) : Prop := mkClosed {
  closed_nonempty : layers ms !! "" = None;
  closed_parent : ∀ c r, layers ms !! c = Some r → rec_parent r ≠ "" →
    is_Some (layers ms !! rec_parent r) ∧ rank (rec_parent r) < rank c;
  closed_mount : ∀ m r, mountRecs ms !! m = Some r → rec_mountParent r ≠ "" →
    is_Some (layers ms !! rec_mountParent r);
}.

(** The records that rank below [c]: their number bounds the length of the
    parent chain of [c]. *)
Definition below (rank : ChainID → nat) (ms : fileMetadataStore) (c : ChainID)
  : gmap string layerRecord :=
  filter (λ kv, rank kv.1 < rank c) (layers ms).

(** The object [n] at address [p] is the one [loadLayer] builds from the
    record [r]. *)
Definition built_from (s : layerStore) (c : ChainID) (r : layerRecord) (p : ptr)
    (n : roLayer) : Prop :=
  chainID n = c ∧ diffID n = rec_diffID r ∧ cacheID n = rec_cacheID r ∧
  layerSize n = rec_size r ∧ references n = ∅ ∧
  if decide (rec_parent r = "") then parent n = None
  else ∃ pp, parent n = Some pp ∧ layerMap s !! rec_parent r = Some pp ∧ pp < p.

(** The mount [m] is the one [loadMount] builds from the record [r]. *)
Definition mount_built_from (s : layerStore) (name : string) (r : mountRecord)
    (m : mountedLayer) : Prop :=
  mname m = name ∧ mountID m = rec_mountID r ∧ initID m = rec_initID r ∧
  mreferences m = ∅ ∧
  if decide (rec_mountParent r = "") then mparent m = None
  else ∃ pp, mparent m = Some pp ∧ layerMap s !! rec_mountParent r = Some pp.

(** Every indexed layer of [s] is the object of its record in [ms], and
    every object in memory is the one indexed under its chain ID. *)
Definition loaded (ms : fileMetadataStore) (s : layerStore) : Prop :=
  store s = ms ∧
  (∀ c p, layerMap s !! c = Some p →
     ∃ r n, layers ms !! c = Some r ∧ heap s !! p = Some n ∧ built_from s c r p n) ∧
  (∀ p, is_Some (heap s !! p) → p < next_ptr s) ∧
  (∀ p n, heap s !! p = Some n → layerMap s !! chainID n = Some p).

(** [s'] is [s] with more layers loaded, none of which ranks above [c];
    the new objects have count zero and the old ones are untouched. *)
Definition grows (rank : ChainID → nat) (c : ChainID) (s s' : layerStore) : Prop :=
  driver s' = driver s ∧ mounts s' = mounts s ∧ next_ref s' = next_ref s ∧
  store s' = store s ∧
  (∀ c' p', layerMap s !! c' = Some p' → layerMap s' !! c' = Some p') ∧
  (∀ p' n', heap s !! p' = Some n' → heap s' !! p' = Some n') ∧
  (∀ c' p' n', layerMap s' !! c' = Some p' → layerMap s !! c' = None →
     heap s' !! p' = Some n' → referenceCount n' = 0 ∧ rank c' ≤ rank c).

(** ** What a running store has persisted *)

Definition parent_chain (s : layerStore) (p : option ptr) : ChainID :=
  match p with
  | None => ""
  | Some pp => chain_of s pp
  end.

Definition record_of (s : layerStore) (n : roLayer) : layerRecord :=
  mkLayerRecord (diffID n) (layerSize n) (cacheID n) (parent_chain s (parent n)).

Definition mount_record_of (s : layerStore) (m : mountedLayer) : mountRecord :=
  mkMountRecord (mountID m) (initID m) (parent_chain s (mparent m)).

(** The records that the index of [s] stands for. *)
Definition persisted_layers (s : layerStore) : gmap string layerRecord :=
  omap (λ p, record_of s <$> heap s !! p) (layerMap s).

Definition persisted_mounts (s : layerStore) : gmap string mountRecord :=
  mount_record_of s <$> mounts s.

(** A consistent point of a running store: the metadata store holds
    exactly the records of the indexed layers and mounts, no layer is indexed
    under the empty chain ID, and every reference count is exact: live
    handles, plus indexed children, plus mounts. *)
Record consistent (s : layerStore) : Prop := mkConsistent {
  cons_wf : wf s;
  cons_layers : layers (store s) = persisted_layers s;
  cons_mounts : mountRecs (store s) = persisted_mounts s;
  cons_nonempty : layerMap s !! "" = None;
  cons_names : map_Forall (λ name m, mname m = name) (mounts s);
  cons_exact : map_Forall (λ _ p,
      ∀ n, heap s !! p = Some n →
        referenceCount n
        = size (references n) + size (children s p) + size (mounted_on s p))
    (layerMap s);
}.

Definition newStore_ok : newStoreEnv := mkNewStoreEnv None None.

(** The reference count of the layer indexed under [c]. *)
Definition count_of (s : layerStore) (c : ChainID) : option nat :=
  p ← layerMap s !! c; referenceCount <$> heap s !! p.

Definition restarted (s : layerStore) : layerStore :=
  match newStoreFromGraphDriver newStore_ok (store s) (driver s) with
  | Done (Ok s') => s'
  | _ => s
  end.

(** The parent chain ID that the records give for a layer or for a mount. *)
Definition rec_parent_of (ms : fileMetadataStore) (c : ChainID) : ChainID :=
  default "" (rec_parent <$> layers ms !! c).

Definition mount_parent_of (ms : fileMetadataStore) (m : string) : ChainID :=
  default "" (rec_mountParent <$> mountRecs ms !! m).

(** The state of the loading loops: the layers [ids] and the mounts [mnts]
    have been gone through; every indexed layer has been counted once for
    each of them that names it as parent. *)
Record counted (ms : fileMetadataStore) (d : gset string) (ids mnts : list string)
    (s : layerStore) : Prop := mkCounted {
  cnt_loaded : loaded ms s;
  cnt_driver : driver s = d;
  cnt_next_ref : next_ref s = 0;
  cnt_ids : ∀ c, c ∈ ids → is_Some (layerMap s !! c);
  cnt_count : ∀ c p n, layerMap s !! c = Some p → heap s !! p = Some n →
    referenceCount n
    = length (filter (λ c', rec_parent_of ms c' = c) ids)
      + length (filter (λ m, mount_parent_of ms m = c) mnts);
  cnt_mounts : ∀ name m, mounts s !! name = Some m →
    name ∈ mnts ∧ ∃ r, mountRecs ms !! name = Some r ∧ mount_built_from s name r m;
  cnt_mnts : ∀ name, name ∈ mnts → is_Some (mounts s !! name);
}.

(** The store that construction gives for the metadata [ms]: one object per
    layer record, built from it and indexed under its chain ID, one mount per
    mount record, and the reference count of every layer is the number of
    layer records plus the number of mount records that name it as parent. *)
Record reconstructed (ms : fileMetadataStore) (d : gset string) (s : layerStore)
    : Prop := mkReconstructed {
  rc_store : store s = ms;
  rc_driver : driver s = d;
  rc_index : ∀ c, is_Some (layerMap s !! c) ↔ is_Some (layers ms !! c);
  rc_object : ∀ c p, layerMap s !! c = Some p →
    ∃ r n, layers ms !! c = Some r ∧ heap s !! p = Some n ∧ built_from s c r p n;
  rc_once : ∀ p n, heap s !! p = Some n → layerMap s !! chainID n = Some p;
  rc_count : ∀ c, is_Some (layers ms !! c) →
    count_of s c = Some (size (child_records ms c) + size (mount_records ms c));
  rc_mounts : ∀ name, is_Some (mounts s !! name) ↔ is_Some (mountRecs ms !! name);
  rc_mount : ∀ name m, mounts s !! name = Some m →
    ∃ r, mountRecs ms !! name = Some r ∧ mount_built_from s name r m;
}.

(** The rank of a chain ID in a running store: the address of its object. *)
Definition address_rank (s : layerStore) (c : ChainID) : nat :=
  default 0 (layerMap s !! c).

(** ** Further methods of the store, and the states its calls lead to *)

(** [GetMountID]: the mount ID of the mount indexed under [id]. *)
Definition GetMountID (id : string) (s : layerStore) : result string :=
  match mounts s !! id with
  | None => Err ErrMountDoesNotExist
  | Some m => Ok (mountID m)
  end.

(** [Map]: a copy of the layer index; no layer is retained. *)
Definition Map (s : layerStore) : gmap string ptr :=
  map_fold (λ k v layers, <[k := v]> layers) ∅ (layerMap s).

(** Every external call of a [Register] that goes as far as the commit
    succeeds; the applied diff has size [z]. *)
Definition register_succeeds (e : registerEnv) (z : Z) : Prop :=
  reg_create e = None ∧ reg_startTx e = None ∧ reg_applyTar e = Ok z ∧
  reg_storeLayer e = None ∧ reg_commit e = None.

(** The address of the parent that a call names, if it names one. *)
Definition parent_ptr (s : layerStore) (parent : ChainID) : option ptr :=
  if decide (parent = "") then None else layerMap s !! parent.

(** The parent named by [parent], if any, is indexed and not too deep. *)
Definition parent_shallow (s : layerStore) (parent : ChainID) : Prop :=
  parent = "" ∨
  ∃ p np d, layerMap s !! parent = Some p ∧ heap s !! p = Some np ∧
    depth s p = Done d ∧ d < maxLayerDepth.

(** The store in which the layer at [po], if any, is retained once more. *)
Definition retain (po : option ptr) (s : layerStore) : layerStore :=
  match po with
  | None => s
  | Some p =>
      match heap s !! p with
      | Some n => set_node p (set_referenceCount (S (referenceCount n)) n) s
      | None => s
      end
  end.

(** The store once [Register] has stored new content on [parent]: the
    parent is retained, the new object is allocated with count 1 and the
    handle [next_ref s], it is indexed, its record is committed and its
    backing store exists. *)
Definition registered `{Digester} (e : registerEnv) (ts : list Init.Byte.byte)
    (parent : ChainID) (z : Z) (s : layerStore) : layerStore :=
  let po := parent_ptr s parent in
  let np := resolved_parent s parent in
  let chain := computed_chainID np ts in
  let r := mkLayerRecord (digest ts) z (reg_cacheID e) (default "" (chainID <$> np)) in
  let layer := mkRoLayer chain (digest ts) po (reg_cacheID e) z 1 {[next_ref s]} in
  mkStore (Commit chain r (store s)) ({[reg_cacheID e]} ∪ driver s)
    (<[next_ptr s := layer]> (heap (retain po s))) (<[chain := next_ptr s]> (layerMap s))
    (mounts s) (S (next_ptr s)) (S (next_ref s)).

(** The metadata store once [saveMount] has saved the mount [name] with
    mount ID [id], init ID [ini] (if not empty) and parent chain ID [pc] (if
    there is a parent). *)
Definition saved_mount (name id ini : string) (pc : option ChainID)
    (ms : fileMetadataStore) : fileMetadataStore :=
  let ms1 := SetMountID name id ms in
  let ms2 := if decide (ini = "") then ms1 else SetInitID name ini ms1 in
  match pc with
  | None => ms2
  | Some c => SetMountParent name c ms2
  end.

(** The init ID that [CreateRWLayer] gives a mount: "<mount ID>-init" when
    the options carry an init function, none otherwise. *)
Definition init_id (e : createRWEnv) (opts : option CreateRWLayerOpts) : string :=
  match opts ≫= InitFunc with
  | Some _ => crw_mountID e ++ "-init"
  | None => ""
  end.

(** The store once [CreateRWLayer] has created the mount [name] on
    [parent]: the parent is retained, the writable store and the init store
    exist, the mount record is saved, and the mount is indexed with the one
    handle [next_ref s]. *)
Definition mounted (e : createRWEnv) (name : string) (parent : ChainID)
    (opts : option CreateRWLayerOpts) (s : layerStore) : layerStore :=
  let po := parent_ptr s parent in
  let ini := init_id e opts in
  let m := mkMountedLayer name (crw_mountID e) ini po {[next_ref s]} in
  let d := if decide (ini = "") then driver s else {[ini]} ∪ driver s in
  mkStore (saved_mount name (crw_mountID e) ini (chainID <$> resolved_parent s parent)
             (store s))
    ({[crw_mountID e]} ∪ d) (heap (retain po s)) (layerMap s)
    (<[name := m]> (mounts s)) (next_ptr s) (S (next_ref s)).

(** The parent named by [parent], if any, is indexed. *)
Definition parent_indexed (s : layerStore) (parent : ChainID) : Prop :=
  parent = "" ∨ ∃ p np, layerMap s !! parent = Some p ∧ heap s !! p = Some np.

(** The parent named by [parent], if any, is indexed and retained. *)
Definition parent_held (s : layerStore) (parent : ChainID) : Prop :=
  parent = "" ∨
  ∃ p np, layerMap s !! parent = Some p ∧ heap s !! p = Some np ∧
    0 < referenceCount np.

(** The removal steps of a [ReleaseRWLayer] succeed. *)
Definition releaseRW_ok (e : releaseRWEnv) : Prop :=
  rrw_removeMount e = None ∧ rrw_removeInit e = None ∧ rrw_removeMeta e = None.

(** ** What every call keeps *)

(** [s'] is [s] with no new layer: every object keeps the fields it was
    created with, every index entry of [s'] is one of [s], and the layer
    record of every chain ID still indexed is untouched. *)
Definition shrinks (s s' : layerStore) : Prop :=
  same_static s s' ∧
  ∀ c p, layerMap s' !! c = Some p →
    layerMap s !! c = Some p ∧ layers (store s') !! c = layers (store s) !! c.

(** Every indexed layer has its record in the metadata store, with the
    fields of the object and the chain ID of its parent. *)
Definition recorded (s : layerStore) : Prop :=
  ∀ c p n, layerMap s !! c = Some p → heap s !! p = Some n →
    layers (store s) !! c = Some (record_of s n).

(** No indexed layer is deeper than [maxLayerDepth]. *)
Definition depth_bounded (s : layerStore) : Prop :=
  ∀ c p, layerMap s !! c = Some p → ∃ d, depth s p = Done d ∧ d ≤ maxLayerDepth.

(** ** Metadata with missing or cyclic parent links *)

(** Parent links descend along [rank]: there is no cycle. *)
Definition acyclic (rank : ChainID → nat) (ms : fileMetadataStore) : Prop :=
  ∀ c r, layers ms !! c = Some r → rec_parent r ≠ "" → rank (rec_parent r) < rank c.

(** The records that do not rank above [c]. *)
Definition upto (rank : ChainID → nat) (ms : fileMetadataStore) (c : ChainID)
  : gmap string layerRecord :=
  filter (λ kv, rank kv.1 ≤ rank c) (layers ms).

(** A layer that can be loaded: it has a record, and so has every layer up
    its parent chain. *)
Inductive loadable (ms : fileMetadataStore) : ChainID → Prop :=
  | loadable_root c r :
      layers ms !! c = Some r → rec_parent r = "" → loadable ms c
  | loadable_step c r :
      layers ms !! c = Some r → rec_parent r ≠ "" → loadable ms (rec_parent r) →
      loadable ms c.

(** A mount that can be loaded: it has a record, and its parent, if any,
    can be loaded. *)
Definition mount_loadable (ms : fileMetadataStore) (name : string) : Prop :=
  ∃ r, mountRecs ms !! name = Some r ∧
    (rec_mountParent r = "" ∨ loadable ms (rec_mountParent r)).

(** A set of chain IDs closed under the parent link, none of them a root:
    a parent cycle, or chains that lead into one. *)
Definition cyclic (ms : fileMetadataStore) (C : ChainID → Prop) : Prop :=
  ∀ c, C c → ∃ r, layers ms !! c = Some r ∧ rec_parent r ≠ "" ∧ C (rec_parent r).

(** Every indexed mount has its record, and its parent is indexed. *)
Definition mounts_loaded (ms : fileMetadataStore) (s : layerStore) : Prop :=
  ∀ name m, mounts s !! name = Some m →
    ∃ r, mountRecs ms !! name = Some r ∧
      (rec_mountParent r = "" ∨ is_Some (layerMap s !! rec_mountParent r)).

(** * The gcplogs log driver

    A shallow embedding of package [gcplogs]: option validation, the
    construction of a logger ([New]) with the instance metadata read once
    ([initGCP]), and the handler of the client's errors.  The metadata
    server, the logging client and [logger.Info] are collaborators: the
    answers of their calls are given by environment records; a Go error is
    its message. *)
Module gcplogs.

Definition name : string := "gcplogs".

Definition projectOptKey : string := "gcp-project".
Definition logLabelsKey : string := "labels".
Definition logLabelsRegexKey : string := "labels-regex".
Definition logEnvKey : string := "env".
Definition logEnvRegexKey : string := "env-regex".
Definition logCmdKey : string := "gcp-log-cmd".
Definition logZoneKey : string := "gcp-meta-zone".
Definition logNameKey : string := "gcp-meta-name".
Definition logIDKey : string := "gcp-meta-id".

(** The package variables: [initGCPOnce], the instance metadata and the
    counter of dropped logs (a 64-bit unsigned integer). *)
Record globals : Type := mkGlobals {
  once_done : bool;
  onGCE : bool;
  projectID : string;
  zone : string;
  instanceName : string;
  instanceID : string;
  droppedLogs : Z;
}.

Definition globals0 : globals := mkGlobals false false "" "" "" "" 0.

(** What the metadata server answers to [OnGCE], [ProjectIDWithContext],
    [ZoneWithContext], [InstanceNameWithContext] and
    [InstanceIDWithContext]; the errors of the last four are ignored by the
    code, only the strings they return are kept. *)
Record metadataServer : Type := mkMetadataServer {
  md_OnGCE : bool;
  md_ProjectID : string;
  md_Zone : string;
  md_InstanceName : string;
  md_InstanceID : string;
}.

(** [initGCP]: the body runs once. *)
Definition initGCP (md : metadataServer) (g : globals) : globals :=
  if once_done g then g
  else if md_OnGCE md
       then mkGlobals true true (md_ProjectID md) (md_Zone md) (md_InstanceName md)
              (md_InstanceID md) (droppedLogs g)
       else mkGlobals true false (projectID g) (zone g) (instanceName g) (instanceID g)
              (droppedLogs g).

Record instanceInfo : Type := mkInstanceInfo {
  Zone : string;
  Name : string;
  ID : string;
}.

Record containerInfo : Type := mkContainerInfo {
  cName : string;
  cID : string;
  ImageName : string;
  ImageID : string;
  Created : Z;
  Command : string;
  Metadata : gmap string string;
}.

(** [logger.Info], as far as [New] reads it; [info_Command] is what
    [info.Command()] returns. *)
Record Info : Type := mkInfo {
  Config : gmap string string;
  ContainerName : string;
  ContainerID : string;
  ContainerImageName : string;
  ContainerImageID : string;
  ContainerCreated : Z;
  info_Command : string;
}.

(** A Go map read [m[k]]: the zero value when the key is absent. *)
Definition index (m : gmap string string) (k : string) : string :=
  default "" (m !! k).

(** The logging client and its logger, as [New] sets them up. *)
Record MonitoredResource : Type := mkMonitoredResource {
  mr_Type : string;
  mr_Labels : gmap string string;
}.

Record Logger : Type := mkLogger {
  logID : string;
  commonResource : option MonitoredResource;
}.

Record gcplogs : Type := mkGcplogs {
  client_project : string;
  logger : Logger;
  instance : option instanceInfo;
  container : containerInfo;
}.

(** Outcome of the external calls of one [New]: [logging.NewClient],
    [Client.Ping] and [info.ExtraAttributes]. *)
Record newEnv : Type := mkNewEnv {
  ne_NewClient : option string;
  ne_Ping : option string;
  ne_ExtraAttributes : string + gmap string string;
}.

(** The project that [New] logs to: the one of the metadata server,
    unless the [gcp-project] option is given. *)
Definition resolve_project (info : Info) (g : globals) : string :=
  let project := if decide (projectID g = "") then "" else projectID g in
  match Config info !! projectOptKey with
  | Some p => p
  | None => project
  end.

Definition instance_resource (info : Info) (g : globals) : option instanceInfo :=
  if onGCE g then Some (mkInstanceInfo (zone g) (instanceName g) (instanceID g))
  else if bool_decide (index (Config info) logZoneKey ≠ "" ∨
                       index (Config info) logNameKey ≠ "" ∨
                       index (Config info) logIDKey ≠ "")
       then Some (mkInstanceInfo (index (Config info) logZoneKey)
                    (index (Config info) logNameKey) (index (Config info) logIDKey))
       else None.

Definition New (md : metadataServer) (e : newEnv) (info : Info) (g : globals)
  : (string + gcplogs) * globals :=
  let g1 := initGCP md g in
  let project := resolve_project info g1 in
  if decide (project = "")
  then (inl "No project was specified and couldn't read project from the metadata server. Please specify a project", g1)
  else
    match ne_NewClient e with
    | Some err => (inl err, g1)
    | None =>
        let instanceResource := instance_resource info g1 in
        let options :=
          match instanceResource with
          | Some i => Some (mkMonitoredResource "gce_instance"
                              {[ "instance_id" := ID i; "zone" := Zone i ]})
          | None => None
          end in
        let lg := mkLogger "gcplogs-docker-driver" options in
        match ne_Ping e with
        | Some err =>
            (inl ("unable to connect or authenticate with Google Cloud Logging: " ++ err), g1)
        | None =>
            match ne_ExtraAttributes e with
            | inl err => (inl err, g1)
            | inr extraAttrs =>
                let command :=
                  if decide (index (Config info) logCmdKey = "true")
                  then info_Command info else "" in
                (inr (mkGcplogs project lg instanceResource
                        (mkContainerInfo (ContainerName info) (ContainerID info)
                           (ContainerImageName info) (ContainerImageID info)
                           (ContainerCreated info) command extraAttrs)), g1)
            end
        end
    end.

(** [ValidateLogOpts].  Go ranges over the map in an unspecified order:
    [keys] is the order of one run.  [quote] is the [%q] verb of [fmt]. *)
Definition options : list string :=
  [projectOptKey; logLabelsKey; logLabelsRegexKey; logEnvKey; logEnvRegexKey;
   logCmdKey; logZoneKey; logNameKey; logIDKey].

Definition valid_option (k : string) : bool := bool_decide (k ∈ options).

Fixpoint ValidateLogOpts (quote : string → string) (keys : list string) : option string :=
  match keys with
  | [] => None
  | k :: rest =>
      if valid_option k then ValidateLogOpts quote rest
      else Some (quote k ++ " is not a valid option for the gcplogs driver")
  end.

(** An order in which a run may range over the map [cfg]. *)
Definition range_of (cfg : gmap string string) (keys : list string) : Prop :=
  keys ≡ₚ (map_to_list cfg).*1.

Definition no_project : string :=
  "No project was specified and couldn't read project from the metadata server. Please specify a project".

(** What the handler [c.OnError] writes to the daemon log. *)
Inductive logLine : Type :=
  | Dropped (i : Z)
  | Failure (err : string).

(** [c.OnError]: [overflow] is [errors.Is(err, logging.ErrOverflow)]. *)
Definition OnError (overflow : bool) (err : string) (g : globals)
  : option logLine * globals :=
  if overflow then
    let i := ((droppedLogs g + 1) mod 2 ^ 64)%Z in
    let g' := mkGlobals (once_done g) (onGCE g) (projectID g) (zone g) (instanceName g)
                (instanceID g) i in
    (if decide (i mod 1000 = 1)%Z then Some (Dropped i) else None, g')
  else (Some (Failure err), g).

(** [n] overflow errors in a row: the lines logged, and the package
    variables after them. *)
Fixpoint overflows (n : nat) (g : globals) : list logLine * globals :=
  match n with
  | O => ([], g)
  | S n' =>
      let '(l, g1) := OnError true "" g in
      let '(ls, g2) := overflows n' g1 in
      (match l with Some x => x :: ls | None => ls end, g2)
  end.

End gcplogs.

(** * Errors of a pull

    A shallow embedding of the error handling of package [distribution].
    An error is given by its dynamic type, which the type switches look
    at, and the fields those read.  What [errors.Is] and [Error()] answer
    depends on code outside this package: it is given by a record of
    predicates. *)
Module distribution.

(** The error codes of the registry that are told apart; the others are
    [ErrorCodeOther]. *)
Inductive ErrorCode : Type :=
  | ErrorCodeUnauthorized
  | ErrorCodeDenied
  | ErrorCodeUnsupported
  | ErrorCodeTooManyRequests
  | ErrorCodeManifestUnknown
  | ErrorCodeNameUnknown
  | ErrorCodeOther (n : nat).

#[global] Instance ErrorCode_eq_dec : EqDecision ErrorCode.
Proof. solve_decision. Defined.

(** A value of the interface [error]: [nil] is the nil interface,
    [Unknown err] is what [errdefs.Unknown(err)] returns, and [other n]
    stands for an error of a type that no switch names. *)
Inductive error : Type :=
  | nil
  | Errors (v : list error)
  | Error (Code : ErrorCode) (Message : string)
  | DoNotRetry (Err : error)
  | urlError (Err : error)
  | UnexpectedHTTPResponseError
  | imageConfigPullError (Err : error)
  | unsupportedMediaTypeError (MediaType : string)
  | notFoundError (Code : ErrorCode) (Message : string) (ref : string)
  | Unknown (err : error)
  | other (n : nat).

(** The answers of [errors.Is] and of [strings.Contains] on the message. *)
Record predicates : Type := mkPredicates {
  (* errors.Is(err, context.Canceled) || errors.Is(err, context.DeadlineExceeded) *)
  is_context_done : error → bool;
  (* errors.Is(err, auth.ErrNoBasicAuthCredentials) || errors.Is(err, auth.ErrNoToken) *)
  is_no_credentials : error → bool;
  (* errors.Is(err, distribution.ErrBlobUnknown) *)
  is_blob_unknown : error → bool;
  (* strings.Contains(err.Error(), s) *)
  message_contains : error → string → bool;
}.

(** [strings.ToLower(syscall.ESRCH.Error())] and
    [strings.ToLower(syscall.ENOSPC.Error())]. *)
Definition ESRCH : string := "no such process".
Definition ENOSPC : string := "no space left on device".

(** [translatePullError]: the error that stands for the pull, and the
    extra errors written to the log, in the order they are written. *)
Fixpoint translatePullError (P : predicates) (err : error) (ref : string)
  : error * list error :=
  if is_context_done P err then (err, [])
  else
    match err with
    | Errors (e0 :: extras) =>
        let '(r, logged) := translatePullError P e0 ref in
        (r, (extras ++ logged)%list)
    | Error c m =>
        if bool_decide (c = ErrorCodeDenied ∨ c = ErrorCodeManifestUnknown ∨
                        c = ErrorCodeNameUnknown)
        then (notFoundError c m ref, [])
        else (Unknown err, [])
    | DoNotRetry e => translatePullError P e ref
    | _ => (Unknown err, [])
    end.

(** [continueOnError]. *)
Fixpoint continueOnError (P : predicates) (err : error) (mirrorEndpoint : bool) : bool :=
  if is_context_done P err then false
  else
    match err with
    | Errors [] => true
    | Errors (e0 :: _) => continueOnError P e0 mirrorEndpoint
    | Error _ _ => mirrorEndpoint
    | UnexpectedHTTPResponseError => true
    | imageConfigPullError _ => mirrorEndpoint
    | unsupportedMediaTypeError _ => false
    | nil => true
    | _ => negb (message_contains P err ESRCH)
    end.

(** [retryOnError]. *)
Fixpoint retryOnError (P : predicates) (err : error) : error :=
  match err with
  | Errors [] => err
  | Errors (e0 :: _) => retryOnError P e0
  | Error c _ =>
      if bool_decide (c = ErrorCodeUnauthorized ∨ c = ErrorCodeUnsupported ∨
                      c = ErrorCodeDenied ∨ c = ErrorCodeTooManyRequests ∨
                      c = ErrorCodeNameUnknown)
      then DoNotRetry err
      else err
  | urlError e =>
      if is_no_credentials P e then DoNotRetry e else retryOnError P e
  | UnexpectedHTTPResponseError | unsupportedMediaTypeError _ => DoNotRetry err
  | nil => err
  | _ =>
      if is_blob_unknown P err then DoNotRetry err
      else if message_contains P err ENOSPC then DoNotRetry err
      else err
  end.

(** [leads through e' e]: [e'] is [e], or the first error of the list
    [e], or, for the wrappers in [through], the error that [e] wraps;
    and so on from there. *)
Inductive wrapper : Type := ByDoNotRetry | ByUrlError.

Definition wrap (w : wrapper) (e : error) : error :=
  match w with
  | ByDoNotRetry => DoNotRetry e
  | ByUrlError => urlError e
  end.

Inductive leads (w : wrapper) : error → error → Prop :=
  | leads_here e : leads w e e
  | leads_first e' e0 v : leads w e' e0 → leads w e' (Errors (e0 :: v))
  | leads_wrapped e' e : leads w e' e → leads w e' (wrap w e).

End distribution.

(** ** Further concrete inputs *)

(** Deletions in which the removal of the backing store fails. *)
Definition delete_remove_fails : nat → deleteEnv :=
  λ _, mkDeleteEnv true (Some (ErrOther "device busy")) None.

(** Metadata with a root layer "a" and a layer "x/y" whose parent "x" has
    no record. *)
Definition orphan_metadata : fileMetadataStore :=
  mkMetadataStore
    {[ "a" := mkLayerRecord "a" 10 "c1" ""; "x/y" := mkLayerRecord "y" 10 "c2" "x" ]} ∅.

(** An empty store on metadata in which the layer "a" names itself as
    parent. *)
Definition selfparent_store : layerStore :=
  empty_store (mkMetadataStore {[ "a" := mkLayerRecord "a" 10 "c1" "a" ]} ∅) ∅.

(** A metadata server on Compute Engine, one elsewhere, a container and
    external calls that succeed. *)
Definition md_gce : gcplogs.metadataServer :=
  gcplogs.mkMetadataServer true "meta-project" "us-east1-b" "vm1" "4711".

Definition md_elsewhere : gcplogs.metadataServer :=
  gcplogs.mkMetadataServer false "" "" "" "".

Definition info_of (cfg : gmap string string) : gcplogs.Info :=
  gcplogs.mkInfo cfg "web" "c0ffee" "nginx" "sha256:1" 0 "nginx -g daemon-off".

Definition newEnv_ok : gcplogs.newEnv := gcplogs.mkNewEnv None None (inr ∅).

(** [%q] on a key without quotes, backslashes or unprintable characters:
    the key between double quotes. *)
Definition quote_plain (k : string) : string :=
  String (Ascii.ascii_of_nat 34) (k ++ String (Ascii.ascii_of_nat 34) "").

(** No error is one of the targets of [errors.Is] and no message contains
    the text looked for. *)
Definition no_match : distribution.predicates :=
  distribution.mkPredicates (λ _, false) (λ _, false) (λ _, false) (λ _ _, false).

(** * Proofs *)

(** ** Credits *)

Lemma inv_mono (c c' : ptr → nat) s :
  (∀ q, c' q ≤ c q) → inv c s → inv c' s.
Proof.
  intros Hle [H1 H2 H3 H4 H5 H6 H7]. split; auto.
  intros k p n Hk Hp. specialize (H4 k p n Hk Hp). specialize (Hle p). lia.
Qed.

Lemma credit_at_eq p : credit_at p p = 1.
Proof. unfold credit_at. by rewrite decide_True. Qed.

Lemma credit_at_ne p q : q ≠ p → credit_at p q = 0.
Proof. intros. unfold credit_at. by rewrite decide_False. Qed.

(** ** Frames *)

Lemma same_mem_refl s : same_mem s s.
Proof. by repeat split. Qed.

Lemma same_mem_trans s1 s2 s3 : same_mem s1 s2 → same_mem s2 s3 → same_mem s1 s3.
Proof.
  intros (?&?&?&?&?) (?&?&?&?&?). repeat split; congruence.
Qed.

Lemma children_same_mem s s' p : same_mem s s' → children s' p = children s p.
Proof.
  intros (Hh&Hl&_). unfold children, parent_of. by rewrite Hh, Hl.
Qed.

Lemma mounted_on_same_mem s s' p : same_mem s s' → mounted_on s' p = mounted_on s p.
Proof. intros (_&_&Hm&_). unfold mounted_on. by rewrite Hm. Qed.

Lemma indexed_same_mem s s' p : same_mem s s' → indexed s p → indexed s' p.
Proof. intros (Hh&Hl&_) (n&?&?). exists n. by rewrite Hh, Hl. Qed.

Lemma inv_same_mem c s s' : same_mem s s' → inv c s → inv c s'.
Proof.
  intros Hsm [H1 H2 H3 H4 H5 H6 H7].
  pose proof Hsm as (Hh&Hl&Hmo&Hp&Hr).
  split; rewrite ?Hh, ?Hl, ?Hmo, ?Hp, ?Hr; try done.
  - intros k p n pp ???. destruct (H2 k p n pp) as [? ?]; auto.
    split; [done|]. by eapply indexed_same_mem.
  - intros m ml pp ??. eapply indexed_same_mem; eauto.
  - intros k p n ??. rewrite (children_same_mem s s'), (mounted_on_same_mem s s') by done.
    eauto.
Qed.

(** ** Updating an object in place *)

Section set_node.
Context (s : layerStore) (p : ptr) (n n' : roLayer).
Hypothesis Hp : heap s !! p = Some n.
Hypothesis Hchain : chainID n' = chainID n.
Hypothesis Hparent : parent n' = parent n.

Lemma parent_of_set_node q : parent_of (set_node p n' s) q = parent_of s q.
Proof using Hp Hparent.
  unfold parent_of, set_node; simpl. destruct (decide (q = p)) as [->|].
  - rewrite lookup_insert_eq, Hp. simpl. congruence.
  - by rewrite lookup_insert_ne.
Qed.

Lemma children_set_node q : children (set_node p n' s) q = children s q.
Proof using Hp Hparent.
  unfold children. simpl. apply map_filter_ext. intros i x _. simpl.
  by rewrite parent_of_set_node.
Qed.

Lemma mounted_on_set_node q : mounted_on (set_node p n' s) q = mounted_on s q.
Proof. reflexivity. Qed.

Lemma indexed_set_node q : indexed s q → indexed (set_node p n' s) q.
Proof using Hp Hchain.
  intros (m & Hq & Hm). unfold indexed, set_node; simpl.
  destruct (decide (q = p)) as [->|].
  - exists n'. rewrite lookup_insert_eq. split; [done|]. congruence.
  - exists m. by rewrite lookup_insert_ne.
Qed.

Lemma same_shape_set_node : same_shape s (set_node p n' s).
Proof using Hp Hparent.
  intros q. unfold set_node; simpl. destruct (decide (q = p)) as [->|].
  - rewrite lookup_insert_eq, Hp. simpl. congruence.
  - by rewrite lookup_insert_ne.
Qed.

Lemma inv_set_node c c' :
  inv c s →
  (∀ q, q ≠ p → c' q ≤ c q) →
  (layerMap s !! chainID n = Some p →
   size (references n') + size (children s p) + size (mounted_on s p) + c' p
     ≤ referenceCount n') →
  (∀ r, r ∈ references n' → r < next_ref s) →
  inv c' (set_node p n' s).
Proof using Hp Hchain Hparent.
  intros [H1 H2 H3 H4 H5 H6 H7] Hc Hcount Hrefs. split.
  - intros k q Hk. simpl in Hk. destruct (H1 k q Hk) as (m & Hq & Hm).
    unfold set_node; simpl. destruct (decide (q = p)) as [->|].
    + exists n'. rewrite lookup_insert_eq. split; [done|]. congruence.
    + exists m. by rewrite lookup_insert_ne.
  - intros k q m pp Hk Hq Hpar. simpl in Hk.
    unfold set_node in Hq; simpl in Hq.
    destruct (decide (q = p)) as [->|].
    + rewrite lookup_insert_eq in Hq. injection Hq as Hq; subst m.
      rewrite Hparent in Hpar.
      destruct (H2 k p n pp) as [? ?]; auto using indexed_set_node.
    + rewrite lookup_insert_ne in Hq by done.
      destruct (H2 k q m pp) as [? ?]; auto using indexed_set_node.
  - intros m ml pp Hm Hpar. simpl in Hm. eauto using indexed_set_node.
  - intros k q m Hk Hq. simpl in Hk.
    rewrite children_set_node, mounted_on_set_node.
    unfold set_node in Hq; simpl in Hq.
    destruct (decide (q = p)) as [->|].
    + rewrite lookup_insert_eq in Hq. injection Hq as Hq; subst m. apply Hcount.
      destruct (H1 k p Hk) as (m & Hq & Hm). congruence.
    + rewrite lookup_insert_ne in Hq by done.
      specialize (H4 k q m Hk Hq). specialize (Hc q ltac:(done)). lia.
  - intros q Hq. simpl. apply H5. unfold set_node in Hq; simpl in Hq.
    destruct (decide (q = p)) as [->|]; [by eexists|].
    by rewrite lookup_insert_ne in Hq.
  - intros q m r Hq Hr. simpl. unfold set_node in Hq; simpl in Hq.
    destruct (decide (q = p)) as [->|].
    + rewrite lookup_insert_eq in Hq. injection Hq as Hq; subst m. by apply Hrefs.
    + rewrite lookup_insert_ne in Hq by done. eauto.
  - intros m ml r Hm Hr. simpl in *. eauto.
Qed.
End set_node.

(** ** Parent chains *)

Lemma chain_ok_indexed c s l : inv c s → indexed s l → chain_ok s l.
Proof.
  intros Hinv. induction (lt_wf l) as [l _ IH]. intros (n & Hl & Hn).
  destruct (parent n) as [pp|] eqn:Hpar.
  - destruct (inv_parent _ _ Hinv _ _ _ _ Hn Hl Hpar) as [Hlt Hpp].
    eapply chain_step; eauto.
  - eapply chain_root; eauto.
Qed.

Lemma chain_ok_shape s s' l : same_shape s s' → chain_ok s l → chain_ok s' l.
Proof.
  intros Hsh. induction 1 as [l n Hl Hpar | l n pp Hl Hpar Hlt _ IH].
  - specialize (Hsh l). rewrite Hl in Hsh. simpl in Hsh.
    destruct (heap s' !! l) as [n'|] eqn:Hl'; simpl in Hsh; [|done].
    eapply chain_root; eauto. congruence.
  - specialize (Hsh l). rewrite Hl in Hsh. simpl in Hsh.
    destruct (heap s' !! l) as [n'|] eqn:Hl'; simpl in Hsh; [|done].
    eapply chain_step; eauto. congruence.
Qed.

Lemma same_shape_same_mem s s' : same_mem s s' → same_shape s s'.
Proof. intros (Hh&_) q. by rewrite Hh. Qed.

Lemma same_shape_trans s1 s2 s3 :
  same_shape s1 s2 → same_shape s2 s3 → same_shape s1 s3.
Proof. intros H1 H2 q. by rewrite H2, H1. Qed.

Lemma Size_loop_total s l : chain_ok s l → ∀ k, l < k → ∃ z, Size_loop k s l = Done z.
Proof.
  induction 1 as [l n Hl Hpar | l n pp Hl Hpar Hlt _ IH]; intros [|k] Hk; try lia.
  - simpl. unfold deref. rewrite Hl. simpl. rewrite Hpar. eauto.
  - simpl. unfold deref. rewrite Hl. simpl. rewrite Hpar.
    destruct (IH k ltac:(lia)) as [z ->]. simpl. eauto.
Qed.

Lemma depth_loop_total s l : chain_ok s l → ∀ k, l < k → ∃ d, depth_loop k s l = Done d.
Proof.
  induction 1 as [l n Hl Hpar | l n pp Hl Hpar Hlt _ IH]; intros [|k] Hk; try lia.
  - simpl. unfold deref. rewrite Hl. simpl. rewrite Hpar. eauto.
  - simpl. unfold deref. rewrite Hl. simpl. rewrite Hpar.
    destruct (IH k ltac:(lia)) as [z ->]. simpl. eauto.
Qed.

Lemma deleteLayer_total e l s :
  chain_ok s l → l < next_ptr s →
  ∃ r s', deleteLayer e l s = Done (r, s') ∧ same_mem s s'.
Proof.
  intros Hc Hl. unfold deleteLayer, deref.
  assert (∃ n, heap s !! l = Some n) as [n Hn] by (inversion Hc; eauto).
  rewrite Hn. simpl.
  set (s1 := if del_rename e then _ else s).
  assert (Hs1 : same_mem s s1) by (subst s1; destruct (del_rename e); by repeat split).
  destruct (del_remove e) as [err|].
  { eauto. }
  set (s2 := with_driver _ s1).
  assert (Hs2 : same_mem s s2).
  { eapply same_mem_trans; [exact Hs1|]. by repeat split. }
  destruct (del_removeAll e) as [err|].
  { eauto. }
  destruct (Size_loop_total s2 l) with (k := fuel s2) as [z Hz].
  { eapply chain_ok_shape; [|exact Hc]. by apply same_shape_same_mem. }
  { unfold fuel. destruct Hs2 as (_&_&_&->&_). lia. }
  unfold Size. rewrite Hz. simpl. eauto.
Qed.

(** ** Taking a layer out of the index *)

Lemma children_lookup s p k q :
  children s p !! k = Some q ↔ layerMap s !! k = Some q ∧ parent_of s q = Some p.
Proof. unfold children. rewrite map_lookup_filter_Some. simpl. tauto. Qed.

Lemma mounted_on_lookup s p m ml :
  mounted_on s p !! m = Some ml ↔ mounts s !! m = Some ml ∧ mparent ml = Some p.
Proof. unfold mounted_on. rewrite map_lookup_filter_Some. simpl. tauto. Qed.

Lemma inv_unindex c s l n :
  inv c s → heap s !! l = Some n → layerMap s !! chainID n = Some l →
  children s l = ∅ → mounted_on s l = ∅ →
  inv (credit_add c (credit_opt (parent n)))
      (with_layerMap (delete (chainID n) (layerMap s)) s).
Proof.
  intros [H1 H2 H3 H4 H5 H6 H7] Hl Hn Hch Hmo.
  assert (Hidx : ∀ pp, indexed s pp → pp ≠ l →
            indexed (with_layerMap (delete (chainID n) (layerMap s)) s) pp).
  { intros pp (np & Hpp & Hnp) Hne. exists np. simpl. split; [done|].
    rewrite lookup_delete_ne; [done|]. intros Heq. rewrite <-Heq in Hnp. congruence. }
  split; simpl.
  - intros k q Hk. apply lookup_delete_Some in Hk as [_ Hk]. eauto.
  - intros k q m pp Hk Hq Hpar. apply lookup_delete_Some in Hk as [Hne Hk].
    destruct (H2 k q m pp Hk Hq Hpar) as [Hlt Hpp]. split; [done|].
    apply Hidx; [done|]. intros ->.
    assert (children s l !! k = Some q) as Hin.
    { apply children_lookup. split; [done|]. unfold parent_of. by rewrite Hq. }
    rewrite Hch in Hin. by rewrite lookup_empty in Hin.
  - intros m ml pp Hm Hpar. apply Hidx; [eauto|]. intros ->.
    assert (mounted_on s l !! m = Some ml) as Hin by (by apply mounted_on_lookup).
    rewrite Hmo in Hin. by rewrite lookup_empty in Hin.
  - intros k q m Hk Hq. apply lookup_delete_Some in Hk as [Hne Hk].
    specialize (H4 k q m Hk Hq).
    change (mounted_on (with_layerMap (delete (chainID n) (layerMap s)) s) q)
      with (mounted_on s q).
    assert (children (with_layerMap (delete (chainID n) (layerMap s)) s) q
            = delete (chainID n) (children s q)) as ->.
    { unfold children. simpl. by rewrite map_filter_delete. }
    unfold credit_add. destruct (decide (parent n = Some q)) as [Hpq|Hpq].
    + rewrite Hpq. simpl. rewrite credit_at_eq.
      assert (children s q !! chainID n = Some l) as Hin.
      { apply children_lookup. split; [done|]. unfold parent_of. by rewrite Hl. }
      rewrite map_size_delete, Hin.
      pose proof (map_size_ne_0_lookup_2 _ _ (mk_is_Some _ _ Hin)). simpl. lia.
    + assert (children s q !! chainID n = None) as Hin.
      { destruct (children s q !! chainID n) as [x|] eqn:E; [|done].
        apply children_lookup in E as [E1 E2]. rewrite Hn in E1. simplify_eq.
        unfold parent_of in E2. rewrite Hl in E2. simpl in E2. done. }
      rewrite map_size_delete, Hin. simpl.
      assert (credit_opt (parent n) q = 0) as ->; [|lia].
      destruct (parent n) as [pp|]; [|done]. simpl. apply credit_at_ne. congruence.
  - done.
  - done.
  - done.
Qed.

Lemma indexed_unindex s l n pp :
  heap s !! l = Some n → layerMap s !! chainID n = Some l →
  indexed s pp → pp ≠ l →
  indexed (with_layerMap (delete (chainID n) (layerMap s)) s) pp.
Proof.
  intros Hl Hn (np & Hpp & Hnp) Hne. exists np. simpl. split; [done|].
  rewrite lookup_delete_ne; [done|]. intros Heq. rewrite <-Heq in Hnp. congruence.
Qed.

(** ** The release cascade keeps the invariant and never panics *)

Lemma releaseLayer_loop_inv k : ∀ e d removed l s c,
  inv (credit_add c (credit_at l)) s → indexed s l → l < k →
  (d = 0 ∨ removed ≠ []) →
  ∃ r s', releaseLayer_loop k e d removed l s = Done (r, s') ∧ inv c s'.
Proof.
  induction k as [|k IH]; intros e d removed l s c Hinv Hidx Hk Hd; [lia|].
  pose proof (chain_ok_indexed _ _ _ Hinv Hidx) as Hchain.
  destruct Hidx as (n & Hl & Hn).
  simpl. unfold deref. rewrite Hl. simpl.
  pose proof (inv_count _ _ Hinv _ _ _ Hn Hl) as Hcount.
  unfold credit_add in Hcount. rewrite credit_at_eq in Hcount.
  rewrite bool_decide_eq_false_2 by lia.
  set (n1 := set_referenceCount (referenceCount n - 1) n).
  assert (Hs1 : inv c (set_node l n1 s)).
  { eapply inv_set_node; eauto.
    - intros q Hq. unfold credit_add. rewrite credit_at_ne by done. lia.
    - intros _. simpl. lia.
    - intros r Hr. simpl in Hr. eapply inv_ref; eauto. }
  destruct (decide (referenceCount n - 1 = 0)) as [Hz|Hnz].
  2: { rewrite bool_decide_eq_false_2 by (simpl; lia). simpl. eauto. }
  rewrite bool_decide_eq_true_2 by (simpl; lia). simpl.
  assert ((bool_decide (length removed = 0) && bool_decide (0 < d)) = false) as ->.
  { destruct Hd as [->|Hr].
    - rewrite (bool_decide_eq_false_2 (0 < 0)) by lia. by rewrite andb_false_r.
    - rewrite bool_decide_eq_false_2; [done|]. destruct removed; simpl; [done|lia]. }
  assert (references n = ∅) as Hrefs.
  { apply leibniz_equiv, size_empty_inv. lia. }
  assert (children s l = ∅) as Hch by (apply map_size_empty_iff; lia).
  assert (mounted_on s l = ∅) as Hmo by (apply map_size_empty_iff; lia).
  unfold hasReferences. simpl. rewrite Hrefs. rewrite bool_decide_eq_true_2 by done.
  simpl.
  set (s1 := set_node l n1 s) in *.
  assert (Hl1 : heap s1 !! l = Some n1) by (subst s1; simpl; by rewrite lookup_insert_eq).
  pose proof (inv_unindex c s1 l n1 Hs1 Hl1 Hn) as Hs2.
  rewrite (children_set_node s l n n1) in Hs2 by done.
  specialize (Hs2 Hch Hmo). simpl in Hs2.
  set (s2 := with_layerMap (delete (chainID n) (layerMap s)) s1) in *.
  destruct (deleteLayer_total (e d) l s2) as (r & s3 & -> & Hsm).
  { eapply chain_ok_shape; [|exact Hchain]. apply (same_shape_set_node s l n n1); done. }
  { simpl. eapply inv_ptr; eauto. }
  simpl. pose proof (inv_same_mem _ _ _ Hsm Hs2) as Hs3.
  destruct r as [metadata|err].
  2: { do 2 eexists. split; [done|]. eapply inv_mono; [|exact Hs3].
       intros q. unfold credit_add. lia. }
  destruct (parent n) as [pp|] eqn:Hpar.
  2: { do 2 eexists. split; [done|]. eapply inv_mono; [|exact Hs3].
       intros q. unfold credit_add. lia. }
  destruct (inv_parent _ _ Hinv _ _ _ _ Hn Hl Hpar) as [Hlt Hpp].
  apply IH; [exact Hs3| |lia|].
  - eapply indexed_same_mem; [exact Hsm|].
    apply (indexed_unindex s1 l n1); [done|done| |lia].
    apply (indexed_set_node s l n n1); done.
  - right. by destruct removed.
Qed.

(** ** Frames that move the counters *)

Lemma inv_frame c s s' :
  heap s' = heap s → layerMap s' = layerMap s → mounts s' = mounts s →
  next_ptr s ≤ next_ptr s' → next_ref s ≤ next_ref s' →
  inv c s → inv c s'.
Proof.
  intros Hh Hl Hmo Hp Hr [H1 H2 H3 H4 H5 H6 H7].
  assert (Hidx : ∀ q, indexed s q → indexed s' q).
  { intros q (n & ? & ?). exists n. by rewrite Hh, Hl. }
  assert (Hch : ∀ q, children s' q = children s q).
  { intros q. unfold children, parent_of. by rewrite Hh, Hl. }
  assert (Hmt : ∀ q, mounted_on s' q = mounted_on s q).
  { intros q. unfold mounted_on. by rewrite Hmo. }
  split; rewrite ?Hh, ?Hl, ?Hmo.
  - done.
  - intros k p n pp ???. destruct (H2 k p n pp) as [? ?]; auto.
  - intros m ml pp ??. eauto.
  - intros k p n ??. rewrite Hch, Hmt. eauto.
  - intros p Hq. specialize (H5 p Hq). lia.
  - intros p n r Hq Hin. specialize (H6 p n r Hq Hin). lia.
  - intros m ml r Hq Hin. specialize (H7 m ml r Hq Hin). lia.
Qed.

Ltac inv_weaken :=
  eapply inv_mono; [|eassumption]; intros ?q;
  unfold credit_add, credit_opt, no_credit, credit_at;
  repeat case_match; repeat case_decide; simplify_eq; lia.

(** ** [get] and [getReference] *)

Lemma get_inv c s k :
  inv c s →
  ∃ po s', get k s = Done (po, s') ∧ inv (credit_add c (credit_opt po)) s' ∧
    layerMap s !! k = po ∧ layerMap s' = layerMap s ∧ mounts s' = mounts s ∧
    store s' = store s ∧ driver s' = driver s ∧
    (∀ q, indexed s q → indexed s' q) ∧ (∀ p, po = Some p → indexed s' p).
Proof.
  intros Hinv. unfold get. destruct (layerMap s !! k) as [p|] eqn:Hk.
  - destruct (inv_index _ _ Hinv _ _ Hk) as (n & Hp & Hn). unfold deref. rewrite Hp.
    simpl. do 2 eexists. split; [done|].
    set (n' := set_referenceCount (S (referenceCount n)) n).
    split; [|repeat split; auto].
    + eapply (inv_set_node s p n n'); eauto.
      * intros q Hq. unfold credit_add. simpl. rewrite credit_at_ne by done. lia.
      * intros Hidx. pose proof (inv_count _ _ Hinv _ _ _ Hidx Hp).
        unfold credit_add. simpl. rewrite credit_at_eq. lia.
      * intros r Hr. simpl in Hr. eapply inv_ref; eauto.
    + intros q Hq. by apply (indexed_set_node s p n n').
    + intros q Hq. injection Hq as <-. apply (indexed_set_node s p n n'); try done.
      exists n. split; [done|]. congruence.
  - do 2 eexists. split; [done|]. split; [inv_weaken|]. repeat split; auto.
    intros ? [=].
Qed.

Lemma getReference_inv c s p :
  inv (credit_add c (credit_at p)) s → indexed s p →
  ∃ h s', getReference p s = Done (h, s') ∧ inv c s' ∧
    layer_ref h = next_ref s ∧
    layerMap s' = layerMap s ∧ mounts s' = mounts s ∧
    store s' = store s ∧ driver s' = driver s ∧
    (∀ q, indexed s q → indexed s' q).
Proof.
  intros Hinv (n & Hp & Hn). unfold getReference, deref. rewrite Hp. simpl.
  do 2 eexists. split; [done|].
  set (n' := set_references ({[next_ref s]} ∪ references n) n).
  change (with_next_ref (S (next_ref s)) (set_node p n' s))
    with (set_node p n' (with_next_ref (S (next_ref s)) s)).
  assert (Hinv' : inv (credit_add c (credit_at p)) (with_next_ref (S (next_ref s)) s)).
  { eapply inv_frame; [..|exact Hinv]; simpl; auto. }
  split; [|repeat split; auto].
  - eapply (inv_set_node _ p n n'); eauto.
    + intros q Hq. unfold credit_add. rewrite credit_at_ne by done. lia.
    + intros Hidx. pose proof (inv_count _ _ Hinv' _ _ _ Hidx Hp) as Hc.
      unfold credit_add in Hc. rewrite credit_at_eq in Hc. simpl.
      assert (size ({[next_ref s]} ∪ references n) ≤ 1 + size (references n)); [|lia].
      rewrite size_union_alt, size_singleton.
      apply Nat.add_le_mono_l, subseteq_size. set_solver.
    + intros r Hr. simpl in *. apply elem_of_union in Hr as [Hr|Hr].
      * apply elem_of_singleton in Hr. simpl. lia.
      * pose proof (inv_ref _ _ Hinv _ _ _ Hp Hr). lia.
  - intros q Hq.
    apply (indexed_set_node (with_next_ref (S (next_ref s)) s) p n n'); done.
Qed.

Lemma releaseLayer_inv c e s l :
  inv (credit_add c (credit_at l)) s → indexed s l →
  ∃ r s', releaseLayer e l s = Done (r, s') ∧ inv c s'.
Proof.
  intros Hinv Hidx. apply releaseLayer_loop_inv; auto.
  destruct Hidx as (n & Hl & _). pose proof (inv_ptr _ _ Hinv l ltac:(eauto)).
  unfold fuel. lia.
Qed.

Lemma release_parent_inv c e s p :
  inv (credit_add c (credit_opt p)) s → (∀ pp, p = Some pp → indexed s pp) →
  ∃ s', release_parent e p s = Done s' ∧ inv c s'.
Proof.
  intros Hinv Hidx. destruct p as [pp|]; simpl.
  - destruct (releaseLayer_inv c e s pp) as (r & s' & -> & Hs'); auto.
    simpl. eauto.
  - eexists. split; [done|]. inv_weaken.
Qed.

(** ** Public operations keep the invariant *)

Lemma Get_wf k s : wf s → ∃ r s', Get k s = Done (r, s') ∧ wf s'.
Proof.
  intros Hwf. unfold Get.
  destruct (get_inv _ s k Hwf) as (po & s1 & -> & Hs1 & _ & _ & _ & _ & _ & _ & Hidx).
  simpl. destruct po as [p|].
  - destruct (getReference_inv no_credit s1 p) as (h & s2 & -> & Hs2 & _); auto.
    simpl. eauto.
  - do 2 eexists. split; [done|]. unfold wf. inv_weaken.
Qed.

Lemma Release_wf e l s : wf s → ∃ r s', Release e l s = Done (r, s') ∧ wf s'.
Proof.
  intros Hwf. unfold Release.
  destruct (layerMap s !! layer_ChainID l) as [p|] eqn:Hk; [|eauto].
  destruct (inv_index _ _ Hwf _ _ Hk) as (n & Hp & Hn). unfold deref. rewrite Hp.
  simpl. destruct (hasReference n l) eqn:Hhas; [|eauto].
  apply bool_decide_eq_true in Hhas.
  apply releaseLayer_inv.
  - eapply (inv_set_node s p n (deleteReference n l)); eauto.
    + intros q Hq. unfold credit_add, no_credit. rewrite credit_at_ne by done. lia.
    + intros Hidx. pose proof (inv_count _ _ Hwf _ _ _ Hidx Hp) as Hc.
      unfold credit_add, no_credit in *. rewrite credit_at_eq. simpl.
      assert (S (size (references n ∖ {[layer_ref l]})) = size (references n)); [|lia].
      rewrite size_difference by set_solver. rewrite size_singleton.
      assert (0 < size (references n)); [|lia].
      destruct (decide (size (references n) = 0)) as [E|]; [|lia].
      apply size_empty_inv in E. set_solver.
    + intros r Hr. simpl in Hr. eapply inv_ref; eauto. set_solver.
  - apply (indexed_set_node s p n (deleteReference n l)); try done.
    exists n. split; [done|]. congruence.
Qed.

(** ** Publishing a new layer *)

Lemma children_fresh c s a : inv c s → heap s !! a = None → children s a = ∅.
Proof.
  intros Hinv Ha. apply map_empty. intros k.
  destruct (children s a !! k) as [q|] eqn:E; [|done].
  apply children_lookup in E as [Hk Hpar].
  destruct (inv_index _ _ Hinv _ _ Hk) as (n & Hq & _).
  unfold parent_of in Hpar. rewrite Hq in Hpar. simpl in Hpar.
  destruct (inv_parent _ _ Hinv _ _ _ _ Hk Hq Hpar) as [_ (m & Hm & _)]. congruence.
Qed.

Lemma mounted_on_fresh c s a : inv c s → heap s !! a = None → mounted_on s a = ∅.
Proof.
  intros Hinv Ha. apply map_empty. intros k.
  destruct (mounted_on s a !! k) as [q|] eqn:E; [|done].
  apply mounted_on_lookup in E as [Hk Hpar].
  destruct (inv_mount _ _ Hinv _ _ _ Hk Hpar) as (m & Hm & _). congruence.
Qed.

Lemma heap_next_ptr c s : inv c s → heap s !! next_ptr s = None.
Proof.
  intros Hinv. destruct (heap s !! next_ptr s) eqn:E; [|done].
  pose proof (inv_ptr _ _ Hinv (next_ptr s) ltac:(eauto)). lia.
Qed.

Section publish.
Context (s : layerStore) (node : roLayer).

Lemma indexed_publish c q :
  inv c s → layerMap s !! chainID node = None → indexed s q →
  indexed (publish node s) q.
Proof.
  intros Hinv Hnew (n & Hq & Hn). exists n. unfold publish. simpl.
  pose proof (heap_next_ptr _ _ Hinv) as Ha.
  rewrite !lookup_insert_ne; [done| |]; congruence.
Qed.

Lemma parent_of_publish q :
  q ≠ next_ptr s → parent_of (publish node s) q = parent_of s q.
Proof. intros Hq. unfold parent_of, publish. simpl. by rewrite lookup_insert_ne. Qed.

Lemma children_publish c q :
  inv c s → layerMap s !! chainID node = None →
  children (publish node s) q
  = if decide (parent node = Some q)
    then <[chainID node := next_ptr s]> (children s q) else children s q.
Proof.
  intros Hinv Hnew. pose proof (heap_next_ptr _ _ Hinv) as Ha.
  assert (Hext : filter (λ kv : string * nat, parent_of (publish node s) kv.2 = Some q)
                   (layerMap s) = children s q).
  { unfold children. apply map_filter_ext. intros k x Hk. simpl.
    rewrite parent_of_publish; [done|].
    destruct (inv_index _ _ Hinv _ _ Hk) as (n & Hx & _). congruence. }
  assert (Hpa : parent_of (publish node s) (next_ptr s) = parent node).
  { unfold parent_of, publish. simpl. by rewrite lookup_insert_eq. }
  unfold children at 1.
  change (layerMap (publish node s)) with (<[chainID node := next_ptr s]> (layerMap s)).
  rewrite map_filter_insert. simpl. rewrite Hpa.
  destruct (decide (parent node = Some q)).
  - by rewrite Hext.
  - rewrite delete_id by done. by rewrite Hext.
Qed.

Lemma inv_publish c c' :
  inv (credit_add c (credit_opt (parent node))) s →
  layerMap s !! chainID node = None →
  (∀ pp, parent node = Some pp → indexed s pp) →
  references node = ∅ →
  (∀ q, q ≠ next_ptr s → c' q ≤ c q) → c' (next_ptr s) ≤ referenceCount node →
  inv c' (publish node s).
Proof.
  intros Hinv Hnew Hpar Hrefs Hc Hca.
  pose proof (heap_next_ptr _ _ Hinv) as Ha.
  assert (Hold : ∀ k q, layerMap s !! k = Some q → q ≠ next_ptr s ∧ k ≠ chainID node).
  { intros k q Hk. destruct (inv_index _ _ Hinv _ _ Hk) as (n & Hq & _).
    split; congruence. }
  split.
  - intros k q Hk. unfold publish in *; simpl in *.
    apply lookup_insert_Some in Hk as [[<- <-]|[Hne Hk]].
    + exists node. by rewrite lookup_insert_eq.
    + destruct (inv_index _ _ Hinv _ _ Hk) as (n & Hq & Hn). exists n.
      rewrite lookup_insert_ne; [done|]. congruence.
  - intros k q n pp Hk Hq Hp. unfold publish in Hk, Hq; simpl in Hk, Hq.
    apply lookup_insert_Some in Hk as [[<- <-]|[Hne Hk]].
    + rewrite lookup_insert_eq in Hq. injection Hq as <-.
      pose proof (Hpar pp Hp) as Hidx. split.
      * destruct Hidx as (m & Hm & _).
        pose proof (inv_ptr _ _ Hinv pp ltac:(eauto)). lia.
      * by eapply indexed_publish.
    + destruct (Hold _ _ Hk) as [Hqa _]. rewrite lookup_insert_ne in Hq by done.
      destruct (inv_parent _ _ Hinv _ _ _ _ Hk Hq Hp) as [? ?]. split; [done|].
      by eapply indexed_publish.
  - intros m ml pp Hm Hp. eapply indexed_publish; eauto.
    eapply (inv_mount _ _ Hinv); eauto.
  - intros k q n Hk Hq.
    rewrite (children_publish (credit_add c (credit_opt (parent node)))) by done.
    change (mounted_on (publish node s) q) with (mounted_on s q).
    unfold publish in Hk, Hq; simpl in Hk, Hq.
    apply lookup_insert_Some in Hk as [[<- <-]|[Hne Hk]].
    + rewrite lookup_insert_eq in Hq. injection Hq as <-.
      rewrite decide_False.
      2: { intros Hp. destruct (Hpar _ Hp) as (m & Hm & _). congruence. }
      rewrite (children_fresh _ _ _ Hinv Ha), (mounted_on_fresh _ _ _ Hinv Ha).
      rewrite Hrefs, size_empty, !map_size_empty. lia.
    + destruct (Hold _ _ Hk) as [Hqa _]. rewrite lookup_insert_ne in Hq by done.
      pose proof (inv_count _ _ Hinv _ _ _ Hk Hq) as Hcount.
      unfold credit_add in Hcount. specialize (Hc q Hqa).
      destruct (decide (parent node = Some q)) as [Hp|Hp].
      * rewrite Hp in Hcount. simpl in Hcount. rewrite credit_at_eq in Hcount.
        rewrite map_size_insert_None; [lia|].
        destruct (children s q !! chainID node) eqn:E; [|done].
        apply children_lookup in E as [E _]. congruence.
      * lia.
  - intros q Hq. unfold publish in *; simpl in *.
    destruct (decide (q = next_ptr s)) as [->|]; [lia|].
    rewrite lookup_insert_ne in Hq by done.
    pose proof (inv_ptr _ _ Hinv q Hq). lia.
  - intros q n r Hq Hr. unfold publish in *; simpl in *.
    destruct (decide (q = next_ptr s)) as [->|].
    + rewrite lookup_insert_eq in Hq. injection Hq as <-. set_solver.
    + rewrite lookup_insert_ne in Hq by done. eapply (inv_ref _ _ Hinv); eauto.
  - intros m ml r Hm Hr. eapply (inv_mref _ _ Hinv); eauto.
Qed.
End publish.

(** ** [Register] keeps the invariant *)

Lemma indexed_frame s s' q :
  heap s' = heap s → layerMap s' = layerMap s → indexed s q → indexed s' q.
Proof. intros Hh Hl (n & ? & ?). exists n. by rewrite Hh, Hl. Qed.

Lemma register_fail_early_wf {A} e p err s :
  inv (credit_add no_credit (credit_opt p)) s → (∀ pp, p = Some pp → indexed s pp) →
  ∃ r s', register_fail_early (A:=A) e p err s = Done (r, s') ∧ wf s'.
Proof.
  intros Hinv Hidx. unfold register_fail_early.
  destruct (release_parent_inv no_credit (reg_release e) s p) as (s' & -> & Hs'); auto.
  simpl. eauto.
Qed.

Lemma register_fail_wf {A} e p err s :
  inv (credit_add no_credit (credit_opt p)) s → (∀ pp, p = Some pp → indexed s pp) →
  ∃ r s', register_fail (A:=A) e p err s = Done (r, s') ∧ wf s'.
Proof.
  intros Hinv Hidx. unfold register_fail.
  destruct (release_parent_inv no_credit (reg_release e) (cleanup_cache e s) p)
    as (s' & -> & Hs').
  - eapply inv_frame; [..|exact Hinv]; unfold cleanup_cache, driver_Remove;
      destruct (reg_remove e); simpl; auto.
  - intros pp Hpp. eapply indexed_frame; [..|by apply Hidx];
      unfold cleanup_cache, driver_Remove; destruct (reg_remove e); simpl; auto.
  - simpl. eauto.
Qed.

Lemma register_layer_wf `{Digester} e ts p pid s :
  inv (credit_add no_credit (credit_opt p)) s → (∀ pp, p = Some pp → indexed s pp) →
  ∃ r s', register_layer e ts p pid s = Done (r, s') ∧ wf s'.
Proof.
  intros Hinv Hidx. unfold register_layer.
  destruct (reg_create e) as [err|]; [by apply register_fail_early_wf|].
  set (s1 := driver_Create None (reg_cacheID e) s).
  assert (Hs1 : inv (credit_add no_credit (credit_opt p)) s1).
  { eapply inv_frame; [..|exact Hinv]; simpl; auto. }
  assert (Hidx1 : ∀ pp, p = Some pp → indexed s1 pp).
  { intros pp Hpp. eapply indexed_frame; [..|by apply Hidx]; simpl; auto. }
  destruct (reg_startTx e) as [err|]; [by apply register_fail_early_wf|].
  destruct (reg_applyTar e) as [applySize|err]; [|by apply register_fail_wf].
  assert (∃ pchain, match p with
                    | Some pp => np ← deref s1 pp; Done (Some (chainID np))
                    | None => Done None
                    end = Done pchain) as [pchain ->].
  { destruct p as [pp|]; [|eauto]. destruct (Hidx1 pp eq_refl) as (np & Hnp & _).
    unfold deref. rewrite Hnp. simpl. eauto. }
  simpl.
  destruct (reg_storeLayer e) as [err|]; [by apply register_fail_wf|].
  set (chain := match pchain with Some pc => chainDigest pc (digest ts) | None => digest ts end).
  destruct (get_inv _ s1 chain Hs1)
    as (ex & s2 & -> & Hs2 & Hlook & Hlm & _ & _ & _ & Hidx2 & Hex).
  simpl. destruct ex as [x|].
  - destruct (getReference_inv (credit_add no_credit (credit_opt p)) s2 x)
      as (h & s3 & -> & Hs3 & _ & _ & _ & _ & _ & Hidx3); auto.
    simpl.
    destruct (release_parent_inv no_credit (reg_release e) (cleanup_cache e s3) p)
      as (s4 & -> & Hs4).
    + eapply inv_frame; [..|exact Hs3]; unfold cleanup_cache, driver_Remove;
        destruct (reg_remove e); simpl; auto.
    + intros pp Hpp. eapply indexed_frame; [..|by apply Hidx3, Hidx2, Hidx1];
        unfold cleanup_cache, driver_Remove; destruct (reg_remove e); simpl; auto.
    + simpl. eauto.
  - destruct (reg_commit e) as [err|].
    { apply register_fail_wf; [inv_weaken|by auto]. }
    set (layer := mkRoLayer chain (digest ts) p (reg_cacheID e) applySize 1 ∅).
    set (s3 := with_store _ s2).
    assert (Hs3 : inv (credit_add no_credit (credit_opt (parent layer))) s3).
    { eapply (inv_frame _ s2); [simpl; auto..|]. simpl. inv_weaken. }
    assert (Hnew : layerMap s3 !! chainID layer = None) by (simpl; congruence).
    assert (Hs4 : inv (credit_add no_credit (credit_at (next_ptr s3))) (publish layer s3)).
    { apply (inv_publish s3 layer no_credit); [exact Hs3|exact Hnew| |done| |].
      - intros pp Hpp. eapply indexed_frame; [..|by apply Hidx2, Hidx1]; simpl; auto.
      - intros q Hq. unfold credit_add. rewrite credit_at_ne by done. lia.
      - unfold credit_add. rewrite credit_at_eq. simpl. lia. }
    destruct (getReference_inv no_credit (publish layer s3) (next_ptr s3))
      as (h & s5 & Hget & Hs5 & _); auto.
    { exists layer. unfold publish. simpl. by rewrite !lookup_insert_eq. }
    change (next_ptr s2) with (next_ptr s3). rewrite Hget. simpl. eauto.
Qed.

Lemma Register_wf `{Digester} e ts parent s :
  wf s → ∃ r s', Register e ts parent s = Done (r, s') ∧ wf s'.
Proof.
  intros Hwf. unfold Register, registerWithDescriptor.
  destruct (decide (parent = "")) as [_|_].
  { apply register_layer_wf; [inv_weaken|]. intros ? [=]. }
  destruct (get_inv _ s parent Hwf) as (po & s1 & -> & Hs1 & _ & _ & _ & _ & _ & _ & Hpo).
  simpl. destruct po as [p|]; [|do 2 eexists; split; [done|unfold wf; inv_weaken]].
  pose proof (Hpo p eq_refl) as Hp. pose proof Hp as (np & Hnp & _).
  unfold deref. rewrite Hnp. simpl.
  destruct (depth_loop_total s1 p) with (k := fuel s1) as [d Hd].
  { eapply chain_ok_indexed; eauto. }
  { pose proof (inv_ptr _ _ Hs1 p ltac:(eauto)). unfold fuel. lia. }
  unfold depth. rewrite Hd. simpl.
  destruct (bool_decide (maxLayerDepth ≤ d)).
  - apply register_fail_early_wf; [done|]. by intros ? [= <-].
  - apply register_layer_wf; [done|]. by intros ? [= <-].
Qed.

(** ** Changing the mounts index *)

Lemma inv_mounts_change c c' s s' :
  inv c s → heap s' = heap s → layerMap s' = layerMap s →
  next_ptr s ≤ next_ptr s' → next_ref s ≤ next_ref s' →
  (∀ m ml pp, mounts s' !! m = Some ml → mparent ml = Some pp → indexed s pp) →
  (∀ m ml r, mounts s' !! m = Some ml → r ∈ mreferences ml → r < next_ref s') →
  (∀ q, size (mounted_on s' q) + c' q ≤ size (mounted_on s q) + c q) →
  inv c' s'.
Proof.
  intros [H1 H2 H3 H4 H5 H6 H7] Hh Hl Hp Hr Hpar Hrefs Hsize.
  assert (Hidx : ∀ q, indexed s q → indexed s' q).
  { intros q. by apply indexed_frame. }
  assert (Hch : ∀ q, children s' q = children s q).
  { intros q. unfold children, parent_of. by rewrite Hh, Hl. }
  split; rewrite ?Hh, ?Hl.
  - done.
  - intros k p n pp ???. destruct (H2 k p n pp) as [? ?]; auto.
  - intros m ml pp ??. eauto.
  - intros k p n Hk Hn. rewrite Hch. specialize (H4 k p n Hk Hn).
    specialize (Hsize p). lia.
  - intros p Hq. specialize (H5 p Hq). lia.
  - intros p n r Hq Hin. specialize (H6 p n r Hq Hin). lia.
  - done.
Qed.

Lemma size_mounted_insert_new (M : gmap string mountedLayer) name m q :
  M !! name = None →
  size (filter (λ kv : string * mountedLayer, mparent kv.2 = Some q) (<[name := m]> M))
  = size (filter (λ kv : string * mountedLayer, mparent kv.2 = Some q) M) + on_parent q m.
Proof.
  intros Hnew. rewrite map_filter_insert. simpl. unfold on_parent.
  destruct (decide (mparent m = Some q)).
  - rewrite map_size_insert_None; [lia|].
    apply map_lookup_filter_None. by left.
  - rewrite delete_id by done. lia.
Qed.

Lemma size_mounted_delete (M : gmap string mountedLayer) name m q :
  M !! name = Some m →
  size (filter (λ kv : string * mountedLayer, mparent kv.2 = Some q) (delete name M))
    + on_parent q m
  = size (filter (λ kv : string * mountedLayer, mparent kv.2 = Some q) M).
Proof.
  intros Hm. rewrite <-(insert_delete_id M name m) at 2 by done.
  rewrite size_mounted_insert_new by apply lookup_delete_eq. done.
Qed.

Lemma size_mounted_update (M : gmap string mountedLayer) name m0 m q :
  M !! name = Some m0 → mparent m = mparent m0 →
  size (filter (λ kv : string * mountedLayer, mparent kv.2 = Some q) (<[name := m]> M))
  = size (filter (λ kv : string * mountedLayer, mparent kv.2 = Some q) M).
Proof.
  intros Hm Hpar. rewrite <-(insert_delete_eq M).
  rewrite size_mounted_insert_new by apply lookup_delete_eq.
  rewrite <-(size_mounted_delete M name m0 q Hm). unfold on_parent. by rewrite Hpar.
Qed.

Lemma inv_mount_update c s s' name m0 m :
  inv c s → heap s' = heap s → layerMap s' = layerMap s →
  next_ptr s ≤ next_ptr s' → next_ref s ≤ next_ref s' →
  mounts s !! name = Some m0 → mparent m = mparent m0 →
  (∀ r, r ∈ mreferences m → r < next_ref s') →
  mounts s' = <[name := m]> (mounts s) →
  inv c s'.
Proof.
  intros Hinv Hh Hl Hp Hr Hm Hpar Hrefs Hmo.
  eapply inv_mounts_change; eauto; rewrite ?Hmo.
  - intros k ml pp Hk Hpp. apply lookup_insert_Some in Hk as [[<- <-]|[_ Hk]].
    + rewrite Hpar in Hpp. eapply (inv_mount _ _ Hinv); eauto.
    + eapply (inv_mount _ _ Hinv); eauto.
  - intros k ml r Hk Hin. apply lookup_insert_Some in Hk as [[<- <-]|[_ Hk]]; [auto|].
    pose proof (inv_mref _ _ Hinv _ _ _ Hk Hin). lia.
  - intros q. unfold mounted_on. rewrite Hmo.
    rewrite (size_mounted_update _ _ m0) by done. lia.
Qed.

Lemma inv_mount_insert c s s' m :
  inv (credit_add c (credit_opt (mparent m))) s →
  heap s' = heap s → layerMap s' = layerMap s →
  next_ptr s ≤ next_ptr s' → next_ref s ≤ next_ref s' →
  mounts s !! mname m = None →
  (∀ pp, mparent m = Some pp → indexed s pp) →
  (∀ r, r ∈ mreferences m → r < next_ref s') →
  mounts s' = <[mname m := m]> (mounts s) →
  inv c s'.
Proof.
  intros Hinv Hh Hl Hp Hr Hm Hpar Hrefs Hmo.
  eapply inv_mounts_change; eauto; rewrite ?Hmo.
  - intros k ml pp Hk Hpp. apply lookup_insert_Some in Hk as [[<- <-]|[_ Hk]]; [auto|].
    eapply (inv_mount _ _ Hinv); eauto.
  - intros k ml r Hk Hin. apply lookup_insert_Some in Hk as [[<- <-]|[_ Hk]]; [auto|].
    pose proof (inv_mref _ _ Hinv _ _ _ Hk Hin). lia.
  - intros q. unfold mounted_on. rewrite Hmo.
    rewrite size_mounted_insert_new by done. unfold credit_add, on_parent.
    destruct (mparent m) as [pp|]; simpl; unfold credit_at, no_credit;
      repeat case_decide; simplify_eq; lia.
Qed.

Lemma inv_mount_delete c s s' name m0 :
  inv c s → heap s' = heap s → layerMap s' = layerMap s →
  next_ptr s ≤ next_ptr s' → next_ref s ≤ next_ref s' →
  mounts s !! name = Some m0 →
  mounts s' = delete name (mounts s) →
  inv (credit_add c (credit_opt (mparent m0))) s'.
Proof.
  intros Hinv Hh Hl Hp Hr Hm Hmo.
  eapply inv_mounts_change; eauto; rewrite ?Hmo.
  - intros k ml pp Hk Hpp. apply lookup_delete_Some in Hk as [_ Hk].
    eapply (inv_mount _ _ Hinv); eauto.
  - intros k ml r Hk Hin. apply lookup_delete_Some in Hk as [_ Hk].
    pose proof (inv_mref _ _ Hinv _ _ _ Hk Hin). lia.
  - intros q. unfold mounted_on. rewrite Hmo.
    rewrite <-(size_mounted_delete (mounts s) name m0 q Hm). unfold credit_add, on_parent.
    destruct (mparent m0) as [pp|]; simpl; unfold credit_at, no_credit;
      repeat case_decide; simplify_eq; lia.
Qed.

(** ** The mount operations keep the invariant *)

Lemma saveMount_spec e m s :
  (∀ pp, mparent m = Some pp → is_Some (heap s !! pp)) →
  ∃ sr s', saveMount e m s = Done (sr, s') ∧
    heap s' = heap s ∧ layerMap s' = layerMap s ∧
    next_ptr s' = next_ptr s ∧ next_ref s' = next_ref s ∧ driver s' = driver s ∧
    mounts s' = match sr with
                | Some _ => mounts s
                | None => <[mname m := m]> (mounts s)
                end.
Proof.
  intros Hpar. unfold saveMount.
  destruct (crw_setMountID e); [by eauto 10|].
  destruct (decide (initID m = "")).
  - destruct (mparent m) as [pp|]; [|by eauto 10].
    destruct (Hpar pp eq_refl) as [np Hnp]. unfold deref. simpl. rewrite Hnp. simpl.
    destruct (crw_setMountParent e); eauto 10.
  - destruct (crw_setInitID e); [by eauto 10|].
    destruct (mparent m) as [pp|]; [|by eauto 10].
    destruct (Hpar pp eq_refl) as [np Hnp]. unfold deref. simpl. rewrite Hnp. simpl.
    destruct (crw_setMountParent e); eauto 10.
Qed.

Lemma initMount_frame e g f s :
  ∃ r s1, initMount e g f s = (r, s1) ∧ same_mem s s1.
Proof.
  unfold initMount. destruct (crw_initCreate e); [by eauto using same_mem_refl|].
  destruct (crw_initGet e) as [path|]; [|by eexists _, _].
  destruct (f path); [by eexists _, _|].
  destruct (crw_initPut e); by eexists _, _.
Qed.

Lemma createRW_fail_wf {A} e p err s :
  inv (credit_add no_credit (credit_opt p)) s → (∀ pp, p = Some pp → indexed s pp) →
  ∃ r s', createRW_fail (A:=A) e p err s = Done (r, s') ∧ wf s'.
Proof.
  intros Hinv Hidx. unfold createRW_fail.
  destruct (release_parent_inv no_credit (crw_release e) s p) as (s' & -> & Hs'); auto.
  simpl. eauto.
Qed.

Lemma createRW_mount_wf e name opts p parentID s :
  inv (credit_add no_credit (credit_opt p)) s → (∀ pp, p = Some pp → indexed s pp) →
  mounts s !! name = None →
  ∃ r s', createRW_mount e name opts p parentID s = Done (r, s') ∧ wf s'.
Proof.
  intros Hinv Hidx Hnew. unfold createRW_mount.
  assert (∃ ir s1,
    match opts ≫= InitFunc with
    | Some f =>
        match initMount e (mountID (mkMountedLayer name (crw_mountID e) "" p ∅)) f s with
        | (Ok i, s') => (Ok (Some i), s')
        | (Err err, s') => (Err err, s')
        end
    | None => (Ok None, s)
    end = (ir, s1) ∧ same_mem s s1) as (ir & s1 & -> & Hs1).
  { destruct (opts ≫= InitFunc) as [f|]; [|by eauto using same_mem_refl].
    destruct (initMount_frame e (crw_mountID e) f s) as (r & s1 & Hr & Hs1).
    simpl. rewrite Hr. destruct r; eauto. }
  pose proof (inv_same_mem _ _ _ Hs1 Hinv) as Hinv1.
  assert (Hidx1 : ∀ pp, p = Some pp → indexed s1 pp).
  { intros pp Hpp. eapply indexed_same_mem; eauto. }
  destruct ir as [io|err]; [|by apply createRW_fail_wf].
  destruct (crw_create e) as [err|]; [by apply createRW_fail_wf|].
  set (m1 := mkMountedLayer name (crw_mountID e) (default "" io) p ∅).
  set (s2 := driver_Create None (mountID m1) s1).
  destruct (saveMount_spec e m1 s2) as (sr & s3 & -> & Hh & Hl & Hp & Hr & _ & Hmo).
  { intros pp Hpp. destruct (Hidx1 pp Hpp) as (np & Hnp & _). simpl. eauto. }
  simpl in Hh, Hl, Hp, Hr, Hmo. destruct Hs1 as (Hh1 & Hl1 & Hmo1 & Hp1 & Hr1).
  simpl. destruct sr as [err|].
  - apply createRW_fail_wf.
    + eapply inv_frame; [..|exact Hinv]; try congruence; lia.
    + intros pp Hpp. eapply indexed_frame; [..|by apply Hidx]; congruence.
  - simpl. do 2 eexists. split; [done|].
    eapply (inv_mount_insert no_credit s _
              (set_mreferences ({[next_ref s3]} ∪ ∅) m1)).
    + exact Hinv.
    + simpl. congruence.
    + simpl. congruence.
    + simpl. lia.
    + simpl. lia.
    + exact Hnew.
    + exact Hidx.
    + simpl. intros r Hin. assert (r = next_ref s3) by set_solver. lia.
    + simpl. rewrite Hmo, Hmo1. by rewrite insert_insert_eq.
Qed.

Lemma CreateRWLayer_wf e name parent opts s :
  wf s → ∃ r s', CreateRWLayer e name parent opts s = Done (r, s') ∧ wf s'.
Proof.
  intros Hwf. unfold CreateRWLayer.
  destruct (mounts s !! name) eqn:Hnew; [by eauto|].
  destruct (decide (parent = "")) as [_|_].
  { apply createRW_mount_wf; [inv_weaken| |done]. intros ? [=]. }
  destruct (get_inv _ s parent Hwf) as (po & s1 & -> & Hs1 & _ & _ & Hmo & _ & _ & _ & Hpo).
  simpl. destruct po as [p|]; [|do 2 eexists; split; [done|unfold wf; inv_weaken]].
  pose proof (Hpo p eq_refl) as Hp. pose proof Hp as (np & Hnp & _).
  unfold deref. rewrite Hnp. simpl.
  apply createRW_mount_wf; [done| |congruence]. by intros ? [= <-].
Qed.

Lemma GetRWLayer_wf id s : wf s → wf (GetRWLayer id s).2.
Proof.
  intros Hwf. unfold GetRWLayer. destruct (mounts s !! id) as [m|] eqn:Hm; [|done].
  simpl. eapply (inv_mount_update _ s _ id m (set_mreferences ({[next_ref s]} ∪ mreferences m) m));
    simpl; eauto.
  intros r Hin. apply elem_of_union in Hin as [Hin|Hin].
  - apply elem_of_singleton in Hin. lia.
  - pose proof (inv_mref _ _ Hwf _ _ _ Hm Hin). lia.
Qed.

Lemma ReleaseRWLayer_wf e l s :
  wf s → ∃ r s', ReleaseRWLayer e l s = Done (r, s') ∧ wf s'.
Proof.
  intros Hwf. unfold ReleaseRWLayer.
  destruct (mounts s !! rw_Name l) as [m|] eqn:Hm; [|by eauto].
  unfold m_deleteReference. destruct (bool_decide (rw_ref l ∈ mreferences m)) eqn:Hin;
    [|by eauto].
  apply bool_decide_eq_true in Hin.
  set (m1 := set_mreferences (mreferences m ∖ {[rw_ref l]}) m).
  set (s1 := with_mounts (<[rw_Name l := m1]> (mounts s)) s).
  assert (Hs1 : wf s1).
  { eapply (inv_mount_update _ s _ (rw_Name l) m m1); simpl; eauto.
    intros r Hr. eapply (inv_mref _ _ Hwf); eauto. set_solver. }
  assert (Hretake : ∀ s', heap s' = heap s → layerMap s' = layerMap s →
            next_ptr s' = next_ptr s → next_ref s' = next_ref s →
            mounts s' = mounts s1 →
            wf (with_mounts (<[rw_Name l := m_retakeReference m1 l]> (mounts s1)) s')).
  { intros s' Hh Hl Hp Hr Hmo.
    eapply (inv_mount_update _ s _ (rw_Name l) m (m_retakeReference m1 l)); simpl;
      eauto; try lia.
    - intros r Hr'. rewrite Hr. eapply (inv_mref _ _ Hwf); eauto. set_solver.
    - by rewrite insert_insert_eq. }
  destruct (m_hasReferences m1); [by eauto|].
  destruct (rrw_removeMount e); [do 2 eexists; split; [done|by apply Hretake]|].
  destruct (decide (initID m1 = "")).
  - destruct (rrw_removeMeta e); [do 2 eexists; split; [done|by apply Hretake]|].
    set (s5 := with_mounts _ _).
    assert (Hs5 : inv (credit_add no_credit (credit_opt (mparent m1))) s5).
    { eapply (inv_mount_delete _ s _ (rw_Name l) m); simpl; eauto.
      by rewrite delete_insert_eq. }
    destruct (mparent m1) as [p|] eqn:Hp; [|do 2 eexists; split; [done|unfold wf; inv_weaken]].
    apply releaseLayer_inv; [done|].
    eapply indexed_frame; [..|eapply (inv_mount _ _ Hwf); eauto]; done.
  - destruct (rrw_removeInit e); [do 2 eexists; split; [done|by apply Hretake]|].
    destruct (rrw_removeMeta e); [do 2 eexists; split; [done|by apply Hretake]|].
    set (s5 := with_mounts _ _).
    assert (Hs5 : inv (credit_add no_credit (credit_opt (mparent m1))) s5).
    { eapply (inv_mount_delete _ s _ (rw_Name l) m); simpl; eauto.
      by rewrite delete_insert_eq. }
    destruct (mparent m1) as [p|] eqn:Hp; [|do 2 eexists; split; [done|unfold wf; inv_weaken]].
    apply releaseLayer_inv; [done|].
    eapply indexed_frame; [..|eapply (inv_mount _ _ Hwf); eauto]; done.
Qed.

(** ** Every sequence of public calls runs to completion *)

Lemma run_call_wf `{Digester} c s : wf s → ∃ s', run_call c s = Done s' ∧ wf s'.
Proof.
  intros Hwf. destruct c as [k|e ts parent|e l|e name parent opts|id|e l]; simpl.
  - destruct (Get_wf k s Hwf) as (r & s' & -> & ?). simpl. eauto.
  - destruct (Register_wf e ts parent s Hwf) as (r & s' & -> & ?). simpl. eauto.
  - destruct (Release_wf e l s Hwf) as (r & s' & -> & ?). simpl. eauto.
  - destruct (CreateRWLayer_wf e name parent opts s Hwf) as (r & s' & -> & ?). simpl. eauto.
  - eexists. split; [done|]. by apply GetRWLayer_wf.
  - destruct (ReleaseRWLayer_wf e l s Hwf) as (r & s' & -> & ?). simpl. eauto.
Qed.


Lemma wf_empty_store ms d : wf (empty_store ms d).
Proof.
  split; simpl; try (intros; simplify_map_eq; fail).
  - intros p [n Hn]. by rewrite lookup_empty in Hn.
Qed.

(** ** What the release cascade leaves alone *)

Lemma deleteLayer_same_mem e l s r s' :
  deleteLayer e l s = Done (r, s') → same_mem s s'.
Proof.
  unfold deleteLayer, deref. destruct (heap s !! l) as [n|]; [|done]. simpl.
  destruct (del_rename e), (del_remove e), (del_removeAll e); simpl;
    try (intros [= <- <-]; by repeat split);
    destruct (Size _ l); simpl; try done; intros [= <- <-]; by repeat split.
Qed.

Lemma releaseLayer_loop_frame k : ∀ e d rem l s r s',
  releaseLayer_loop k e d rem l s = Done (r, s') →
  mounts s' = mounts s ∧ next_ptr s' = next_ptr s ∧ next_ref s' = next_ref s.
Proof.
  induction k as [|k IH]; intros e d rem l s r s'; [done|].
  simpl. unfold deref. destruct (heap s !! l) as [n|]; [|done]. simpl.
  case_bool_decide; [done|].
  case_bool_decide; simpl; [|by intros [= <- <-]].
  destruct (_ && _); [done|]. destruct (hasReferences _); [done|].
  destruct (deleteLayer _ _ _) as [[r3 s3]| | |] eqn:Hdel; simpl; try done.
  apply deleteLayer_same_mem in Hdel as (_ & _ & Hm & Hp & Hr). simpl in *.
  destruct r3 as [md|err]; [|intros [= <- <-]; auto].
  destruct (parent n) as [pp|]; [|intros [= <- <-]; auto].
  intros Hrec. apply IH in Hrec as (-> & -> & ->). auto.
Qed.

(** * The claims *)

(** ** Releasing what is not held *)

(** C8: for a handle whose ChainID is in the layer index but which is not
    registered in that layer's reference set, [Release] returns
    [ErrLayerNotRetained] and leaves the whole store (reference count, index,
    backing state) unchanged. *)
Theorem C8_release_not_retained e (l : Layer) s p n :
  layerMap s !! layer_ChainID l = Some p →
  heap s !! p = Some n →
  layer_ref l ∉ references n →
  Release e l s = Done (Err ErrLayerNotRetained, s).
Proof.
  intros Hp Hn Hnot. unfold Release, deref. rewrite Hp, Hn. simpl.
  unfold hasReference. by rewrite bool_decide_eq_false_2.
Qed.

Lemma C8_witness :
  Release all_deleted (mkLayer 5 "a") store_root
  = Done (Err ErrLayerNotRetained, store_root).
Proof.
  apply (C8_release_not_retained all_deleted (mkLayer 5 "a") store_root 0
           (mkRoLayer "a" "a" None "c1" 10 1 {[0]})).
  - vm_compute. reflexivity.
  - vm_compute. reflexivity.
  - simpl. apply not_elem_of_singleton. lia.
Defined.

(** C10: releasing an identity that the store does not hold is a silent
    no-op.  A [Layer] handle whose ChainID is not in the layer index makes
    [Release] return an empty list and no error; an [RWLayer] handle whose
    name is not in the mounts index makes [ReleaseRWLayer] do the same;
    neither changes the store. *)
Theorem C10_release_absent e e' (l : Layer) (rl : RWLayer) s :
  (layerMap s !! layer_ChainID l = None → Release e l s = Done (Ok [], s)) ∧
  (mounts s !! rw_Name rl = None → ReleaseRWLayer e' rl s = Done (Ok [], s)).
Proof.
  split; intros Hnone.
  - unfold Release. by rewrite Hnone.
  - unfold ReleaseRWLayer. by rewrite Hnone.
Qed.

Lemma C10_witness :
  Release all_deleted (mkLayer 0 "zz") store_root = Done (Ok [], store_root) ∧
  ReleaseRWLayer releaseRW_env_ok (mkRWLayer 0 "nobody") store_root
  = Done (Ok [], store_root).
Proof.
  destruct (C10_release_absent all_deleted releaseRW_env_ok (mkLayer 0 "zz")
              (mkRWLayer 0 "nobody") store_root) as [H1 H2].
  split; [apply H1|apply H2]; vm_compute; reflexivity.
Defined.

(** ** Mount names *)

Lemma CreateRWLayer_succeeds e name parent opts s :
  wf s → mounts s !! name = None → createRW_ok e opts →
  (parent = "" ∨ is_Some (layerMap s !! parent)) →
  ∃ h s', CreateRWLayer e name parent opts s = Done (Ok h, s') ∧
    rw_Name h = name ∧
    ∃ m, mounts s' !! name = Some m ∧ mreferences m = {[rw_ref h]} ∧
         mname m = name ∧ mparent m = (if decide (parent = "") then None
                                       else layerMap s !! parent).
Proof.
  intros Hwf Hnew (Hic & (path & Hig & Hif) & Hip & Hcr & Hsm & Hsi & Hsp) Hpar.
  unfold CreateRWLayer. rewrite Hnew.
  assert (Hmount : ∀ p pid s1, (∀ pp, p = Some pp → is_Some (heap s1 !! pp)) →
    ∃ h s', createRW_mount e name opts p pid s1 = Done (Ok h, s') ∧
      rw_Name h = name ∧
      ∃ m, mounts s' !! name = Some m ∧ mreferences m = {[rw_ref h]} ∧
           mname m = name ∧ mparent m = p).
  { intros p pid s1 Hp. unfold createRW_mount.
    destruct (opts ≫= InitFunc) as [f|] eqn:Hf.
    - unfold initMount. rewrite Hic, Hig, (Hif f eq_refl), Hip, Hcr. simpl.
      match goal with |- context [saveMount e ?m ?s2] =>
        destruct (saveMount_spec e m s2) as (sr & s3 & Hsave & _ & _ & _ & _ & _ & Hmo) end.
      { simpl. exact Hp. }
      assert (sr = None) as ->.
      { revert Hsave. unfold saveMount. rewrite Hsm, Hsi, Hsp. simpl.
        repeat case_decide; destruct p as [pp|]; simpl;
          try (unfold deref; destruct (heap _ !! pp); simpl); congruence. }
      rewrite Hsave. simpl. do 2 eexists. split; [done|]. split; [done|].
      eexists. simpl. rewrite lookup_insert_eq. split; [done|]. simpl.
      split; [|done]. set_solver.
    - rewrite Hcr. simpl.
      match goal with |- context [saveMount e ?m ?s2] =>
        destruct (saveMount_spec e m s2) as (sr & s3 & Hsave & _ & _ & _ & _ & _ & Hmo) end.
      { simpl. exact Hp. }
      assert (sr = None) as ->.
      { revert Hsave. unfold saveMount. rewrite Hsm, Hsp. simpl.
        destruct p as [pp|]; simpl;
          try (unfold deref; destruct (heap _ !! pp); simpl); congruence. }
      rewrite Hsave. simpl. do 2 eexists. split; [done|]. split; [done|].
      eexists. simpl. rewrite lookup_insert_eq. split; [done|]. simpl.
      split; [|done]. set_solver. }
  destruct (decide (parent = "")) as [Hp|Hp].
  { apply Hmount. intros ? [=]. }
  destruct Hpar as [?|[p Hlook]]; [done|].
  destruct (get_inv _ s parent Hwf) as (po & s1 & -> & Hs1 & Hpo & _ & _ & _ & _ & _ & Hidx).
  rewrite Hlook in Hpo. subst po. simpl.
  destruct (Hidx p eq_refl) as (np & Hnp & _). unfold deref. rewrite Hnp. simpl.
  rewrite Hlook. apply Hmount. intros ? [= <-]. eauto.
Qed.

(** C9: mount names are exclusive while held.  [CreateRWLayer] with a name
    that is in the mounts index fails with [ErrMountNameConflict] and changes
    nothing.  Once a [ReleaseRWLayer] of the last handle has removed the mount
    (its removal steps succeeding), the name is free again: a [CreateRWLayer]
    with the same name, a parent that is empty or indexed and external calls
    that succeed returns a handle for a new mount of that name. *)
Theorem C9_mount_name_exclusive :
  (∀ e name parent opts s m,
     mounts s !! name = Some m →
     CreateRWLayer e name parent opts s = Done (Err ErrMountNameConflict, s)) ∧
  (∀ e (l : RWLayer) s m,
     wf s → mounts s !! rw_Name l = Some m → mreferences m = {[rw_ref l]} →
     rrw_failure e m = None →
     ∃ r s1, ReleaseRWLayer e l s = Done (r, s1) ∧ mounts s1 !! rw_Name l = None ∧
       ∀ e2 parent opts,
         createRW_ok e2 opts → (parent = "" ∨ is_Some (layerMap s1 !! parent)) →
         ∃ h s2, CreateRWLayer e2 (rw_Name l) parent opts s1 = Done (Ok h, s2) ∧
           rw_Name h = rw_Name l ∧
           ∃ m', mounts s2 !! rw_Name l = Some m' ∧ mreferences m' = {[rw_ref h]}).
Proof.
  split.
  - intros e name parent opts s m Hm. unfold CreateRWLayer. by rewrite Hm.
  - intros e l s m Hwf Hm Hrefs Hok.
    destruct (ReleaseRWLayer_wf e l s Hwf) as (r & s1 & Hrel & Hwf1).
    exists r, s1. split; [done|].
    assert (Hgone : mounts s1 !! rw_Name l = None).
    { revert Hrel. unfold ReleaseRWLayer, rrw_failure in *. rewrite Hm.
      unfold m_deleteReference. rewrite Hrefs.
      rewrite bool_decide_eq_true_2 by set_solver.
      unfold m_hasReferences. simpl.
      rewrite bool_decide_eq_true_2 by set_solver. simpl.
      destruct (rrw_removeMount e); [done|].
      destruct (decide (initID m = "")).
      - destruct (rrw_removeMeta e); [done|].
        destruct (mparent m) as [p|].
        + intros Hrel. apply releaseLayer_loop_frame in Hrel as (-> & _).
          simpl. by rewrite lookup_delete_eq.
        + intros [= <- <-]. simpl. by rewrite lookup_delete_eq.
      - destruct (rrw_removeInit e); [done|]. destruct (rrw_removeMeta e); [done|].
        destruct (mparent m) as [p|].
        + intros Hrel. apply releaseLayer_loop_frame in Hrel as (-> & _).
          simpl. by rewrite lookup_delete_eq.
        + intros [= <- <-]. simpl. by rewrite lookup_delete_eq. }
    split; [done|]. intros e2 parent opts He2 Hpar.
    destruct (CreateRWLayer_succeeds e2 (rw_Name l) parent opts s1)
      as (h & s2 & Hc & Hn & m' & Hm' & Hr' & _); auto.
    exists h, s2. eauto.
Qed.

Lemma wf_state_of {A} (o : outcome (A * layerStore)) :
  (∃ r s', o = Done (r, s') ∧ wf s') → wf (state_of o).
Proof. by intros (r & s' & -> & Hwf). Qed.

Lemma wf_store_root : wf store_root.
Proof. apply wf_state_of, Register_wf, wf_empty_store. Qed.

Lemma wf_store_mid : wf store_mid.
Proof. apply wf_state_of, Register_wf, wf_store_root. Qed.

Lemma wf_store_leaf : wf store_leaf.
Proof. apply wf_state_of, Register_wf, wf_store_mid. Qed.

Lemma wf_store_mounted : wf store_mounted.
Proof. apply wf_state_of, CreateRWLayer_wf, wf_store_root. Qed.

Lemma C9_witness :
  CreateRWLayer createRW_env_ok "box" "a" None store_mounted
  = Done (Err ErrMountNameConflict, store_mounted) ∧
  ∃ r s1, ReleaseRWLayer releaseRW_env_ok (mkRWLayer 1 "box") store_mounted
          = Done (r, s1) ∧
    ∃ h s2, CreateRWLayer createRW_env_ok "box" "" None s1 = Done (Ok h, s2).
Proof.
  destruct C9_mount_name_exclusive as [H1 H2]. split.
  - apply (H1 createRW_env_ok "box" "a" None store_mounted
             (mkMountedLayer "box" "m1" "" (Some 0) {[1]})).
    vm_compute. reflexivity.
  - destruct (H2 releaseRW_env_ok (mkRWLayer 1 "box") store_mounted
                (mkMountedLayer "box" "m1" "" (Some 0) {[1]}))
      as (r & s1 & Hrel & _ & Hcreate).
    + exact wf_store_mounted.
    + vm_compute. reflexivity.
    + reflexivity.
    + reflexivity.
    + exists r, s1. split; [exact Hrel|].
      destruct (Hcreate createRW_env_ok "" None) as (h & s2 & Hc & _).
      * unfold createRW_ok. simpl. repeat split; try reflexivity.
        exists "/mnt". split; [reflexivity|]. intros f Hf. discriminate Hf.
      * left. reflexivity.
      * exists h, s2. exact Hc.
Defined.


(** ** Retaining and releasing a layer *)

Lemma get_Some k s p n :
  layerMap s !! k = Some p → heap s !! p = Some n →
  get k s = Done (Some p, set_node p (set_referenceCount (S (referenceCount n)) n) s).
Proof. intros Hk Hp. unfold get, deref. by rewrite Hk, Hp. Qed.

Lemma get_None k s : layerMap s !! k = None → get k s = Done (None, s).
Proof. intros Hk. unfold get. by rewrite Hk. Qed.

Lemma releaseLayer_decrement e l s n :
  heap s !! l = Some n → 1 < referenceCount n →
  releaseLayer e l s
  = Done (Ok [], set_node l (set_referenceCount (referenceCount n - 1) n) s).
Proof.
  intros Hl Hc. unfold releaseLayer, fuel. simpl. unfold deref. rewrite Hl. simpl.
  rewrite bool_decide_eq_false_2 by lia.
  rewrite bool_decide_eq_false_2 by (simpl; lia). done.
Qed.

Lemma set_referenceCount_id n : set_referenceCount (referenceCount n) n = n.
Proof. by destruct n. Qed.

(** Retaining a layer whose count is positive and releasing it again
    restores the object. *)
Lemma retain_release e p n s s1 :
  heap s !! p = Some n → 0 < referenceCount n →
  heap s1 = <[p := set_referenceCount (S (referenceCount n)) n]> (heap s) →
  release_parent e (Some p) s1 = Done (with_heap (heap s) s1).
Proof.
  intros Hp Hc Hh. simpl.
  rewrite (releaseLayer_decrement e p s1 (set_referenceCount (S (referenceCount n)) n)).
  - simpl. f_equal. unfold set_node. f_equal. rewrite Hh, insert_insert_eq.
    replace (set_referenceCount (referenceCount n - 0) _) with n.
    + by apply insert_id.
    + destruct n. unfold set_referenceCount. simpl. f_equal. lia.
  - rewrite Hh. by rewrite lookup_insert_eq.
  - simpl. lia.
Qed.

Lemma depth_loop_shape s s' : same_shape s s' →
  ∀ k l, depth_loop k s' l = depth_loop k s l.
Proof.
  intros Hsh. induction k as [|k IH]; intros l; [done|]. simpl. unfold deref.
  specialize (Hsh l).
  destruct (heap s' !! l) as [n'|], (heap s !! l) as [n|]; simpl in *; try done.
  injection Hsh as ->. destruct (parent n); [|done]. by rewrite IH.
Qed.

Lemma depth_set_node s p n n' l :
  heap s !! p = Some n → parent n' = parent n →
  depth (set_node p n' s) l = depth s l.
Proof.
  intros Hp Hpar. unfold depth. change (fuel (set_node p n' s)) with (fuel s).
  apply depth_loop_shape. by eapply same_shape_set_node.
Qed.

(** ** A failing [Register] or [CreateRWLayer] *)

Lemma release_retained e s0 p s1 :
  retained s0 p s1 → release_parent e p s1 = Done (with_heap (heap s0) s1).
Proof.
  destruct p as [pp|].
  - intros (n & Hn & Hc & Hh). by eapply retain_release.
  - intros Hh. simpl. destruct s1. simpl in *. by rewrite Hh.
Qed.

Lemma retained_frame s0 p s1 s2 :
  heap s2 = heap s1 → retained s0 p s1 → retained s0 p s2.
Proof. intros Hh. unfold retained. by rewrite Hh. Qed.

Lemma register_layer_Err `{Digester} e ts p pid s0 s1 err s' :
  retained s0 p s1 →
  register_layer e ts p pid s1 = Done (Err err, s') →
  heap s' = heap s0 ∧ layerMap s' = layerMap s1 ∧ mounts s' = mounts s1 ∧
  next_ptr s' = next_ptr s1 ∧ next_ref s' = next_ref s1 ∧ store s' = store s1 ∧
  (reg_cacheID e ∉ driver s1 → reg_remove e = None →
   (reg_create e = None → reg_startTx e = None) → driver s' = driver s1).
Proof.
  intros Hret. unfold register_layer.
  assert (Hearly : ∀ s2 err2, heap s2 = heap s1 →
    register_fail_early (A:=Layer) e p err2 s2 = Done (Err err2, with_heap (heap s0) s2)).
  { intros s2 err2 Hh. unfold register_fail_early.
    rewrite (release_retained _ s0) by (by eapply retained_frame). done. }
  assert (Hlate : ∀ err2,
    register_fail (A:=Layer) e p err2 (driver_Create None (reg_cacheID e) s1)
    = Done (Err err, s') →
    heap s' = heap s0 ∧ layerMap s' = layerMap s1 ∧ mounts s' = mounts s1 ∧
    next_ptr s' = next_ptr s1 ∧ next_ref s' = next_ref s1 ∧ store s' = store s1 ∧
    (reg_cacheID e ∉ driver s1 → reg_remove e = None →
     (reg_create e = None → reg_startTx e = None) → driver s' = driver s1)).
  { intros err2. unfold register_fail.
    rewrite (release_retained _ s0).
    2: { eapply retained_frame; [|exact Hret].
         unfold cleanup_cache, driver_Remove. by destruct (reg_remove e). }
    intros [= <- <-]. unfold cleanup_cache, driver_Remove.
    destruct (reg_remove e); simpl; repeat split; auto; try done.
    intros Hfresh _ _. set_solver. }
  destruct (reg_create e) as [e1|].
  { rewrite Hearly by done. intros [= <- <-]. simpl. repeat split; auto. }
  destruct (reg_startTx e) as [e2|].
  { rewrite Hearly by done. intros [= <- <-]. simpl. repeat split; auto.
    intros _ _ Himp. by specialize (Himp eq_refl). }
  destruct (reg_applyTar e) as [sz|e3]; [|by apply Hlate].
  destruct (match p with Some pp => _ | None => _ end) as [pchain| | |]; simpl; try done.
  destruct (reg_storeLayer e) as [e4|]; [by apply Hlate|].
  unfold get. simpl.
  destruct (layerMap s1 !! _) as [x|]; simpl.
  - destruct (deref _ x) as [nx| | |]; simpl; try done.
    match goal with |- context [getReference x ?s2] =>
      destruct (getReference x s2) as [[h s3]| | |] end; simpl; try done.
    destruct (release_parent _ p _) as [s4| | |]; simpl; done.
  - destruct (reg_commit e) as [e5|]; [by apply Hlate|].
    match goal with |- context [getReference ?a ?s4] =>
      destruct (getReference a s4) as [[h s5]| | |] end; simpl; done.
Qed.

Lemma Register_Err `{Digester} e ts parent s err s' :
  parent_retained s parent →
  Register e ts parent s = Done (Err err, s') →
  heap s' = heap s ∧ layerMap s' = layerMap s ∧ mounts s' = mounts s ∧
  next_ptr s' = next_ptr s ∧ next_ref s' = next_ref s ∧ store s' = store s ∧
  (reg_cacheID e ∉ driver s → reg_remove e = None →
   (reg_create e = None → reg_startTx e = None) → driver s' = driver s).
Proof.
  intros Hret. unfold Register, registerWithDescriptor.
  destruct (decide (parent = "")) as [_|_].
  { apply register_layer_Err. done. }
  destruct (layerMap s !! parent) as [p|] eqn:Hp.
  2: { rewrite get_None by done. simpl. intros [= <- <-]. repeat split; auto. }
  destruct (heap s !! p) as [np|] eqn:Hnp.
  2: { unfold get, deref. rewrite Hp, Hnp. done. }
  rewrite (get_Some _ _ _ _ Hp Hnp). simpl.
  set (s1 := set_node p _ s).
  assert (Hs1 : retained s (Some p) s1).
  { exists np. split; [done|]. split; [by eapply Hret|done]. }
  unfold deref. simpl. rewrite lookup_insert_eq. simpl.
  destruct (depth s1 p) as [d| | |]; simpl; try done.
  destruct (bool_decide (maxLayerDepth ≤ d)).
  - unfold register_fail_early. rewrite (release_retained _ s) by done. simpl.
    intros [= <- <-]. simpl. repeat split; auto.
  - intros Hreg. eapply register_layer_Err in Hreg; [|exact Hs1]. exact Hreg.
Qed.

Lemma saveMount_frame e m s sr s' :
  saveMount e m s = Done (sr, s') →
  heap s' = heap s ∧ layerMap s' = layerMap s ∧
  next_ptr s' = next_ptr s ∧ next_ref s' = next_ref s ∧
  mounts s' = match sr with
              | Some _ => mounts s
              | None => <[mname m := m]> (mounts s)
              end.
Proof.
  unfold saveMount. destruct (crw_setMountID e); [by intros [= <- <-]|].
  destruct (decide (initID m = "")).
  - destruct (mparent m) as [pp|]; [|by intros [= <- <-]].
    unfold deref. simpl. destruct (heap s !! pp); simpl; [|done].
    destruct (crw_setMountParent e); by intros [= <- <-].
  - destruct (crw_setInitID e); [by intros [= <- <-]|].
    destruct (mparent m) as [pp|]; [|by intros [= <- <-]].
    unfold deref. simpl. destruct (heap s !! pp); simpl; [|done].
    destruct (crw_setMountParent e); by intros [= <- <-].
Qed.

Lemma createRW_mount_Err e name opts p pid s0 s1 err s' :
  retained s0 p s1 →
  createRW_mount e name opts p pid s1 = Done (Err err, s') →
  heap s' = heap s0 ∧ layerMap s' = layerMap s1 ∧ mounts s' = mounts s1 ∧
  next_ptr s' = next_ptr s1 ∧ next_ref s' = next_ref s1.
Proof.
  intros Hret. unfold createRW_mount.
  assert (Hfail : ∀ s2 err2, same_mem s1 s2 →
    createRW_fail (A:=RWLayer) e p err2 s2 = Done (Err err, s') →
    heap s' = heap s0 ∧ layerMap s' = layerMap s1 ∧ mounts s' = mounts s1 ∧
    next_ptr s' = next_ptr s1 ∧ next_ref s' = next_ref s1).
  { intros s2 err2 (Hh & Hl & Hm & Hp & Hr). unfold createRW_fail.
    rewrite (release_retained _ s0) by (by eapply retained_frame). simpl.
    intros [= <- <-]. simpl. auto. }
  match goal with |- context [match ?X with (ir, s1') => _ end] =>
    assert (∃ ir s2, X = (ir, s2) ∧ same_mem s1 s2) as (ir & s2 & -> & Hs2) end.
  { destruct (opts ≫= InitFunc) as [f|]; [|by eauto using same_mem_refl].
    destruct (initMount_frame e (crw_mountID e) f s1) as (r & s2 & Hr & Hs2).
    simpl. rewrite Hr. destruct r; eauto. }
  destruct ir as [io|e1]; [|by apply Hfail].
  destruct (crw_create e) as [e2|]; [by apply Hfail|].
  match goal with |- context [saveMount e ?m ?s3] =>
    destruct (saveMount e m s3) as [[sr s4]| | |] eqn:Hsave end; simpl; try done.
  apply saveMount_frame in Hsave as (Hh & Hl & Hp & Hr & Hmo). simpl in *.
  destruct sr as [e3|]; [|done].
  apply Hfail. destruct Hs2 as (? & ? & ? & ? & ?). repeat split; congruence.
Qed.

Lemma CreateRWLayer_Err e name parent opts s err s' :
  parent_retained s parent →
  CreateRWLayer e name parent opts s = Done (Err err, s') →
  heap s' = heap s ∧ layerMap s' = layerMap s ∧ mounts s' = mounts s ∧
  next_ptr s' = next_ptr s ∧ next_ref s' = next_ref s.
Proof.
  intros Hret. unfold CreateRWLayer.
  destruct (mounts s !! name); [by intros [= <- <-]|].
  destruct (decide (parent = "")) as [_|_].
  { apply createRW_mount_Err. done. }
  destruct (layerMap s !! parent) as [p|] eqn:Hp.
  2: { rewrite get_None by done. simpl. by intros [= <- <-]. }
  destruct (heap s !! p) as [np|] eqn:Hnp.
  2: { unfold get, deref. rewrite Hp, Hnp. done. }
  rewrite (get_Some _ _ _ _ Hp Hnp). simpl.
  set (s1 := set_node p _ s).
  assert (Hs1 : retained s (Some p) s1).
  { exists np. split; [done|]. split; [by eapply Hret|done]. }
  unfold deref. simpl. rewrite lookup_insert_eq. simpl.
  intros Hc. eapply createRW_mount_Err in Hc; [|exact Hs1]. exact Hc.
Qed.

(** What a failing [CreateRWLayer] leaves in the driver and in the
    metadata store: the deferred closure releases the parent and nothing
    else. *)
Lemma createRW_mount_left e name opts p pid s0 s1 err s' :
  retained s0 p s1 →
  createRW_mount e name opts p pid s1 = Done (Err err, s') →
  layers (store s') = layers (store s1) ∧
  driver s' = created_stores e opts ∪ driver s1 ∧
  (∀ k, k ≠ name → mountRecs (store s') !! k = mountRecs (store s1) !! k) ∧
  (mount_id_saved e opts = false → mountRecs (store s') = mountRecs (store s1)) ∧
  (mount_id_saved e opts = true →
   ∃ r, mountRecs (store s') !! name = Some r ∧ rec_mountID r = crw_mountID e ∧
     (init_id_saved e opts = true → rec_initID r = crw_mountID e ++ "-init")).
Proof.
  intros Hret.
  assert (Hfail : ∀ s2 err2, heap s2 = heap s1 →
    createRW_fail (A:=RWLayer) e p err2 s2 = Done (Err err2, with_heap (heap s0) s2)).
  { intros s2 err2 Hh. unfold createRW_fail.
    rewrite (release_retained _ s0) by (by eapply retained_frame). done. }
  unfold createRW_mount, created_stores, init_id_saved, mount_id_saved,
    mount_store_created, init_done, init_store_created, initMount.
  destruct (opts ≫= InitFunc) as [f|]; simpl.
  - destruct (crw_initCreate e) as [e1|]; simpl.
    { rewrite Hfail by done. intros [= <- <-]. simpl.
      split_and!; try done. apply leibniz_equiv. set_solver. }
    destruct (crw_initGet e) as [path|e1]; simpl.
    2: { rewrite Hfail by done. intros [= <- <-]. simpl.
         split_and!; try done. apply leibniz_equiv. set_solver. }
    destruct (f path) as [e1|]; simpl.
    { rewrite Hfail by done. intros [= <- <-]. simpl.
      split_and!; try done. apply leibniz_equiv. set_solver. }
    destruct (crw_initPut e) as [e1|]; simpl.
    { rewrite Hfail by done. intros [= <- <-]. simpl.
      split_and!; try done. apply leibniz_equiv. set_solver. }
    destruct (crw_create e) as [e1|]; simpl.
    { rewrite Hfail by done. intros [= <- <-]. simpl.
      split_and!; try done. apply leibniz_equiv. set_solver. }
    unfold saveMount. simpl.
    destruct (crw_setMountID e) as [e1|]; simpl.
    { rewrite Hfail by done. intros [= <- <-]. simpl.
      split_and!; try done. apply leibniz_equiv. set_solver. }
    assert (Hne : crw_mountID e ++ "-init" ≠ "") by (by destruct (crw_mountID e)).
    rewrite !decide_False by exact Hne.
    destruct (crw_setInitID e) as [e1|]; simpl.
    { rewrite Hfail by done. intros [= <- <-]. simpl.
      split_and!; try done.
      - apply leibniz_equiv. set_solver.
      - intros k Hk. by rewrite lookup_insert_ne.
      - intros _. eexists. rewrite lookup_insert_eq. done. }
    destruct p as [pp|]; simpl; [|done].
    unfold deref. simpl. destruct (heap s1 !! pp) as [np|]; simpl; [|done].
    destruct (crw_setMountParent e) as [e1|]; simpl; [|done].
    rewrite Hfail by done. intros [= <- <-]. simpl.
    split_and!; try done.
    + apply leibniz_equiv. set_solver.
    + intros k Hk. by rewrite !lookup_insert_ne.
    + intros _. eexists. rewrite lookup_insert_eq. split; [done|]. simpl.
      unfold mount_record. simpl. rewrite lookup_insert_eq. done.
  - destruct (crw_create e) as [e1|]; simpl.
    { rewrite Hfail by done. intros [= <- <-]. simpl.
      split_and!; try done. apply leibniz_equiv. set_solver. }
    unfold saveMount. simpl.
    destruct (crw_setMountID e) as [e1|]; simpl.
    { rewrite Hfail by done. intros [= <- <-]. simpl.
      split_and!; try done. apply leibniz_equiv. set_solver. }
    destruct p as [pp|]; simpl; [|done].
    unfold deref. simpl. destruct (heap s1 !! pp) as [np|]; simpl; [|done].
    destruct (crw_setMountParent e) as [e1|]; simpl; [|done].
    rewrite Hfail by done. intros [= <- <-]. simpl.
    split_and!; try done.
    + apply leibniz_equiv. set_solver.
    + intros k Hk. by rewrite lookup_insert_ne.
    + intros _. eexists. rewrite lookup_insert_eq. done.
Qed.

Lemma CreateRWLayer_left e name parent opts s err s' :
  parent_retained s parent →
  CreateRWLayer e name parent opts s = Done (Err err, s') →
  layers (store s') = layers (store s) ∧
  driver s ⊆ driver s' ∧
  (∀ k, k ≠ name → mountRecs (store s') !! k = mountRecs (store s) !! k) ∧
  (mounts s !! name = None → parent = "" ∨ is_Some (layerMap s !! parent) →
   driver s' = created_stores e opts ∪ driver s ∧
   (mount_id_saved e opts = false → mountRecs (store s') = mountRecs (store s)) ∧
   (mount_id_saved e opts = true →
    ∃ r, mountRecs (store s') !! name = Some r ∧ rec_mountID r = crw_mountID e ∧
      (init_id_saved e opts = true → rec_initID r = crw_mountID e ++ "-init"))).
Proof.
  intros Hret. unfold CreateRWLayer.
  destruct (mounts s !! name) eqn:Hname.
  { intros [= <- <-]. split_and!; try done. }
  destruct (decide (parent = "")) as [Hroot|Hnonroot].
  { intros Hc. eapply (createRW_mount_left _ _ _ _ _ s) in Hc; [|done].
    destruct Hc as (H1 & H2 & H3 & H4 & H5). split_and!; try done.
    rewrite H2. set_solver. }
  destruct (layerMap s !! parent) as [p|] eqn:Hp.
  2: { rewrite get_None by done. simpl. intros [= <- <-]. split_and!; try done.
       intros _ [?|[? ?]]; done. }
  destruct (heap s !! p) as [np|] eqn:Hnp.
  2: { unfold get, deref. rewrite Hp, Hnp. done. }
  rewrite (get_Some _ _ _ _ Hp Hnp). simpl.
  set (s1 := set_node p _ s).
  assert (Hs1 : retained s (Some p) s1).
  { exists np. split; [done|]. split; [by eapply Hret|done]. }
  unfold deref. simpl. rewrite lookup_insert_eq. simpl.
  intros Hc. eapply createRW_mount_left in Hc; [|exact Hs1].
  destruct Hc as (H1 & H2 & H3 & H4 & H5). split_and!; try done.
  rewrite H2. simpl. set_solver.
Qed.

(** C3, as the code has it: a failing [Register] or [CreateRWLayer] rolls
    back its in-memory effects.  When the parent named by the call, if
    indexed, had a positive reference count, a call that returns an error
    leaves the objects (hence every reference count and reference set), the
    layer index, the mounts index and the allocation counters exactly as
    before.  A failing [Register] also leaves the metadata store as before
    (its transaction is never committed) and, when the cache ID was fresh and
    the cleanup's [Remove] succeeds, leaves the driver as before unless the
    failure is that of [StartTransaction].  A failing [CreateRWLayer] undoes
    nothing in the driver and in the metadata store.  It removes no backing
    store: once the checks of the name and of the parent have passed, the
    driver holds what it held before and the backing stores that the call has
    created, the init store as soon as its [CreateReadWrite] has succeeded and
    the writable store as soon as its own has.  It leaves the layer records
    and the records of the other mounts as they were, and the record of the
    mount keeps the fields saved before the failure: the mount ID once
    [SetMountID] has succeeded, the init ID once [SetInitID] has. *)
Theorem C3_rollback_in_memory `{Digester} :
  (∀ e ts parent s err s',
     parent_retained s parent →
     Register e ts parent s = Done (Err err, s') →
     heap s' = heap s ∧ layerMap s' = layerMap s ∧ mounts s' = mounts s ∧
     next_ptr s' = next_ptr s ∧ next_ref s' = next_ref s ∧ store s' = store s ∧
     (reg_cacheID e ∉ driver s → reg_remove e = None →
      (reg_create e = None → reg_startTx e = None) → driver s' = driver s)) ∧
  (∀ e name parent opts s err s',
     parent_retained s parent →
     CreateRWLayer e name parent opts s = Done (Err err, s') →
     heap s' = heap s ∧ layerMap s' = layerMap s ∧ mounts s' = mounts s ∧
     next_ptr s' = next_ptr s ∧ next_ref s' = next_ref s ∧
     layers (store s') = layers (store s) ∧
     driver s ⊆ driver s' ∧
     (∀ k, k ≠ name → mountRecs (store s') !! k = mountRecs (store s) !! k) ∧
     (mounts s !! name = None → parent = "" ∨ is_Some (layerMap s !! parent) →
      driver s' = created_stores e opts ∪ driver s ∧
      (init_store_created e opts = true → crw_mountID e ++ "-init" ∈ driver s') ∧
      (mount_store_created e opts = true → crw_mountID e ∈ driver s') ∧
      (mount_id_saved e opts = false → mountRecs (store s') = mountRecs (store s)) ∧
      (mount_id_saved e opts = true →
       ∃ r, mountRecs (store s') !! name = Some r ∧ rec_mountID r = crw_mountID e ∧
         (init_id_saved e opts = true → rec_initID r = crw_mountID e ++ "-init")))).
Proof.
  split.
  - intros e ts parent s err s'. apply Register_Err.
  - intros e name parent opts s err s' Hret Hc.
    destruct (CreateRWLayer_Err _ _ _ _ _ _ _ Hret Hc) as (H1 & H2 & H3 & H4 & H5).
    destruct (CreateRWLayer_left _ _ _ _ _ _ _ Hret Hc) as (L1 & L2 & L3 & L4).
    do 8 (split; [done|]). intros Hname Hpar.
    destruct (L4 Hname Hpar) as (D1 & D2 & D3).
    split; [done|]. split; [|split; [|done]].
    + intros Hi. rewrite D1. unfold created_stores. rewrite Hi. set_solver.
    + intros Hm. rewrite D1. unfold created_stores. rewrite Hm. set_solver.
Qed.

Lemma parent_retained_store_root : parent_retained store_root "a".
Proof.
  intros p np Hp Hnp. vm_compute in Hp. injection Hp as <-.
  vm_compute in Hnp. injection Hnp as <-. simpl. lia.
Qed.

Lemma C3_witness :
  heap (state_of (Register (H:=toyDigester) register_applyTar_fails [Byte.x62] "a" store_root))
  = heap store_root ∧
  mounts (state_of (CreateRWLayer createRW_env_create_fails "box" "a" (Some opts_init)
                      store_root))
  = mounts store_root ∧
  (∃ err s', CreateRWLayer createRW_env_save_fails "box" "a" (Some opts_init) store_root
             = Done (Err err, s') ∧
     heap s' = heap store_root ∧
     driver s' = {[ "m1"; "m1-init" ]} ∪ driver store_root ∧
     ∃ r, mountRecs (store s') !! "box" = Some r ∧ rec_mountID r = "m1").
Proof.
  destruct (C3_rollback_in_memory (H:=toyDigester)) as [HR HC]. split; [|split].
  - destruct (HR register_applyTar_fails [Byte.x62] "a" store_root (ErrOther "bad tar")
                (state_of (Register (H:=toyDigester) register_applyTar_fails [Byte.x62] "a"
                             store_root))) as (Hh & _).
    + exact parent_retained_store_root.
    + vm_compute. reflexivity.
    + exact Hh.
  - destruct (HC createRW_env_create_fails "box" "a" (Some opts_init) store_root
                (ErrOther "no space")
                (state_of (CreateRWLayer createRW_env_create_fails "box" "a" (Some opts_init)
                             store_root))) as (_ & _ & Hm & _).
    + exact parent_retained_store_root.
    + vm_compute. reflexivity.
    + exact Hm.
  - exists (ErrOther "disk full"),
      (state_of (CreateRWLayer createRW_env_save_fails "box" "a" (Some opts_init) store_root)).
    destruct (HC createRW_env_save_fails "box" "a" (Some opts_init) store_root
                (ErrOther "disk full")
                (state_of (CreateRWLayer createRW_env_save_fails "box" "a" (Some opts_init)
                             store_root))) as (Hh & _ & _ & _ & _ & _ & _ & _ & Hleft).
    + exact parent_retained_store_root.
    + vm_compute. reflexivity.
    + split; [vm_compute; reflexivity|]. split; [exact Hh|].
      destruct Hleft as (Hdrv & _ & _ & _ & Hrec).
      * vm_compute. reflexivity.
      * right. exists 0. vm_compute. reflexivity.
      * split; [exact Hdrv|].
        destruct (Hrec eq_refl) as (r & Hr & Hid & _). exists r. split; [exact Hr|exact Hid].
Defined.

(** A failing [CreateRWLayer] does not undo what it has done to the driver
    and to the metadata store: the init backing store it created stays in
    the driver when the creation of the writable store fails; when saving
    the init ID fails, the writable store and the init store stay in the
    driver and the mount record whose mount ID it saved stays on disk. *)
Lemma C3_counterexample :
  (∃ err s', CreateRWLayer createRW_env_create_fails "box" "" (Some opts_init) store0
             = Done (Err err, s') ∧
     "m1-init" ∉ driver store0 ∧ "m1-init" ∈ driver s') ∧
  (∃ err s', CreateRWLayer createRW_env_save_fails "box" "" (Some opts_init) store0
             = Done (Err err, s') ∧
     "m1" ∉ driver store0 ∧ "m1" ∈ driver s' ∧
     "m1-init" ∉ driver store0 ∧ "m1-init" ∈ driver s' ∧
     mountRecs (store store0) !! "box" = None ∧
     mountRecs (store s') !! "box" = Some (mkMountRecord "m1" "" "")).
Proof.
  split.
  - exists (ErrOther "no space"),
      (state_of (CreateRWLayer createRW_env_create_fails "box" "" (Some opts_init) store0)).
    split; [vm_compute; reflexivity|]. split.
    + simpl. apply not_elem_of_empty.
    + vm_compute. reflexivity.
  - exists (ErrOther "disk full"),
      (state_of (CreateRWLayer createRW_env_save_fails "box" "" (Some opts_init) store0)).
    split; [vm_compute; reflexivity|].
    split; [simpl; apply not_elem_of_empty|]. split; [vm_compute; reflexivity|].
    split; [simpl; apply not_elem_of_empty|]. split; [vm_compute; reflexivity|].
    split; vm_compute; reflexivity.
Qed.

(** ** Registering content that is already there *)

Lemma getReference_Some p s n :
  heap s !! p = Some n →
  getReference p s
  = Done (mkLayer (next_ref s) (chainID n),
          with_next_ref (S (next_ref s))
            (set_node p (set_references ({[next_ref s]} ∪ references n) n) s)).
Proof. intros Hp. unfold getReference, deref. by rewrite Hp. Qed.

Lemma register_layer_dedup `{Digester} e ts p pid s0 s1 x n :
  retained s0 p s1 →
  layerMap s1 = layerMap s0 →
  reg_create e = None → reg_startTx e = None →
  (∃ sz, reg_applyTar e = Ok sz) → reg_storeLayer e = None →
  layerMap s0 !! computed_chainID (p ≫= λ pp, heap s0 !! pp) ts = Some x →
  heap s0 !! x = Some n →
  ∃ s', register_layer e ts p pid s1
        = Done (Ok (mkLayer (next_ref s1) (chainID n)), s') ∧
    heap s' = <[x := reused (next_ref s1) n]> (heap s0) ∧
    layerMap s' = layerMap s1 ∧ mounts s' = mounts s1 ∧ store s' = store s1 ∧
    next_ref s' = S (next_ref s1) ∧ next_ptr s' = next_ptr s1 ∧
    driver s' = match reg_remove e with
                | None => ({[reg_cacheID e]} ∪ driver s1) ∖ {[reg_cacheID e]}
                | Some _ => {[reg_cacheID e]} ∪ driver s1
                end.
Proof.
  intros Hret Hlm Hcr Htx [sz Hat] Hsl Hx Hn. unfold register_layer.
  rewrite Hcr, Htx, Hat. simpl.
  assert (Hdrv : ∀ s3, driver s3 = {[reg_cacheID e]} ∪ driver s1 →
            driver (cleanup_cache e s3)
            = match reg_remove e with
              | None => ({[reg_cacheID e]} ∪ driver s1) ∖ {[reg_cacheID e]}
              | Some _ => {[reg_cacheID e]} ∪ driver s1
              end).
  { intros s3 Hd. unfold cleanup_cache, driver_Remove.
    destruct (reg_remove e); simpl; by rewrite Hd. }
  assert (Hfr : ∀ s3, heap (cleanup_cache e s3) = heap s3 ∧
            layerMap (cleanup_cache e s3) = layerMap s3 ∧
            mounts (cleanup_cache e s3) = mounts s3 ∧
            store (cleanup_cache e s3) = store s3 ∧
            next_ref (cleanup_cache e s3) = next_ref s3 ∧
            next_ptr (cleanup_cache e s3) = next_ptr s3).
  { intros s3. unfold cleanup_cache, driver_Remove. by destruct (reg_remove e). }
  destruct p as [pp|]; simpl in Hret, Hx.
  - destruct Hret as (np & Hnp & Hc & Hh).
    rewrite Hnp in Hx. simpl in Hx.
    unfold deref. simpl. rewrite Hh, lookup_insert_eq. simpl. rewrite Hsl.
    set (np1 := set_referenceCount (S (referenceCount np)) np) in *.
    set (s1' := driver_Create None (reg_cacheID e) s1).
    destruct (decide (x = pp)) as [->|Hne].
    + assert (n = np) by congruence. subst n.
      rewrite (get_Some _ s1' pp np1); [|simpl; congruence|simpl; by rewrite Hh, lookup_insert_eq].
      simpl. erewrite getReference_Some by (simpl; by rewrite lookup_insert_eq).
      simpl.
      match goal with |- context [releaseLayer _ pp (cleanup_cache e ?s3)] =>
        destruct (Hfr s3) as (Hf1 & Hf2 & Hf3 & Hf4 & Hf5 & Hf6);
        erewrite (releaseLayer_decrement _ pp (cleanup_cache e s3))
          by (rewrite ?Hf1; simpl; first [by rewrite lookup_insert_eq|lia]);
        pose proof (Hdrv s3 eq_refl) as Hd end.
      simpl. eexists. split; [done|]. simpl.
      rewrite Hf1, Hf2, Hf3, Hf4, Hf5, Hf6, Hd. simpl. rewrite Hh.
      split; [|by repeat split]. rewrite !insert_insert_eq. by f_equal.
    + rewrite (get_Some _ s1' x n);
        [|simpl; congruence|simpl; by rewrite Hh, lookup_insert_ne].
      simpl. erewrite getReference_Some by (simpl; by rewrite lookup_insert_eq).
      simpl.
      match goal with |- context [releaseLayer _ pp (cleanup_cache e ?s3)] =>
        destruct (Hfr s3) as (Hf1 & Hf2 & Hf3 & Hf4 & Hf5 & Hf6);
        erewrite (releaseLayer_decrement _ pp (cleanup_cache e s3) np1)
          by (rewrite ?Hf1; simpl;
              first [by rewrite !lookup_insert_ne, Hh, lookup_insert_eq by done|lia]);
        pose proof (Hdrv s3 eq_refl) as Hd end.
      simpl. eexists. split; [done|]. simpl.
      rewrite Hf1, Hf2, Hf3, Hf4, Hf5, Hf6, Hd. simpl. rewrite Hh.
      split; [|by repeat split]. rewrite insert_insert_eq.
      apply map_eq. intros q. destruct (decide (q = pp)) as [->|Hq].
      * rewrite lookup_insert_eq, lookup_insert_ne, Hnp by done. f_equal.
        destruct np. unfold set_referenceCount. simpl. f_equal. lia.
      * rewrite lookup_insert_ne by done.
        destruct (decide (q = x)) as [->|Hqx].
        -- by rewrite !lookup_insert_eq.
        -- by rewrite !lookup_insert_ne by done.
  - simpl. rewrite Hsl.
    set (s1' := driver_Create None (reg_cacheID e) s1).
    rewrite (get_Some _ s1' x n); [|simpl; congruence|simpl; congruence].
    simpl. erewrite getReference_Some by (simpl; by rewrite lookup_insert_eq).
    simpl.
    match goal with |- context [cleanup_cache e ?s3] =>
      destruct (Hfr s3) as (Hf1 & Hf2 & Hf3 & Hf4 & Hf5 & Hf6);
      pose proof (Hdrv s3 eq_refl) as Hd end.
    eexists. split; [done|].
    rewrite Hf1, Hf2, Hf3, Hf4, Hf5, Hf6, Hd. simpl. rewrite Hret.
    split; [|by repeat split]. by rewrite insert_insert_eq.
Qed.

(** C1: [Register] is idempotent under identical content.  Let the
    external calls up to the deduplication check succeed and let the parent,
    if one is named, be indexed, retained and not too deep.  If the chain ID
    computed from the diff (the diff ID for a root layer, the digest of the
    parent's chain ID and the diff ID otherwise) is already indexed, at the
    object [n], then [Register] returns no error and a new handle on [n]: the
    handle has an identity that no layer holds yet, [n] gains it and has its
    reference count incremented by one, and nothing else changes in the
    objects, the indices or the metadata store (the transaction is dropped);
    the backing store created for the call is removed from the driver again
    when the cleanup's [Remove] succeeds. *)
Theorem C1_register_idempotent `{Digester} e ts parent s x n :
  parent_usable s parent →
  reg_create e = None → reg_startTx e = None →
  (∃ sz, reg_applyTar e = Ok sz) → reg_storeLayer e = None →
  layerMap s !! computed_chainID (resolved_parent s parent) ts = Some x →
  heap s !! x = Some n →
  ∃ s', Register e ts parent s = Done (Ok (mkLayer (next_ref s) (chainID n)), s') ∧
    heap s' = <[x := reused (next_ref s) n]> (heap s) ∧
    layerMap s' = layerMap s ∧ mounts s' = mounts s ∧ store s' = store s ∧
    next_ref s' = S (next_ref s) ∧ next_ptr s' = next_ptr s ∧
    driver s' = match reg_remove e with
                | None => ({[reg_cacheID e]} ∪ driver s) ∖ {[reg_cacheID e]}
                | Some _ => {[reg_cacheID e]} ∪ driver s
                end ∧
    (wf s → ∀ q m, heap s !! q = Some m → next_ref s ∉ references m).
Proof.
  intros Hpar Hcr Htx Hat Hsl Hx Hn.
  assert (Hfresh : wf s → ∀ q m, heap s !! q = Some m → next_ref s ∉ references m).
  { intros Hwf q m Hq Hin. pose proof (inv_ref _ _ Hwf _ _ _ Hq Hin). lia. }
  unfold Register, registerWithDescriptor. unfold resolved_parent in Hx.
  destruct (decide (parent = "")) as [Hroot|Hnonroot].
  - destruct (register_layer_dedup e ts None "" s s x n) as (s' & -> & Hs'); auto.
    { by unfold retained. }
    exists s'. split; [done|]. naive_solver.
  - destruct Hpar as [?|(p & np & d & Hp & Hnp & Hc & Hd & Hlt)]; [done|].
    rewrite Hp in Hx. simpl in Hx.
    rewrite (get_Some _ _ _ _ Hp Hnp). simpl.
    unfold deref. simpl. rewrite lookup_insert_eq. simpl.
    rewrite (depth_set_node s p np) by done. rewrite Hd. simpl.
    rewrite bool_decide_eq_false_2 by lia.
    destruct (register_layer_dedup e ts (Some p) (cacheID np) s
                (set_node p (set_referenceCount (S (referenceCount np)) np) s) x n)
      as (s' & -> & Hs'); auto.
    { exists np. auto. }
    exists s'. split; [done|]. naive_solver.
Qed.

Lemma C1_witness :
  ∃ s', Register (H:=toyDigester) (register_ok "c3") [Byte.x62] "a" store_mid
        = Done (Ok (mkLayer 2 "a/b"), s') ∧
    heap s' = <[1 := reused 2 (mkRoLayer "a/b" "b" (Some 0) "c2" 10 1 {[1]})]>
                (heap store_mid).
Proof.
  destruct (C1_register_idempotent (H:=toyDigester) (register_ok "c3") [Byte.x62] "a"
              store_mid 1 (mkRoLayer "a/b" "b" (Some 0) "c2" 10 1 {[1]}))
    as (s' & Hreg & Hheap & _).
  - right. exists 0, (mkRoLayer "a" "a" None "c1" 10 2 {[0]}), 1.
    split; [vm_compute; reflexivity|]. split; [vm_compute; reflexivity|].
    split; [simpl; lia|]. split; [vm_compute; reflexivity|].
    unfold maxLayerDepth. lia.
  - reflexivity.
  - reflexivity.
  - exists 10%Z. reflexivity.
  - reflexivity.
  - vm_compute. reflexivity.
  - vm_compute. reflexivity.
  - exists s'. split; [exact Hreg|exact Hheap].
Defined.

(** ** The depth bound *)

Lemma releaseLayer_loop_above k : ∀ e d rem l s r s',
  chain_ok s l → releaseLayer_loop k e d rem l s = Done (r, s') →
  ∀ q, l < q → heap s' !! q = heap s !! q.
Proof.
  induction k as [|k IH]; intros e d rem l s r s' Hchain; [done|].
  simpl. unfold deref. destruct (heap s !! l) as [n|] eqn:Hl; [|done]. simpl.
  case_bool_decide; [done|].
  set (n1 := set_referenceCount (referenceCount n - 1) n).
  case_bool_decide; simpl.
  2: { intros [= <- <-] q Hq. simpl. rewrite lookup_insert_ne by lia. done. }
  destruct (_ && _); [done|]. destruct (hasReferences _); [done|].
  destruct (deleteLayer _ _ _) as [[r3 s3]| | |] eqn:Hdel; simpl; try done.
  apply deleteLayer_same_mem in Hdel as Hsm. pose proof Hsm as (Hh & _). simpl in Hh.
  assert (Hfr : ∀ q, l < q → heap s3 !! q = heap s !! q).
  { intros q Hq. rewrite Hh, lookup_insert_ne by lia. done. }
  destruct r3 as [md|err]; [|by intros [= <- <-]].
  destruct (parent n) as [pp|] eqn:Hpar; [|by intros [= <- <-]].
  intros Hrec q Hq.
  assert (pp < l ∧ chain_ok s pp) as [Hlt Hpp].
  { inversion Hchain; simplify_eq; auto. }
  rewrite <-Hfr by done. eapply IH; [|exact Hrec|lia].
  eapply chain_ok_shape; [|exact Hpp].
  intros q'. rewrite Hh. destruct (decide (q' = l)) as [->|].
  - rewrite lookup_insert_eq, Hl. done.
  - by rewrite lookup_insert_ne.
Qed.

Lemma releaseLayer_loop_count k e d rem l s r s' n :
  chain_ok s l → heap s !! l = Some n →
  releaseLayer_loop k e d rem l s = Done (r, s') →
  ∃ n', heap s' !! l = Some n' ∧ referenceCount n' = referenceCount n - 1.
Proof.
  intros Hchain Hl. destruct k as [|k]; [done|].
  simpl. unfold deref. rewrite Hl. simpl.
  case_bool_decide; [done|].
  set (n1 := set_referenceCount (referenceCount n - 1) n).
  case_bool_decide; simpl.
  2: { intros [= <- <-]. exists n1. simpl. by rewrite lookup_insert_eq. }
  destruct (_ && _); [done|]. destruct (hasReferences _); [done|].
  destruct (deleteLayer _ _ _) as [[r3 s3]| | |] eqn:Hdel; simpl; try done.
  apply deleteLayer_same_mem in Hdel as Hsm. pose proof Hsm as (Hh & _). simpl in Hh.
  assert (Hl3 : heap s3 !! l = Some n1) by (by rewrite Hh, lookup_insert_eq).
  destruct r3 as [md|err]; [|intros [= <- <-]; eauto].
  destruct (parent n) as [pp|] eqn:Hpar; [|intros [= <- <-]; eauto].
  intros Hrec. exists n1. split; [|done].
  assert (pp < l ∧ chain_ok s pp) as [Hlt Hpp].
  { inversion Hchain; simplify_eq; auto. }
  rewrite <-Hl3. eapply releaseLayer_loop_above; [|exact Hrec|done].
  eapply chain_ok_shape; [|exact Hpp].
  intros q'. rewrite Hh. destruct (decide (q' = l)) as [->|].
  - rewrite lookup_insert_eq, Hl. done.
  - by rewrite lookup_insert_ne.
Qed.

(** C4: [Register] enforces the depth bound.  For a parent whose chain
    depth is at least 125, [Register] fails with [ErrMaxDepthExceeded] and the
    reference it took on the parent is released: the parent's reference count
    is what it was, and when that count was positive nothing at all has
    changed.  With the example digester, 125 layers can be registered on top
    of one another from the empty store, the top one has depth 125, and one
    more registration on top of it fails with [ErrMaxDepthExceeded]. *)
Theorem C4_depth_bound :
  (∀ (H : Digester) e ts parent s p d,
     wf s → parent ≠ "" → layerMap s !! parent = Some p →
     depth s p = Done d → maxLayerDepth ≤ d →
     ∃ s', Register e ts parent s = Done (Err ErrMaxDepthExceeded, s') ∧
       referenceCount <$> heap s' !! p = referenceCount <$> heap s !! p ∧
       (parent_retained s parent →
        heap s' = heap s ∧ layerMap s' = layerMap s ∧ mounts s' = mounts s ∧
        store s' = store s ∧ driver s' = driver s)) ∧
  (let '(ok, top, s125) := register_chain 125 "" store0 in
   ok = true ∧ depth_of s125 top = Some 125 ∧
   result_of (Register (H:=toyDigester) (register_ok "x") [Byte.x61] top s125)
   = Some (Err ErrMaxDepthExceeded)).
Proof.
  split; [|by vm_compute].
  intros H e ts parent s p d Hwf Hne Hp Hd Hdeep.
  destruct (inv_index _ _ Hwf _ _ Hp) as (np & Hnp & Hchainid).
  unfold Register, registerWithDescriptor. rewrite decide_False by done.
  destruct (get_inv _ s parent Hwf) as (po & s1 & Hget & Hs1 & _ & _ & _ & _ & _ & _ & Hidx).
  rewrite (get_Some _ _ _ _ Hp Hnp) in Hget. injection Hget as <- <-.
  rewrite (get_Some _ _ _ _ Hp Hnp). simpl.
  unfold deref. simpl. rewrite lookup_insert_eq. simpl.
  rewrite (depth_set_node s p np) by done. rewrite Hd. simpl.
  rewrite bool_decide_eq_true_2 by done.
  unfold register_fail_early. simpl.
  set (s1 := set_node p _ s) in *.
  destruct (releaseLayer_inv no_credit (reg_release e) s1 p) as (r & s' & Hrel & _); auto.
  rewrite Hrel. simpl. exists s'. split; [done|]. split.
  - destruct (releaseLayer_loop_count _ _ _ _ _ _ _ _
                (set_referenceCount (S (referenceCount np)) np)
                (chain_ok_indexed _ _ _ Hs1 (Hidx p eq_refl))
                ltac:(subst s1; simpl; by rewrite lookup_insert_eq) Hrel)
      as (n' & Hn' & Hc).
    rewrite Hn', Hnp. simpl in *. f_equal. lia.
  - intros Hret.
    pose proof (retain_release (reg_release e) p np s s1 Hnp (Hret p np Hp Hnp) eq_refl)
      as Hrr.
    simpl in Hrr. rewrite Hrel in Hrr. simpl in Hrr. injection Hrr as ->. by simpl.
Qed.

Lemma register_chain_wf k : ∀ parent s, wf s → wf (register_chain k parent s).2.
Proof.
  induction k as [|k IH]; intros parent s Hwf; [done|]. simpl.
  destruct (Register_wf (H:=toyDigester) (register_ok ("c" ++ parent)) [Byte.x61] parent s Hwf)
    as (r & s' & Hr & Hwf').
  unfold Register in *. rewrite Hr. destruct r; simpl; auto.
Qed.

Lemma C4_witness :
  ∃ s', Register (H:=toyDigester) (register_ok "x") [Byte.x61]
          (register_chain 125 "" store0).1.2 (register_chain 125 "" store0).2
        = Done (Err ErrMaxDepthExceeded, s').
Proof.
  destruct C4_depth_bound as [Hdeep _].
  destruct (Hdeep toyDigester (register_ok "x") [Byte.x61]
              (register_chain 125 "" store0).1.2 (register_chain 125 "" store0).2 124 125)
    as (s' & Hreg & _).
  - apply register_chain_wf, wf_empty_store.
  - vm_compute. intros Heq. discriminate Heq.
  - vm_compute. reflexivity.
  - vm_compute. reflexivity.
  - unfold maxLayerDepth. lia.
  - exists s'. exact Hreg.
Defined.

(** ** The release cascade, exactly *)

Lemma same_static_refl s : same_static s s.
Proof. by split. Qed.

Lemma same_static_trans s1 s2 s3 :
  same_static s1 s2 → same_static s2 s3 → same_static s1 s3.
Proof. intros [H1 H2] [H3 H4]. split; [congruence|]. intros q. by rewrite H4, H2. Qed.

Lemma same_static_lookup s s' q n :
  same_static s s' → heap s !! q = Some n →
  ∃ n', heap s' !! q = Some n' ∧ static n' = static n.
Proof.
  intros [_ Hst] Hq. specialize (Hst q). rewrite Hq in Hst. simpl in Hst.
  destruct (heap s' !! q) as [n'|]; simpl in Hst; [|done].
  exists n'. split; [done|]. congruence.
Qed.

Lemma Size_loop_static s s' : same_static s s' →
  ∀ k l, Size_loop k s' l = Size_loop k s l.
Proof.
  intros [_ Hst]. induction k as [|k IH]; intros l; [done|]. simpl. unfold deref.
  specialize (Hst l).
  destruct (heap s' !! l) as [n'|], (heap s !! l) as [n|]; simpl in *; try done.
  unfold static in Hst. injection Hst as _ _ Hpar _ Hsz. rewrite Hpar, Hsz.
  destruct (parent n); [|done]. by rewrite IH.
Qed.

Lemma metadata_of_static s s' q :
  same_static s s' → metadata_of s' q = metadata_of s q.
Proof.
  intros Hst. pose proof Hst as [Hp Hq]. specialize (Hq q).
  unfold metadata_of, chain_of, size_of, Size, fuel. rewrite Hp.
  rewrite (Size_loop_static s s' Hst).
  destruct (heap s' !! q) as [n'|], (heap s !! q) as [n|]; simpl in *; try done.
  unfold static in Hq. by injection Hq as -> -> _ _ ->.
Qed.

Lemma chain_of_static s s' q : same_static s s' → chain_of s' q = chain_of s q.
Proof.
  intros [_ Hq]. specialize (Hq q). unfold chain_of.
  destruct (heap s' !! q) as [n'|], (heap s !! q) as [n|]; simpl in *; try done.
  unfold static in Hq. by injection Hq as -> _ _ _ _.
Qed.

Lemma cache_of_static s s' q : same_static s s' → cache_of s' q = cache_of s q.
Proof.
  intros [_ Hq]. specialize (Hq q). unfold cache_of.
  destruct (heap s' !! q) as [n'|], (heap s !! q) as [n|]; simpl in *; try done.
  unfold static in Hq. by injection Hq as _ _ _ -> _.
Qed.

Lemma releasable_agree b s s' l :
  agree_below b s s' → l < b → releasable s l → releasable s' l.
Proof.
  intros Hag Hl Hrel. induction Hrel as [l n Hn Hc|l n Hn Hc Hr Hp|l n pp Hn Hc Hr Hp Hlt _ IH].
  - eapply rel_stop; [|done]. by rewrite Hag.
  - eapply rel_root; eauto. by rewrite Hag.
  - eapply rel_step; eauto; [by rewrite Hag|]. apply IH. lia.
Qed.

Lemma cascade_agree b s s' : agree_below b s s' →
  ∀ k l, l < b → releasable s l → cascade k s' l = cascade k s l.
Proof.
  intros Hag. induction k as [|k IH]; intros l Hl Hrel; [done|]. simpl.
  rewrite Hag by done.
  inversion Hrel as [? n Hn Hc|? n Hn Hc Hr Hp|? n pp Hn Hc Hr Hp Hlt Hpp]; subst;
    rewrite Hn; case_bool_decide; try done; try (exfalso; lia); rewrite Hp; [done|].
  f_equal. apply IH; [lia|done].
Qed.

Lemma stop_agree b s s' : agree_below b s s' →
  ∀ k l, l < b → releasable s l → stop k s' l = stop k s l.
Proof.
  intros Hag. induction k as [|k IH]; intros l Hl Hrel; [done|]. simpl.
  rewrite Hag by done.
  inversion Hrel as [? n Hn Hc|? n Hn Hc Hr Hp|? n pp Hn Hc Hr Hp Hlt Hpp]; subst;
    rewrite Hn; case_bool_decide; try done; try (exfalso; lia); rewrite Hp; [done|].
  apply IH; [lia|done].
Qed.

Lemma cascade_bound s : ∀ k l, releasable s l → ∀ q, q ∈ cascade k s l → q ≤ l.
Proof.
  induction k as [|k IH]; intros l Hrel q; simpl; [by intros ?%elem_of_nil|].
  inversion Hrel as [? n Hn Hc|? n Hn Hc Hr Hp|? n pp Hn Hc Hr Hp Hlt Hpp]; subst;
    rewrite Hn; case_bool_decide; try (by intros ?%elem_of_nil); try (exfalso; lia).
  - rewrite Hp. intros ?%list_elem_of_singleton. lia.
  - rewrite Hp. intros [->|Hq]%elem_of_cons; [lia|]. specialize (IH pp Hpp q Hq). lia.
Qed.

Lemma stop_bound s : ∀ k l, releasable s l → ∀ q, stop k s l = Some q → q ≤ l.
Proof.
  induction k as [|k IH]; intros l Hrel q; simpl; [done|].
  inversion Hrel as [? n Hn Hc|? n Hn Hc Hr Hp|? n pp Hn Hc Hr Hp Hlt Hpp]; subst;
    rewrite Hn; case_bool_decide; try (exfalso; lia).
  - intros [= <-]. lia.
  - by rewrite Hp.
  - rewrite Hp. intros Hq. specialize (IH pp Hpp q Hq). lia.
Qed.

Lemma chain_ok_static s s' l : same_static s s' → chain_ok s l → chain_ok s' l.
Proof.
  intros [_ Hst]. apply chain_ok_shape. intros q. specialize (Hst q).
  destruct (heap s' !! q) as [n'|], (heap s !! q) as [n|]; simpl in *; try done.
  unfold static in Hst. by injection Hst as _ _ -> _ _.
Qed.

Lemma same_static_dropped l n s : heap s !! l = Some n → same_static s (dropped l n s).
Proof.
  intros Hl. split; [done|]. intros q. simpl. destruct (decide (q = l)) as [->|].
  - by rewrite lookup_insert_eq, Hl.
  - by rewrite lookup_insert_ne.
Qed.

Lemma deleteLayer_ok l s n :
  heap s !! l = Some n → chain_ok s l → l < next_ptr s →
  deleteLayer delete_ok l s
  = Done (Ok (metadata_of s l),
          with_driver (driver s ∖ {[cacheID n]})
            (with_store (with_layers (delete (chainID n) (layers (store s))) (store s)) s)).
Proof.
  intros Hl Hchain Hlt. unfold deleteLayer, deref. rewrite Hl. simpl.
  set (s2 := with_driver _ _).
  assert (Hst : same_static s s2) by (by split).
  unfold Size. change (fuel s2) with (fuel s). rewrite (Size_loop_static s s2 Hst).
  destruct (Size_loop_total s l Hchain (fuel s)) as [z Hz]; [unfold fuel; lia|].
  rewrite Hz. simpl. do 3 f_equal.
  unfold metadata_of, chain_of, size_of, Size. by rewrite Hl, Hz.
Qed.

Lemma cascaded_nil s : cascaded s [] None s.
Proof.
  unfold cascaded. simpl. repeat split; try done. set_solver.
Qed.

Lemma cascaded_stop s l n :
  heap s !! l = Some n →
  cascaded s [] (Some l) (set_node l (decremented n) s).
Proof.
  intros Hl. unfold cascaded. simpl. repeat split; try done.
  - set_solver.
  - intros q. destruct (decide (q ∈ [])) as [Hin%elem_of_nil|_]; [done|].
    destruct (decide (Some l = Some q)) as [Heq|Hne].
    + injection Heq as <-. by rewrite lookup_insert_eq, Hl.
    + rewrite lookup_insert_ne; [done|]. congruence.
Qed.

Lemma cascaded_cons s l n ds st s' :
  heap s !! l = Some n →
  cascaded (dropped l n s) ds st s' →
  (∀ q, q ∈ ds → q < l) → (∀ q, st = Some q → q < l) →
  cascaded s (l :: ds) st s'.
Proof.
  intros Hl (H1 & H2 & H3 & H4 & H5 & H6 & H7 & H8) Hds Hst.
  pose proof (same_static_dropped l n s Hl) as Hstatic.
  assert (Hc : chain_of (dropped l n s) <$> ds = chain_of s <$> ds).
  { apply list_fmap_ext. intros ? q _. by apply chain_of_static. }
  assert (Hk : cache_of (dropped l n s) <$> ds = cache_of s <$> ds).
  { apply list_fmap_ext. intros ? q _. by apply cache_of_static. }
  assert (Hcl : chain_of s l = chainID n) by (unfold chain_of; by rewrite Hl).
  assert (Hkl : cache_of s l = cacheID n) by (unfold cache_of; by rewrite Hl).
  rewrite Hc in H1, H2. rewrite Hk in H4.
  unfold cascaded. rewrite !fmap_cons, Hcl, Hkl. repeat split; try done.
  - intros c. rewrite H1. simpl.
    destruct (decide (c = chainID n)) as [->|Hne].
    + rewrite (decide_True (P := chainID n ∈ chainID n :: _)) by apply list_elem_of_here.
      rewrite lookup_delete_eq. by case_decide.
    + rewrite lookup_delete_ne by done.
      repeat case_decide; try done; exfalso; set_solver.
  - intros c. rewrite H2. simpl.
    destruct (decide (c = chainID n)) as [->|Hne].
    + rewrite (decide_True (P := chainID n ∈ chainID n :: _)) by apply list_elem_of_here.
      rewrite lookup_delete_eq. by case_decide.
    + rewrite lookup_delete_ne by done.
      repeat case_decide; try done; exfalso; set_solver.
  - rewrite H4. simpl. set_solver.
  - intros q. rewrite H8. simpl.
    destruct (decide (q = l)) as [->|Hne].
    + rewrite (decide_True (P := l ∈ l :: ds)) by apply list_elem_of_here.
      destruct (decide (l ∈ ds)) as [Hin|_]; [specialize (Hds _ Hin); lia|].
      destruct (decide (st = Some l)) as [Heq|_]; [specialize (Hst _ Heq); lia|].
      by rewrite lookup_insert_eq, Hl.
    + rewrite lookup_insert_ne by done.
      repeat case_decide; try done; exfalso; set_solver.
Qed.

Lemma releaseLayer_loop_cascade k : ∀ e d rem l s,
  (∀ i, e i = delete_ok) → releasable s l → chain_ok s l →
  l < k → l < next_ptr s → d = 0 ∨ rem ≠ [] →
  ∃ s', releaseLayer_loop k e d rem l s
        = Done (Ok (rem ++ (metadata_of s <$> cascade k s l))%list, s') ∧
    cascaded s (cascade k s l) (stop k s l) s'.
Proof.
  induction k as [|k IH]; intros e d rem l s He Hrel Hchain Hk Hlt Hd; [lia|].
  assert (Hguard : (bool_decide (length rem = 0) && bool_decide (0 < d)) = false).
  { destruct Hd as [->|Hr].
    - rewrite (bool_decide_eq_false_2 (0 < 0)) by lia. by rewrite andb_false_r.
    - rewrite bool_decide_eq_false_2; [done|]. destruct rem; simpl; [done|lia]. }
  simpl.
  inversion Hrel as [? n Hn Hc|? n Hn Hc Hr Hp|? n pp Hn Hc Hr Hp Hpl Hpp]; subst;
    unfold deref; rewrite Hn; simpl.
  - rewrite (bool_decide_eq_false_2 (referenceCount n = 1)) by lia.
    rewrite !bool_decide_eq_false_2 by (simpl; lia). simpl.
    rewrite app_nil_r. eexists. split; [done|]. by apply cascaded_stop.
  - rewrite (bool_decide_eq_true_2 (referenceCount n = 1)) by done.
    rewrite bool_decide_eq_false_2 by lia.
    rewrite !bool_decide_eq_true_2 by (simpl; lia). simpl. rewrite Hguard.
    unfold hasReferences. simpl. rewrite Hr, bool_decide_eq_true_2 by done. simpl.
    rewrite He.
    erewrite deleteLayer_ok;
      [|simpl; by rewrite lookup_insert_eq
       |eapply chain_ok_shape; [|exact Hchain];
        by apply (same_shape_set_node s l n (decremented n))
       |done].
    simpl. rewrite Hp.
    replace (metadata_of _ l) with (metadata_of s l).
    2: { symmetry. apply metadata_of_static. split; [done|]. intros q. simpl.
         destruct (decide (q = l)) as [->|].
         - by rewrite lookup_insert_eq, Hn.
         - by rewrite lookup_insert_ne. }
    eexists. split; [done|].
    eapply (cascaded_cons s l n [] None); [done| |by intros ? ?%elem_of_nil|done].
    apply (cascaded_nil (dropped l n s)).
  - rewrite (bool_decide_eq_true_2 (referenceCount n = 1)) by done.
    rewrite bool_decide_eq_false_2 by lia.
    rewrite !bool_decide_eq_true_2 by (simpl; lia). simpl. rewrite Hguard.
    unfold hasReferences. simpl. rewrite Hr, bool_decide_eq_true_2 by done. simpl.
    rewrite He.
    erewrite deleteLayer_ok;
      [|simpl; by rewrite lookup_insert_eq
       |eapply chain_ok_shape; [|exact Hchain];
        by apply (same_shape_set_node s l n (decremented n))
       |done].
    simpl. rewrite Hp.
    replace (metadata_of _ l) with (metadata_of s l).
    2: { symmetry. apply metadata_of_static. split; [done|]. intros q. simpl.
         destruct (decide (q = l)) as [->|].
         - by rewrite lookup_insert_eq, Hn.
         - by rewrite lookup_insert_ne. }
    match goal with |- context [releaseLayer_loop k e (S d) ?r pp ?s3] =>
      change s3 with (dropped l n s) end.
    pose proof (same_static_dropped l n s Hn) as Hst.
    assert (Hag : agree_below l s (dropped l n s)).
    { intros q Hq. simpl. rewrite lookup_insert_ne by lia. done. }
    destruct (IH e (S d) (rem ++ [metadata_of s l])%list pp (dropped l n s))
      as (s' & Hloop & Hcas); auto.
    + eapply releasable_agree; eauto.
    + eapply chain_ok_static; [exact Hst|]. inversion Hchain; simplify_eq; auto.
    + lia.
    + simpl. lia.
    + right. by destruct rem.
    + rewrite (cascade_agree l s (dropped l n s) Hag) in Hloop, Hcas by done.
      rewrite (stop_agree l s (dropped l n s) Hag) in Hcas by done.
      exists s'. split.
      * rewrite Hloop. do 3 f_equal. rewrite <-app_assoc. simpl. do 2 f_equal.
        apply list_fmap_ext. intros ? q _. by apply metadata_of_static.
      * eapply cascaded_cons; eauto.
        -- intros q Hq. pose proof (cascade_bound s k pp Hpp q Hq). lia.
        -- intros q Hq. pose proof (stop_bound s k pp Hpp q Hq). lia.
Qed.

Lemma releasable_of_child c s : inv c s →
  ∀ q, indexed s q → children s q ≠ ∅ → releasable s q.
Proof.
  intros Hinv q. induction (lt_wf q) as [q _ IH]. intros (n & Hq & Hn) Hch.
  pose proof (inv_count _ _ Hinv _ _ _ Hn Hq) as Hcount.
  assert (size (children s q) ≠ 0) as Hsz by (by rewrite map_size_empty_iff).
  destruct (decide (referenceCount n = 1)) as [H1|H1]; [|eapply rel_stop; eauto; lia].
  assert (references n = ∅) as Hrefs by (apply leibniz_equiv, size_empty_inv; lia).
  destruct (parent n) as [pp|] eqn:Hpar; [|eapply rel_root; eauto].
  destruct (inv_parent _ _ Hinv _ _ _ _ Hn Hq Hpar) as [Hlt Hpp].
  eapply rel_step; eauto. apply IH; [done|done|].
  intros Hempty.
  assert (children s pp !! chainID n = Some q) as Hin.
  { apply children_lookup. split; [done|]. unfold parent_of. by rewrite Hq. }
  rewrite Hempty in Hin. by rewrite lookup_empty in Hin.
Qed.

Lemma cascade_count s : ∀ k l q, q ∈ cascade k s l →
  ∃ n, heap s !! q = Some n ∧ referenceCount n = 1.
Proof.
  induction k as [|k IH]; intros l q; simpl; [by intros ?%elem_of_nil|].
  destruct (heap s !! l) as [n|] eqn:Hl; [|by intros ?%elem_of_nil].
  case_bool_decide; [|by intros ?%elem_of_nil].
  intros [->|Hq]%elem_of_cons; [eauto|].
  destruct (parent n); [eauto|by apply elem_of_nil in Hq].
Qed.

Lemma stop_count s : ∀ k l q, stop k s l = Some q →
  ∃ n, heap s !! q = Some n ∧ referenceCount n ≠ 1.
Proof.
  induction k as [|k IH]; intros l q; simpl; [done|].
  destruct (heap s !! l) as [n|] eqn:Hl; [|done].
  case_bool_decide; [|intros [= <-]; eauto].
  destruct (parent n); [eauto|done].
Qed.

Lemma cascade_indexed c s : inv c s →
  ∀ k l q, indexed s l → q ∈ cascade k s l → indexed s q.
Proof.
  intros Hinv. induction k as [|k IH]; intros l q Hidx; simpl; [by intros ?%elem_of_nil|].
  destruct Hidx as (n & Hl & Hn). rewrite Hl.
  case_bool_decide; [|by intros ?%elem_of_nil].
  intros [->|Hq]%elem_of_cons; [by exists n|].
  destruct (parent n) as [pp|] eqn:Hpar; [|by apply elem_of_nil in Hq].
  destruct (inv_parent _ _ Hinv _ _ _ _ Hn Hl Hpar) as [_ Hpp]. eauto.
Qed.

Lemma cascade_linked s : ∀ k l i a b,
  cascade k s l !! i = Some a → cascade k s l !! S i = Some b →
  parent_of s a = Some b.
Proof.
  induction k as [|k IH]; intros l i a b; simpl; [done|].
  destruct (heap s !! l) as [n|] eqn:Hl; [|done].
  case_bool_decide; [|done].
  destruct i as [|i]; simpl.
  - intros [= <-]. unfold parent_of. rewrite Hl. simpl.
    destruct (parent n) as [pp|]; [|done].
    destruct k as [|k]; simpl; [done|].
    destruct (heap s !! pp); [|done]. case_bool_decide; [|done]. by intros [= <-].
  - destruct (parent n) as [pp|]; [|done]. apply IH.
Qed.

Lemma stop_survives s : ∀ k l q, releasable s l → stop k s l = Some q →
  ∃ n, heap s !! q = Some n ∧ 1 < referenceCount n.
Proof.
  induction k as [|k IH]; intros l q Hrel; simpl; [done|].
  inversion Hrel as [? n Hn Hc|? n Hn Hc Hr Hp|? n pp Hn Hc Hr Hp Hlt Hpp]; subst;
    rewrite Hn; case_bool_decide; try (exfalso; lia).
  - intros [= <-]. eauto.
  - by rewrite Hp.
  - rewrite Hp. eauto.
Qed.

Lemma store_eq s s' :
  store s = store s' → driver s = driver s' → heap s = heap s' →
  layerMap s = layerMap s' → mounts s = mounts s' →
  next_ptr s = next_ptr s' → next_ref s = next_ref s' → s = s'.
Proof. destruct s, s'. simpl. by intros -> -> -> -> -> -> ->. Qed.

Lemma Release_held e h s p n :
  layerMap s !! layer_ChainID h = Some p → heap s !! p = Some n →
  layer_ref h ∈ references n →
  Release e h s = releaseLayer e p (set_node p (deleteReference n h) s).
Proof.
  intros Hp Hn Hin. unfold Release, deref. rewrite Hp, Hn. simpl.
  unfold hasReference. by rewrite bool_decide_eq_true_2.
Qed.

(** One turn of the loop of [releaseLayer] on a layer whose count stays
    positive, and on a layer whose count drops to zero. *)
Lemma releaseLayer_loop_keep k e d rem l s n :
  heap s !! l = Some n → 1 < referenceCount n →
  releaseLayer_loop (S k) e d rem l s = Done (Ok rem, set_node l (decremented n) s).
Proof.
  intros Hn Hc. simpl. unfold deref. rewrite Hn. simpl.
  rewrite bool_decide_eq_false_2 by lia.
  rewrite bool_decide_eq_false_2 by (simpl; lia). done.
Qed.

Lemma releaseLayer_loop_drop k e d rem l s n :
  heap s !! l = Some n → referenceCount n = 1 → references n = ∅ →
  d = 0 ∨ rem ≠ [] → e d = delete_ok → chain_ok s l → l < next_ptr s →
  releaseLayer_loop (S k) e d rem l s
  = match parent n with
    | None => Done (Ok (rem ++ [metadata_of s l])%list, dropped l n s)
    | Some p =>
        releaseLayer_loop k e (S d) (rem ++ [metadata_of s l])%list p (dropped l n s)
    end.
Proof.
  intros Hn Hc Hr Hd He Hchain Hlt.
  assert (Hguard : (bool_decide (length rem = 0) && bool_decide (0 < d)) = false).
  { destruct Hd as [->|Hrem].
    - rewrite (bool_decide_eq_false_2 (0 < 0)) by lia. by rewrite andb_false_r.
    - rewrite bool_decide_eq_false_2; [done|]. destruct rem; simpl; [done|lia]. }
  simpl. unfold deref. rewrite Hn. simpl.
  rewrite bool_decide_eq_false_2 by lia.
  rewrite !bool_decide_eq_true_2 by (simpl; lia). simpl. rewrite Hguard.
  unfold hasReferences. simpl. rewrite Hr, bool_decide_eq_true_2 by done. simpl.
  rewrite He.
  erewrite deleteLayer_ok;
    [|simpl; by rewrite lookup_insert_eq
     |eapply chain_ok_shape; [|exact Hchain];
      by apply (same_shape_set_node s l n (decremented n))
     |done].
  simpl.
  replace (metadata_of _ l) with (metadata_of s l).
  2: { symmetry. apply metadata_of_static. split; [done|]. intros q. simpl.
       destruct (decide (q = l)) as [->|].
       - by rewrite lookup_insert_eq, Hn.
       - by rewrite lookup_insert_ne. }
  destruct (parent n); done.
Qed.

(** The cascading release: the handle [h] is the only reference of any
    kind on the layer [l], and every deletion succeeds. *)
Lemma cascading_release e (h : Layer) s l n :
  wf s →
  layerMap s !! layer_ChainID h = Some l → heap s !! l = Some n →
  layer_ref h ∈ references n → referenceCount n = 1 →
  (∀ i, e i = delete_ok) →
  ∃ s', Release e h s = Done (Ok (metadata_of s <$> doomed s l), s') ∧
    head (doomed s l) = Some l ∧
    (∀ i a b, doomed s l !! i = Some a → doomed s l !! S i = Some b →
       parent_of s a = Some b) ∧
    (∀ q, q ∈ doomed s l →
       layerMap s' !! chain_of s q = None ∧
       layers (store s') !! chain_of s q = None ∧
       cache_of s q ∉ driver s' ∧
       referenceCount <$> heap s' !! q = Some 0) ∧
    (∀ q, survivor s l = Some q →
       ∃ nq, heap s !! q = Some nq ∧ 1 < referenceCount nq ∧
         heap s' !! q = Some (decremented nq) ∧
         layerMap s' !! chainID nq = Some q) ∧
    (∀ c q, layerMap s !! c = Some q → q ∉ doomed s l → layerMap s' !! c = Some q) ∧
    (∀ q, q ∉ doomed s l → survivor s l ≠ Some q → heap s' !! q = heap s !! q) ∧
    mounts s' = mounts s ∧
    (∀ c, c ∉ chain_of s <$> doomed s l →
       layers (store s') !! c = layers (store s) !! c) ∧
    mountRecs (store s') = mountRecs (store s) ∧
    driver s' = driver s ∖ list_to_set (cache_of s <$> doomed s l) ∧
    next_ptr s' = next_ptr s ∧ next_ref s' = next_ref s.
Proof.
  intros Hwf Hk Hl Hin Hone He.
  assert (Hidx : indexed s l).
  { exists n. split; [done|]. destruct (inv_index _ _ Hwf _ _ Hk) as (m & Hm & Hc).
    congruence. }
  destruct Hidx as (n0 & Hl0 & Hn). assert (n0 = n) by congruence. subst n0. clear Hl0.
  (* the handle is the only reference *)
  pose proof (inv_count _ _ Hwf _ _ _ Hn Hl) as Hcount. unfold no_credit in Hcount.
  assert (Hrefs : references n ∖ {[layer_ref h]} = ∅).
  { apply leibniz_equiv, size_empty_inv.
    rewrite size_difference by set_solver. rewrite size_singleton. lia. }
  (* the store once the handle is dropped *)
  set (n1 := deleteReference n h).
  set (s1 := set_node l n1 s).
  assert (Hsh : same_shape s s1) by (by apply (same_shape_set_node s l n n1)).
  assert (Hst : same_static s s1).
  { split; [done|]. intros q. simpl. destruct (decide (q = l)) as [->|].
    - by rewrite lookup_insert_eq, Hl.
    - by rewrite lookup_insert_ne. }
  assert (Hag : agree_below l s s1).
  { intros q Hq. simpl. rewrite lookup_insert_ne by lia. done. }
  assert (Hl1 : heap s1 !! l = Some n1) by (simpl; by rewrite lookup_insert_eq).
  assert (Hpar : ∀ pp, parent n = Some pp → pp < l ∧ releasable s pp).
  { intros pp Hp. destruct (inv_parent _ _ Hwf _ _ _ _ Hn Hl Hp) as [Hlt Hpp].
    split; [done|]. eapply releasable_of_child; eauto. intros Hempty.
    assert (children s pp !! chainID n = Some l) as Hc.
    { apply children_lookup. split; [done|]. unfold parent_of. by rewrite Hl. }
    rewrite Hempty in Hc. by rewrite lookup_empty in Hc. }
  assert (Hrel : releasable s1 l).
  { destruct (parent n) as [pp|] eqn:Hp.
    - destruct (Hpar pp eq_refl) as [Hlt Hpp].
      eapply rel_step; eauto. eapply releasable_agree; eauto.
    - eapply rel_root; eauto. }
  assert (Hchain : chain_ok s1 l).
  { eapply chain_ok_shape; [exact Hsh|]. eapply chain_ok_indexed; eauto.
    exists n. eauto. }
  assert (Hlt : l < next_ptr s) by (eapply inv_ptr; eauto).
  (* what is deleted is the same in both stores *)
  assert (Hds : cascade (fuel s1) s1 l = doomed s l).
  { unfold doomed. change (fuel s1) with (fuel s). unfold fuel. simpl.
    rewrite lookup_insert_eq, Hl. simpl.
    rewrite !bool_decide_eq_true_2 by done.
    destruct (parent n) as [pp|] eqn:Hp; [|done].
    destruct (Hpar pp eq_refl) as [Hplt Hpp]. f_equal.
    by apply (cascade_agree l s s1). }
  assert (Hsv : stop (fuel s1) s1 l = survivor s l).
  { unfold survivor. change (fuel s1) with (fuel s). unfold fuel. simpl.
    rewrite lookup_insert_eq, Hl. simpl.
    rewrite !bool_decide_eq_true_2 by done.
    destruct (parent n) as [pp|] eqn:Hp; [|done].
    destruct (Hpar pp eq_refl) as [Hplt Hpp].
    by apply (stop_agree l s s1). }
  destruct (releaseLayer_loop_cascade (fuel s1) e 0 [] l s1)
    as (s' & Hloop & Hcas); auto.
  { unfold fuel. simpl. lia. }
  rewrite Hds in Hloop, Hcas. rewrite Hsv in Hcas. simpl in Hloop.
  assert (Hmd : metadata_of s1 <$> doomed s l = metadata_of s <$> doomed s l).
  { apply list_fmap_ext. intros ? q _. by apply metadata_of_static. }
  rewrite Hmd in Hloop.
  destruct Hcas as (C1 & C2 & C3 & C4 & C5 & C6 & C7 & C8).
  assert (Hcs : chain_of s1 <$> doomed s l = chain_of s <$> doomed s l).
  { apply list_fmap_ext. intros ? q _. by apply chain_of_static. }
  assert (Hks : cache_of s1 <$> doomed s l = cache_of s <$> doomed s l).
  { apply list_fmap_ext. intros ? q _. by apply cache_of_static. }
  rewrite Hcs in C1, C2. rewrite Hks in C4.
  assert (Hhead : head (doomed s l) = Some l).
  { unfold doomed, fuel. simpl. rewrite Hl. by rewrite bool_decide_eq_true_2. }
  assert (Hlin : l ∈ doomed s l).
  { destruct (doomed s l) as [|x ds]; [done|]. injection Hhead as ->.
    apply list_elem_of_here. }
  assert (Hdidx : ∀ q, q ∈ doomed s l → indexed s q).
  { intros q Hq. eapply (cascade_indexed _ s Hwf); [|exact Hq]. exists n. eauto. }
  exists s'. split.
  { unfold Release, deref. rewrite Hk, Hl. simpl. unfold hasReference.
    rewrite bool_decide_eq_true_2 by done. exact Hloop. }
  split; [done|]. split; [apply cascade_linked|].
  split; [|split; [|split; [|split; [|split; [|split; [|split; [|split; [|split]]]]]]]].
  - intros q Hq.
    assert (chain_of s q ∈ chain_of s <$> doomed s l) as Hcq
      by (by apply list_elem_of_fmap_2).
    split; [by rewrite C1, decide_True|]. split; [by rewrite C2, decide_True|].
    split.
    + rewrite C4. simpl. intros Hd. apply elem_of_difference in Hd as [_ Hd].
      apply Hd. apply elem_of_list_to_set. by apply list_elem_of_fmap_2.
    + rewrite C8, decide_True by done.
      destruct (cascade_count _ _ _ _ Hq) as (nq & Hnq & H1).
      destruct (same_static_lookup s s1 q nq Hst Hnq) as (nq' & Hnq' & _).
      rewrite Hnq'. simpl. f_equal.
      destruct (decide (q = l)) as [->|Hne].
      * assert (nq' = n1) by congruence. subst nq'. simpl. lia.
      * rewrite <-(Hag q) in Hnq.
        -- assert (nq' = nq) by congruence. subst. lia.
        -- assert (q ≤ l); [|lia].
           rewrite <-Hds in Hq. eapply cascade_bound; eauto.
  - intros q Hq.
    destruct (stop_survives s1 (fuel s1) l q Hrel) as (nq' & Hnq' & Hgt).
    { by rewrite Hsv. }
    assert (q ≠ l) as Hne.
    { intros ->. assert (nq' = n1) by congruence. subst. simpl in Hgt. lia. }
    assert (Hnq : heap s !! q = Some nq').
    { simpl in Hnq'. by rewrite lookup_insert_ne in Hnq'. }
    exists nq'. split; [done|]. split; [done|].
    assert (Hnotin : q ∉ doomed s l).
    { intros Hq'. destruct (cascade_count _ _ _ _ Hq') as (m & Hm & H1).
      assert (m = nq') by congruence. subst. lia. }
    split.
    + rewrite C8, decide_False, decide_True by done. simpl.
      rewrite lookup_insert_ne by done. by rewrite Hnq.
    + rewrite C1. rewrite decide_False.
      * simpl. assert (indexed s q) as (m & Hm & Hmi); [|congruence].
        destruct (survivor s l) eqn:Hsurv; [|done]. injection Hq as ->.
        (* the survivor is the parent of a deleted layer *)
        clear -Hwf Hsurv Hn Hl. unfold survivor in Hsurv.
        assert (Hgen : ∀ k l0, indexed s l0 → stop k s l0 = Some q → indexed s q).
        { induction k as [|k IH]; intros l0 (m0 & Hm0 & Hi0); simpl; [done|].
          rewrite Hm0. case_bool_decide.
          - destruct (parent m0) as [pp|] eqn:Hp; [|done].
            destruct (inv_parent _ _ Hwf _ _ _ _ Hi0 Hm0 Hp) as [_ Hpp]. eauto.
          - intros [= <-]. by exists m0. }
        eapply Hgen; [|exact Hsurv]. by exists n.
      * intros Hc. apply list_elem_of_fmap_1 in Hc as (d & Hcd & Hd).
        destruct (Hdidx d Hd) as (nd & Hnd & Hndi).
        assert (indexed s q) as (m & Hm & Hmi).
        { destruct (survivor s l) eqn:Hsurv; [|done]. injection Hq as ->.
          unfold survivor in Hsurv.
          assert (Hgen : ∀ k l0, indexed s l0 → stop k s l0 = Some q → indexed s q).
          { induction k as [|k IH]; intros l0 (m0 & Hm0 & Hi0); simpl; [done|].
            rewrite Hm0. case_bool_decide.
            - destruct (parent m0) as [pp|] eqn:Hp; [|done].
              destruct (inv_parent _ _ Hwf _ _ _ _ Hi0 Hm0 Hp) as [_ Hpp]. eauto.
            - intros [= <-]. by exists m0. }
          eapply Hgen; [|exact Hsurv]. by exists n. }
        assert (m = nq') by congruence. subst m.
        unfold chain_of in Hcd. rewrite Hnd in Hcd. simpl in Hcd.
        assert (d = q) by congruence. subst d. done.
  - intros c q Hc Hq. rewrite C1, decide_False; [done|].
    intros Hin'. apply list_elem_of_fmap_1 in Hin' as (d & Hcd & Hd).
    destruct (Hdidx d Hd) as (nd & Hnd & Hndi).
    unfold chain_of in Hcd. rewrite Hnd in Hcd. simpl in Hcd. subst c.
    assert (d = q) by congruence. subst d. done.
  - intros q Hq Hsurv. rewrite C8, decide_False, decide_False by done.
    simpl. rewrite lookup_insert_ne; [done|]. intros ->. done.
  - done.
  - intros c Hc. by rewrite C2, decide_False.
  - done.
  - done.
  - done.
  - done.
Qed.


(** A release that leaves the layer another reference only takes the
    handle away and decrements the count. *)
Lemma Release_decrements e (h : Layer) s l n :
  wf s →
  layerMap s !! layer_ChainID h = Some l → heap s !! l = Some n →
  layer_ref h ∈ references n →
  children s l ≠ ∅ ∨ mounted_on s l ≠ ∅ ∨ references n ≠ {[layer_ref h]} →
  Release e h s = Done (Ok [], set_node l (decremented (deleteReference n h)) s).
Proof.
  intros Hwf Hk Hl Hin Hother.
  pose proof (inv_count _ _ Hwf _ _ _ Hk Hl) as Hcount. unfold no_credit in Hcount.
  assert (Hrefs : 0 < size (references n)).
  { destruct (decide (size (references n) = 0)) as [H0|]; [|lia].
    apply size_empty_inv in H0. set_solver. }
  assert (Hgt : 1 < referenceCount n).
  { destruct Hother as [Hc|[Hm|Hr]].
    - assert (size (children s l) ≠ 0) by (by rewrite map_size_empty_iff). lia.
    - assert (size (mounted_on s l) ≠ 0) by (by rewrite map_size_empty_iff). lia.
    - assert (size (references n) ≠ 1); [|lia]. intros H1.
      apply Hr. apply size_1_elem_of in H1 as [x Hx].
      apply leibniz_equiv in Hx. rewrite Hx in Hin |- *.
      apply elem_of_singleton in Hin. by rewrite Hin. }
  rewrite (Release_held e h s l n) by done.
  rewrite (releaseLayer_decrement e l _ (deleteReference n h));
    [|simpl; by rewrite lookup_insert_eq|done].
  do 2 f_equal. apply store_eq; try done. simpl. by rewrite insert_insert_eq.
Qed.

(** C2, as the code has it: the release of a handle [h] registered on the
    indexed layer [l].  (1) The cascade.  When the reference count of [l] is
    1, so that [h] is its only reference of any kind (no other handle, no
    child layer, no mount), and every deletion succeeds, [Release] returns one
    [Metadata] record per deleted layer, in child-to-root order: [l] first,
    then each ancestor in turn as long as its count is 1 (it drops to zero).
    Every deleted layer is out of the index, its metadata record and its
    backing store are gone and its count is zero.  The walk stops at the first
    ancestor whose count is not 1: that count was greater than 1, it is
    decremented by one and the ancestor stays indexed.  Every other layer
    and every other index entry are as before; so are the mounts and the
    mount records; the layer records and the backing stores are those of
    before less the ones of the deleted layers.  (2) No cascade.  When [l]
    still has a child layer, a mount or another handle, [Release] returns no
    [Metadata] record whatever the deletions would answer, and the store is
    as before except for the object [l], which has lost the handle [h] and
    whose count is one less: nothing is removed from the index, from the
    metadata store or from the driver. *)
Theorem C2_cascading_release e (h : Layer) s l n :
  wf s →
  layerMap s !! layer_ChainID h = Some l → heap s !! l = Some n →
  layer_ref h ∈ references n →
  (referenceCount n = 1 → (∀ i, e i = delete_ok) →
   ∃ s', Release e h s = Done (Ok (metadata_of s <$> doomed s l), s') ∧
     head (doomed s l) = Some l ∧
     (∀ i a b, doomed s l !! i = Some a → doomed s l !! S i = Some b →
        parent_of s a = Some b) ∧
     (∀ q, q ∈ doomed s l →
        layerMap s' !! chain_of s q = None ∧
        layers (store s') !! chain_of s q = None ∧
        cache_of s q ∉ driver s' ∧
        referenceCount <$> heap s' !! q = Some 0) ∧
     (∀ q, survivor s l = Some q →
        ∃ nq, heap s !! q = Some nq ∧ 1 < referenceCount nq ∧
          heap s' !! q = Some (decremented nq) ∧
          layerMap s' !! chainID nq = Some q) ∧
     (∀ c q, layerMap s !! c = Some q → q ∉ doomed s l → layerMap s' !! c = Some q) ∧
     (∀ q, q ∉ doomed s l → survivor s l ≠ Some q → heap s' !! q = heap s !! q) ∧
     mounts s' = mounts s ∧
     (∀ c, c ∉ chain_of s <$> doomed s l →
        layers (store s') !! c = layers (store s) !! c) ∧
     mountRecs (store s') = mountRecs (store s) ∧
     driver s' = driver s ∖ list_to_set (cache_of s <$> doomed s l) ∧
     next_ptr s' = next_ptr s ∧ next_ref s' = next_ref s) ∧
  (children s l ≠ ∅ ∨ mounted_on s l ≠ ∅ ∨ references n ≠ {[layer_ref h]} →
   Release e h s = Done (Ok [], set_node l (decremented (deleteReference n h)) s)).
Proof.
  intros Hwf Hk Hl Hin. split.
  - intros Hone He. by apply (cascading_release e h s l n).
  - by apply Release_decrements.
Qed.

Lemma wf_store_chain3 : wf store_chain3.
Proof. apply wf_state_of, Release_wf, wf_state_of, Release_wf, wf_store_leaf. Qed.

Lemma wf_store_two_leaves : wf store_two_leaves.
Proof.
  apply wf_state_of, Release_wf, wf_state_of, Release_wf, wf_state_of, Register_wf,
    wf_store_leaf.
Qed.

Lemma C2_witness :
  (∃ s', Release all_deleted (mkLayer 2 "a/b/c") store_chain3
         = Done (Ok (metadata_of store_chain3 <$> doomed store_chain3 2), s') ∧
     mChainID <$> (metadata_of store_chain3 <$> doomed store_chain3 2)
     = ["a/b/c"; "a/b"; "a"] ∧
     layerMap s' !! "a" = None) ∧
  (∃ s', Release all_deleted (mkLayer 2 "a/b/c") store_two_leaves
         = Done (Ok (metadata_of store_two_leaves <$> doomed store_two_leaves 2), s') ∧
     mChainID <$> (metadata_of store_two_leaves <$> doomed store_two_leaves 2)
     = ["a/b/c"] ∧
     layerMap s' !! "a/b" = Some 1 ∧ layerMap s' !! "a" = Some 0) ∧
  Release all_deleted (mkLayer 0 "a") store_mid
  = Done (Ok [], set_node 0 (decremented (deleteReference
                               (mkRoLayer "a" "a" None "c1" 10 2 {[0]}) (mkLayer 0 "a")))
                   store_mid) ∧
  Release all_deleted (mkLayer 0 "a") store_mounted
  = Done (Ok [], set_node 0 (decremented (deleteReference
                               (mkRoLayer "a" "a" None "c1" 10 2 {[0]}) (mkLayer 0 "a")))
                   store_mounted).
Proof.
  split; [|split; [|split]].
  - destruct (C2_cascading_release all_deleted (mkLayer 2 "a/b/c") store_chain3 2
                (mkRoLayer "a/b/c" "c" (Some 1) "c3" 10 1 {[2]})) as [Hcascade _].
    + exact wf_store_chain3.
    + vm_compute. reflexivity.
    + vm_compute. reflexivity.
    + simpl. apply elem_of_singleton. reflexivity.
    + destruct (Hcascade eq_refl (λ i, eq_refl)) as (s' & Hrel & _ & _ & Hgone & _).
      exists s'. split; [exact Hrel|]. split; [vm_compute; reflexivity|].
      destruct (Hgone 0) as (Hmap & _).
      * vm_compute. apply list_elem_of_further, list_elem_of_further, list_elem_of_here.
      * exact Hmap.
  - destruct (C2_cascading_release all_deleted (mkLayer 2 "a/b/c") store_two_leaves 2
                (mkRoLayer "a/b/c" "c" (Some 1) "c3" 10 1 {[2]})) as [Hcascade _].
    + exact wf_store_two_leaves.
    + vm_compute. reflexivity.
    + vm_compute. reflexivity.
    + simpl. apply elem_of_singleton. reflexivity.
    + destruct (Hcascade eq_refl (λ i, eq_refl))
        as (s' & Hrel & _ & _ & _ & _ & Hkept & _).
      exists s'. split; [exact Hrel|]. split; [vm_compute; reflexivity|].
      assert (Hout : ∀ q, q ≠ 2 → q ∉ doomed store_two_leaves 2).
      { intros q Hq Hin. vm_compute in Hin. apply list_elem_of_singleton in Hin. lia. }
      split; apply Hkept; try (vm_compute; reflexivity); apply Hout; lia.
  - destruct (C2_cascading_release all_deleted (mkLayer 0 "a") store_mid 0
                (mkRoLayer "a" "a" None "c1" 10 2 {[0]})) as [_ Hstays].
    + exact wf_store_mid.
    + vm_compute. reflexivity.
    + vm_compute. reflexivity.
    + simpl. apply elem_of_singleton. reflexivity.
    + apply Hstays. left. intros Hempty.
      assert (Hchild : children store_mid 0 !! "a/b" = Some 1) by (vm_compute; reflexivity).
      rewrite Hempty, lookup_empty in Hchild. discriminate Hchild.
  - destruct (C2_cascading_release all_deleted (mkLayer 0 "a") store_mounted 0
                (mkRoLayer "a" "a" None "c1" 10 2 {[0]})) as [_ Hstays].
    + exact wf_store_mounted.
    + vm_compute. reflexivity.
    + vm_compute. reflexivity.
    + simpl. apply elem_of_singleton. reflexivity.
    + apply Hstays. right. left. intros Hempty.
      assert (Hmount : is_Some (mounted_on store_mounted 0 !! "box"))
        by (vm_compute; eexists; reflexivity).
      rewrite Hempty, lookup_empty in Hmount. destruct Hmount as [x Hx]. discriminate Hx.
Defined.

(** Releasing the last handle registered on a layer that still has a child
    or a mount deletes nothing.  In the chain root "a" <- mid "a/b", the root
    is held by the single handle 0; after that handle is released the root is
    still indexed and still has its backing store and its metadata record.
    The same holds for the root "a" with the mount "box" on it. *)
Lemma C2_counterexample :
  (∃ n, heap store_mid !! 0 = Some n ∧ chainID n = "a" ∧ references n = {[0]}) ∧
  layerMap store_mid !! "a" = Some 0 ∧
  (∃ s', Release all_deleted (mkLayer 0 "a") store_mid = Done (Ok [], s') ∧
     layerMap s' !! "a" = Some 0 ∧ "c1" ∈ driver s' ∧
     is_Some (layers (store s') !! "a")) ∧
  (∃ n, heap store_mounted !! 0 = Some n ∧ chainID n = "a" ∧ references n = {[0]}) ∧
  layerMap store_mounted !! "a" = Some 0 ∧
  (∃ s', Release all_deleted (mkLayer 0 "a") store_mounted = Done (Ok [], s') ∧
     layerMap s' !! "a" = Some 0 ∧ "c1" ∈ driver s' ∧
     is_Some (layers (store s') !! "a")).
Proof.
  split; [|split; [|split; [|split; [|split]]]].
  - exists (mkRoLayer "a" "a" None "c1" 10 2 {[0]}).
    split; [vm_compute; reflexivity|]. split; reflexivity.
  - vm_compute. reflexivity.
  - exists (state_of (Release all_deleted (mkLayer 0 "a") store_mid)).
    split; [vm_compute; reflexivity|]. split; [vm_compute; reflexivity|].
    split; [vm_compute; reflexivity|]. vm_compute. eexists. reflexivity.
  - exists (mkRoLayer "a" "a" None "c1" 10 2 {[0]}).
    split; [vm_compute; reflexivity|]. split; reflexivity.
  - vm_compute. reflexivity.
  - exists (state_of (Release all_deleted (mkLayer 0 "a") store_mounted)).
    split; [vm_compute; reflexivity|]. split; [vm_compute; reflexivity|].
    split; [vm_compute; reflexivity|]. vm_compute. eexists. reflexivity.
Qed.

(** ** Releasing a reference that is owed *)

Lemma releasable_owed p s : inv (credit_at p) s → indexed s p → releasable s p.
Proof.
  intros Hinv (n & Hp & Hn).
  pose proof (inv_count _ _ Hinv _ _ _ Hn Hp) as Hcount. rewrite credit_at_eq in Hcount.
  destruct (decide (referenceCount n = 1)) as [H1|H1]; [|eapply rel_stop; eauto; lia].
  assert (references n = ∅) as Hrefs by (apply leibniz_equiv, size_empty_inv; lia).
  destruct (parent n) as [pp|] eqn:Hpar; [|eapply rel_root; eauto].
  destruct (inv_parent _ _ Hinv _ _ _ _ Hn Hp Hpar) as [Hlt Hpp].
  eapply rel_step; eauto. eapply releasable_of_child; eauto. intros Hempty.
  assert (children s pp !! chainID n = Some p) as Hc.
  { apply children_lookup. split; [done|]. unfold parent_of. by rewrite Hp. }
  rewrite Hempty in Hc. by rewrite lookup_empty in Hc.
Qed.

(** Releasing a layer to which a reference is owed, when every deletion
    succeeds: the layers whose count is 1, from [p] upwards, are deleted and
    the first one whose count is greater is decremented. *)
Lemma releaseLayer_owed e p s :
  inv (credit_at p) s → indexed s p → (∀ i, e i = delete_ok) →
  ∃ s', releaseLayer e p s = Done (Ok (metadata_of s <$> doomed s p), s') ∧
    cascaded s (doomed s p) (survivor s p) s'.
Proof.
  intros Hinv Hidx He.
  assert (Hlt : p < next_ptr s).
  { destruct Hidx as (n & Hp & _). eapply inv_ptr; eauto. }
  destruct (releaseLayer_loop_cascade (fuel s) e 0 [] p s) as (s' & Hloop & Hcas); auto.
  - by apply releasable_owed.
  - by eapply chain_ok_indexed.
  - unfold fuel. lia.
  - exists s'. split; [exact Hloop|exact Hcas].
Qed.

(** ** Releasing a mount *)

Lemma retake_deleted (m : mountedLayer) (l : RWLayer) :
  rw_ref l ∈ mreferences m →
  m_retakeReference (set_mreferences (mreferences m ∖ {[rw_ref l]}) m) l = m.
Proof.
  intros Hin. destruct m as [nm mid iid mp refs].
  unfold m_retakeReference, set_mreferences. simpl in *.
  f_equal. apply leibniz_equiv. intros x. rewrite elem_of_union, elem_of_difference,
    elem_of_singleton. destruct (decide (x = rw_ref l)) as [->|]; naive_solver.
Qed.


Lemma unmounted_owed name m s p :
  wf s → mounts s !! name = Some m → mparent m = Some p →
  inv (credit_at p) (unmounted name m s) ∧ indexed (unmounted name m s) p.
Proof.
  intros Hwf Hm Hp. split.
  - eapply (inv_mono (credit_add no_credit (credit_opt (mparent m)))).
    { intros q. rewrite Hp. unfold credit_add, no_credit. simpl. lia. }
    eapply (inv_mount_delete no_credit s _ name m); eauto.
  - destruct (inv_mount _ _ Hwf _ _ _ Hm Hp) as (n & Hn & Hi). by exists n.
Qed.

(** The last handle of a mount is released and the removal steps succeed. *)
Lemma ReleaseRWLayer_last e (l : RWLayer) s m :
  mounts s !! rw_Name l = Some m → mreferences m = {[rw_ref l]} →
  rrw_failure e m = None →
  ReleaseRWLayer e l s
  = match mparent m with
    | Some p => releaseLayer (rrw_release e) p (unmounted (rw_Name l) m s)
    | None => Done (Ok [], unmounted (rw_Name l) m s)
    end.
Proof.
  intros Hm0 Hrefs Hok. unfold ReleaseRWLayer, rrw_failure in *. rewrite Hm0.
  unfold m_deleteReference. rewrite bool_decide_eq_true_2 by (rewrite Hrefs; set_solver).
  unfold m_hasReferences, unmounted. simpl. rewrite Hrefs.
  rewrite bool_decide_eq_true_2 by set_solver. simpl.
  destruct (rrw_removeMount e); [done|].
  destruct (decide (initID m = "")).
  - rewrite Hok. simpl. rewrite delete_insert_eq. done.
  - destruct (rrw_removeInit e); [done|]. rewrite Hok. simpl.
    rewrite delete_insert_eq. done.
Qed.

(** The release of the parent chain that ends the removal of a mount. *)
Lemma ReleaseRWLayer_parent e (l : RWLayer) s m p :
  wf s → mounts s !! rw_Name l = Some m → mreferences m = {[rw_ref l]} →
  rrw_failure e m = None → mparent m = Some p →
  (∀ i, rrw_release e i = delete_ok) →
  ∃ s', ReleaseRWLayer e l s = Done (Ok (metadata_of s <$> doomed s p), s') ∧
    cascaded (unmounted (rw_Name l) m s) (doomed s p) (survivor s p) s'.
Proof.
  intros Hwf Hm Hrefs Hok Hp He.
  rewrite (ReleaseRWLayer_last e l s m Hm Hrefs Hok), Hp.
  set (u := unmounted (rw_Name l) m s).
  destruct (unmounted_owed (rw_Name l) m s p Hwf Hm Hp) as [Hinv Hidx]. fold u in Hinv, Hidx.
  destruct (releaseLayer_owed (rrw_release e) p u Hinv Hidx He) as (s' & Hrel & Hcas).
  assert (Hst : same_static s u) by (by split).
  assert (Hag : agree_below (S p) u s) by (by intros q _).
  pose proof (releasable_owed p u Hinv Hidx) as Hreleasable.
  assert (Hds : doomed u p = doomed s p).
  { unfold doomed. change (fuel u) with (fuel s). symmetry.
    apply (cascade_agree (S p) u s Hag); [lia|done]. }
  assert (Hsv : survivor u p = survivor s p).
  { unfold survivor. change (fuel u) with (fuel s). symmetry.
    apply (stop_agree (S p) u s Hag); [lia|done]. }
  rewrite Hds in Hrel, Hcas. rewrite Hsv in Hcas.
  exists s'. split; [|exact Hcas]. rewrite Hrel. do 3 f_equal.
  apply list_fmap_ext. intros ? q _. by apply metadata_of_static.
Qed.

(** C5: the contract of [ReleaseRWLayer] for a handle [l] held on the
    registered mount [m].  (a) While other handles remain, it returns an
    empty list and no error; the mount stays registered with the same name,
    IDs and parent, only [l] leaves its reference set, and nothing else
    changes.  (b) For the last handle, when the removal steps succeed, the
    writable backing store, the init backing store if any, the mount record
    and the index entry are removed, and the parent chain is released.  For a
    mount without parent that is all, and the result is empty.  A parent
    that has another reference is decremented by one, nothing else changes
    and the result is empty.  In general, when the deletions succeed, the
    layers from the parent upwards whose count is 1 are deleted (out of the
    index, their records and backing stores removed), the result is their
    [Metadata] records in child-to-root order, and the first ancestor with a
    greater count is decremented; in particular a parent that the mount
    alone retained is deleted.  (c) When a removal step fails, the error is
    returned and the handle is retaken: indices, objects, counters and
    metadata are as before the call and the driver has lost at most the
    stores already removed, so that a retry whose steps succeed does what the
    first call would have done.  *)
Theorem C5_release_rw_layer e (l : RWLayer) s m :
  mounts s !! rw_Name l = Some m →
  rw_ref l ∈ mreferences m →
  (mreferences m ≠ {[rw_ref l]} →
   ReleaseRWLayer e l s
   = Done (Ok [], with_mounts
        (<[rw_Name l := set_mreferences (mreferences m ∖ {[rw_ref l]}) m]> (mounts s)) s)) ∧
  (mreferences m = {[rw_ref l]} → rrw_failure e m = None →
   ReleaseRWLayer e l s
   = match mparent m with
     | Some p => releaseLayer (rrw_release e) p (unmounted (rw_Name l) m s)
     | None => Done (Ok [], unmounted (rw_Name l) m s)
     end) ∧
  (mreferences m = {[rw_ref l]} → rrw_failure e m = None →
   (mparent m = None →
    ReleaseRWLayer e l s = Done (Ok [], unmounted (rw_Name l) m s)) ∧
   (∀ p np, mparent m = Some p → heap s !! p = Some np → 1 < referenceCount np →
      ReleaseRWLayer e l s
      = Done (Ok [], set_node p (decremented np) (unmounted (rw_Name l) m s))) ∧
   (∀ p, mparent m = Some p → wf s → (∀ i, rrw_release e i = delete_ok) →
      ∃ s', ReleaseRWLayer e l s = Done (Ok (metadata_of s <$> doomed s p), s') ∧
        cascaded (unmounted (rw_Name l) m s) (doomed s p) (survivor s p) s' ∧
        mounts s' = delete (rw_Name l) (mounts s) ∧
        mountRecs (store s') = delete (mname m) (mountRecs (store s)) ∧
        mountID m ∉ driver s' ∧ (initID m ≠ "" → initID m ∉ driver s') ∧
        (∀ np, heap s !! p = Some np → referenceCount np = 1 →
           head (doomed s p) = Some p ∧ layerMap s' !! chainID np = None ∧
           layers (store s') !! chainID np = None ∧ cacheID np ∉ driver s' ∧
           referenceCount <$> heap s' !! p = Some 0))) ∧
  (mreferences m = {[rw_ref l]} → ∀ err, rrw_failure e m = Some err →
   ∃ s', ReleaseRWLayer e l s = Done (Err err, s') ∧
     mounts s' = mounts s ∧ heap s' = heap s ∧ layerMap s' = layerMap s ∧
     store s' = store s ∧ driver s' ⊆ driver s ∧
     next_ptr s' = next_ptr s ∧ next_ref s' = next_ref s ∧
     ∀ e2, rrw_failure e2 m = None →
       ReleaseRWLayer e2 l s'
       = match mparent m with
         | Some p => releaseLayer (rrw_release e2) p (unmounted (rw_Name l) m s')
         | None => Done (Ok [], unmounted (rw_Name l) m s')
         end ∧
       ReleaseRWLayer e2 l s' = ReleaseRWLayer e2 l s).
Proof.
  intros Hm Hin.
  split; [|split; [|split]].
  - intros Hothers. unfold ReleaseRWLayer. rewrite Hm.
    unfold m_deleteReference. rewrite bool_decide_eq_true_2 by done.
    unfold m_hasReferences. simpl.
    rewrite bool_decide_eq_false_2; [done|].
    intros Hempty. apply Hothers. apply leibniz_equiv. intros x.
    rewrite elem_of_singleton. split; [|by intros ->].
    intros Hx. destruct (decide (x = rw_ref l)); [done|].
    assert (x ∈ mreferences m ∖ {[rw_ref l]}) as Hx' by set_solver.
    rewrite Hempty in Hx'. set_solver.
  - by apply ReleaseRWLayer_last.
  - intros Hrefs Hok. split; [|split].
    + intros Hnone. by rewrite (ReleaseRWLayer_last e l s m Hm Hrefs Hok), Hnone.
    + intros p np Hp Hnp Hgt.
      rewrite (ReleaseRWLayer_last e l s m Hm Hrefs Hok), Hp.
      by rewrite (releaseLayer_decrement _ p _ np).
    + intros p Hp Hwf He.
      destruct (ReleaseRWLayer_parent e l s m p Hwf Hm Hrefs Hok Hp He)
        as (s' & Hrel & Hcas).
      exists s'. split; [exact Hrel|]. split; [exact Hcas|].
      destruct Hcas as (C1 & C2 & C3 & C4 & C5 & C6 & C7 & C8).
      split; [exact C5|]. split; [exact C3|].
      split.
      { rewrite C4. unfold unmounted. simpl. destruct (decide (initID m = "")); set_solver. }
      split.
      { intros Hini. rewrite C4. unfold unmounted. simpl.
        rewrite decide_False by done. set_solver. }
      intros np Hnp Hone.
      assert (Hhead : head (doomed s p) = Some p).
      { unfold doomed, fuel. simpl. rewrite Hnp. by rewrite bool_decide_eq_true_2. }
      assert (Hpin : p ∈ doomed s p).
      { destruct (doomed s p) as [|x ds]; [done|]. injection Hhead as ->.
        apply list_elem_of_here. }
      assert (Hchain : chain_of (unmounted (rw_Name l) m s) p = chainID np).
      { unfold chain_of. simpl. by rewrite Hnp. }
      assert (Hcache : cache_of (unmounted (rw_Name l) m s) p = cacheID np).
      { unfold cache_of. simpl. by rewrite Hnp. }
      split; [done|].
      assert (Hcin : chainID np ∈ chain_of (unmounted (rw_Name l) m s) <$> doomed s p).
      { rewrite <-Hchain. by apply list_elem_of_fmap_2. }
      split; [by rewrite C1, decide_True|]. split; [by rewrite C2, decide_True|].
      split.
      { rewrite C4. intros Hd. apply elem_of_difference in Hd as [_ Hd]. apply Hd.
        apply elem_of_list_to_set. rewrite <-Hcache. by apply list_elem_of_fmap_2. }
      rewrite C8, decide_True by done. simpl. rewrite Hnp. simpl. f_equal. lia.
  - intros Hrefs err Hfail.
    assert (Hback : <[rw_Name l :=
                       m_retakeReference (set_mreferences (mreferences m ∖ {[rw_ref l]}) m) l]>
                      (<[rw_Name l := set_mreferences (mreferences m ∖ {[rw_ref l]}) m]>
                         (mounts s)) = mounts s).
    { rewrite retake_deleted by done. rewrite insert_insert_eq. by apply insert_id. }
    assert (Hretry : ∀ s', mounts s' = mounts s → heap s' = heap s →
      layerMap s' = layerMap s → store s' = store s →
      next_ptr s' = next_ptr s → next_ref s' = next_ref s →
      driver s' ∖ {[mountID m]} = driver s ∖ {[mountID m]} ∨
      (initID m ≠ "" ∧
       driver s' ∖ {[mountID m]} ∖ {[initID m]} = driver s ∖ {[mountID m]} ∖ {[initID m]}) →
      ∀ e2, rrw_failure e2 m = None →
        ReleaseRWLayer e2 l s'
        = match mparent m with
          | Some p => releaseLayer (rrw_release e2) p (unmounted (rw_Name l) m s')
          | None => Done (Ok [], unmounted (rw_Name l) m s')
          end ∧
        ReleaseRWLayer e2 l s' = ReleaseRWLayer e2 l s).
    { intros s' Hmo Hh Hl Hst Hp Hr Hd e2 Hok2.
      assert (Hm' : mounts s' !! rw_Name l = Some m) by (by rewrite Hmo).
      split; [by apply ReleaseRWLayer_last|].
      rewrite (ReleaseRWLayer_last e2 l s' m Hm' Hrefs Hok2).
      rewrite (ReleaseRWLayer_last e2 l s m Hm Hrefs Hok2).
      assert (unmounted (rw_Name l) m s' = unmounted (rw_Name l) m s) as ->; [|done].
      unfold unmounted. apply store_eq; simpl; try congruence.
      destruct (decide (initID m = "")); destruct Hd as [Hd|[Hi Hd]]; try done.
      by rewrite Hd. }
    unfold rrw_failure in Hfail. unfold ReleaseRWLayer at 1. rewrite Hm.
    unfold m_deleteReference. rewrite bool_decide_eq_true_2 by done.
    assert (m_hasReferences (set_mreferences (mreferences m ∖ {[rw_ref l]}) m) = false)
      as ->.
    { unfold m_hasReferences. simpl. rewrite Hrefs.
      by rewrite bool_decide_eq_true_2 by set_solver. }
    simpl.
    destruct (rrw_removeMount e) as [err1|].
    { injection Hfail as ->. eexists. split; [done|]. simpl. rewrite Hback.
      do 4 (split; [done|]). split; [set_solver|]. do 2 (split; [done|]).
      apply Hretry; simpl; auto. }
    destruct (decide (initID m = "")) as [Hini|Hini].
    + rewrite Hfail. eexists. split; [done|]. simpl. rewrite Hback.
      do 4 (split; [done|]). split; [set_solver|]. do 2 (split; [done|]).
      apply Hretry; simpl; auto.
      left. apply leibniz_equiv. set_solver.
    + destruct (rrw_removeInit e) as [err1|].
      { injection Hfail as ->. eexists. split; [done|]. simpl. rewrite Hback.
        do 4 (split; [done|]). split; [set_solver|]. do 2 (split; [done|]).
        apply Hretry; simpl; auto.
        left. apply leibniz_equiv. set_solver. }
      rewrite Hfail. eexists. split; [done|]. simpl. rewrite Hback.
      do 4 (split; [done|]). split; [set_solver|]. do 2 (split; [done|]).
      apply Hretry; simpl; auto.
      right. split; [done|]. apply leibniz_equiv. set_solver.
Qed.

Lemma wf_store_mount_only : wf store_mount_only.
Proof. apply wf_state_of, Release_wf, wf_store_mounted. Qed.

Lemma C5_witness :
  ReleaseRWLayer releaseRW_env_ok (mkRWLayer 2 "box") store_mounted2
  = Done (Ok [], with_mounts
       (<["box" := mkMountedLayer "box" "m1" "" (Some 0) ({[2; 1]} ∖ {[2]})]>
          (mounts store_mounted2)) store_mounted2) ∧
  ReleaseRWLayer releaseRW_env_ok (mkRWLayer 1 "box") store_mounted
  = Done (Ok [], set_node 0 (decremented (mkRoLayer "a" "a" None "c1" 10 2 {[0]}))
                   (unmounted "box" (mkMountedLayer "box" "m1" "" (Some 0) {[1]})
                      store_mounted)) ∧
  (∃ s', ReleaseRWLayer releaseRW_env_ok (mkRWLayer 1 "box") store_mount_only
         = Done (Ok (metadata_of store_mount_only <$> doomed store_mount_only 0), s') ∧
     mChainID <$> (metadata_of store_mount_only <$> doomed store_mount_only 0) = ["a"] ∧
     mounts s' !! "box" = None ∧ "m1" ∉ driver s' ∧
     layerMap s' !! "a" = None ∧ "c1" ∉ driver s') ∧
  ∃ s', ReleaseRWLayer releaseRW_env_fail (mkRWLayer 1 "box") store_mounted
        = Done (Err (ErrOther "device busy"), s') ∧ mounts s' = mounts store_mounted ∧
    ReleaseRWLayer releaseRW_env_ok (mkRWLayer 1 "box") s'
    = ReleaseRWLayer releaseRW_env_ok (mkRWLayer 1 "box") store_mounted.
Proof.
  split; [|split; [|split]].
  - destruct (C5_release_rw_layer releaseRW_env_ok (mkRWLayer 2 "box") store_mounted2
                (mkMountedLayer "box" "m1" "" (Some 0) {[2; 1]})) as (Ha & _).
    + vm_compute. reflexivity.
    + simpl. apply elem_of_union_l, elem_of_singleton. reflexivity.
    + apply Ha. simpl. intros Heq.
      assert (1 ∈ ({[2]} : gset nat)) as H1.
      { rewrite <-Heq. apply elem_of_union_r, elem_of_singleton. reflexivity. }
      apply elem_of_singleton in H1. discriminate H1.
  - destruct (C5_release_rw_layer releaseRW_env_ok (mkRWLayer 1 "box") store_mounted
                (mkMountedLayer "box" "m1" "" (Some 0) {[1]})) as (_ & _ & Hb & _).
    + vm_compute. reflexivity.
    + simpl. apply elem_of_singleton. reflexivity.
    + destruct (Hb eq_refl eq_refl) as (_ & Hdec & _).
      apply (Hdec 0 (mkRoLayer "a" "a" None "c1" 10 2 {[0]})).
      * reflexivity.
      * vm_compute. reflexivity.
      * simpl. lia.
  - destruct (C5_release_rw_layer releaseRW_env_ok (mkRWLayer 1 "box") store_mount_only
                (mkMountedLayer "box" "m1" "" (Some 0) {[1]})) as (_ & _ & Hb & _).
    + vm_compute. reflexivity.
    + simpl. apply elem_of_singleton. reflexivity.
    + destruct (Hb eq_refl eq_refl) as (_ & _ & Hcascade).
      destruct (Hcascade 0 eq_refl wf_store_mount_only (λ i, eq_refl))
        as (s' & Hrel & _ & Hmounts & _ & Hmid & _ & Hparent).
      exists s'. split; [exact Hrel|]. split; [vm_compute; reflexivity|].
      split; [rewrite Hmounts; vm_compute; reflexivity|]. split; [exact Hmid|].
      destruct (Hparent (mkRoLayer "a" "a" None "c1" 10 1 ∅))
        as (_ & Hgone & _ & Hcache & _).
      * vm_compute. reflexivity.
      * reflexivity.
      * split; [exact Hgone|exact Hcache].
  - destruct (C5_release_rw_layer releaseRW_env_fail (mkRWLayer 1 "box") store_mounted
                (mkMountedLayer "box" "m1" "" (Some 0) {[1]})) as (_ & _ & _ & Hc).
    + vm_compute. reflexivity.
    + simpl. apply elem_of_singleton. reflexivity.
    + destruct (Hc eq_refl (ErrOther "device busy") eq_refl)
        as (s' & Hrel & Hmo & _ & _ & _ & _ & _ & _ & Hretry).
      exists s'. split; [exact Hrel|]. split; [exact Hmo|].
      destruct (Hretry releaseRW_env_ok eq_refl) as [_ Hsame]. exact Hsame.
Defined.

(** ** Panics *)








(** ** Loading the store from its metadata *)

Section loading.
Context (rank : ChainID → nat) (ms : fileMetadataStore).
Hypothesis Hclosed : closed rank ms.

Lemma below_size c : size (below rank ms c) ≤ size (layers ms).
Proof. apply map_subseteq_size, map_filter_subseteq. Qed.

Lemma below_parent c r :
  layers ms !! c = Some r → rec_parent r ≠ "" →
  size (below rank ms (rec_parent r)) < size (below rank ms c).
Proof using Hclosed.
  intros Hc Hne. destruct (closed_parent _ _ Hclosed c r Hc Hne) as [[rp Hrp] Hlt].
  apply map_subset_size. split.
  - apply map_filter_strong_subseteq_ext. intros k x [Hk Hx]. simpl in *.
    split; [lia|done].
  - intros Hsub.
    assert (below rank ms c !! rec_parent r = Some rp) as Hin.
    { apply map_lookup_filter_Some. split; [done|]. simpl. lia. }
    eapply lookup_weaken in Hin; [|exact Hsub].
    apply map_lookup_filter_Some in Hin as [_ Hin]. simpl in Hin. lia.
Qed.

Lemma grows_refl c s : grows rank c s s.
Proof. unfold grows. repeat split; auto; congruence. Qed.

Lemma publish_loaded c r po s :
  loaded ms s → layerMap s !! c = None → layers ms !! c = Some r →
  (if decide (rec_parent r = "") then po = None
   else ∃ pp, po = Some pp ∧ layerMap s !! rec_parent r = Some pp) →
  loaded ms (publish (new_roLayer c r po) s) ∧
  layerMap (publish (new_roLayer c r po) s) !! c = Some (next_ptr s) ∧
  grows rank c s (publish (new_roLayer c r po) s).
Proof.
  intros (Hst & Hidx & Hptr & Hobj) Hnew Hr Hpo.
  assert (Ha : heap s !! next_ptr s = None).
  { destruct (heap s !! next_ptr s) eqn:E; [|done].
    pose proof (Hptr _ (mk_is_Some _ _ E)). lia. }
  assert (Hold : ∀ c' p', layerMap s !! c' = Some p' → c' ≠ c ∧ p' ≠ next_ptr s).
  { intros c' p' Hc'. destruct (Hidx _ _ Hc') as (r' & n' & _ & Hn' & _).
    split; congruence. }
  split; [|split].
  - split; [done|]. split; [|split].
    + intros c' p' Hc'. unfold publish in Hc'. simpl in Hc'.
      apply lookup_insert_Some in Hc' as [[<- <-]|[Hne Hc']].
      * exists r, (new_roLayer c r po). split; [done|].
        split; [unfold publish; simpl; by rewrite lookup_insert_eq|].
        unfold built_from, new_roLayer. simpl. repeat split; try done.
        destruct (decide (rec_parent r = "")); [done|].
        destruct Hpo as (pp & -> & Hpp). exists pp. split; [done|].
        destruct (Hold _ _ Hpp) as [Hne _]. split.
        -- unfold publish. simpl. by rewrite lookup_insert_ne.
        -- destruct (Hidx _ _ Hpp) as (rp & np & _ & Hnp & _).
           apply Hptr. eauto.
      * destruct (Hidx _ _ Hc') as (r' & n' & Hr' & Hn' & Hb).
        destruct (Hold _ _ Hc') as [_ Hp']. exists r', n'. split; [done|].
        split; [unfold publish; simpl; by rewrite lookup_insert_ne|].
        destruct Hb as (? & ? & ? & ? & ? & Hb). unfold built_from.
        repeat split; try done.
        destruct (decide (rec_parent r' = "")); [done|].
        destruct Hb as (pp & Hpar & Hpp & Hlt). exists pp.
        split; [done|]. split; [|done].
        destruct (Hold _ _ Hpp) as [Hne' _].
        unfold publish. simpl. by rewrite lookup_insert_ne.
    + intros p' Hp'. unfold publish in *. simpl in *.
      destruct (decide (p' = next_ptr s)) as [->|]; [lia|].
      rewrite lookup_insert_ne in Hp' by done. specialize (Hptr _ Hp'). lia.
    + intros p' n' Hn'. unfold publish in *. simpl in *.
      apply lookup_insert_Some in Hn' as [[<- <-]|[Hne Hn']].
      * simpl. by rewrite lookup_insert_eq.
      * pose proof (Hobj _ _ Hn') as Hc'. destruct (Hold _ _ Hc') as [Hne' _].
        by rewrite lookup_insert_ne.
  - unfold publish. simpl. by rewrite lookup_insert_eq.
  - unfold grows, publish. simpl. split_and!; try done.
    + intros c' p' Hc'. destruct (Hold _ _ Hc') as [Hne _].
      by rewrite lookup_insert_ne.
    + intros p' n' Hn'. rewrite lookup_insert_ne; [done|]. congruence.
    + intros c' p' n' Hc' Hnone Hn'.
      apply lookup_insert_Some in Hc' as [[<- <-]|[_ Hc']]; [|congruence].
      rewrite lookup_insert_eq in Hn'. by injection Hn' as <-.
Qed.

Lemma loadLayer_loaded k : ∀ c s,
  loaded ms s → is_Some (layers ms !! c) → size (below rank ms c) ≤ k →
  ∃ p s', loadLayer k c s = Done (Ok p, s') ∧ loaded ms s' ∧
    layerMap s' !! c = Some p ∧ grows rank c s s'.
Proof using Hclosed.
  induction k as [|k IH]; intros c s Hld [r Hr] Hk.
  - simpl. destruct (layerMap s !! c) as [p|] eqn:Hc.
    { exists p, s. split; [done|]. split; [done|]. split; [done|]. apply grows_refl. }
    pose proof Hld as (Hst & _). rewrite Hst, Hr.
    destruct (decide (rec_parent r = "")) as [Hroot|Hroot].
    + destruct (publish_loaded c r None s Hld Hc Hr) as (H1 & H2 & H3).
      { by rewrite decide_True. }
      eauto 10.
    + pose proof (below_parent c r Hr Hroot). lia.
  - simpl. destruct (layerMap s !! c) as [p|] eqn:Hc.
    { exists p, s. split; [done|]. split; [done|]. split; [done|]. apply grows_refl. }
    pose proof Hld as (Hst & _). rewrite Hst, Hr.
    destruct (decide (rec_parent r = "")) as [Hroot|Hroot].
    + destruct (publish_loaded c r None s Hld Hc Hr) as (H1 & H2 & H3).
      { by rewrite decide_True. }
      eauto 10.
    + destruct (closed_parent _ _ Hclosed c r Hr Hroot) as [Hpr Hrank].
      pose proof (below_parent c r Hr Hroot) as Hbelow.
      destruct (IH (rec_parent r) s Hld Hpr ltac:(lia))
        as (pp & s1 & -> & Hld1 & Hpp & Hg1).
      simpl.
      assert (Hc1 : layerMap s1 !! c = None).
      { destruct (layerMap s1 !! c) as [p'|] eqn:E; [|done].
        destruct Hg1 as (_ & _ & _ & _ & _ & _ & Hnew).
        destruct Hld1 as (_ & Hidx1 & _).
        destruct (Hidx1 _ _ E) as (r' & n' & _ & Hn' & _).
        destruct (Hnew c p' n' E Hc Hn') as [_ Hle]. lia. }
      destruct (publish_loaded c r (Some pp) s1 Hld1 Hc1 Hr) as (H1 & H2 & H3).
      { rewrite decide_False by done. eauto. }
      do 2 eexists. split; [done|]. split; [done|]. split; [done|].
      destruct Hg1 as (G1 & G2 & G3 & G4 & G5 & G6 & G7).
      destruct H3 as (K1 & K2 & K3 & K4 & K5 & K6 & K7).
      unfold grows. split_and!; try congruence; auto.
      intros c' p' n' Hc' Hnone Hn'.
      destruct (layerMap s1 !! c') as [p1|] eqn:E1.
      * pose proof (K5 _ _ E1) as E2. assert (p1 = p') by congruence. subst p1.
        destruct Hld1 as (_ & Hidx1 & _).
        destruct (Hidx1 _ _ E1) as (r1 & n1 & _ & Hn1 & _).
        pose proof (K6 _ _ Hn1). assert (n1 = n') by congruence. subst n1.
        destruct (G7 _ _ _ E1 Hnone Hn1). split; [done|lia].
      * by destruct (K7 _ _ _ Hc' E1 Hn').
Qed.
End loading.

(** ** The loading loops *)

Lemma filter_none {A} (P : A → Prop) `{!∀ x, Decision (P x)} (l : list A) :
  (∀ x, x ∈ l → ¬ P x) → filter P l = [].
Proof.
  induction l as [|x l IH]; intros Hno; [done|].
  rewrite filter_cons_False by (apply Hno, list_elem_of_here).
  apply IH. intros y Hy. by apply Hno, list_elem_of_further.
Qed.

Lemma deref_Some s p n : heap s !! p = Some n → deref s p = Done n.
Proof. intros H. unfold deref. by rewrite H. Qed.

Lemma loadLayer_memo k c s p :
  layerMap s !! c = Some p → loadLayer k c s = Done (Ok p, s).
Proof. intros Hc. destruct k; simpl; by rewrite Hc. Qed.

Section loops.
Context (rank : ChainID → nat) (ms : fileMetadataStore) (d : gset string).
Hypothesis Hclosed : closed rank ms.

(** A layer that is not indexed yet is the parent of no layer gone through. *)
Lemma unloaded_uncounted ids mnts s c :
  counted ms d ids mnts s → c ≠ "" → layerMap s !! c = None →
  filter (λ c', rec_parent_of ms c' = c) ids = [] ∧
  filter (λ m, mount_parent_of ms m = c) mnts = [].
Proof.
  intros Hcnt Hne Hc. pose proof (cnt_loaded _ _ _ _ _ Hcnt) as (_ & Hidx & _).
  split; apply filter_none.
  - intros c' Hc' Hpar. destruct (cnt_ids _ _ _ _ _ Hcnt c' Hc') as [p Hp].
    destruct (Hidx _ _ Hp) as (r & n & Hr & Hn & Hb).
    unfold rec_parent_of in Hpar. rewrite Hr in Hpar. simpl in Hpar. subst c.
    destruct Hb as (_ & _ & _ & _ & _ & Hb). rewrite decide_False in Hb by done.
    destruct Hb as (pp & _ & Hpp & _). congruence.
  - intros m Hm Hpar. destruct (cnt_mnts _ _ _ _ _ Hcnt m Hm) as [ml Hml].
    destruct (cnt_mounts _ _ _ _ _ Hcnt _ _ Hml) as (_ & r & Hr & Hb).
    unfold mount_parent_of in Hpar. rewrite Hr in Hpar. simpl in Hpar. subst c.
    destruct Hb as (_ & _ & _ & _ & Hb). rewrite decide_False in Hb by done.
    destruct Hb as (pp & _ & Hpp). congruence.
Qed.

Lemma counted_nonempty ids mnts s c p :
  counted ms d ids mnts s → layerMap s !! c = Some p → c ≠ "".
Proof using Hclosed.
  intros Hcnt Hc ->. pose proof (cnt_loaded _ _ _ _ _ Hcnt) as (_ & Hidx & _).
  destruct (Hidx _ _ Hc) as (r & n & Hr & _).
  pose proof (closed_nonempty _ _ Hclosed). congruence.
Qed.

Lemma mount_built_grows c s s' name r m :
  grows rank c s s' → mount_built_from s name r m → mount_built_from s' name r m.
Proof.
  intros (_ & _ & _ & _ & Hg & _) (? & ? & ? & ? & Hb). unfold mount_built_from.
  repeat split; try done. destruct (decide (rec_mountParent r = "")); [done|].
  destruct Hb as (pp & ? & Hpp). eauto.
Qed.

(** Loading more layers does not disturb the counts. *)
Lemma counted_grows ids mnts c s s' :
  counted ms d ids mnts s → loaded ms s' → grows rank c s s' →
  counted ms d ids mnts s'.
Proof using Hclosed.
  intros Hcnt Hld Hg. pose proof Hg as (G1 & G2 & G3 & G4 & G5 & G6 & G7).
  pose proof (cnt_loaded _ _ _ _ _ Hcnt) as (_ & Hidx & _).
  split.
  - done.
  - rewrite G1. eapply cnt_driver; eauto.
  - rewrite G3. eapply cnt_next_ref; eauto.
  - intros c' Hc'. destruct (cnt_ids _ _ _ _ _ Hcnt c' Hc') as [p Hp]. eauto.
  - intros c' p' n' Hc' Hn'. destruct (layerMap s !! c') as [p0|] eqn:E.
    + pose proof (G5 _ _ E). assert (p0 = p') by congruence. subst p0.
      destruct (Hidx _ _ E) as (r0 & n0 & _ & Hn0 & _).
      pose proof (G6 _ _ Hn0). assert (n0 = n') by congruence. subst n0.
      eapply cnt_count; eauto.
    + destruct (G7 _ _ _ Hc' E Hn') as [-> _].
      assert (c' ≠ "") as Hne.
      { intros ->. destruct Hld as (_ & Hidx' & _).
        destruct (Hidx' _ _ Hc') as (r & n & Hr & _).
        pose proof (closed_nonempty _ _ Hclosed). congruence. }
      destruct (unloaded_uncounted ids mnts s c' Hcnt Hne E) as [-> ->]. done.
  - intros name m Hm. rewrite G2 in Hm.
    destruct (cnt_mounts _ _ _ _ _ Hcnt _ _ Hm) as (Hin & r & Hr & Hb).
    split; [done|]. exists r. split; [done|]. by eapply mount_built_grows.
  - intros name Hname. rewrite G2. eapply cnt_mnts; eauto.
Qed.

Lemma loaded_set_count s p n k :
  loaded ms s → heap s !! p = Some n →
  loaded ms (set_node p (set_referenceCount k n) s).
Proof.
  intros (Hst & Hidx & Hptr & Hobj) Hp. split; [done|]. split; [|split].
  - intros c q Hc. simpl in Hc. destruct (Hidx _ _ Hc) as (r & m & Hr & Hm & Hb).
    destruct (decide (q = p)) as [->|Hne].
    + assert (m = n) by congruence. subst m.
      exists r, (set_referenceCount k n). split; [done|].
      split; [simpl; by rewrite lookup_insert_eq|]. exact Hb.
    + exists r, m. split; [done|]. split; [simpl; by rewrite lookup_insert_ne|].
      exact Hb.
  - intros q Hq. simpl in *. apply Hptr.
    destruct (decide (q = p)) as [->|]; [by eexists|].
    by rewrite lookup_insert_ne in Hq.
  - intros q m Hm. simpl in *.
    apply lookup_insert_Some in Hm as [[<- <-]|[Hne Hm]]; simpl; auto.
Qed.

(** Going through one more layer whose parent, if any, is indexed. *)
Lemma counted_layer ids mnts s id r p :
  counted ms d ids mnts s → layers ms !! id = Some r → layerMap s !! id = Some p →
  counted ms d ((ids ++ [id])%list) mnts
    (match (if decide (rec_parent r = "") then None else layerMap s !! rec_parent r) with
     | None => s
     | Some pp =>
         match heap s !! pp with
         | Some np => set_node pp (set_referenceCount (S (referenceCount np)) np) s
         | None => s
         end
     end).
Proof using Hclosed.
  intros Hcnt Hr Hp. pose proof (cnt_loaded _ _ _ _ _ Hcnt) as Hld.
  pose proof Hld as (_ & Hidx & _).
  assert (Hpar : rec_parent_of ms id = rec_parent r).
  { unfold rec_parent_of. by rewrite Hr. }
  assert (Hfilter : ∀ c, length (filter (λ c', rec_parent_of ms c' = c) ((ids ++ [id])%list))
            = length (filter (λ c', rec_parent_of ms c' = c) ids)
              + (if decide (rec_parent r = c) then 1 else 0)).
  { intros c. rewrite filter_app, length_app. f_equal.
    rewrite filter_cons, Hpar. by destruct (decide (rec_parent r = c)). }
  assert (Hids : ∀ s', (∀ c q, layerMap s !! c = Some q → layerMap s' !! c = Some q) →
            ∀ c, c ∈ (ids ++ [id])%list → is_Some (layerMap s' !! c)).
  { intros s' Hs' c [Hc|Hc%list_elem_of_singleton]%elem_of_app.
    - destruct (cnt_ids _ _ _ _ _ Hcnt c Hc) as [q Hq]. eauto.
    - subst c. eauto. }
  destruct (decide (rec_parent r = "")) as [Hroot|Hroot].
  - split; try (by destruct Hcnt); [by apply Hids|].
    intros c q n Hc Hn. rewrite Hfilter.
    rewrite (cnt_count _ _ _ _ _ Hcnt _ _ _ Hc Hn).
    rewrite decide_False; [lia|]. rewrite Hroot. intros <-.
    by eapply counted_nonempty.
  - destruct (Hidx _ _ Hp) as (r' & n & Hr' & Hn & Hb).
    assert (r' = r) by congruence. subst r'.
    destruct Hb as (_ & _ & _ & _ & _ & Hb). rewrite decide_False in Hb by done.
    destruct Hb as (pp & _ & Hpp & _). rewrite Hpp.
    destruct (Hidx _ _ Hpp) as (rp & np & Hrp & Hnp & Hbp). rewrite Hnp.
    split.
    + by apply loaded_set_count.
    + simpl. eapply cnt_driver; eauto.
    + simpl. eapply cnt_next_ref; eauto.
    + by apply Hids.
    + intros c q m Hc Hm. simpl in Hc, Hm. rewrite Hfilter.
      destruct (Hidx _ _ Hc) as (rq & nq & _ & Hnq & (Hchain & _)).
      destruct (decide (q = pp)) as [->|Hne].
      * rewrite lookup_insert_eq in Hm. injection Hm as <-. simpl.
        assert (nq = np) by congruence. subst nq.
        destruct Hbp as (Hcp & _). assert (c = rec_parent r) by congruence. subst c.
        rewrite decide_True by done.
        rewrite (cnt_count _ _ _ _ _ Hcnt _ _ _ Hc Hnp). lia.
      * rewrite lookup_insert_ne in Hm by done.
        rewrite (cnt_count _ _ _ _ _ Hcnt _ _ _ Hc Hm).
        rewrite decide_False; [lia|]. intros <-. congruence.
    + intros name m Hm. simpl in Hm.
      destruct (cnt_mounts _ _ _ _ _ Hcnt _ _ Hm) as (Hin & rm & Hrm & Hbm).
      split; [done|]. exists rm. split; [done|]. exact Hbm.
    + intros name Hname. simpl. eapply cnt_mnts; eauto.
Qed.

(** Going through one more mount whose parent, if any, is indexed. *)
Lemma counted_mount ids mnts s m r po s2 :
  counted ms d ids mnts s → mountRecs ms !! m = Some r → mounts s !! m = None →
  (if decide (rec_mountParent r = "") then po = None ∧ s2 = s
   else ∃ pp np, po = Some pp ∧ layerMap s !! rec_mountParent r = Some pp ∧
     heap s !! pp = Some np ∧
     s2 = set_node pp (set_referenceCount (S (referenceCount np)) np) s) →
  counted ms d ids ((mnts ++ [m])%list)
    (with_mounts
       (<[m := mkMountedLayer m (rec_mountID r) (rec_initID r) po ∅]> (mounts s2)) s2).
Proof using Hclosed.
  intros Hcnt Hr Hm Hpo. pose proof (cnt_loaded _ _ _ _ _ Hcnt) as Hld.
  pose proof Hld as (_ & Hidx & _).
  assert (Hpar : mount_parent_of ms m = rec_mountParent r).
  { unfold mount_parent_of. by rewrite Hr. }
  assert (Hfilter : ∀ c,
    length (filter (λ m', mount_parent_of ms m' = c) ((mnts ++ [m])%list))
    = length (filter (λ m', mount_parent_of ms m' = c) mnts)
      + (if decide (rec_mountParent r = c) then 1 else 0)).
  { intros c. rewrite filter_app, length_app. f_equal.
    rewrite filter_cons, Hpar. by destruct (decide (rec_mountParent r = c)). }
  assert (Hstep : loaded ms s2 ∧ driver s2 = d ∧ next_ref s2 = 0 ∧
    layerMap s2 = layerMap s ∧ mounts s2 = mounts s ∧
    (∀ c q n, layerMap s !! c = Some q → heap s2 !! q = Some n →
      referenceCount n
      = length (filter (λ c', rec_parent_of ms c' = c) ids)
        + length (filter (λ m', mount_parent_of ms m' = c) ((mnts ++ [m])%list)))).
  { destruct (decide (rec_mountParent r = "")) as [Hroot|Hroot].
    - destruct Hpo as [_ ->]. split_and!; try done; try (by destruct Hcnt).
      intros c q n Hc Hn. rewrite Hfilter.
      rewrite (cnt_count _ _ _ _ _ Hcnt _ _ _ Hc Hn).
      rewrite decide_False; [lia|]. rewrite Hroot. intros <-.
      by eapply counted_nonempty.
    - destruct Hpo as (pp & np & _ & Hpp & Hnp & ->).
      split_and!; try done; try (by destruct Hcnt).
      + by apply loaded_set_count.
      + intros c q n Hc Hn. simpl in Hn. rewrite Hfilter.
        destruct (Hidx _ _ Hc) as (rq & nq & _ & Hnq & (Hchain & _)).
        destruct (Hidx _ _ Hpp) as (rp & np' & _ & Hnp' & (Hcp & _)).
        assert (np' = np) by congruence. subst np'.
        destruct (decide (q = pp)) as [->|Hne].
        * rewrite lookup_insert_eq in Hn. injection Hn as <-. simpl.
          assert (nq = np) by congruence. subst nq.
          assert (c = rec_mountParent r) by congruence. subst c.
          rewrite decide_True by done.
          rewrite (cnt_count _ _ _ _ _ Hcnt _ _ _ Hc Hnp). lia.
        * rewrite lookup_insert_ne in Hn by done.
          rewrite (cnt_count _ _ _ _ _ Hcnt _ _ _ Hc Hn).
          rewrite decide_False; [lia|]. intros <-. congruence. }
  destruct Hstep as (Hld2 & Hd2 & Hr2 & Hlm & Hmn & Hcount).
  split; simpl.
  - destruct Hld2 as (? & ? & ?). by split.
  - done.
  - done.
  - intros c Hc. rewrite Hlm. eapply cnt_ids; eauto.
  - intros c q n Hc Hn. rewrite Hlm in Hc. eauto.
  - intros name ml Hml. rewrite Hmn in Hml.
    apply lookup_insert_Some in Hml as [[<- <-]|[Hne Hml]].
    + split; [apply elem_of_app; right; apply list_elem_of_singleton; done|].
      exists r. split; [done|]. unfold mount_built_from. simpl.
      split_and!; try done.
      destruct (decide (rec_mountParent r = "")); [by destruct Hpo|].
      destruct Hpo as (pp & np & -> & Hpp & _). exists pp. by rewrite Hlm.
    + destruct (cnt_mounts _ _ _ _ _ Hcnt _ _ Hml) as (Hin & rm & Hrm & Hbm).
      split; [apply elem_of_app; by left|]. exists rm. split; [done|].
      destruct Hbm as (? & ? & ? & ? & Hbm). unfold mount_built_from. simpl.
      split_and!; try done. by rewrite Hlm.
  - intros name [Hin|Hin%list_elem_of_singleton]%elem_of_app.
    + rewrite Hmn. destruct (decide (name = m)) as [->|Hne].
      * rewrite lookup_insert_eq. by eexists.
      * rewrite lookup_insert_ne by done. eapply cnt_mnts; eauto.
    + subst name. rewrite Hmn, lookup_insert_eq. by eexists.
Qed.

(** The loop over the layer IDs runs to its end and counts every layer once
    for each layer that names it as parent. *)
Lemma loadLayers_counted k ids : ∀ seen mnts s,
  size (layers ms) ≤ k → counted ms d seen mnts s →
  (∀ c, c ∈ ids → is_Some (layers ms !! c)) →
  ∃ s', loadLayers k ids s = Done s' ∧ counted ms d ((seen ++ ids)%list) mnts s'.
Proof using Hclosed.
  induction ids as [|id rest IH]; intros seen mnts s Hk Hcnt Hrec.
  - exists s. split; [done|]. by rewrite app_nil_r.
  - destruct (Hrec id (list_elem_of_here _ _)) as [r Hr].
    pose proof (cnt_loaded _ _ _ _ _ Hcnt) as Hld.
    destruct (loadLayer_loaded rank ms Hclosed k id s Hld (mk_is_Some _ _ Hr))
      as (p & s1 & Hload & Hld1 & Hp & Hg).
    { pose proof (below_size rank ms id). lia. }
    pose proof (counted_grows _ _ _ _ _ Hcnt Hld1 Hg) as Hcnt1.
    pose proof (counted_layer _ _ _ _ _ _ Hcnt1 Hr Hp) as Hcnt2.
    pose proof Hld1 as (_ & Hidx1 & _).
    destruct (Hidx1 _ _ Hp) as (r' & n & Hr' & Hn & Hb).
    assert (r' = r) by congruence. subst r'.
    destruct Hb as (_ & _ & _ & _ & _ & Hb).
    simpl. rewrite Hload. simpl.
    rewrite (deref_Some _ _ _ Hn). simpl.
    assert (Hrest : ∀ c, c ∈ rest → is_Some (layers ms !! c)).
    { intros c Hc. by apply Hrec, list_elem_of_further. }
    replace ((seen ++ id :: rest)%list) with (((seen ++ [id]) ++ rest)%list)
      by (by rewrite <- app_assoc).
    destruct (decide (rec_parent r = "")) as [Hroot|Hroot].
    + rewrite Hb. by apply IH.
    + destruct Hb as (pp & -> & Hpp & _). rewrite Hpp in Hcnt2.
      destruct (Hidx1 _ _ Hpp) as (rp & np & _ & Hnp & _).
      rewrite Hnp in Hcnt2. rewrite (deref_Some _ _ _ Hnp). simpl. by apply IH.
Qed.

(** The loop over the mount names runs to its end and counts every layer
    once more for each mount on it. *)
Lemma loadMounts_counted k names : ∀ ids seen s,
  size (layers ms) ≤ k → counted ms d ids seen s →
  NoDup ((seen ++ names)%list) →
  (∀ m, m ∈ names → is_Some (mountRecs ms !! m)) →
  ∃ s', loadMounts k names s = Done s' ∧ counted ms d ids ((seen ++ names)%list) s'.
Proof using Hclosed.
  induction names as [|m rest IH]; intros ids seen s Hk Hcnt Hnd Hrec.
  - exists s. split; [done|]. by rewrite app_nil_r.
  - destruct (Hrec m (list_elem_of_here _ _)) as [r Hr].
    pose proof (cnt_loaded _ _ _ _ _ Hcnt) as Hld.
    assert (Hm : mounts s !! m = None).
    { destruct (mounts s !! m) as [ml|] eqn:E; [|done].
      destruct (cnt_mounts _ _ _ _ _ Hcnt _ _ E) as [Hin _].
      apply NoDup_app in Hnd as (_ & Hnd & _).
      destruct (Hnd m Hin). apply list_elem_of_here. }
    assert (Hrest : ∀ c, c ∈ rest → is_Some (mountRecs ms !! c)).
    { intros c Hc. by apply Hrec, list_elem_of_further. }
    assert (Hnd' : NoDup (((seen ++ [m]) ++ rest)%list)) by (by rewrite <- app_assoc).
    replace ((seen ++ m :: rest)%list) with (((seen ++ [m]) ++ rest)%list)
      by (by rewrite <- app_assoc).
    pose proof Hld as (Hst & _).
    simpl. unfold loadMount. rewrite Hm, Hst, Hr.
    destruct (decide (rec_mountParent r = "")) as [Hroot|Hroot].
    + simpl. apply IH; try done.
      apply (counted_mount ids seen s m r None s Hcnt Hr Hm).
      by rewrite decide_True.
    + destruct (closed_mount _ _ Hclosed m r Hr Hroot) as [rp Hrp].
      destruct (loadLayer_loaded rank ms Hclosed k (rec_mountParent r) s Hld
                  (mk_is_Some _ _ Hrp))
        as (p & s1 & Hload & Hld1 & Hp & Hg).
      { pose proof (below_size rank ms (rec_mountParent r)). lia. }
      pose proof (counted_grows _ _ _ _ _ Hcnt Hld1 Hg) as Hcnt1.
      pose proof Hld1 as (_ & Hidx1 & _).
      destruct (Hidx1 _ _ Hp) as (r' & np & _ & Hnp & _).
      rewrite Hload. simpl. rewrite (deref_Some _ _ _ Hnp). simpl.
      apply IH; try done.
      assert (Hm1 : mounts s1 !! m = None).
      { destruct Hg as (_ & -> & _). done. }
      apply (counted_mount ids seen s1 m r (Some p)
               (set_node p (set_referenceCount (S (referenceCount np)) np) s1)
               Hcnt1 Hr Hm1).
      rewrite decide_False by done. eauto 10.
Qed.
End loops.

(** ** From the lists gone through to the records *)

Lemma filter_fst_length {A} (P : string * A → Prop) (Q : string → Prop)
    `{!∀ x, Decision (P x), !∀ x, Decision (Q x)} (l : list (string * A)) :
  NoDup l.*1 → (∀ kv, kv ∈ l → P kv ↔ Q kv.1) →
  NoDup (filter P l).*1 ∧ length (filter P l) = length (filter Q l.*1).
Proof.
  induction l as [|kv l IH]; intros Hnd HPQ.
  - split; [constructor|done].
  - rewrite fmap_cons in Hnd. apply NoDup_cons in Hnd as [Hnotin Hnd].
    destruct IH as [IH1 IH2]; [done| |].
    { intros kv' Hkv'. by apply HPQ, list_elem_of_further. }
    pose proof (HPQ kv (list_elem_of_here _ _)) as Hkv.
    rewrite fmap_cons. destruct (decide (P kv)) as [HP|HP].
    + rewrite !filter_cons_True by tauto. split; [|simpl; by rewrite IH2].
      rewrite fmap_cons. apply NoDup_cons. split; [|done].
      intros Hin. apply Hnotin.
      apply list_elem_of_fmap in Hin as (kv' & -> & Hin).
      apply list_elem_of_fmap. exists kv'. split; [done|].
      by apply list_elem_of_filter in Hin as [_ Hin].
    + rewrite !filter_cons_False by tauto. done.
Qed.

Lemma size_filter_keys {A} (P : string * A → Prop) (Q : string → Prop)
    `{!∀ x, Decision (P x), !∀ x, Decision (Q x)} (m : gmap string A) :
  (∀ k x, m !! k = Some x → P (k, x) ↔ Q k) →
  size (filter P m) = length (filter Q (map_to_list m).*1).
Proof.
  intros HPQ.
  destruct (filter_fst_length P Q (map_to_list m)) as [Hnd Hlen].
  - apply NoDup_fst_map_to_list.
  - intros [k x] Hkx. apply elem_of_map_to_list in Hkx. by apply HPQ.
  - rewrite map_filter_alt, map_size_list_to_map by done. done.
Qed.

Lemma child_records_length ms c :
  length (filter (λ c', rec_parent_of ms c' = c) (map_to_list (layers ms)).*1)
  = size (child_records ms c).
Proof.
  symmetry. unfold child_records. apply size_filter_keys.
  intros k x Hk. unfold rec_parent_of. by rewrite Hk.
Qed.

Lemma mount_records_length ms c :
  length (filter (λ m, mount_parent_of ms m = c) (map_to_list (mountRecs ms)).*1)
  = size (mount_records ms c).
Proof.
  symmetry. unfold mount_records. apply size_filter_keys.
  intros k x Hk. unfold mount_parent_of. by rewrite Hk.
Qed.

Lemma elem_of_keys {A} (m : gmap string A) k :
  k ∈ (map_to_list m).*1 ↔ is_Some (m !! k).
Proof.
  rewrite list_elem_of_fmap. split.
  - intros ([k' x] & -> & Hin). apply elem_of_map_to_list in Hin. by eexists.
  - intros [x Hx]. exists (k, x). split; [done|]. by apply elem_of_map_to_list.
Qed.

Lemma counted_empty ms d : counted ms d [] [] (empty_store ms d).
Proof.
  split; simpl; try done.
  - split; [done|]. split; [|split].
    + intros c p Hc. simpl in Hc. by rewrite lookup_empty in Hc.
    + intros p [n Hn]. simpl in Hn. by rewrite lookup_empty in Hn.
    + intros p n Hn. simpl in Hn. by rewrite lookup_empty in Hn.
  - intros c Hc. by apply elem_of_nil in Hc.
  - intros name Hname. by apply elem_of_nil in Hname.
Qed.

(** Construction from a closed metadata store succeeds and has gone through
    every record. *)
Lemma newStore_counted rank ms d :
  closed rank ms →
  ∃ s, newStoreFromGraphDriver newStore_ok ms d = Done (Ok s) ∧
    counted ms d (List ms).1 (List ms).2 s.
Proof.
  intros Hclosed. unfold newStoreFromGraphDriver, List. simpl.
  destruct (loadLayers_counted rank ms d Hclosed (size (layers ms))
              (map_to_list (layers ms)).*1 [] [] (empty_store ms d))
    as (s1 & -> & Hcnt1); [done|apply counted_empty| |].
  { intros c Hc. by apply elem_of_keys. }
  simpl in Hcnt1.
  destruct (loadMounts_counted rank ms d Hclosed (size (layers ms))
              (map_to_list (mountRecs ms)).*1 (map_to_list (layers ms)).*1 [] s1)
    as (s2 & Hs2 & Hcnt2); [done|done| | |].
  { simpl. apply NoDup_fst_map_to_list. }
  { intros c Hc. by apply elem_of_keys. }
  simpl. rewrite Hs2. simpl. by exists s2.
Qed.

(** Construction from a closed metadata store succeeds, and the store it
    returns is the one the records describe. *)
Lemma newStore_reconstructed rank ms d :
  closed rank ms →
  ∃ s, newStoreFromGraphDriver newStore_ok ms d = Done (Ok s) ∧ reconstructed ms d s.
Proof.
  intros Hclosed. destruct (newStore_counted rank ms d Hclosed) as (s & Hs & Hcnt).
  exists s. split; [done|]. unfold List in Hcnt. simpl in Hcnt.
  pose proof (cnt_loaded _ _ _ _ _ Hcnt) as (Hst & Hidx & Hptr & Hobj).
  split; try done.
  - eapply cnt_driver; eauto.
  - intros c. split.
    + intros [p Hp]. destruct (Hidx _ _ Hp) as (r & n & Hr & _). by eexists.
    + intros Hc. by eapply cnt_ids, elem_of_keys.
  - intros c Hc. apply elem_of_keys in Hc.
    destruct (cnt_ids _ _ _ _ _ Hcnt c Hc) as [p Hp].
    destruct (Hidx _ _ Hp) as (r & n & _ & Hn & _).
    unfold count_of. rewrite Hp. simpl. rewrite Hn. simpl. f_equal.
    rewrite (cnt_count _ _ _ _ _ Hcnt _ _ _ Hp Hn).
    by rewrite child_records_length, mount_records_length.
  - intros name. split.
    + intros [m Hm]. destruct (cnt_mounts _ _ _ _ _ Hcnt _ _ Hm) as (_ & r & Hr & _).
      by eexists.
    + intros Hname. by eapply cnt_mnts, elem_of_keys.
  - intros name m Hm. by destruct (cnt_mounts _ _ _ _ _ Hcnt _ _ Hm) as (_ & Hr).
Qed.

(** ** A running store and its records *)

Lemma size_same_keys {A B} (m1 : gmap string A) (m2 : gmap string B) :
  (∀ k, is_Some (m1 !! k) ↔ is_Some (m2 !! k)) → size m1 = size m2.
Proof.
  intros Hk. rewrite <- (size_dom (D := gset string) m1).
  rewrite <- (size_dom (D := gset string) m2). f_equal.
  apply set_eq. intros k. by rewrite !elem_of_dom.
Qed.

Section running.
Context (s : layerStore).
Hypothesis Hcons : consistent s.

Lemma persisted_layer c r :
  layers (store s) !! c = Some r ↔
  ∃ p n, layerMap s !! c = Some p ∧ heap s !! p = Some n ∧ r = record_of s n.
Proof using Hcons.
  rewrite (cons_layers _ Hcons). unfold persisted_layers.
  rewrite lookup_omap_Some. split.
  - intros (p & Hr & Hp). destruct (heap s !! p) as [n|] eqn:Hn; [|done].
    injection Hr as <-. eauto.
  - intros (p & n & Hp & Hn & ->). exists p. by rewrite Hn.
Qed.

Lemma persisted_mount m r :
  mountRecs (store s) !! m = Some r ↔
  ∃ ml, mounts s !! m = Some ml ∧ r = mount_record_of s ml.
Proof using Hcons.
  rewrite (cons_mounts _ Hcons). unfold persisted_mounts.
  rewrite lookup_fmap_Some. naive_solver.
Qed.

(** The chain ID of an indexed object is the key it is indexed under. *)
Lemma indexed_chain p :
  indexed s p → layerMap s !! chain_of s p = Some p ∧ chain_of s p ≠ "".
Proof using Hcons.
  intros (n & Hn & Hp). unfold chain_of. rewrite Hn. simpl. split; [done|].
  intros Heq. rewrite Heq in Hp. pose proof (cons_nonempty _ Hcons). congruence.
Qed.

Lemma consistent_closed : closed (address_rank s) (store s).
Proof using Hcons.
  pose proof (cons_wf _ Hcons) as Hwf. split.
  - destruct (layers (store s) !! "") as [r|] eqn:E; [|done].
    apply persisted_layer in E as (p & n & Hp & _).
    pose proof (cons_nonempty _ Hcons). congruence.
  - intros c r Hr Hne. apply persisted_layer in Hr as (p & n & Hp & Hn & ->).
    simpl in *. destruct (parent n) as [pp|] eqn:Hpar; [|done]. simpl in *.
    destruct (inv_parent _ _ Hwf _ _ _ _ Hp Hn Hpar) as [Hlt Hind].
    destruct (indexed_chain _ Hind) as [Hpp _].
    pose proof Hind as (np & Hnp & _). split.
    + exists (record_of s np). apply persisted_layer. eauto.
    + unfold address_rank. rewrite Hpp, Hp. simpl. lia.
  - intros m r Hr Hne. apply persisted_mount in Hr as (ml & Hml & ->).
    simpl in *. destruct (mparent ml) as [pp|] eqn:Hpar; [|done]. simpl in *.
    pose proof (inv_mount _ _ Hwf _ _ _ Hml Hpar) as Hind.
    destruct (indexed_chain _ Hind) as [Hpp _].
    pose proof Hind as (np & Hnp & _).
    exists (record_of s np). apply persisted_layer. eauto.
Qed.

(** The records that name [c] as parent are those of the children of its
    object, and of the mounts on it. *)
Lemma consistent_children c p :
  layerMap s !! c = Some p →
  size (child_records (store s) c) = size (children s p) ∧
  size (mount_records (store s) c) = size (mounted_on s p).
Proof using Hcons.
  intros Hp. pose proof (cons_wf _ Hcons) as Hwf.
  destruct (inv_index _ _ Hwf _ _ Hp) as (n & Hn & Hchain).
  assert (Hc : chain_of s p = c). { unfold chain_of. by rewrite Hn. }
  assert (Hup : ∀ po, parent_chain s po = c →
            (∀ pp, po = Some pp → indexed s pp) → po = Some p).
  { intros [pp|] Hpc Hind; simpl in Hpc.
    - destruct (indexed_chain _ (Hind pp eq_refl)) as [Hpp _].
      rewrite Hpc in Hpp. congruence.
    - subst c. pose proof (cons_nonempty _ Hcons). congruence. }
  split; apply size_same_keys; intros k; unfold child_records, children,
    mount_records, mounted_on; split.
  - intros [r Hr]. apply map_lookup_filter_Some in Hr as [Hr Hpar]. simpl in Hpar.
    apply persisted_layer in Hr as (q & nq & Hq & Hnq & ->). simpl in Hpar.
    exists q. apply map_lookup_filter_Some. split; [done|]. simpl.
    unfold parent_of. rewrite Hnq. simpl. apply Hup; [done|].
    intros pp Hpp. by destruct (inv_parent _ _ Hwf _ _ _ _ Hq Hnq Hpp).
  - intros [q Hq]. apply map_lookup_filter_Some in Hq as [Hq Hpar]. simpl in Hpar.
    unfold parent_of in Hpar. destruct (heap s !! q) as [nq|] eqn:Hnq; [|done].
    simpl in Hpar. exists (record_of s nq). apply map_lookup_filter_Some. split.
    + apply persisted_layer. eauto.
    + simpl. by rewrite Hpar.
  - intros [r Hr]. apply map_lookup_filter_Some in Hr as [Hr Hpar]. simpl in Hpar.
    apply persisted_mount in Hr as (ml & Hml & ->). simpl in Hpar.
    exists ml. apply map_lookup_filter_Some. split; [done|]. simpl.
    apply Hup; [done|]. intros pp Hpp. by eapply inv_mount.
  - intros [ml Hml]. apply map_lookup_filter_Some in Hml as [Hml Hpar].
    simpl in Hpar. exists (mount_record_of s ml).
    apply map_lookup_filter_Some. split.
    + apply persisted_mount. eauto.
    + simpl. by rewrite Hpar.
Qed.
End running.

(** ** Stopping and restarting *)

(** C7 (restart reconstruction).  Construction derives the reference
    counts from the persisted parent links alone.  From a metadata store whose
    parent links are closed, [newStoreFromGraphDriver] succeeds and returns a
    store with one object per layer record, indexed under its chain ID (a
    shared ancestor is loaded once), one mount per mount record, and the
    count of every layer is the number of layer records plus the number of
    mount records that name it as parent.  At a consistent point of a running
    store (the metadata store holds the records of the indexed layers and
    mounts, and every count is exactly handles + children + mounts), a
    restart on the same metadata and driver succeeds, and every layer indexed
    before is indexed after with the count it had before minus its live
    [Layer] handles, which are not persisted: the same count exactly when no
    handle was held on it. *)
Theorem C7_restart_counts :
  (∀ rank ms d, closed rank ms →
     ∃ s', newStoreFromGraphDriver newStore_ok ms d = Done (Ok s') ∧
       reconstructed ms d s') ∧
  (∀ s, consistent s →
     ∃ s', newStoreFromGraphDriver newStore_ok (store s) (driver s) = Done (Ok s') ∧
       restarted s = s' ∧
       reconstructed (store s) (driver s) s' ∧
       ∀ c p n, layerMap s !! c = Some p → heap s !! p = Some n →
         ∃ k, count_of s' c = Some k ∧
           k = size (children s p) + size (mounted_on s p) ∧
           referenceCount n = k + size (references n) ∧
           (references n = ∅ → count_of s' c = count_of s c)).
Proof.
  split; [apply newStore_reconstructed|].
  intros s Hcons.
  destruct (newStore_reconstructed _ _ (driver s) (consistent_closed s Hcons))
    as (s' & Hs' & Hrec).
  exists s'. split; [done|]. split; [unfold restarted; by rewrite Hs'|].
  split; [done|]. intros c p n Hp Hn.
  destruct (consistent_children s Hcons c p Hp) as [Hch Hmn].
  pose proof (cons_exact _ Hcons c p Hp n Hn) as Hexact.
  assert (Hr : is_Some (layers (store s) !! c)).
  { exists (record_of s n). apply persisted_layer; eauto. }
  exists (size (children s p) + size (mounted_on s p)).
  rewrite (rc_count _ _ _ Hrec c Hr), Hch, Hmn.
  split; [done|]. split; [done|]. split; [lia|].
  intros Hrefs. unfold count_of. rewrite Hp. simpl. rewrite Hn. simpl.
  rewrite Hexact, Hrefs, size_empty. done.
Qed.

Lemma consistent_store_mounted : consistent store_mounted.
Proof.
  split.
  - exact wf_store_mounted.
  - vm_compute. reflexivity.
  - vm_compute. reflexivity.
  - vm_compute. reflexivity.
  - apply map_Forall_to_list.
    replace (map_to_list (mounts store_mounted))
      with [("box", mkMountedLayer "box" "m1" "" (Some 0) {[1]})]
      by (vm_compute; reflexivity).
    by repeat constructor.
  - apply map_Forall_to_list.
    replace (map_to_list (layerMap store_mounted)) with [("a", 0)]
      by (vm_compute; reflexivity).
    repeat constructor. simpl. intros n Hn. vm_compute in Hn.
    injection Hn as <-. vm_compute. reflexivity.
Qed.

Lemma C7_witness :
  ∃ s', newStoreFromGraphDriver newStore_ok (store store_mounted) (driver store_mounted)
        = Done (Ok s') ∧
    count_of store_mounted "a" = Some 2 ∧ count_of s' "a" = Some 1.
Proof.
  destruct C7_restart_counts as [_ H].
  destruct (H store_mounted consistent_store_mounted) as (s' & Hs' & Hre & _ & Hcount).
  exists s'. split; [exact Hs'|]. split; [vm_compute; reflexivity|].
  destruct (Hcount "a" 0 (mkRoLayer "a" "a" None "c1" 10 2 {[0]}))
    as (k & Hk & Hval & _).
  - vm_compute. reflexivity.
  - vm_compute. reflexivity.
  - rewrite Hk. f_equal. rewrite Hval. vm_compute. reflexivity.
Defined.

(** A layer held by a handle only has count 1 before the restart and count 0
    after it: the handle is not reconstructed. *)
Lemma C7_counterexample :
  consistent store_root ∧
  count_of store_root "a" = Some 1 ∧
  count_of (restarted store_root) "a" = Some 0.
Proof.
  split; [|split; vm_compute; reflexivity].
  split.
  - exact wf_store_root.
  - vm_compute. reflexivity.
  - vm_compute. reflexivity.
  - vm_compute. reflexivity.
  - apply map_Forall_to_list.
    replace (map_to_list (mounts store_root)) with (@nil (string * mountedLayer))
      by (vm_compute; reflexivity).
    constructor.
  - apply map_Forall_to_list.
    replace (map_to_list (layerMap store_root)) with [("a", 0)]
      by (vm_compute; reflexivity).
    repeat constructor. simpl. intros n Hn. vm_compute in Hn.
    injection Hn as <-. vm_compute. reflexivity.
Qed.

(** * Further properties of the layer store *)

(** ** Storing new content *)

(** [Register] of content whose chain ID is not indexed yet, every
    external call succeeding. *)
Lemma Register_registered `{Digester} e ts parent z s :
  register_succeeds e z → parent_shallow s parent →
  layerMap s !! computed_chainID (resolved_parent s parent) ts = None →
  Register e ts parent s
  = Done (Ok (mkLayer (next_ref s) (computed_chainID (resolved_parent s parent) ts)),
          registered e ts parent z s).
Proof.
  intros (Hcr & Htx & Hat & Hsl & Hco) Hpar Hnew.
  unfold Register, registerWithDescriptor, registered, parent_ptr.
  unfold resolved_parent in *.
  destruct (decide (parent = "")) as [Hroot|Hnonroot].
  - unfold register_layer. rewrite Hcr, Htx, Hat, Hsl. simpl.
    rewrite get_None by done. simpl. rewrite Hco. simpl.
    unfold getReference, deref. simpl. rewrite lookup_insert_eq. simpl.
    do 2 f_equal. apply store_eq; simpl; try done.
    rewrite insert_insert_eq. f_equal. unfold set_references. simpl.
    f_equal. set_solver.
  - destruct Hpar as [?|(p & np & d & Hp & Hnp & Hd & Hlt)]; [done|].
    rewrite Hp in *. simpl in Hnew. rewrite Hnp in Hnew. simpl in Hnew.
    rewrite (get_Some _ _ _ _ Hp Hnp). simpl.
    unfold deref at 1. simpl. rewrite lookup_insert_eq. simpl.
    rewrite (depth_set_node s p np) by done. rewrite Hd. simpl.
    rewrite bool_decide_eq_false_2 by lia.
    unfold register_layer. rewrite Hcr, Htx, Hat, Hsl. simpl.
    unfold deref at 1. simpl. rewrite lookup_insert_eq. simpl.
    rewrite get_None by done. simpl. rewrite Hco. simpl.
    unfold getReference, deref. simpl. rewrite lookup_insert_eq. simpl.
    rewrite Hnp. simpl. do 2 f_equal. apply store_eq; simpl; try done.
    rewrite insert_insert_eq. f_equal. unfold set_references. simpl.
    f_equal. set_solver.
Qed.

Lemma registered_wf `{Digester} e ts parent z s :
  wf s → register_succeeds e z → parent_shallow s parent →
  layerMap s !! computed_chainID (resolved_parent s parent) ts = None →
  wf (registered e ts parent z s).
Proof.
  intros Hwf He Hpar Hnew.
  destruct (Register_wf e ts parent s Hwf) as (r & s' & Hreg & Hwf').
  rewrite (Register_registered e ts parent z s He Hpar Hnew) in Hreg. by injection Hreg as _ <-.
Qed.

Lemma same_static_set_node s p n n' :
  heap s !! p = Some n → static n' = static n → same_static s (set_node p n' s).
Proof.
  intros Hp Hst. split; [done|]. intros q.
  change (heap (set_node p n' s)) with (<[p := n']> (heap s)).
  destruct (decide (q = p)) as [->|].
  - rewrite lookup_insert_eq, Hp. simpl. by f_equal.
  - by rewrite lookup_insert_ne.
Qed.

Lemma Get_retains c s p n :
  layerMap s !! c = Some p → heap s !! p = Some n →
  Get c s = Done (Ok (mkLayer (next_ref s) (chainID n)),
                  with_next_ref (S (next_ref s))
                    (set_node p (reused (next_ref s) n) s)).
Proof.
  intros Hp Hn. unfold Get. rewrite (get_Some _ _ _ _ Hp Hn). simpl.
  unfold getReference, deref. simpl. rewrite lookup_insert_eq. simpl.
  do 2 f_equal. apply store_eq; try done. simpl. by rewrite insert_insert_eq.
Qed.

(** Registering new content, on a parent that is retained, and releasing
    the handle that [Register] returned undoes the registration: when the
    external calls of the registration and the deletion of the new layer
    succeed, [Release] returns the one [Metadata] record of the new layer, and
    the index, the mounts and every object that existed before are as before
    the registration, the parent's count included; the metadata store and the
    driver have lost exactly the new chain ID and the new cache ID. *)
Theorem Register_Release_restores `{Digester} e e' ts parent z s :
  wf s → register_succeeds e z → parent_usable s parent →
  layerMap s !! computed_chainID (resolved_parent s parent) ts = None →
  e' 0 = delete_ok →
  let chain := computed_chainID (resolved_parent s parent) ts in
  ∃ h s1 s2,
    Register e ts parent s = Done (Ok h, s1) ∧
    Release e' h s1
    = Done (Ok [mkMetadata chain (digest ts) (size_of s1 (next_ptr s)) z], s2) ∧
    layerMap s2 = layerMap s ∧ mounts s2 = mounts s ∧
    (∀ q, q ≠ next_ptr s → heap s2 !! q = heap s !! q) ∧
    layers (store s2) = delete chain (layers (store s)) ∧
    mountRecs (store s2) = mountRecs (store s) ∧
    driver s2 = driver s ∖ {[reg_cacheID e]}.
Proof.
  intros Hwf He Hpar Hnew He' chain.
  assert (Hshallow : parent_shallow s parent).
  { destruct Hpar as [?|(p & np & d & ? & ? & ? & ? & ?)]; [by left|right; eauto 10]. }
  exists (mkLayer (next_ref s) chain), (registered e ts parent z s).
  rewrite (Register_registered e ts parent z s He Hshallow Hnew).
  set (s1 := registered e ts parent z s).
  cut (∃ s2, Release e' (mkLayer (next_ref s) chain) s1
        = Done (Ok [mkMetadata chain (digest ts) (size_of s1 (next_ptr s)) z], s2) ∧
    layerMap s2 = layerMap s ∧ mounts s2 = mounts s ∧
    (∀ q, q ≠ next_ptr s → heap s2 !! q = heap s !! q) ∧
    layers (store s2) = delete chain (layers (store s)) ∧
    mountRecs (store s2) = mountRecs (store s) ∧
    driver s2 = driver s ∖ {[reg_cacheID e]}).
  { intros (s2 & Hs2). exists s2. by split. }
  pose proof (registered_wf e ts parent z s Hwf He Hshallow Hnew) as Hwf1. fold s1 in Hwf1.
  set (a := next_ptr s) in *.
  set (po := parent_ptr s parent) in *.
  set (layer := mkRoLayer chain (digest ts) po (reg_cacheID e) z 1 {[next_ref s]}).
  assert (Hidx : layerMap s1 !! chain = Some a).
  { unfold s1, registered. simpl. by rewrite lookup_insert_eq. }
  assert (Hl : heap s1 !! a = Some layer).
  { unfold s1, registered. simpl. by rewrite lookup_insert_eq. }
  assert (Hmd : metadata_of s1 a
                = mkMetadata chain (digest ts) (size_of s1 a) z).
  { unfold metadata_of, chain_of. by rewrite Hl. }
  assert (Hchain : chain_ok s1 a).
  { eapply chain_ok_indexed; [exact Hwf1|]. exists layer. by split. }
  set (layer0 := deleteReference layer (mkLayer (next_ref s) chain)).
  set (s1' := set_node a layer0 s1).
  assert (Hst : same_static s1 s1') by (by apply (same_static_set_node s1 a layer)).
  rewrite (Release_held e' (mkLayer (next_ref s) chain) s1 a layer Hidx Hl)
    by (unfold layer; simpl; set_solver).
  fold layer0 s1'. unfold releaseLayer. change (fuel s1') with (S (S a)).
  rewrite (releaseLayer_loop_drop (S a) e' 0 [] a s1' layer0);
    [|unfold s1'; simpl; by rewrite lookup_insert_eq
     |done
     |unfold layer0; simpl; set_solver
     |by left|done
     |by eapply chain_ok_static
     |unfold s1', s1, registered; simpl; lia].
  replace (metadata_of s1' a) with (metadata_of s1 a)
    by (symmetry; by apply metadata_of_static).
  rewrite app_nil_l, Hmd.
  assert (Hlm : delete chain (<[chain := a]> (layerMap s)) = layerMap s).
  { rewrite delete_insert_eq. by apply delete_id. }
  assert (Hdrv : ({[reg_cacheID e]} ∪ driver s) ∖ {[reg_cacheID e]}
                 = driver s ∖ {[reg_cacheID e]}) by set_solver.
  assert (Hrec : delete chain (<[chain := mkLayerRecord (digest ts) z (reg_cacheID e)
                     (default "" (chainID <$> resolved_parent s parent))]>
                   (layers (store s))) = delete chain (layers (store s))).
  { by rewrite delete_insert_eq. }
  assert (Hheap : ∀ q, q ≠ a →
            <[a := decremented layer0]> (heap s1') !! q = heap (retain po s) !! q).
  { intros q Hq. rewrite lookup_insert_ne by done.
    change (heap s1') with (<[a := layer0]> (heap s1)).
    rewrite lookup_insert_ne by done.
    change (heap s1) with (<[a := layer]> (heap (retain po s))).
    by rewrite lookup_insert_ne. }
  rename parent into par.
  change (parent layer0) with po.
  assert (Hcase : par = "" ∨ par ≠ "") by (destruct (decide (par = "")); auto).
  destruct Hcase as [Hroot|Hnonroot].
  - assert (Hpo : po = None) by (unfold po, parent_ptr; by rewrite decide_True).
    rewrite Hpo. eexists. split; [done|].
    split_and!; try done; try exact Hlm; try exact Hrec; try exact Hdrv.
    intros q Hq. change (heap (dropped a layer0 s1') !! q = heap s !! q).
    change (heap (dropped a layer0 s1')) with (<[a := decremented layer0]> (heap s1')).
    rewrite (Hheap q Hq), Hpo. done.
  - destruct Hpar as [?|(p & np & d & Hp & Hnp & Hc & Hd & Hdlt)]; [done|].
    assert (Hpo : po = Some p) by (unfold po, parent_ptr; by rewrite decide_False).
    rewrite Hpo. cbv beta iota.
    pose proof (inv_ptr _ _ Hwf p (mk_is_Some _ _ Hnp)) as Hpa. fold a in Hpa.
    assert (Hret : heap (retain po s)
                   = <[p := set_referenceCount (S (referenceCount np)) np]> (heap s)).
    { rewrite Hpo. unfold retain. by rewrite Hnp. }
    rewrite (releaseLayer_loop_keep a e' 1 _ p _
               (set_referenceCount (S (referenceCount np)) np)).
    2: { change (heap (dropped a layer0 s1')) with (<[a := decremented layer0]> (heap s1')).
         rewrite Hheap by lia. by rewrite Hret, lookup_insert_eq. }
    2: { simpl. lia. }
    eexists. split; [done|].
    split_and!; try done; try exact Hlm; try exact Hrec; try exact Hdrv.
    intros q Hq.
    change (<[p := decremented (set_referenceCount (S (referenceCount np)) np)]>
              (<[a := decremented layer0]> (heap s1')) !! q = heap s !! q).
    destruct (decide (q = p)) as [->|Hqp].
    + rewrite lookup_insert_eq, Hnp. f_equal. unfold decremented. simpl.
      destruct np. unfold set_referenceCount. simpl. f_equal. lia.
    + rewrite lookup_insert_ne by done. rewrite (Hheap q Hq), Hret.
      by rewrite lookup_insert_ne.
Qed.

(** [Register] of new content.  When every external call succeeds, the
    parent named, if any, is indexed and less than [maxLayerDepth] deep, and
    the chain ID computed from the content is not indexed yet, [Register]
    returns a fresh handle on a new layer: the layer is indexed under the
    computed chain ID with reference count 1 and that one handle, on the
    parent given; its record is committed with the parent's chain ID as parent
    link; its backing store exists; the parent is retained once more (its
    count is one higher); the mounts are untouched, and a [Get] of the chain
    ID finds the new layer. *)
Theorem Register_new `{Digester} e ts parent z s :
  wf s → register_succeeds e z → parent_shallow s parent →
  layerMap s !! computed_chainID (resolved_parent s parent) ts = None →
  let chain := computed_chainID (resolved_parent s parent) ts in
  ∃ h s1,
    Register e ts parent s = Done (Ok h, s1) ∧ wf s1 ∧
    h = mkLayer (next_ref s) chain ∧
    layerMap s1 = <[chain := next_ptr s]> (layerMap s) ∧
    heap s1 !! next_ptr s
    = Some (mkRoLayer chain (digest ts) (parent_ptr s parent) (reg_cacheID e) z 1
              {[layer_ref h]}) ∧
    layers (store s1) !! chain
    = Some (mkLayerRecord (digest ts) z (reg_cacheID e) parent) ∧
    reg_cacheID e ∈ driver s1 ∧
    (parent ≠ "" → count_of s1 parent = S <$> count_of s parent) ∧
    mounts s1 = mounts s ∧
    ∃ h' s2, Get chain s1 = Done (Ok h', s2) ∧ layer_ChainID h' = chain ∧
      layer_ref h' ≠ layer_ref h ∧
      (referenceCount <$> heap s2 !! next_ptr s) = Some 2.
Proof.
  intros Hwf He Hpar Hnew chain.
  exists (mkLayer (next_ref s) chain), (registered e ts parent z s).
  split; [by apply Register_registered|].
  split; [by apply registered_wf|]. split; [done|].
  set (s1 := registered e ts parent z s).
  set (layer := mkRoLayer chain (digest ts) (parent_ptr s parent) (reg_cacheID e) z 1
                  {[next_ref s]}).
  assert (Hl : heap s1 !! next_ptr s = Some layer).
  { unfold s1, registered. simpl. by rewrite lookup_insert_eq. }
  assert (Hidx : layerMap s1 !! chain = Some (next_ptr s)).
  { unfold s1, registered. simpl. by rewrite lookup_insert_eq. }
  rename parent into par.
  assert (Hlink : default "" (chainID <$> resolved_parent s par) = par).
  { unfold resolved_parent. destruct (decide (par = "")) as [->|Hne]; [done|].
    destruct Hpar as [?|(p & np & d & Hp & Hnp & _)]; [done|].
    rewrite Hp. simpl. rewrite Hnp. simpl.
    destruct (inv_index _ _ Hwf _ _ Hp) as (n0 & Hn0 & Hch). congruence. }
  split; [done|]. split; [exact Hl|]. split.
  { unfold s1, registered. simpl. rewrite lookup_insert_eq. by rewrite Hlink. }
  split; [unfold s1, registered; simpl; set_solver|]. split.
  { intros Hne. destruct Hpar as [?|(p & np & d & Hp & Hnp & _)]; [done|].
    assert (Hpc : chain ≠ par).
    { intros Heq. unfold chain in Heq. rewrite Heq in Hnew. congruence. }
    pose proof (inv_ptr _ _ Hwf p (mk_is_Some _ _ Hnp)) as Hlt.
    unfold count_of. unfold s1, registered, parent_ptr. simpl.
    rewrite lookup_insert_ne by done. rewrite Hp. simpl.
    rewrite lookup_insert_ne by lia. rewrite decide_False by done.
    unfold retain. rewrite Hnp. simpl. by rewrite lookup_insert_eq. }
  split; [done|].
  rewrite (Get_retains chain s1 (next_ptr s) layer Hidx Hl).
  do 2 eexists. split; [done|]. split; [done|]. split.
  - simpl. unfold s1, registered. simpl. lia.
  - simpl. by rewrite lookup_insert_eq.
Qed.

(** ** Retaining and releasing *)

(** [Get] followed by [Release] of the handle it returned changes nothing
    but the handle counter.  For a layer that is indexed with a positive
    count, [Get] returns a handle that no layer holds yet and raises the count
    by one; [Release] of that handle returns no [Metadata] record, whatever
    the outcomes of the deletions would be (none is attempted), and every
    object, the index, the mounts, the metadata store and the driver are as
    before the [Get]. *)
Theorem Get_Release_restores e c p n s :
  wf s → layerMap s !! c = Some p → heap s !! p = Some n → 0 < referenceCount n →
  ∃ h s1,
    Get c s = Done (Ok h, s1) ∧ layer_ChainID h = c ∧
    (∀ q m, heap s !! q = Some m → layer_ref h ∉ references m) ∧
    count_of s1 c = Some (S (referenceCount n)) ∧
    Release e h s1 = Done (Ok [], with_next_ref (S (next_ref s)) s).
Proof.
  intros Hwf Hp Hn Hc.
  destruct (inv_index _ _ Hwf _ _ Hp) as (n0 & Hn0 & Hch).
  assert (n0 = n) by congruence. subst n0.
  assert (Hfresh : ∀ q m, heap s !! q = Some m → next_ref s ∉ references m).
  { intros q m Hq Hin. pose proof (inv_ref _ _ Hwf _ _ _ Hq Hin). lia. }
  set (s1 := with_next_ref (S (next_ref s)) (set_node p (reused (next_ref s) n) s)).
  exists (mkLayer (next_ref s) (chainID n)), s1.
  split; [by apply Get_retains|]. split; [done|]. split; [done|].
  assert (Hl : heap s1 !! p = Some (reused (next_ref s) n)).
  { unfold s1. simpl. by rewrite lookup_insert_eq. }
  split.
  { unfold count_of. change (layerMap s1) with (layerMap s). rewrite Hp. simpl.
    by rewrite lookup_insert_eq. }
  rewrite (Release_held e _ s1 p (reused (next_ref s) n));
    [|by rewrite <- Hch in Hp|done|simpl; set_solver].
  unfold releaseLayer. change (fuel _) with (S (next_ptr s)).
  erewrite releaseLayer_loop_keep;
    [|simpl; by rewrite lookup_insert_eq|simpl; lia].
  do 2 f_equal. apply store_eq; try done. simpl.
  rewrite !insert_insert_eq. apply insert_id. rewrite Hn. f_equal.
  destruct n as [c0 d0 p0 ca0 z0 k0 r0]. unfold decremented, deleteReference, reused,
    set_referenceCount, set_references. simpl in *. f_equal; [lia|].
  specialize (Hfresh p _ Hn). simpl in Hfresh. set_solver.
Qed.

(** A chain ID that is not indexed.  [Get] of it, [Register] with it as
    parent and [CreateRWLayer] with it as parent (under a free name) all
    return [ErrLayerDoesNotExist] and leave the store exactly as it was,
    whatever the external calls would have answered: none is made. *)
Theorem unknown_layer `{Digester} c s :
  layerMap s !! c = None →
  Get c s = Done (Err ErrLayerDoesNotExist, s) ∧
  (c ≠ "" → ∀ e ts, Register e ts c s = Done (Err ErrLayerDoesNotExist, s)) ∧
  (c ≠ "" → ∀ e name opts, mounts s !! name = None →
     CreateRWLayer e name c opts s = Done (Err ErrLayerDoesNotExist, s)).
Proof.
  intros Hc. split; [|split].
  - unfold Get. by rewrite get_None.
  - intros Hne e ts. unfold Register, registerWithDescriptor.
    rewrite decide_False by done. by rewrite get_None.
  - intros Hne e name opts Hname. unfold CreateRWLayer. rewrite Hname.
    rewrite decide_False by done. by rewrite get_None.
Qed.

(** ** Creating and releasing a mount *)

Lemma metadata_store_eq ms ms' :
  layers ms = layers ms' → mountRecs ms = mountRecs ms' → ms = ms'.
Proof. destruct ms, ms'. simpl. by intros -> ->. Qed.

Lemma init_id_nonempty id : id ++ "-init" ≠ "".
Proof. by destruct id. Qed.

Local Ltac mounted_eq :=
  do 2 f_equal; apply store_eq; simpl; try done;
  try (rewrite insert_insert_eq; unfold set_mreferences; simpl;
       by rewrite union_empty_r_L).

(** [CreateRWLayer] under a free name, every external call succeeding. *)
Lemma CreateRWLayer_mounted e name parent opts s :
  mounts s !! name = None → createRW_ok e opts → parent_indexed s parent →
  CreateRWLayer e name parent opts s
  = Done (Ok (mkRWLayer (next_ref s) name), mounted e name parent opts s).
Proof.
  intros Hname (Hic & (path & Hig & Hif) & Hip & Hcr & Hsm & Hsi & Hsp) Hpar.
  unfold CreateRWLayer, mounted, init_id, parent_ptr, resolved_parent.
  rewrite Hname.
  destruct (decide (parent = "")) as [Hroot|Hnonroot].
  - unfold createRW_mount. destruct (opts ≫= InitFunc) as [f|] eqn:Hopt.
    + unfold initMount. rewrite Hic, Hig, (Hif f eq_refl), Hip, Hcr. simpl.
      unfold saveMount. rewrite Hsm. simpl.
      rewrite !decide_False by apply init_id_nonempty. rewrite Hsi. simpl.
      mounted_eq.
    + simpl. rewrite Hcr. simpl. unfold saveMount. rewrite Hsm. simpl.
      mounted_eq.
  - destruct Hpar as [?|(p & np & Hp & Hnp)]; [done|].
    rewrite (get_Some _ _ _ _ Hp Hnp). simpl.
    unfold deref at 1. simpl. rewrite lookup_insert_eq. simpl.
    rewrite Hp. simpl. rewrite Hnp. simpl.
    unfold createRW_mount. destruct (opts ≫= InitFunc) as [f|] eqn:Hopt.
    + unfold initMount. rewrite Hic, Hig, (Hif f eq_refl), Hip, Hcr. simpl.
      unfold saveMount. rewrite Hsm. simpl.
      rewrite !decide_False by apply init_id_nonempty. rewrite Hsi. simpl.
      unfold deref. simpl. rewrite lookup_insert_eq. simpl. rewrite Hsp. simpl.
      mounted_eq.
    + simpl. rewrite Hcr. simpl. unfold saveMount. rewrite Hsm. simpl.
      unfold deref. simpl. rewrite lookup_insert_eq. simpl. rewrite Hsp. simpl.
      mounted_eq.
Qed.

(** The record that [saveMount] leaves under the name: the fields it
    writes, over what a record left there before held. *)
Lemma saved_mount_lookup name id ini pc ms :
  mountRecs (saved_mount name id ini pc ms) !! name
  = Some (mkMountRecord id
            (if decide (ini = "") then rec_initID (mount_record name ms) else ini)
            (default (rec_mountParent (mount_record name ms)) pc)).
Proof.
  unfold saved_mount.
  destruct pc as [c|], (decide (ini = "")) as [Hi|Hi]; simpl;
    unfold SetMountParent, SetInitID, SetMountID, mount_record; simpl;
    rewrite ?lookup_insert_eq; simpl; rewrite ?lookup_insert_eq; done.
Qed.

Lemma saved_mount_other name id ini pc ms name' :
  name' ≠ name →
  mountRecs (saved_mount name id ini pc ms) !! name' = mountRecs ms !! name'.
Proof.
  intros Hne. unfold saved_mount.
  destruct pc as [c|], (decide (ini = "")) as [Hi|Hi]; simpl;
    rewrite ?lookup_insert_ne by done; done.
Qed.

Lemma saved_mount_layers name id ini pc ms :
  layers (saved_mount name id ini pc ms) = layers ms.
Proof. unfold saved_mount. by destruct pc, (decide (ini = "")). Qed.

Lemma mounted_wf e name parent opts s :
  wf s → mounts s !! name = None → createRW_ok e opts → parent_indexed s parent →
  wf (mounted e name parent opts s).
Proof.
  intros Hwf Hname He Hpar.
  destruct (CreateRWLayer_wf e name parent opts s Hwf) as (r & s' & Hcr & Hwf').
  rewrite (CreateRWLayer_mounted e name parent opts s Hname He Hpar) in Hcr.
  by injection Hcr as _ <-.
Qed.

(** [CreateRWLayer] of a new mount.  Under a free name, with every
    external call succeeding and the parent named, if any, indexed,
    [CreateRWLayer] returns a fresh handle on a new mount: the mount is indexed
    under the name with the mount ID chosen, the init ID "<mount ID>-init"
    when an init function was given (none otherwise), the parent given and
    that one handle; [GetMountID] of the name returns the mount ID; the
    writable store and the init store exist; the mount record holds the mount
    ID, the init ID and the parent's chain ID; the parent is retained once
    more; the layer index and the other mounts are untouched. *)
Theorem CreateRWLayer_new e name parent opts s :
  wf s → mounts s !! name = None → createRW_ok e opts → parent_indexed s parent →
  ∃ h s1,
    CreateRWLayer e name parent opts s = Done (Ok h, s1) ∧ wf s1 ∧
    h = mkRWLayer (next_ref s) name ∧
    mounts s1 !! name
    = Some (mkMountedLayer name (crw_mountID e) (init_id e opts) (parent_ptr s parent)
              {[rw_ref h]}) ∧
    (∀ name', name' ≠ name → mounts s1 !! name' = mounts s !! name') ∧
    GetMountID name s1 = Ok (crw_mountID e) ∧
    (init_id e opts = "" ↔ opts ≫= InitFunc = None) ∧
    crw_mountID e ∈ driver s1 ∧
    (init_id e opts ≠ "" → init_id e opts ∈ driver s1) ∧
    (∃ r, mountRecs (store s1) !! name = Some r ∧ rec_mountID r = crw_mountID e ∧
       (init_id e opts ≠ "" → rec_initID r = init_id e opts) ∧
       (parent ≠ "" → rec_mountParent r = parent)) ∧
    (parent ≠ "" → count_of s1 parent = S <$> count_of s parent) ∧
    layerMap s1 = layerMap s ∧ layers (store s1) = layers (store s).
Proof.
  intros Hwf Hname He Hpar.
  exists (mkRWLayer (next_ref s) name), (mounted e name parent opts s).
  split; [by apply CreateRWLayer_mounted|].
  split; [by apply mounted_wf|]. split; [done|].
  rename parent into par.
  assert (Hmnt : mounts (mounted e name par opts s) !! name
            = Some (mkMountedLayer name (crw_mountID e) (init_id e opts)
                      (parent_ptr s par) {[next_ref s]})).
  { unfold mounted. simpl. by rewrite lookup_insert_eq. }
  assert (Hini : init_id e opts = "" ↔ opts ≫= InitFunc = None).
  { unfold init_id. destruct (opts ≫= InitFunc); [|done].
    split; [|done]. intros Heq. by apply init_id_nonempty in Heq. }
  split; [exact Hmnt|]. split.
  { intros name' Hne. unfold mounted. simpl. by rewrite lookup_insert_ne. }
  split; [unfold GetMountID; by rewrite Hmnt|]. split; [exact Hini|].
  split; [unfold mounted; simpl; set_solver|]. split.
  { intros Hne. unfold mounted. simpl. rewrite decide_False by done. set_solver. }
  split.
  { assert (Hlink : par ≠ "" → chainID <$> resolved_parent s par = Some par).
    { intros Hne. unfold resolved_parent. rewrite decide_False by done.
      destruct Hpar as [?|(p & np & Hp & Hnp)]; [done|].
      rewrite Hp. simpl. rewrite Hnp. simpl.
      destruct (inv_index _ _ Hwf _ _ Hp) as (n0 & Hn0 & Hch). congruence. }
    eexists. split; [apply saved_mount_lookup|]. simpl. split; [done|]. split.
    - intros Hne. by rewrite decide_False.
    - intros Hne. by rewrite (Hlink Hne). }
  split; [|split; [done|apply saved_mount_layers]].
  intros Hne. destruct Hpar as [?|(p & np & Hp & Hnp)]; [done|].
  unfold count_of, mounted, parent_ptr. simpl. rewrite Hp. simpl.
  rewrite decide_False by done. unfold retain. rewrite Hnp. simpl.
  by rewrite lookup_insert_eq.
Qed.

(** Creating a mount, on a parent that is retained, and releasing the
    handle that [CreateRWLayer] returned undoes the creation.  When the
    external calls of the creation and the removal steps succeed,
    [ReleaseRWLayer] returns no [Metadata] record and every layer object (the
    parent's count included), the layer index, the mounts and the layer
    records are as before the creation; the driver has lost exactly the mount
    ID and the init ID, the mount records exactly the name.  When the mount ID
    and init ID were not in the driver and no record was left under the name,
    the store is back to what it was, up to the handle counter. *)
Theorem CreateRWLayer_ReleaseRWLayer_restores e e' name parent opts s :
  wf s → mounts s !! name = None → createRW_ok e opts → parent_held s parent →
  releaseRW_ok e' →
  ∃ h s1 s2,
    CreateRWLayer e name parent opts s = Done (Ok h, s1) ∧
    ReleaseRWLayer e' h s1 = Done (Ok [], s2) ∧
    heap s2 = heap s ∧ layerMap s2 = layerMap s ∧ mounts s2 = mounts s ∧
    layers (store s2) = layers (store s) ∧
    mountRecs (store s2) = delete name (mountRecs (store s)) ∧
    (∀ x, x ∈ driver s2 ↔
       x ∈ driver s ∧ x ≠ crw_mountID e ∧ (init_id e opts ≠ "" → x ≠ init_id e opts)) ∧
    (crw_mountID e ∉ driver s → init_id e opts ∉ driver s →
     mountRecs (store s) !! name = None →
     s2 = with_next_ref (S (next_ref s)) s).
Proof.
  intros Hwf Hname He Hpar (Hrm & Hri & Hrx).
  assert (Hidx : parent_indexed s parent).
  { destruct Hpar as [?|(p & np & ? & ? & ?)]; [by left|right; eauto]. }
  exists (mkRWLayer (next_ref s) name), (mounted e name parent opts s).
  rewrite (CreateRWLayer_mounted e name parent opts s Hname He Hidx).
  set (s1 := mounted e name parent opts s).
  pose (po := parent_ptr s parent).
  set (m := mkMountedLayer name (crw_mountID e) (init_id e opts) po {[next_ref s]}).
  assert (Hm : mounts s1 !! name = Some m).
  { unfold s1, mounted. simpl. by rewrite lookup_insert_eq. }
  set (m1 := set_mreferences ∅ m).
  assert (Hdel : m_deleteReference m (mkRWLayer (next_ref s) name) = Ok m1).
  { unfold m_deleteReference. simpl.
    rewrite bool_decide_eq_true_2 by (by apply elem_of_singleton).
    unfold m1. do 2 f_equal. set_solver. }
  (* the store once the mount is gone, before the parent is released *)
  set (d := if decide (init_id e opts = "") then driver s else {[init_id e opts]} ∪ driver s).
  set (d2 := if decide (init_id e opts = "")
             then ({[crw_mountID e]} ∪ d) ∖ {[crw_mountID e]}
             else ({[crw_mountID e]} ∪ d) ∖ {[crw_mountID e]} ∖ {[init_id e opts]}).
  set (s5 := mkStore (RemoveMount name (store s1)) d2 (heap (retain po s)) (layerMap s)
               (delete name (<[name := m1]> (mounts s1))) (next_ptr s) (S (next_ref s))).
  assert (Hrel : ReleaseRWLayer e' (mkRWLayer (next_ref s) name) s1
            = match po with
              | Some p => releaseLayer (rrw_release e') p s5
              | None => Done (Ok [], s5)
              end).
  { unfold ReleaseRWLayer. cbv zeta. cbn [rw_Name]. rewrite Hm, Hdel.
    unfold m_hasReferences. cbn [mreferences m1 set_mreferences].
    rewrite bool_decide_eq_true_2 by done. cbn [negb]. rewrite Hrm.
    cbn [initID mountID mname mparent m1 m set_mreferences].
    unfold s5, d2, d, po. destruct (decide (init_id e opts = "")) as [Hi|Hi].
    - rewrite Hrx. destruct (parent_ptr s parent) eqn:Hpp; repeat f_equal;
        apply store_eq; simpl; rewrite ?Hpp, ?decide_True by done; done.
    - rewrite Hri, Hrx. destruct (parent_ptr s parent) eqn:Hpp; repeat f_equal;
        apply store_eq; simpl; rewrite ?Hpp, ?decide_False by done; done. }
  assert (Hmounts : delete name (<[name := m1]> (mounts s1)) = mounts s).
  { unfold s1, mounted. simpl. rewrite insert_insert_eq, delete_insert_eq.
    by apply delete_id. }
  assert (Hrecs : mountRecs (RemoveMount name (store s1)) = delete name (mountRecs (store s))).
  { unfold RemoveMount. simpl. apply map_eq. intros k.
    destruct (decide (k = name)) as [->|Hk].
    - by rewrite !lookup_delete_eq.
    - rewrite !lookup_delete_ne by done. unfold s1, mounted. simpl.
      by apply saved_mount_other. }
  assert (Hlayers : layers (RemoveMount name (store s1)) = layers (store s)).
  { unfold RemoveMount. simpl. unfold s1, mounted. simpl. apply saved_mount_layers. }
  assert (Hd2 : ∀ x, x ∈ d2 ↔
            x ∈ driver s ∧ x ≠ crw_mountID e ∧ (init_id e opts ≠ "" → x ≠ init_id e opts)).
  { intros x. unfold d2, d. destruct (decide (init_id e opts = "")); set_solver. }
  assert (Hback : ∀ s2, heap s2 = heap s → store s2 = store s5 → driver s2 = d2 →
            layerMap s2 = layerMap s → mounts s2 = mounts s5 →
            next_ptr s2 = next_ptr s → next_ref s2 = S (next_ref s) →
            crw_mountID e ∉ driver s → init_id e opts ∉ driver s →
            mountRecs (store s) !! name = None →
            s2 = with_next_ref (S (next_ref s)) s).
  { intros s2 E1 E2 E3 E4 E5 E6 E7 F1 F2 F3. apply store_eq; simpl; try done.
    - rewrite E2. apply metadata_store_eq; [exact Hlayers|].
      change (mountRecs (store s5)) with (mountRecs (RemoveMount name (store s1))).
      rewrite Hrecs. by apply delete_id.
    - rewrite E3. apply set_eq. intros x. rewrite Hd2. set_solver.
    - by rewrite E5. }
  rename parent into par.
  assert (Hcase : par = "" ∨ par ≠ "") by (destruct (decide (par = "")); auto).
  destruct Hcase as [Hroot|Hnonroot].
  - assert (Hpo : po = None) by (unfold po, parent_ptr; by rewrite decide_True).
    rewrite Hpo in Hrel. exists s5. split; [done|]. rewrite Hrel. split; [done|].
    assert (Hheap : heap s5 = heap s) by (unfold s5; simpl; by rewrite Hpo).
    split; [exact Hheap|]. split; [done|]. split; [exact Hmounts|].
    split; [exact Hlayers|]. split; [exact Hrecs|]. split; [exact Hd2|].
    intros F1 F2 F3. by apply Hback.
  - destruct Hpar as [?|(p & np & Hp & Hnp & Hc)]; [done|].
    assert (Hpo : po = Some p) by (unfold po, parent_ptr; by rewrite decide_False).
    rewrite Hpo in Hrel.
    assert (Hret : heap s5
                   = <[p := set_referenceCount (S (referenceCount np)) np]> (heap s)).
    { unfold s5. simpl. rewrite Hpo. unfold retain. by rewrite Hnp. }
    unfold releaseLayer in Hrel. change (fuel s5) with (S (next_ptr s)) in Hrel.
    rewrite (releaseLayer_loop_keep _ _ 0 [] p s5
               (set_referenceCount (S (referenceCount np)) np)) in Hrel;
      [|by rewrite Hret, lookup_insert_eq|simpl; lia].
    eexists. split; [done|]. rewrite Hrel. split; [done|].
    assert (Hheap : <[p := decremented (set_referenceCount (S (referenceCount np)) np)]>
                      (heap s5) = heap s).
    { rewrite Hret, insert_insert_eq. apply insert_id. rewrite Hnp. f_equal.
      destruct np. unfold decremented, set_referenceCount. simpl. f_equal. lia. }
    split; [exact Hheap|]. split; [done|]. split; [exact Hmounts|].
    split; [exact Hlayers|]. split; [exact Hrecs|]. split; [exact Hd2|].
    intros F1 F2 F3. by apply Hback.
Qed.

(** [GetRWLayer] followed by [ReleaseRWLayer] of the handle it returned
    changes nothing but the handle counter, for a mount that someone else
    holds: the handle is new, and its release returns no [Metadata] record
    without any call to the driver or to the metadata store.  On a name that
    is not indexed, [GetRWLayer] and [GetMountID] return
    [ErrMountDoesNotExist]. *)
Theorem GetRWLayer_ReleaseRWLayer_restores e id s :
  wf s →
  (∀ m, mounts s !! id = Some m → mname m = id → mreferences m ≠ ∅ →
     ∃ h s1, GetRWLayer id s = (Ok h, s1) ∧ rw_Name h = id ∧
       rw_ref h ∉ mreferences m ∧
       mounts s1 !! id = Some (set_mreferences ({[rw_ref h]} ∪ mreferences m) m) ∧
       ReleaseRWLayer e h s1 = Done (Ok [], with_next_ref (S (next_ref s)) s)) ∧
  (mounts s !! id = None →
     GetRWLayer id s = (Err ErrMountDoesNotExist, s) ∧
     GetMountID id s = Err ErrMountDoesNotExist).
Proof.
  intros Hwf. split.
  - intros m Hm Hname Hrefs.
    assert (Hfresh : next_ref s ∉ mreferences m).
    { intros Hin. pose proof (inv_mref _ _ Hwf _ _ _ Hm Hin). lia. }
    unfold GetRWLayer. rewrite Hm. simpl. do 2 eexists. split; [done|].
    split; [done|]. split; [done|]. simpl.
    split; [by rewrite lookup_insert_eq|].
    unfold ReleaseRWLayer. simpl. rewrite Hname, lookup_insert_eq.
    unfold m_deleteReference. simpl.
    rewrite bool_decide_eq_true_2 by set_solver. simpl.
    assert (Hback : ({[next_ref s]} ∪ mreferences m) ∖ {[next_ref s]} = mreferences m)
      by set_solver.
    unfold m_hasReferences. simpl. rewrite Hback.
    rewrite bool_decide_eq_false_2 by done. simpl.
    do 2 f_equal. apply store_eq; try done. simpl.
    rewrite insert_insert_eq. apply insert_id. rewrite Hm. f_equal.
    by destruct m.
  - intros Hnone. unfold GetRWLayer, GetMountID. by rewrite Hnone.
Qed.

(** ** A handle is released once *)

(** The loop of [releaseLayer] changes no reference set and adds nothing
    to the index. *)
Lemma releaseLayer_loop_references k : ∀ e d rem l s r s',
  releaseLayer_loop k e d rem l s = Done (r, s') →
  (∀ q, references <$> heap s' !! q = references <$> heap s !! q) ∧
  (∀ c q, layerMap s' !! c = Some q → layerMap s !! c = Some q).
Proof.
  induction k as [|k IH]; intros e d rem l s r s' Hrun; [done|].
  simpl in Hrun. unfold deref in Hrun.
  destruct (heap s !! l) as [n|] eqn:Hn; [|done]. simpl in Hrun.
  destruct (bool_decide (referenceCount n = 0)); [done|].
  set (n1 := set_referenceCount (referenceCount n - 1) n) in *.
  assert (Hset : ∀ q, references <$> <[l := n1]> (heap s) !! q = references <$> heap s !! q).
  { intros q. destruct (decide (q = l)) as [->|].
    - by rewrite lookup_insert_eq, Hn.
    - by rewrite lookup_insert_ne. }
  match type of Hrun with
  | context [negb (bool_decide ?P)] => destruct (bool_decide P)
  end; simpl in Hrun.
  2: { injection Hrun as _ <-. split; [exact Hset|done]. }
  match type of Hrun with
  | context [bool_decide ?P && bool_decide ?Q] =>
      destruct (bool_decide P && bool_decide Q)
  end; [done|].
  match type of Hrun with
  | context [hasReferences ?x] => destruct (hasReferences x)
  end; [done|].
  match type of Hrun with
  | context [deleteLayer ?a ?b ?c] =>
      set (s2 := c) in *; destruct (deleteLayer a b s2) as [[rd s3]| | |] eqn:Hdel
  end; try done.
  simpl in Hrun.
  pose proof (deleteLayer_same_mem _ _ _ _ _ Hdel) as (Hh & Hlm & _).
  assert (Hs3 : (∀ q, references <$> heap s3 !! q = references <$> heap s !! q) ∧
                (∀ c q, layerMap s3 !! c = Some q → layerMap s !! c = Some q)).
  { split.
    - intros q. rewrite Hh. apply Hset.
    - intros c q. rewrite Hlm. unfold s2. simpl. intros Hc.
      by apply lookup_delete_Some in Hc as [_ Hc]. }
  destruct rd as [md|err].
  - destruct (parent n) as [pp|].
    + destruct (IH _ _ _ _ _ _ _ Hrun) as [H1 H2]. destruct Hs3 as [H3 H4]. split.
      * intros q. by rewrite H1.
      * intros c q Hc. by apply H4, H2.
    + by injection Hrun as _ <-.
  - by injection Hrun as _ <-.
Qed.

(** A [Layer] handle is released once.  Whatever a [Release] of the handle
    did and returned, a second [Release] of the same handle does nothing:
    it returns [ErrLayerNotRetained] when the layer is still indexed and an
    empty result when it is not, and the store is unchanged. *)
Theorem Release_once e e' h s r s1 :
  Release e h s = Done (r, s1) →
  (is_Some (layerMap s1 !! layer_ChainID h) ∧
   Release e' h s1 = Done (Err ErrLayerNotRetained, s1)) ∨
  (layerMap s1 !! layer_ChainID h = None ∧ Release e' h s1 = Done (Ok [], s1)).
Proof.
  intros Hrel. unfold Release in Hrel.
  destruct (layerMap s !! layer_ChainID h) as [p|] eqn:Hp.
  - unfold deref in Hrel. destruct (heap s !! p) as [n|] eqn:Hn; [|done].
    simpl in Hrel. destruct (hasReference n h) eqn:Hheld.
    + unfold releaseLayer in Hrel.
      destruct (releaseLayer_loop_references _ _ _ _ _ _ _ _ Hrel) as [Hrefs Hidx].
      destruct (layerMap s1 !! layer_ChainID h) as [p'|] eqn:Hp'.
      * left. split; [by eexists|]. pose proof (Hidx _ _ Hp') as Hp''. simpl in Hp''.
        assert (p' = p) by congruence. subst p'.
        specialize (Hrefs p). simpl in Hrefs. rewrite lookup_insert_eq in Hrefs.
        destruct (heap s1 !! p) as [n'|] eqn:Hn'; [|done]. simpl in Hrefs.
        injection Hrefs as Hrefs.
        unfold Release, deref. rewrite Hp', Hn'. simpl.
        unfold hasReference. rewrite Hrefs, bool_decide_eq_false_2; [done|].
        set_solver.
      * right. split; [done|]. unfold Release. by rewrite Hp'.
    + injection Hrel as _ <-. left. split; [by eexists|].
      unfold Release, deref. rewrite Hp, Hn. simpl. by rewrite Hheld.
  - injection Hrel as _ <-. right. split; [done|]. unfold Release. by rewrite Hp.
Qed.

(** An [RWLayer] handle is released once.  After a [ReleaseRWLayer] that
    returned without error, a second [ReleaseRWLayer] of the same handle does
    nothing: it returns [ErrLayerNotRetained] when the mount is still indexed
    (other handles keep it) and an empty result when the mount is gone, and
    the store is unchanged. *)
Theorem ReleaseRWLayer_once e e' l s r s1 :
  ReleaseRWLayer e l s = Done (Ok r, s1) →
  (is_Some (mounts s1 !! rw_Name l) ∧
   ReleaseRWLayer e' l s1 = Done (Err ErrLayerNotRetained, s1)) ∨
  (mounts s1 !! rw_Name l = None ∧ ReleaseRWLayer e' l s1 = Done (Ok [], s1)).
Proof.
  intros Hrel. unfold ReleaseRWLayer in Hrel. cbv zeta in Hrel.
  destruct (mounts s !! rw_Name l) as [m|] eqn:Hm.
  2: { injection Hrel as _ <-. right. split; [done|].
       unfold ReleaseRWLayer. cbv zeta. by rewrite Hm. }
  unfold m_deleteReference in Hrel.
  destruct (bool_decide (rw_ref l ∈ mreferences m)) eqn:Hheld; [|done].
  set (m1 := set_mreferences (mreferences m ∖ {[rw_ref l]}) m) in *.
  destruct (m_hasReferences m1) eqn:Hrefs.
  { injection Hrel as _ <-. left. simpl. rewrite lookup_insert_eq.
    split; [by eexists|]. unfold ReleaseRWLayer. cbv zeta. simpl.
    rewrite lookup_insert_eq. unfold m_deleteReference. simpl.
    rewrite bool_decide_eq_false_2 by set_solver. done. }
  destruct (rrw_removeMount e); [done|].
  destruct (if decide (initID m1 = "") then None else rrw_removeInit e); [done|].
  destruct (rrw_removeMeta e); [done|].
  match type of Hrel with
  | context [with_mounts (delete ?k ?ms) ?s0] =>
      set (s5 := with_mounts (delete k ms) s0) in *
  end.
  assert (Hgone : mounts s5 !! rw_Name l = None).
  { unfold s5. simpl. by rewrite lookup_delete_eq. }
  assert (Hs1 : mounts s1 = mounts s5).
  { destruct (mparent m1) as [p|].
    - unfold releaseLayer in Hrel.
      by destruct (releaseLayer_loop_frame _ _ _ _ _ _ _ _ Hrel) as (-> & _).
    - by injection Hrel as _ <-. }
  right. rewrite Hs1. split; [done|].
  unfold ReleaseRWLayer. cbv zeta. by rewrite Hs1, Hgone.
Qed.

(** ** A deletion that fails *)

(** When the driver fails to remove the backing store of a layer whose
    last reference is released, [Release] returns the driver's error.  The
    layer is out of the index all the same (a [Get] of it answers
    [ErrLayerDoesNotExist]) while its backing store is still in the driver;
    its metadata record is gone exactly when the rename that precedes the
    removal took place; and the walk stops there: every other object, its
    parent included, keeps its reference count. *)
Theorem Release_delete_fails e h s p n err :
  wf s → layerMap s !! layer_ChainID h = Some p → heap s !! p = Some n →
  layer_ref h ∈ references n → referenceCount n = 1 →
  del_remove (e 0) = Some err →
  ∃ s1, Release e h s = Done (Err err, s1) ∧
    layerMap s1 = delete (layer_ChainID h) (layerMap s) ∧
    Get (layer_ChainID h) s1 = Done (Err ErrLayerDoesNotExist, s1) ∧
    driver s1 = driver s ∧
    layers (store s1) = (if del_rename (e 0)
                         then delete (layer_ChainID h) (layers (store s))
                         else layers (store s)) ∧
    (∀ q, q ≠ p → heap s1 !! q = heap s !! q) ∧
    mounts s1 = mounts s.
Proof.
  intros Hwf Hp Hn Hin Hone Herr.
  destruct (inv_index _ _ Hwf _ _ Hp) as (n0 & Hn0 & Hch).
  assert (n0 = n) by congruence. subst n0.
  pose proof (inv_count _ _ Hwf _ _ _ Hp Hn) as Hcount. unfold no_credit in Hcount.
  assert (Hrefs : references n ∖ {[layer_ref h]} = ∅).
  { apply leibniz_equiv, size_empty_inv.
    rewrite size_difference by set_solver. rewrite size_singleton. lia. }
  rewrite (Release_held e h s p n Hp Hn Hin).
  unfold releaseLayer. change (fuel _) with (S (next_ptr s)). simpl.
  unfold deref. simpl. rewrite lookup_insert_eq. simpl.
  rewrite bool_decide_eq_false_2 by lia.
  rewrite bool_decide_eq_true_2 by lia. simpl.
  unfold hasReferences. simpl. rewrite Hrefs, bool_decide_eq_true_2 by done. simpl.
  unfold deleteLayer, deref. simpl. rewrite lookup_insert_eq. simpl.
  rewrite Herr. simpl. eexists. split; [done|].
  rewrite Hch.
  assert (Hlm : layerMap (if del_rename (e 0)
                 then with_store (with_layers (delete (layer_ChainID h) (layers (store s))) (store s))
                        (with_layerMap (delete (layer_ChainID h) (layerMap s))
                           (set_node p (set_referenceCount 0 (deleteReference n h))
                              (set_node p (deleteReference n h) s)))
                 else with_layerMap (delete (layer_ChainID h) (layerMap s))
                        (set_node p (set_referenceCount 0 (deleteReference n h))
                           (set_node p (deleteReference n h) s)))
            = delete (layer_ChainID h) (layerMap s)).
  { by destruct (del_rename (e 0)). }
  replace (referenceCount n - 1) with 0 by lia.
  split; [exact Hlm|]. split.
  { unfold Get. rewrite get_None; [done|]. rewrite Hlm. by rewrite lookup_delete_eq. }
  destruct (del_rename (e 0)); simpl; (split; [done|]); (split; [done|]);
    (split; [|done]); intros q Hq; by rewrite !lookup_insert_ne.
Qed.

(** * What every call keeps *)

(** ** Calls that add no layer *)

Lemma shrinks_refl s : shrinks s s.
Proof. split; [apply same_static_refl|]. by intros c p Hc. Qed.

Lemma shrinks_trans s1 s2 s3 : shrinks s1 s2 → shrinks s2 s3 → shrinks s1 s3.
Proof.
  intros [H1 H2] [H3 H4]. split; [by eapply same_static_trans|].
  intros c p Hc. destruct (H4 _ _ Hc) as [Hc2 Hr2]. destruct (H2 _ _ Hc2) as [Hc1 Hr1].
  split; [done|]. by rewrite Hr2.
Qed.

Lemma shrinks_frame s s' :
  same_static s s' → layerMap s' = layerMap s → layers (store s') = layers (store s) →
  shrinks s s'.
Proof. intros Hst Hlm Hrec. split; [done|]. intros c p Hc. by rewrite <- Hlm, Hrec. Qed.

Lemma shrinks_set_node s p n n' :
  heap s !! p = Some n → static n' = static n → shrinks s (set_node p n' s).
Proof. intros Hp Hst. apply shrinks_frame; [by eapply same_static_set_node|done..]. Qed.

Lemma get_shrinks k s po s' : get k s = Done (po, s') → shrinks s s'.
Proof.
  unfold get, deref. intros Hget.
  destruct (layerMap s !! k) as [p|]; [|injection Hget as _ <-; apply shrinks_refl].
  destruct (heap s !! p) as [n|] eqn:Hn; [|done]. simpl in Hget.
  injection Hget as _ <-. by apply (shrinks_set_node s p n).
Qed.

Lemma getReference_shrinks p s h s' : getReference p s = Done (h, s') → shrinks s s'.
Proof.
  unfold getReference, deref. intros Hget.
  destruct (heap s !! p) as [n|] eqn:Hn; [|done]. simpl in Hget.
  injection Hget as _ <-.
  eapply shrinks_trans;
    [by apply (shrinks_set_node s p n
                 (set_references ({[next_ref s]} ∪ references n) n))|].
  by apply shrinks_frame.
Qed.

Lemma Get_shrinks c s r s' : Get c s = Done (r, s') → shrinks s s'.
Proof.
  unfold Get. intros Hget.
  destruct (get c s) as [[po s1]| | |] eqn:Hg; try done. simpl in Hget.
  pose proof (get_shrinks _ _ _ _ Hg) as H1.
  destruct po as [p|]; [|by injection Hget as _ <-].
  destruct (getReference p s1) as [[h s2]| | |] eqn:Hr; try done. simpl in Hget.
  injection Hget as _ <-. eapply shrinks_trans; [exact H1|].
  by eapply getReference_shrinks.
Qed.

Lemma deleteLayer_shrinks e l s r s' n :
  heap s !! l = Some n → layerMap s !! chainID n = None →
  deleteLayer e l s = Done (r, s') → shrinks s s'.
Proof.
  intros Hl Hgone. unfold deleteLayer, deref. rewrite Hl. simpl. intros Hdel.
  assert (Hs1 : ∀ s1, same_static s s1 → layerMap s1 = layerMap s →
            (layers (store s1) = layers (store s) ∨
             layers (store s1) = delete (chainID n) (layers (store s))) →
            shrinks s s1).
  { intros s1 Hst Hlm Hrec. split; [done|]. intros c p Hc. rewrite Hlm in Hc.
    split; [done|]. destruct Hrec as [->| ->]; [done|].
    rewrite lookup_delete_ne; [done|]. congruence. }
  destruct (del_rename e), (del_remove e), (del_removeAll e);
    try (injection Hdel as _ <-; apply Hs1; [by split|done|simpl; auto]).
  all: match type of Hdel with
       | context [Size ?a ?b] => destruct (Size a b); try done
       end; simpl in Hdel; injection Hdel as _ <-;
       apply Hs1; [by split|done|simpl; auto].
Qed.

Lemma releaseLayer_loop_shrinks k : ∀ e d rem l s r s',
  releaseLayer_loop k e d rem l s = Done (r, s') → shrinks s s'.
Proof.
  induction k as [|k IH]; intros e d rem l s r s' Hrun; [done|].
  simpl in Hrun. unfold deref in Hrun.
  destruct (heap s !! l) as [n|] eqn:Hn; [|done]. simpl in Hrun.
  destruct (bool_decide (referenceCount n = 0)); [done|].
  set (n1 := set_referenceCount (referenceCount n - 1) n) in *.
  assert (H1 : shrinks s (set_node l n1 s)) by (by apply (shrinks_set_node s l n)).
  match type of Hrun with
  | context [negb (bool_decide ?P)] => destruct (bool_decide P)
  end; simpl in Hrun.
  2: { by injection Hrun as _ <-. }
  match type of Hrun with
  | context [bool_decide ?P && bool_decide ?Q] =>
      destruct (bool_decide P && bool_decide Q)
  end; [done|].
  match type of Hrun with
  | context [hasReferences ?x] => destruct (hasReferences x)
  end; [done|].
  match type of Hrun with
  | context [deleteLayer ?a ?b ?c] =>
      set (s2 := c) in *; destruct (deleteLayer a b s2) as [[rd s3]| | |] eqn:Hdel
  end; try done.
  simpl in Hrun.
  assert (H2 : shrinks (set_node l n1 s) s2).
  { split; [by split|]. intros c p Hc. unfold s2 in Hc. simpl in Hc.
    apply lookup_delete_Some in Hc as [_ Hc]. done. }
  assert (Hl2 : heap s2 !! l = Some n1).
  { unfold s2. simpl. by rewrite lookup_insert_eq. }
  assert (H3 : shrinks s2 s3).
  { eapply (deleteLayer_shrinks (e d) l s2 rd s3 n1 Hl2); [|exact Hdel].
    unfold s2. simpl. by rewrite lookup_delete_eq. }
  assert (H13 : shrinks s s3) by (eapply shrinks_trans; [|exact H3]; by eapply shrinks_trans).
  destruct rd as [md|err]; [|by injection Hrun as _ <-].
  destruct (parent n) as [pp|]; [|by injection Hrun as _ <-].
  eapply shrinks_trans; [exact H13|]. by eapply IH.
Qed.

Lemma release_parent_shrinks e p s s' : release_parent e p s = Done s' → shrinks s s'.
Proof.
  destruct p as [pp|]; simpl; [|intros [= <-]; apply shrinks_refl].
  unfold releaseLayer. intros Hrel.
  destruct (releaseLayer_loop _ _ _ _ _ _) as [[r s1]| | |] eqn:Hloop; try done.
  simpl in Hrel. injection Hrel as <-. by eapply releaseLayer_loop_shrinks.
Qed.

Lemma Release_shrinks e h s r s' : Release e h s = Done (r, s') → shrinks s s'.
Proof.
  unfold Release, deref. intros Hrel.
  destruct (layerMap s !! layer_ChainID h) as [p|]; [|injection Hrel as _ <-; apply shrinks_refl].
  destruct (heap s !! p) as [n|] eqn:Hn; [|done]. simpl in Hrel.
  destruct (hasReference n h); [|injection Hrel as _ <-; apply shrinks_refl].
  eapply shrinks_trans; [by apply (shrinks_set_node s p n (deleteReference n h))|].
  by eapply releaseLayer_loop_shrinks.
Qed.

Lemma cleanup_cache_shrinks e s : shrinks s (cleanup_cache e s).
Proof.
  unfold cleanup_cache, driver_Remove. destruct (reg_remove e);
    [apply shrinks_refl|by apply shrinks_frame].
Qed.

Lemma register_fail_early_shrinks {A} e p err s r s' :
  register_fail_early (A:=A) e p err s = Done (r, s') → shrinks s s'.
Proof.
  unfold register_fail_early. intros Hrun.
  destruct (release_parent (reg_release e) p s) as [s1| | |] eqn:Hrel; try done.
  simpl in Hrun. injection Hrun as _ <-. by eapply release_parent_shrinks.
Qed.

Lemma register_fail_shrinks {A} e p err s r s' :
  register_fail (A:=A) e p err s = Done (r, s') → shrinks s s'.
Proof.
  unfold register_fail. intros Hrun.
  destruct (release_parent (reg_release e) p (cleanup_cache e s)) as [s1| | |] eqn:Hrel;
    try done.
  simpl in Hrun. injection Hrun as _ <-.
  eapply shrinks_trans; [apply cleanup_cache_shrinks|]. by eapply release_parent_shrinks.
Qed.

(** [register_layer] either adds no layer, or every external call
    succeeded and the chain ID it computed was not indexed. *)
Lemma register_layer_cases `{Digester} e ts p pid s r s' :
  register_layer e ts p pid s = Done (r, s') →
  shrinks s s' ∨
  ∃ z, register_succeeds e z ∧
    layerMap s !! computed_chainID (p ≫= λ pp, heap s !! pp) ts = None.
Proof.
  unfold register_layer. intros Hrun.
  destruct (reg_create e) eqn:Hcr; [left; by eapply register_fail_early_shrinks|].
  set (s1 := driver_Create None (reg_cacheID e) s) in *.
  assert (H1 : shrinks s s1) by (by apply shrinks_frame).
  destruct (reg_startTx e) eqn:Htx.
  { left. eapply shrinks_trans; [exact H1|]. by eapply register_fail_early_shrinks. }
  destruct (reg_applyTar e) as [z|] eqn:Hat.
  2: { left. eapply shrinks_trans; [exact H1|]. by eapply register_fail_shrinks. }
  assert (Hchain : ∃ pchain,
            match p with
            | Some pp => np ← deref s1 pp; Done (Some (chainID np))
            | None => Done None
            end = Done pchain ∧
            match pchain with
            | Some pc => chainDigest pc (digest ts)
            | None => digest ts
            end = computed_chainID (p ≫= λ pp, heap s !! pp) ts).
  { destruct p as [pp|]; [|by exists None].
    unfold deref in *. change (heap s1) with (heap s) in *. simpl.
    destruct (heap s !! pp) as [np|]; [|done]. by exists (Some (chainID np)). }
  destruct Hchain as (pchain & Hpc & Hcomp). rewrite Hpc in Hrun. simpl in Hrun.
  rewrite Hcomp in Hrun.
  destruct (reg_storeLayer e) eqn:Hsl.
  { left. eapply shrinks_trans; [exact H1|]. by eapply register_fail_shrinks. }
  destruct (get _ s1) as [[ex s2]| | |] eqn:Hget; try done. simpl in Hrun.
  pose proof (get_shrinks _ _ _ _ Hget) as H2.
  destruct ex as [x|].
  - left. destruct (getReference x s2) as [[h s3]| | |] eqn:Href; try done.
    simpl in Hrun.
    destruct (release_parent _ p (cleanup_cache e s3)) as [s4| | |] eqn:Hrel; try done.
    simpl in Hrun. injection Hrun as _ <-.
    eapply shrinks_trans; [exact H1|]. eapply shrinks_trans; [exact H2|].
    eapply shrinks_trans; [by eapply getReference_shrinks|].
    eapply shrinks_trans; [apply cleanup_cache_shrinks|].
    by eapply release_parent_shrinks.
  - destruct (reg_commit e) eqn:Hco.
    { left. eapply shrinks_trans; [exact H1|]. eapply shrinks_trans; [exact H2|].
      by eapply register_fail_shrinks. }
    right. exists z. split; [done|].
    unfold get in Hget. change (layerMap s1) with (layerMap s) in Hget.
    destruct (layerMap s !! _) as [q|]; [|done].
    unfold deref in Hget. destruct (heap s1 !! q); simpl in Hget; done.
Qed.

(** [Register] either adds no layer or stores new content as
    [Register_registered] says. *)
Lemma Register_cases `{Digester} e ts parent s r s' :
  Register e ts parent s = Done (r, s') →
  shrinks s s' ∨
  ∃ z, register_succeeds e z ∧ parent_shallow s parent ∧
    layerMap s !! computed_chainID (resolved_parent s parent) ts = None ∧
    s' = registered e ts parent z s.
Proof.
  intros Hrun. pose proof Hrun as Hrun0.
  unfold Register, registerWithDescriptor in Hrun.
  assert (Hnew : ∀ z, register_succeeds e z → parent_shallow s parent →
            layerMap s !! computed_chainID (resolved_parent s parent) ts = None →
            s' = registered e ts parent z s).
  { intros z He Hpar Hc.
    rewrite (Register_registered e ts parent z s He Hpar Hc) in Hrun0.
    by injection Hrun0 as _ <-. }
  rename parent into par.
  destruct (decide (par = "")) as [Hroot|Hnonroot].
  - destruct (register_layer_cases _ _ _ _ _ _ _ Hrun) as [?|(z & He & Hc)]; [by left|].
    right. exists z.
    assert (Hres : resolved_parent s par = None).
    { unfold resolved_parent. by rewrite decide_True. }
    assert (Hc' : layerMap s !! computed_chainID (resolved_parent s par) ts = None)
      by (by rewrite Hres).
    assert (Hpar : parent_shallow s par) by (by left).
    split; [done|]. split; [done|]. split; [done|]. by apply Hnew.
  - unfold get, deref in Hrun.
    destruct (layerMap s !! par) as [p|] eqn:Hp.
    2: { simpl in Hrun. injection Hrun as _ <-. left. apply shrinks_refl. }
    destruct (heap s !! p) as [np|] eqn:Hnp; [|done]. simpl in Hrun.
    rewrite lookup_insert_eq in Hrun. simpl in Hrun.
    set (s1 := set_node p (set_referenceCount (S (referenceCount np)) np) s) in *.
    assert (H1 : shrinks s s1) by (by apply (shrinks_set_node s p np)).
    destruct (depth s1 p) as [d| | |] eqn:Hd; try done. simpl in Hrun.
    destruct (bool_decide (maxLayerDepth ≤ d)) eqn:Hdepth.
    { left. eapply shrinks_trans; [exact H1|]. by eapply register_fail_early_shrinks. }
    apply bool_decide_eq_false in Hdepth.
    destruct (register_layer_cases _ _ _ _ _ _ _ Hrun) as [?|(z & He & Hc)].
    { left. by eapply shrinks_trans. }
    right. exists z.
    assert (Hres : resolved_parent s par = Some np).
    { unfold resolved_parent. rewrite decide_False by done. rewrite Hp. simpl. done. }
    assert (Hpar : parent_shallow s par).
    { right. exists p, np, d. split; [done|]. split; [done|]. split; [|lia].
      rewrite <- Hd. symmetry. by apply (depth_set_node s p np). }
    assert (Hc' : layerMap s !! computed_chainID (resolved_parent s par) ts = None).
    { rewrite Hres. simpl in Hc. unfold s1 in Hc. simpl in Hc.
      rewrite lookup_insert_eq in Hc. simpl in Hc. exact Hc. }
    split; [done|]. split; [done|]. split; [done|]. by apply Hnew.
Qed.

Lemma initMount_shrinks e id f s : shrinks s (initMount e id f s).2.
Proof.
  unfold initMount.
  destruct (crw_initCreate e); [apply shrinks_refl|].
  destruct (crw_initGet e); [|by apply shrinks_frame].
  destruct (f a); [by apply shrinks_frame|].
  destruct (crw_initPut e); by apply shrinks_frame.
Qed.

Lemma saveMount_shrinks e m s r s' : saveMount e m s = Done (r, s') → shrinks s s'.
Proof.
  unfold saveMount. intros Hrun.
  destruct (crw_setMountID e); [injection Hrun as _ <-; apply shrinks_refl|].
  destruct (decide (initID m = "")) as [Hi|Hi].
  - destruct (mparent m) as [p|]; [|injection Hrun as _ <-; by apply shrinks_frame].
    unfold deref in Hrun. simpl in Hrun. destruct (heap s !! p); [|done]. simpl in Hrun.
    destruct (crw_setMountParent e); injection Hrun as _ <-; by apply shrinks_frame.
  - destruct (crw_setInitID e); [injection Hrun as _ <-; by apply shrinks_frame|].
    destruct (mparent m) as [p|]; [|injection Hrun as _ <-; by apply shrinks_frame].
    unfold deref in Hrun. simpl in Hrun. destruct (heap s !! p); [|done]. simpl in Hrun.
    destruct (crw_setMountParent e); injection Hrun as _ <-; by apply shrinks_frame.
Qed.

Lemma createRW_fail_shrinks {A} e p err s r s' :
  createRW_fail (A:=A) e p err s = Done (r, s') → shrinks s s'.
Proof.
  unfold createRW_fail. intros Hrun.
  destruct (release_parent (crw_release e) p s) as [s1| | |] eqn:Hrel; try done.
  simpl in Hrun. injection Hrun as _ <-. by eapply release_parent_shrinks.
Qed.

Lemma createRW_mount_shrinks e name opts p pid s r s' :
  createRW_mount e name opts p pid s = Done (r, s') → shrinks s s'.
Proof.
  unfold createRW_mount. intros Hrun.
  assert (Hinit : ∃ ir s1,
            match opts ≫= InitFunc with
            | Some f =>
                match initMount e (crw_mountID e) f s with
                | (Ok i, s'0) => (Ok (Some i), s'0)
                | (Err err, s'0) => (Err err, s'0)
                end
            | None => (Ok None, s)
            end = (ir, s1) ∧ shrinks s s1).
  { destruct (opts ≫= InitFunc) as [f|]; [|do 2 eexists; split; [done|apply shrinks_refl]].
    pose proof (initMount_shrinks e (crw_mountID e) f s) as Hi.
    destruct (initMount e (crw_mountID e) f s) as [[i|err] s1]; simpl in Hi; eauto. }
  destruct Hinit as (ir & s1 & Heq & H1). simpl in Hrun. rewrite Heq in Hrun.
  destruct ir as [io|err].
  2: { eapply shrinks_trans; [exact H1|]. by eapply createRW_fail_shrinks. }
  destruct (crw_create e).
  { eapply shrinks_trans; [exact H1|]. by eapply createRW_fail_shrinks. }
  match type of Hrun with
  | context [saveMount ?a ?b ?c] =>
      destruct (saveMount a b c) as [[sr s3]| | |] eqn:Hsave
  end; try done.
  simpl in Hrun. pose proof (saveMount_shrinks _ _ _ _ _ Hsave) as H3.
  assert (H13 : shrinks s s3).
  { eapply shrinks_trans; [exact H1|]. eapply shrinks_trans; [|exact H3].
    by apply shrinks_frame. }
  destruct sr as [err|].
  { eapply shrinks_trans; [exact H13|]. by eapply createRW_fail_shrinks. }
  injection Hrun as _ <-. eapply shrinks_trans; [exact H13|]. by apply shrinks_frame.
Qed.

Lemma CreateRWLayer_shrinks e name parent opts s r s' :
  CreateRWLayer e name parent opts s = Done (r, s') → shrinks s s'.
Proof.
  unfold CreateRWLayer. intros Hrun.
  destruct (mounts s !! name); [injection Hrun as _ <-; apply shrinks_refl|].
  destruct (decide (parent = "")); [by eapply createRW_mount_shrinks|].
  destruct (get parent s) as [[po s1]| | |] eqn:Hget; try done. simpl in Hrun.
  pose proof (get_shrinks _ _ _ _ Hget) as H1.
  destruct po as [p|]; [|by injection Hrun as _ <-].
  unfold deref in Hrun. destruct (heap s1 !! p); [|done]. simpl in Hrun.
  eapply shrinks_trans; [exact H1|]. by eapply createRW_mount_shrinks.
Qed.

Lemma GetRWLayer_shrinks id s : shrinks s (GetRWLayer id s).2.
Proof.
  unfold GetRWLayer. destruct (mounts s !! id); [|apply shrinks_refl].
  by apply shrinks_frame.
Qed.

Lemma ReleaseRWLayer_shrinks e l s r s' :
  ReleaseRWLayer e l s = Done (r, s') → shrinks s s'.
Proof.
  unfold ReleaseRWLayer. cbv zeta. intros Hrun.
  destruct (mounts s !! rw_Name l) as [m|]; [|injection Hrun as _ <-; apply shrinks_refl].
  destruct (m_deleteReference m l) as [m1|]; [|injection Hrun as _ <-; apply shrinks_refl].
  destruct (m_hasReferences m1); [injection Hrun as _ <-; by apply shrinks_frame|].
  destruct (rrw_removeMount e); [injection Hrun as _ <-; by apply shrinks_frame|].
  destruct (decide (initID m1 = "")).
  - destruct (rrw_removeMeta e); [injection Hrun as _ <-; by apply shrinks_frame|].
    destruct (mparent m1) as [p|].
    + eapply shrinks_trans; [|by eapply releaseLayer_loop_shrinks]. by apply shrinks_frame.
    + injection Hrun as _ <-. by apply shrinks_frame.
  - destruct (rrw_removeInit e); [injection Hrun as _ <-; by apply shrinks_frame|].
    destruct (rrw_removeMeta e); [injection Hrun as _ <-; by apply shrinks_frame|].
    destruct (mparent m1) as [p|].
    + eapply shrinks_trans; [|by eapply releaseLayer_loop_shrinks]. by apply shrinks_frame.
    + injection Hrun as _ <-. by apply shrinks_frame.
Qed.

(** Every public call either adds no layer or is a [Register] that stores
    new content. *)
Lemma run_call_cases `{Digester} c s s' :
  run_call c s = Done s' →
  shrinks s s' ∨
  ∃ e ts parent z, register_succeeds e z ∧ parent_shallow s parent ∧
    layerMap s !! computed_chainID (resolved_parent s parent) ts = None ∧
    s' = registered e ts parent z s.
Proof.
  destruct c as [l|e ts parent|e l|e name parent opts|id|e l]; simpl; intros Hrun.
  - destruct (Get l s) as [[r s1]| | |] eqn:Hc; try done. simpl in Hrun.
    injection Hrun as <-. left. by eapply Get_shrinks.
  - destruct (Register e ts parent s) as [[r s1]| | |] eqn:Hc; try done. simpl in Hrun.
    injection Hrun as <-.
    destruct (Register_cases _ _ _ _ _ _ Hc) as [?|(z & ?)]; [by left|].
    right. by exists e, ts, parent, z.
  - destruct (Release e l s) as [[r s1]| | |] eqn:Hc; try done. simpl in Hrun.
    injection Hrun as <-. left. by eapply Release_shrinks.
  - destruct (CreateRWLayer e name parent opts s) as [[r s1]| | |] eqn:Hc; try done.
    simpl in Hrun. injection Hrun as <-. left. by eapply CreateRWLayer_shrinks.
  - injection Hrun as <-. left. apply GetRWLayer_shrinks.
  - destruct (ReleaseRWLayer e l s) as [[r s1]| | |] eqn:Hc; try done. simpl in Hrun.
    injection Hrun as <-. left. by eapply ReleaseRWLayer_shrinks.
Qed.

(** ** Indexed layers keep their records *)

Lemma record_of_static s s' n n' :
  same_static s s' → static n' = static n → record_of s' n' = record_of s n.
Proof.
  intros Hst Hn. unfold static in Hn. injection Hn as Hc Hd Hp Hca Hz.
  unfold record_of. rewrite Hd, Hz, Hca, Hp. f_equal.
  destruct (parent n); [|done]. simpl. by apply chain_of_static.
Qed.

Lemma recorded_shrinks s s' : shrinks s s' → recorded s → recorded s'.
Proof.
  intros [Hst Hidx] Hrec c p n' Hc Hn'. destruct (Hidx _ _ Hc) as [Hc0 Hr].
  pose proof Hst as [_ Hq]. specialize (Hq p). rewrite Hn' in Hq. simpl in Hq.
  destruct (heap s !! p) as [n|] eqn:Hn; [|done]. simpl in Hq.
  apply (inj Some) in Hq.
  rewrite Hr, (Hrec _ _ _ Hc0 Hn). f_equal. symmetry. by apply record_of_static.
Qed.

(** The objects that existed before a registration keep their fields. *)
Lemma registered_static `{Digester} e ts parent z s q :
  q ≠ next_ptr s →
  static <$> heap (registered e ts parent z s) !! q = static <$> heap s !! q.
Proof.
  intros Hq. unfold registered. simpl. rewrite lookup_insert_ne by done.
  unfold retain. destruct (parent_ptr s parent) as [p|]; [|done].
  destruct (heap s !! p) as [np|] eqn:Hnp; [|done]. simpl.
  destruct (decide (q = p)) as [->|].
  - by rewrite lookup_insert_eq, Hnp.
  - by rewrite lookup_insert_ne.
Qed.

Lemma registered_chain_of `{Digester} e ts parent z s q :
  q ≠ next_ptr s → chain_of (registered e ts parent z s) q = chain_of s q.
Proof.
  intros Hq. pose proof (registered_static e ts parent z s q Hq) as Hst.
  unfold chain_of.
  destruct (heap (registered e ts parent z s) !! q) as [n'|], (heap s !! q) as [n|];
    simpl in *; try done.
  unfold static in Hst. by injection Hst as -> _ _ _ _.
Qed.

Lemma recorded_registered `{Digester} e ts parent z s :
  wf s → recorded s → parent_shallow s parent →
  layerMap s !! computed_chainID (resolved_parent s parent) ts = None →
  recorded (registered e ts parent z s).
Proof.
  intros Hwf Hrec Hpar Hnew c p n' Hc Hn'. rename parent into par.
  set (chain := computed_chainID (resolved_parent s par) ts) in *.
  assert (Hold : ∀ q, is_Some (heap s !! q) → q ≠ next_ptr s).
  { intros q Hq. pose proof (inv_ptr _ _ Hwf q Hq). lia. }
  assert (Hlm : layerMap (registered e ts par z s) = <[chain := next_ptr s]> (layerMap s))
    by done.
  rewrite Hlm in Hc. apply lookup_insert_Some in Hc as [[<- <-]|[Hne Hc]].
  - assert (Hn : heap (registered e ts par z s) !! next_ptr s
              = Some (mkRoLayer chain (digest ts) (parent_ptr s par) (reg_cacheID e) z 1
                        {[next_ref s]})).
    { unfold registered. simpl. by rewrite lookup_insert_eq. }
    rewrite Hn in Hn'. injection Hn' as <-.
    unfold registered at 1. simpl. rewrite lookup_insert_eq. f_equal.
    unfold record_of. simpl. f_equal.
    unfold parent_ptr, resolved_parent.
    destruct (decide (par = "")) as [Hroot|Hnonroot]; [done|].
    destruct Hpar as [?|(q & np & d & Hq & Hnp & _)]; [done|].
    rewrite Hq. simpl. rewrite Hnp. simpl.
    rewrite registered_chain_of by (apply Hold; eauto).
    unfold chain_of. by rewrite Hnp.
  - destruct (inv_index _ _ Hwf _ _ Hc) as (n & Hn & Hch).
    pose proof (Hold p (mk_is_Some _ _ Hn)) as Hp.
    pose proof (registered_static e ts par z s p Hp) as Hst.
    rewrite Hn', Hn in Hst. simpl in Hst. apply (inj Some) in Hst.
    unfold registered at 1. simpl. rewrite lookup_insert_ne by done.
    rewrite (Hrec _ _ _ Hc Hn). f_equal.
    unfold static in Hst. injection Hst as Hc' Hd Hpa Hca Hz.
    unfold record_of. rewrite Hd, Hz, Hca, Hpa. f_equal.
    destruct (parent n) as [pp|] eqn:Hpp; [|done]. simpl.
    destruct (inv_parent _ _ Hwf _ _ _ _ Hc Hn Hpp) as [_ (m & Hm & _)].
    symmetry. apply registered_chain_of. apply Hold. eauto.
Qed.

(** A property that calls adding no layer keep, and that storing new
    content keeps, holds along every sequence of calls. *)
Lemma run_keeps `{Digester} (P : layerStore → Prop) :
  (∀ s s', shrinks s s' → P s → P s') →
  (∀ e ts parent z s, wf s → P s → parent_shallow s parent →
     layerMap s !! computed_chainID (resolved_parent s parent) ts = None →
     P (registered e ts parent z s)) →
  ∀ cs s, wf s → P s → ∃ s', run cs s = Done s' ∧ wf s' ∧ P s'.
Proof.
  intros Hshrinks Hnew. induction cs as [|c cs IH]; intros s Hwf HP; [by exists s|].
  destruct (run_call_wf c s Hwf) as (s1 & Hc & Hwf1).
  assert (HP1 : P s1).
  { destruct (run_call_cases c s s1 Hc) as [Hsh|(e & ts & parent & z & He & Hpar & Hn & ->)].
    - by eapply Hshrinks.
    - by apply Hnew. }
  destruct (IH s1 Hwf1 HP1) as (s' & Hrun & Hwf' & HP').
  exists s'. simpl. rewrite Hc. simpl. by split.
Qed.

(** Every indexed layer keeps its metadata record.  From a store that
    satisfies the reference-count invariant and in which every indexed layer
    has its record (the empty store is one), every sequence of public calls,
    whatever the external calls answer, runs to completion and leaves a store
    in which every indexed layer has its record, with the fields of the object
    and its parent's chain ID: a failed deletion or a failed registration
    never leaves an indexed layer without metadata. *)
Theorem recorded_kept `{Digester} cs : ∀ s,
  wf s → recorded s →
  ∃ s', run cs s = Done s' ∧ wf s' ∧ recorded s'.
Proof.
  induction cs as [|c cs IH]; intros s Hwf Hrec; [by exists s|].
  destruct (run_call_wf c s Hwf) as (s1 & Hc & Hwf1).
  assert (Hrec1 : recorded s1).
  { destruct (run_call_cases c s s1 Hc) as [Hsh|(e & ts & parent & z & He & Hpar & Hnew & ->)].
    - by eapply recorded_shrinks.
    - by apply recorded_registered. }
  destruct (IH s1 Hwf1 Hrec1) as (s' & Hrun & Hwf' & Hrec').
  exists s'. simpl. rewrite Hc. simpl. by split.
Qed.

(** ** No chain grows beyond [maxLayerDepth] *)

Lemma same_shape_static s s' : same_static s s' → same_shape s s'.
Proof.
  intros [_ Hst] q. specialize (Hst q).
  destruct (heap s' !! q) as [n'|], (heap s !! q) as [n|]; simpl in *; try done.
  unfold static in Hst. by injection Hst as _ _ -> _ _.
Qed.

Lemma depth_bounded_shrinks s s' : shrinks s s' → depth_bounded s → depth_bounded s'.
Proof.
  intros [Hst Hidx] Hb c p Hc. destruct (Hidx _ _ Hc) as [Hc0 _].
  destruct (Hb _ _ Hc0) as (d & Hd & Hle). exists d. split; [|done].
  unfold depth, fuel. destruct Hst as [Hptr Hst]. rewrite Hptr.
  rewrite (depth_loop_shape s s'); [done|]. by apply same_shape_static.
Qed.

(** More fuel does not change a depth that was computed. *)
Lemma depth_loop_fuel s : ∀ k l d,
  depth_loop k s l = Done d → depth_loop (S k) s l = Done d.
Proof.
  induction k as [|k IH]; intros l d Hd; [done|].
  simpl in Hd. unfold deref in Hd. change (depth_loop (S (S k)) s l) with
    (n ← deref s l;
     match parent n with
     | None => Done 1
     | Some p => d ← depth_loop (S k) s p; Done (d + 1)
     end).
  unfold deref. destruct (heap s !! l) as [n|]; [|done]. simpl in *.
  destruct (parent n) as [pp|]; [|done].
  destruct (depth_loop k s pp) as [d0| | |] eqn:Hpp; try done.
  by rewrite (IH _ _ Hpp).
Qed.

(** The depth of a layer depends on the parent links below it only. *)
Lemma depth_loop_below b s s' :
  (∀ q, q < b → parent <$> heap s' !! q = parent <$> heap s !! q) →
  ∀ l, chain_ok s l → l < b → ∀ k, depth_loop k s' l = depth_loop k s l.
Proof.
  intros Hag. induction 1 as [l n Hl Hpar | l n pp Hl Hpar Hlt _ IH]; intros Hb [|k];
    try done; simpl; unfold deref; specialize (Hag l Hb); rewrite Hl in *; simpl in Hag;
    destruct (heap s' !! l) as [n'|]; simpl in Hag; try done;
    injection Hag as Hag; simpl; rewrite Hag, Hpar; [done|].
  rewrite IH by lia. done.
Qed.

Lemma depth_loop_step k s l n :
  heap s !! l = Some n →
  depth_loop (S k) s l
  = match parent n with
    | None => Done 1
    | Some p => d ← depth_loop k s p; Done (d + 1)
    end.
Proof. intros Hl. simpl. unfold deref. by rewrite Hl. Qed.

Lemma depth_bounded_registered `{Digester} e ts parent z s :
  wf s → depth_bounded s → parent_shallow s parent →
  layerMap s !! computed_chainID (resolved_parent s parent) ts = None →
  depth_bounded (registered e ts parent z s).
Proof.
  intros Hwf Hb Hpar Hnew c p Hc. rename parent into par.
  set (s1 := registered e ts par z s) in *.
  set (chain := computed_chainID (resolved_parent s par) ts) in *.
  assert (Hag : ∀ q, q < next_ptr s → parent <$> heap s1 !! q = parent <$> heap s !! q).
  { intros q Hq. pose proof (registered_static e ts par z s q ltac:(lia)) as Hst.
    fold s1 in Hst.
    destruct (heap s1 !! q) as [n'|], (heap s !! q) as [n|]; simpl in *; try done.
    unfold static in Hst. by injection Hst as _ _ -> _ _. }
  assert (Hold : ∀ q d, indexed s q → depth s q = Done d →
            depth_loop (fuel s) s1 q = Done d).
  { intros q d Hq Hd. rewrite (depth_loop_below (next_ptr s) s s1 Hag); [done| |].
    - by eapply chain_ok_indexed.
    - destruct Hq as (m & Hm & _). eapply inv_ptr; eauto. }
  assert (Hlm : layerMap s1 = <[chain := next_ptr s]> (layerMap s)) by done.
  rewrite Hlm in Hc. apply lookup_insert_Some in Hc as [[<- <-]|[Hne Hc]].
  - unfold depth. change (fuel s1) with (S (fuel s)).
    assert (Hn : heap s1 !! next_ptr s
              = Some (mkRoLayer chain (digest ts) (parent_ptr s par) (reg_cacheID e) z 1
                        {[next_ref s]})).
    { unfold s1, registered. simpl. by rewrite lookup_insert_eq. }
    rewrite (depth_loop_step _ _ _ _ Hn). cbn [parent]. unfold parent_ptr.
    destruct (decide (par = "")) as [Hroot|Hnonroot].
    { exists 1. split; [done|]. unfold maxLayerDepth. lia. }
    destruct Hpar as [?|(q & np & d & Hq & Hnp & Hd & Hlt)]; [done|].
    rewrite Hq. rewrite (Hold q d); [|exists np; split; [done|]|done].
    + exists (d + 1). split; [done|]. lia.
    + destruct (inv_index _ _ Hwf _ _ Hq) as (n0 & Hn0 & Hch). congruence.
  - destruct (Hb _ _ Hc) as (d & Hd & Hle). exists d. split; [|done].
    unfold depth. change (fuel s1) with (S (fuel s)). apply depth_loop_fuel.
    apply Hold; [|done]. destruct (inv_index _ _ Hwf _ _ Hc) as (n & Hn & Hch).
    exists n. split; [done|]. by rewrite Hch.
Qed.

(** The depth bound is an invariant of the store.  From a store that
    satisfies the reference-count invariant and in which no indexed layer is
    deeper than [maxLayerDepth] (the empty store is one), every sequence of
    public calls, whatever the external calls answer, runs to completion and
    leaves a store in which no indexed layer is deeper than [maxLayerDepth]. *)
Theorem depth_bounded_kept `{Digester} cs : ∀ s,
  wf s → depth_bounded s →
  ∃ s', run cs s = Done s' ∧ wf s' ∧ depth_bounded s'.
Proof.
  induction cs as [|c cs IH]; intros s Hwf Hb; [by exists s|].
  destruct (run_call_wf c s Hwf) as (s1 & Hc & Hwf1).
  assert (Hb1 : depth_bounded s1).
  { destruct (run_call_cases c s s1 Hc) as [Hsh|(e & ts & parent & z & He & Hpar & Hnew & ->)].
    - by eapply depth_bounded_shrinks.
    - by apply depth_bounded_registered. }
  destruct (IH s1 Hwf1 Hb1) as (s' & Hrun & Hwf' & Hb').
  exists s'. simpl. rewrite Hc. simpl. by split.
Qed.

(** ** A release only removes *)

Lemma deleteLayer_removes e l s r s' :
  deleteLayer e l s = Done (r, s') →
  (∀ c x, layers (store s') !! c = Some x → layers (store s) !! c = Some x) ∧
  driver s' ⊆ driver s ∧ mountRecs (store s') = mountRecs (store s).
Proof.
  unfold deleteLayer, deref. intros Hdel.
  destruct (heap s !! l) as [n|]; [|done]. simpl in Hdel.
  assert (Hrec : ∀ c x, delete (chainID n) (layers (store s)) !! c = Some x →
            layers (store s) !! c = Some x).
  { intros c x Hc. by apply lookup_delete_Some in Hc as [_ Hc]. }
  destruct (del_rename e), (del_remove e), (del_removeAll e);
    try (injection Hdel as _ <-; simpl; split; [done|split; [set_solver|done]]).
  all: match type of Hdel with
       | context [Size ?a ?b] => destruct (Size a b); try done
       end; simpl in Hdel; injection Hdel as _ <-; simpl;
       (split; [done|split; [set_solver|done]]).
Qed.

Lemma releaseLayer_loop_removes k : ∀ e d rem l s r s',
  releaseLayer_loop k e d rem l s = Done (r, s') →
  (∀ c x, layers (store s') !! c = Some x → layers (store s) !! c = Some x) ∧
  driver s' ⊆ driver s ∧ mountRecs (store s') = mountRecs (store s).
Proof.
  induction k as [|k IH]; intros e d rem l s r s' Hrun; [done|].
  simpl in Hrun. unfold deref in Hrun.
  destruct (heap s !! l) as [n|] eqn:Hn; [|done]. simpl in Hrun.
  destruct (bool_decide (referenceCount n = 0)); [done|].
  match type of Hrun with
  | context [negb (bool_decide ?P)] => destruct (bool_decide P)
  end; simpl in Hrun.
  2: { by injection Hrun as _ <-. }
  match type of Hrun with
  | context [bool_decide ?P && bool_decide ?Q] =>
      destruct (bool_decide P && bool_decide Q)
  end; [done|].
  match type of Hrun with
  | context [hasReferences ?x] => destruct (hasReferences x)
  end; [done|].
  match type of Hrun with
  | context [deleteLayer ?a ?b ?c] =>
      set (s2 := c) in *; destruct (deleteLayer a b s2) as [[rd s3]| | |] eqn:Hdel
  end; try done.
  simpl in Hrun. destruct (deleteLayer_removes _ _ _ _ _ Hdel) as (H1 & H2 & H3).
  destruct rd as [md|err]; [|by injection Hrun as _ <-].
  destruct (parent n) as [pp|]; [|by injection Hrun as _ <-].
  destruct (IH _ _ _ _ _ _ _ Hrun) as (H4 & H5 & H6).
  split; [|split].
  - intros c x Hc. by apply H1, H4.
  - etrans; [exact H5|exact H2].
  - by rewrite H6.
Qed.

(** * The store that construction returns *)

Section constructed.
Context (rank : ChainID → nat) (ms : fileMetadataStore) (d : gset string).
Context (s : layerStore).
Hypothesis Hclosed : closed rank ms.
Hypothesis Hcnt : counted ms d (List ms).1 (List ms).2 s.

Lemma constructed_object c p :
  layerMap s !! c = Some p →
  ∃ r n, layers ms !! c = Some r ∧ heap s !! p = Some n ∧ built_from s c r p n.
Proof using Hcnt. intros Hc. by destruct (cnt_loaded _ _ _ _ _ Hcnt) as (_ & Hidx & _); eauto. Qed.

Lemma constructed_indexed c p : layerMap s !! c = Some p → indexed s p.
Proof using Hcnt.
  intros Hc. destruct (constructed_object c p Hc) as (r & n & _ & Hn & (Hch & _)).
  exists n. split; [done|]. by rewrite Hch.
Qed.

Lemma constructed_key c c' p :
  layerMap s !! c = Some p → layerMap s !! c' = Some p → c = c'.
Proof using Hcnt.
  intros Hc Hc'.
  destruct (constructed_object c p Hc) as (r & n & _ & Hn & (Hch & _)).
  destruct (constructed_object c' p Hc') as (r' & n' & _ & Hn' & (Hch' & _)).
  congruence.
Qed.

Lemma constructed_nonempty c p : layerMap s !! c = Some p → c ≠ "".
Proof using Hcnt Hclosed.
  intros Hc ->. destruct (constructed_object "" p Hc) as (r & n & Hr & _).
  pose proof (closed_nonempty _ _ Hclosed). congruence.
Qed.

(** The children of an object are the layers whose record names its chain
    ID as parent; the mounts on it are those whose record does. *)
Lemma constructed_children c p :
  layerMap s !! c = Some p →
  size (children s p) = size (child_records ms c) ∧
  size (mounted_on s p) = size (mount_records ms c).
Proof using Hcnt Hclosed.
  intros Hc. pose proof (constructed_nonempty c p Hc) as Hne.
  split; apply size_same_keys; intros k; unfold children, mounted_on, child_records,
    mount_records; split.
  - intros [q Hq]. apply map_lookup_filter_Some in Hq as [Hq Hpar]. simpl in Hpar.
    destruct (constructed_object k q Hq) as (r & n & Hr & Hn & Hb).
    exists r. apply map_lookup_filter_Some. split; [done|]. simpl.
    unfold parent_of in Hpar. rewrite Hn in Hpar. simpl in Hpar.
    destruct Hb as (_ & _ & _ & _ & _ & Hb).
    destruct (decide (rec_parent r = "")) as [Hroot|Hroot]; [congruence|].
    destruct Hb as (pp & Hpp & Hidx & _). assert (pp = p) by congruence. subst pp.
    by apply (constructed_key _ _ p).
  - intros [r Hr]. apply map_lookup_filter_Some in Hr as [Hr Hpar]. simpl in Hpar.
    assert (Hin : k ∈ (List ms).1) by (apply elem_of_keys; by eexists).
    destruct (cnt_ids _ _ _ _ _ Hcnt k Hin) as [q Hq]. exists q.
    apply map_lookup_filter_Some. split; [done|]. simpl.
    destruct (constructed_object k q Hq) as (r' & n & Hr' & Hn & Hb).
    assert (r' = r) by congruence. subst r'.
    unfold parent_of. rewrite Hn. simpl.
    destruct Hb as (_ & _ & _ & _ & _ & Hb). rewrite decide_False in Hb by congruence.
    destruct Hb as (pp & Hpp & Hidx & _). rewrite Hpar in Hidx. congruence.
  - intros [m Hm]. apply map_lookup_filter_Some in Hm as [Hm Hpar]. simpl in Hpar.
    destruct (cnt_mounts _ _ _ _ _ Hcnt _ _ Hm) as (_ & r & Hr & Hb).
    exists r. apply map_lookup_filter_Some. split; [done|]. simpl.
    destruct Hb as (_ & _ & _ & _ & Hb).
    destruct (decide (rec_mountParent r = "")) as [Hroot|Hroot]; [congruence|].
    destruct Hb as (pp & Hpp & Hidx). assert (pp = p) by congruence. subst pp.
    by apply (constructed_key _ _ p).
  - intros [r Hr]. apply map_lookup_filter_Some in Hr as [Hr Hpar]. simpl in Hpar.
    assert (Hin : k ∈ (List ms).2) by (apply elem_of_keys; by eexists).
    destruct (cnt_mnts _ _ _ _ _ Hcnt k Hin) as [m Hm]. exists m.
    apply map_lookup_filter_Some. split; [done|]. simpl.
    destruct (cnt_mounts _ _ _ _ _ Hcnt _ _ Hm) as (_ & r' & Hr' & Hb).
    assert (r' = r) by congruence. subst r'.
    destruct Hb as (_ & _ & _ & _ & Hb). rewrite decide_False in Hb by congruence.
    destruct Hb as (pp & Hpp & Hidx). rewrite Hpar in Hidx. congruence.
Qed.

Lemma constructed_count c p n :
  layerMap s !! c = Some p → heap s !! p = Some n →
  referenceCount n = size (children s p) + size (mounted_on s p) ∧ references n = ∅.
Proof using Hcnt Hclosed.
  intros Hc Hn. destruct (constructed_children c p Hc) as [-> ->].
  rewrite (cnt_count _ _ _ _ _ Hcnt _ _ _ Hc Hn).
  unfold List. simpl. rewrite child_records_length, mount_records_length.
  split; [done|].
  destruct (constructed_object c p Hc) as (r & n' & _ & Hn' & Hb).
  assert (n' = n) by congruence. subst n'. by destruct Hb as (_ & _ & _ & _ & ? & _).
Qed.

Lemma constructed_wf : wf s.
Proof using Hcnt Hclosed.
  pose proof (cnt_loaded _ _ _ _ _ Hcnt) as (Hst & Hidx & Hptr & Hobj).
  split.
  - intros c p Hc. destruct (Hidx _ _ Hc) as (r & n & _ & Hn & (Hch & _)). eauto.
  - intros c p n pp Hc Hn Hpar. destruct (Hidx _ _ Hc) as (r & n' & _ & Hn' & Hb).
    assert (n' = n) by congruence. subst n'.
    destruct Hb as (_ & _ & _ & _ & _ & Hb).
    destruct (decide (rec_parent r = "")); [congruence|].
    destruct Hb as (pp' & Hpp & Hi & Hlt). assert (pp' = pp) by congruence. subst pp'.
    split; [done|]. by eapply constructed_indexed.
  - intros m ml pp Hm Hpar.
    destruct (cnt_mounts _ _ _ _ _ Hcnt _ _ Hm) as (_ & r & _ & (_ & _ & _ & _ & Hb)).
    destruct (decide (rec_mountParent r = "")); [congruence|].
    destruct Hb as (pp' & Hpp & Hi). assert (pp' = pp) by congruence. subst pp'.
    by eapply constructed_indexed.
  - intros c p n Hc Hn. destruct (constructed_count c p n Hc Hn) as [-> ->].
    rewrite size_empty. unfold no_credit. lia.
  - exact Hptr.
  - intros p n r Hn Hr. pose proof (Hobj _ _ Hn) as Hc.
    destruct (constructed_count _ p n Hc Hn) as [_ Hrefs]. rewrite Hrefs in Hr.
    by apply elem_of_empty in Hr.
  - intros m ml r Hm Hr.
    destruct (cnt_mounts _ _ _ _ _ Hcnt _ _ Hm) as (_ & r' & _ & (_ & _ & _ & Hrefs & _)).
    rewrite Hrefs in Hr. by apply elem_of_empty in Hr.
Qed.

Lemma constructed_recorded : recorded s.
Proof using Hcnt Hclosed.
  intros c p n Hc Hn. pose proof (cnt_loaded _ _ _ _ _ Hcnt) as (Hst & _).
  destruct (constructed_object c p Hc) as (r & n' & Hr & Hn' & Hb).
  assert (n' = n) by congruence. subst n'. rewrite Hst, Hr. f_equal.
  destruct Hb as (Hch & Hd & Hca & Hz & _ & Hb).
  destruct r as [rd rz rc rp]. unfold record_of. simpl in *. rewrite Hd, Hz, Hca. f_equal.
  destruct (decide (rp = "")) as [->|Hne].
  - by rewrite Hb.
  - destruct Hb as (pp & -> & Hpp & _). simpl.
    destruct (constructed_object rp pp Hpp) as (r' & m & _ & Hm & (Hchm & _)).
    unfold chain_of. by rewrite Hm.
Qed.
End constructed.

(** Construction establishes the invariants of the store.  From a
    metadata store whose parent links are closed, [newStoreFromGraphDriver]
    returns a store that satisfies the reference-count invariant: every
    count is exactly the number of indexed children plus the number of mounts
    on the layer, no handle is held, and every indexed layer has its record.
    So every sequence of public calls on the new store, whatever the external
    calls answer, runs to completion without panic. *)
Theorem newStore_invariant `{Digester} rank ms d :
  closed rank ms →
  ∃ s, newStoreFromGraphDriver newStore_ok ms d = Done (Ok s) ∧
    wf s ∧ recorded s ∧
    (∀ c p n, layerMap s !! c = Some p → heap s !! p = Some n →
       referenceCount n = size (children s p) + size (mounted_on s p) ∧
       references n = ∅) ∧
    (∀ name m, mounts s !! name = Some m → mreferences m = ∅ ∧ mname m = name) ∧
    ∀ cs, ∃ s', run cs s = Done s' ∧ wf s' ∧ recorded s'.
Proof.
  intros Hclosed. destruct (newStore_counted rank ms d Hclosed) as (s & Hs & Hcnt).
  exists s. split; [done|].
  pose proof (constructed_wf rank ms d s Hclosed Hcnt) as Hwf.
  pose proof (constructed_recorded rank ms d s Hclosed Hcnt) as Hrec.
  split; [done|]. split; [done|]. split.
  { intros c p n. by apply (constructed_count rank ms d s Hclosed Hcnt). }
  split.
  { intros name m Hm.
    destruct (cnt_mounts _ _ _ _ _ Hcnt _ _ Hm) as (_ & r & _ & (Hn & _ & _ & Hrefs & _)).
    done. }
  intros cs. apply (run_keeps recorded); try done.
  - apply recorded_shrinks.
  - intros e ts parent z s0 Hwf0 Hrec0 Hpar Hnew. by apply recorded_registered.
Qed.

(** * Metadata with missing or cyclic parent links *)

(** A load that fails changes nothing. *)
Lemma loadLayer_Err k : ∀ c s err s',
  loadLayer k c s = Done (Err err, s') → s' = s ∧ layerMap s !! c = None.
Proof.
  induction k as [|k IH]; intros c s err s' Hload; simpl in Hload.
  - destruct (layerMap s !! c); [done|].
    destruct (layers (store s) !! c) as [r|]; [|by injection Hload as _ <-].
    by destruct (decide (rec_parent r = "")).
  - destruct (layerMap s !! c); [done|].
    destruct (layers (store s) !! c) as [r|]; [|by injection Hload as _ <-].
    destruct (decide (rec_parent r = "")); [done|].
    destruct (loadLayer k (rec_parent r) s) as [[[p|err'] s1]| | |] eqn:Hpar; try done.
    simpl in Hload. injection Hload as <- <-.
    by destruct (IH _ _ _ _ Hpar) as [-> _].
Qed.

(** Loading a layer whose parent chain runs into a cycle never returns:
    whatever the recursion budget, the recursion exhausts it. *)
Lemma loadLayer_cyclic C s :
  cyclic (store s) C → (∀ c, C c → layerMap s !! c = None) →
  ∀ k c, C c → loadLayer k c s = Diverge.
Proof.
  intros Hcyc Hnone. induction k as [|k IH]; intros c Hc;
    destruct (Hcyc c Hc) as (r & Hr & Hne & Hpar); simpl;
    rewrite (Hnone c Hc), Hr, decide_False by done; [done|].
  by rewrite (IH _ Hpar).
Qed.

Section skipping.
Context (rank : ChainID → nat) (ms : fileMetadataStore).
Hypothesis Hacyclic : acyclic rank ms.

Lemma upto_size c : size (upto rank ms c) ≤ size (layers ms).
Proof. apply map_subseteq_size, map_filter_subseteq. Qed.

Lemma upto_pos c r : layers ms !! c = Some r → 0 < size (upto rank ms c).
Proof.
  intros Hr. assert (upto rank ms c !! c = Some r) as Hin.
  { apply map_lookup_filter_Some. split; [done|]. simpl. lia. }
  destruct (size (upto rank ms c)) eqn:E; [|lia].
  apply map_size_empty_iff in E. rewrite E in Hin. by rewrite lookup_empty in Hin.
Qed.

Lemma upto_parent c r :
  layers ms !! c = Some r → rec_parent r ≠ "" →
  size (upto rank ms (rec_parent r)) < size (upto rank ms c).
Proof using Hacyclic.
  intros Hc Hne. pose proof (Hacyclic c r Hc Hne) as Hlt.
  apply map_subset_size. split.
  - apply map_filter_strong_subseteq_ext. intros k x [Hk Hx]. simpl in *.
    split; [lia|done].
  - intros Hsub.
    assert (upto rank ms c !! c = Some r) as Hin.
    { apply map_lookup_filter_Some. split; [done|]. simpl. lia. }
    eapply lookup_weaken in Hin; [|exact Hsub].
    apply map_lookup_filter_Some in Hin as [_ Hin]. simpl in Hin. lia.
Qed.

(** [loadLayer] on acyclic metadata returns: with the layer loaded, or
    with an error and the store unchanged when the layer cannot be loaded. *)
Lemma loadLayer_acyclic k : ∀ c s,
  loaded ms s → (is_Some (layers ms !! c) → size (upto rank ms c) ≤ k) →
  (∃ p s', loadLayer k c s = Done (Ok p, s') ∧ loaded ms s' ∧
     layerMap s' !! c = Some p ∧ grows rank c s s') ∨
  (∃ err, loadLayer k c s = Done (Err err, s) ∧ ¬ loadable ms c).
Proof using Hacyclic.
  induction k as [|k IH]; intros c s Hld Hk.
  - simpl. destruct (layerMap s !! c) as [p|] eqn:Hc.
    { left. exists p, s. split; [done|]. split; [done|]. split; [done|]. apply grows_refl. }
    pose proof Hld as (Hst & _). rewrite Hst.
    destruct (layers ms !! c) as [r|] eqn:Hr.
    2: { right. eexists. split; [done|]. inversion 1; congruence. }
    pose proof (upto_pos c r Hr). specialize (Hk ltac:(eauto)). lia.
  - simpl. destruct (layerMap s !! c) as [p|] eqn:Hc.
    { left. exists p, s. split; [done|]. split; [done|]. split; [done|]. apply grows_refl. }
    pose proof Hld as (Hst & _). rewrite Hst.
    destruct (layers ms !! c) as [r|] eqn:Hr.
    2: { right. eexists. split; [done|]. inversion 1; congruence. }
    specialize (Hk ltac:(eauto)).
    destruct (decide (rec_parent r = "")) as [Hroot|Hroot].
    + destruct (publish_loaded rank ms c r None s Hld Hc Hr) as (H1 & H2 & H3).
      { by rewrite decide_True. }
      left. eauto 10.
    + pose proof (upto_parent c r Hr Hroot) as Hup.
      pose proof (Hacyclic c r Hr Hroot) as Hrank.
      destruct (IH (rec_parent r) s Hld ltac:(intros; lia))
        as [(pp & s1 & -> & Hld1 & Hpp & Hg1)|(err & -> & Hnot)].
      * simpl.
        assert (Hc1 : layerMap s1 !! c = None).
        { destruct (layerMap s1 !! c) as [p'|] eqn:E; [|done].
          destruct Hg1 as (_ & _ & _ & _ & _ & _ & Hnew).
          destruct Hld1 as (_ & Hidx1 & _).
          destruct (Hidx1 _ _ E) as (r' & n' & _ & Hn' & _).
          destruct (Hnew c p' n' E Hc Hn') as [_ Hle]. lia. }
        destruct (publish_loaded rank ms c r (Some pp) s1 Hld1 Hc1 Hr) as (H1 & H2 & H3).
        { rewrite decide_False by done. eauto. }
        left. do 2 eexists. split; [done|]. split; [done|]. split; [done|].
        destruct Hg1 as (G1 & G2 & G3 & G4 & G5 & G6 & G7).
        destruct H3 as (K1 & K2 & K3 & K4 & K5 & K6 & K7).
        unfold grows. split_and!; try congruence; auto.
        intros c' p' n' Hc' Hnone Hn'.
        destruct (layerMap s1 !! c') as [p1|] eqn:E1.
        -- pose proof (K5 _ _ E1) as E2. assert (p1 = p') by congruence. subst p1.
           destruct Hld1 as (_ & Hidx1 & _).
           destruct (Hidx1 _ _ E1) as (r1 & n1 & _ & Hn1 & _).
           pose proof (K6 _ _ Hn1). assert (n1 = n') by congruence. subst n1.
           destruct (G7 _ _ _ E1 Hnone Hn1). split; [done|lia].
        -- by destruct (K7 _ _ _ Hc' E1 Hn').
      * simpl. right. exists err. split; [done|].
        inversion 1 as [c0 r0 Hr0 Hp0|c0 r0 Hr0 Hp0 Hl0]; subst;
          assert (r0 = r) by congruence; subst r0; done.
Qed.

(** An indexed layer has its whole parent chain on record. *)
Lemma loaded_loadable s : loaded ms s → ∀ p c, layerMap s !! c = Some p → loadable ms c.
Proof.
  intros (_ & Hidx & _) p. induction p as [p IH] using lt_wf_ind. intros c Hc.
  destruct (Hidx _ _ Hc) as (r & n & Hr & _ & (_ & _ & _ & _ & _ & Hb)).
  destruct (decide (rec_parent r = "")) as [Hroot|Hroot].
  - by eapply loadable_root.
  - destruct Hb as (pp & _ & Hpp & Hlt). eapply loadable_step; eauto.
Qed.

Lemma loaded_with_mounts m s : loaded ms s → loaded ms (with_mounts m s).
Proof. intros (? & ? & ? & ?). by split. Qed.

Lemma loadLayers_acyclic k ids : ∀ s,
  size (layers ms) ≤ k → loaded ms s →
  ∃ s', loadLayers k ids s = Done s' ∧ loaded ms s' ∧ mounts s' = mounts s ∧
    (∀ c p, layerMap s !! c = Some p → layerMap s' !! c = Some p) ∧
    (∀ c, c ∈ ids → loadable ms c → is_Some (layerMap s' !! c)).
Proof using Hacyclic.
  induction ids as [|id rest IH]; intros s Hk Hld.
  { exists s. split; [done|]. split; [done|]. split; [done|]. split; [done|].
    by intros c Hc%elem_of_nil. }
  assert (Hstep : ∃ s2, loaded ms s2 ∧ mounts s2 = mounts s ∧
            (∀ c p, layerMap s !! c = Some p → layerMap s2 !! c = Some p) ∧
            (loadable ms id → is_Some (layerMap s2 !! id)) ∧
            loadLayers k (id :: rest) s = loadLayers k rest s2).
  { destruct (loadLayer_acyclic k id s Hld)
      as [(p & s1 & Hload & Hld1 & Hp & Hg)|(err & Hload & Hnot)].
    { intros _. pose proof (upto_size id). lia. }
    - pose proof Hg as (_ & Hmn & _ & _ & Hgrow & _).
      pose proof Hld1 as (_ & Hidx1 & _).
      destruct (Hidx1 _ _ Hp) as (r & n & Hr & Hn & (_ & _ & _ & _ & _ & Hb)).
      simpl. rewrite Hload. simpl. rewrite (deref_Some _ _ _ Hn). simpl.
      destruct (decide (rec_parent r = "")) as [Hroot|Hroot].
      + rewrite Hb. exists s1. split; [done|]. split; [done|]. split; [done|].
        split; [by eexists|done].
      + destruct Hb as (pp & -> & Hpp & _).
        destruct (Hidx1 _ _ Hpp) as (rp & np & _ & Hnp & _).
        rewrite (deref_Some _ _ _ Hnp). simpl.
        eexists. split; [by apply loaded_set_count|]. split; [done|].
        split; [exact Hgrow|]. split; [by eexists|done].
    - simpl. rewrite Hload. simpl. exists s. split; [done|]. split; [done|].
      split; [done|]. split; [done|done]. }
  destruct Hstep as (s2 & Hld2 & Hmn2 & Hgrow2 & Hid & ->).
  destruct (IH s2 Hk Hld2) as (s' & Hrun & Hld' & Hmn' & Hgrow' & Hall).
  exists s'. split; [done|]. split; [done|]. split; [congruence|]. split; [by auto|].
  intros c [->|Hc]%elem_of_cons Hl.
  - destruct (Hid Hl) as [p Hp]. eauto.
  - by apply Hall.
Qed.

Lemma loadMounts_acyclic k names : ∀ s,
  size (layers ms) ≤ k → loaded ms s → mounts_loaded ms s →
  ∃ s', loadMounts k names s = Done s' ∧ loaded ms s' ∧ mounts_loaded ms s' ∧
    (∀ c p, layerMap s !! c = Some p → layerMap s' !! c = Some p) ∧
    (∀ name, is_Some (mounts s !! name) → is_Some (mounts s' !! name)) ∧
    (∀ name, name ∈ names → mount_loadable ms name → is_Some (mounts s' !! name)).
Proof using Hacyclic.
  induction names as [|m rest IH]; intros s Hk Hld Hml.
  { exists s. split; [done|]. split; [done|]. split; [done|]. split; [done|].
    split; [done|]. by intros c Hc%elem_of_nil. }
  assert (Hstep : ∃ s2, loaded ms s2 ∧ mounts_loaded ms s2 ∧
            (∀ c p, layerMap s !! c = Some p → layerMap s2 !! c = Some p) ∧
            (∀ name, is_Some (mounts s !! name) → is_Some (mounts s2 !! name)) ∧
            (mount_loadable ms m → is_Some (mounts s2 !! m)) ∧
            loadMounts k (m :: rest) s = loadMounts k rest s2).
  { simpl. unfold loadMount. pose proof Hld as (Hst & _).
    destruct (mounts s !! m) as [ml|] eqn:Hm.
    { exists s. split; [done|]. split; [done|]. split; [done|]. split; [done|].
      split; [by eexists|done]. }
    rewrite Hst. destruct (mountRecs ms !! m) as [r|] eqn:Hr.
    2: { exists s. split; [done|]. split; [done|]. split; [done|]. split; [done|].
         split; [|done]. intros (r & Hr' & _). congruence. }
    destruct (decide (rec_mountParent r = "")) as [Hroot|Hroot].
    { simpl.
      exists (with_mounts (<[m := mkMountedLayer m (rec_mountID r) (rec_initID r) None ∅]>
                             (mounts s)) s).
      split; [by apply loaded_with_mounts|].
      split; [|split; [done|split; [|split; [|done]]]].
      - intros name ml Hl. simpl in Hl.
        apply lookup_insert_Some in Hl as [[<- <-]|[Hne Hl]]; [eauto|exact (Hml _ _ Hl)].
      - intros name Hn. simpl. destruct (decide (name = m)) as [->|Hne].
        + rewrite lookup_insert_eq. by eexists.
        + by rewrite lookup_insert_ne.
      - intros _. simpl. rewrite lookup_insert_eq. by eexists. }
    destruct (loadLayer_acyclic k (rec_mountParent r) s Hld)
      as [(p & s1 & Hload & Hld1 & Hp & Hg)|(err & Hload & Hnot)].
    { intros _. pose proof (upto_size (rec_mountParent r)). lia. }
    - pose proof Hg as (_ & Hmn & _ & _ & Hgrow & _).
      pose proof Hld1 as (_ & Hidx1 & _).
      destruct (Hidx1 _ _ Hp) as (rp & np & _ & Hnp & _).
      rewrite Hload. simpl. rewrite (deref_Some _ _ _ Hnp). simpl.
      set (s2 := set_node p (set_referenceCount (S (referenceCount np)) np) s1).
      exists (with_mounts (<[m := mkMountedLayer m (rec_mountID r) (rec_initID r) (Some p) ∅]>
                             (mounts s1)) s2).
      split; [by apply loaded_with_mounts, loaded_set_count|].
      split; [|split; [exact Hgrow|split; [|split; [|done]]]].
      + intros name ml Hl. simpl in Hl.
        apply lookup_insert_Some in Hl as [[<- <-]|[Hne Hl]].
        * exists r. split; [done|]. right. simpl. by eexists.
        * rewrite Hmn in Hl. destruct (Hml _ _ Hl) as (r' & Hr' & [?|[q Hq]]).
          -- exists r'. split; [done|]. by left.
          -- exists r'. split; [done|]. right. simpl. eauto.
      + intros name Hn. simpl. rewrite Hmn. destruct (decide (name = m)) as [->|Hne].
        * rewrite lookup_insert_eq. by eexists.
        * by rewrite lookup_insert_ne.
      + intros _. simpl. rewrite lookup_insert_eq. by eexists.
    - rewrite Hload. simpl. exists s. split; [done|]. split; [done|].
      split; [done|]. split; [done|]. split; [|done].
      intros (r' & Hr' & [Hp|Hl]); assert (r' = r) by congruence; subst r'; done. }
  destruct Hstep as (s2 & Hld2 & Hml2 & Hgrow2 & Hmn2 & Hm & ->).
  destruct (IH s2 Hk Hld2 Hml2) as (s' & Hrun & Hld' & Hml' & Hgrow' & Hmn' & Hall).
  exists s'. split; [done|]. split; [done|]. split; [done|]. split; [by auto|].
  split; [by auto|].
  intros name [->|Hn]%elem_of_cons Hl; [by apply Hmn', Hm|by apply Hall].
Qed.
End skipping.

(** Construction skips what it cannot load.  On metadata without parent
    cycle [newStoreFromGraphDriver] always returns a store, whatever records
    are missing: it indexes exactly the layers whose whole parent chain is on
    record, and exactly the mounts that have a record and whose parent, if
    any, is such a layer.  A layer whose parent record is missing, and
    everything above it, is left out. *)
Theorem newStore_skips rank ms d :
  acyclic rank ms →
  ∃ s, newStoreFromGraphDriver newStore_ok ms d = Done (Ok s) ∧
    (∀ c, is_Some (layerMap s !! c) ↔ loadable ms c) ∧
    (∀ name, is_Some (mounts s !! name) ↔ mount_loadable ms name) ∧
    (∀ c r, layers ms !! c = Some r → rec_parent r ≠ "" →
       layers ms !! rec_parent r = None → layerMap s !! c = None).
Proof.
  intros Hacyclic. unfold newStoreFromGraphDriver, List. simpl.
  assert (Hld0 : loaded ms (empty_store ms d)).
  { split; [done|]. split; [|split].
    - intros c p Hc. simpl in Hc. by rewrite lookup_empty in Hc.
    - intros p [n Hn]. simpl in Hn. by rewrite lookup_empty in Hn.
    - intros p n Hn. simpl in Hn. by rewrite lookup_empty in Hn. }
  destruct (loadLayers_acyclic rank ms Hacyclic (size (layers ms))
              (map_to_list (layers ms)).*1 (empty_store ms d))
    as (s1 & -> & Hld1 & Hmn1 & _ & Hall1); [done|done|].
  simpl.
  destruct (loadMounts_acyclic rank ms Hacyclic (size (layers ms))
              (map_to_list (mountRecs ms)).*1 s1)
    as (s2 & -> & Hld2 & Hml2 & Hgrow2 & _ & Hall2); [done|done| |].
  { intros name m Hm. rewrite Hmn1 in Hm. simpl in Hm. by rewrite lookup_empty in Hm. }
  simpl. exists s2. split; [done|].
  assert (Hiff : ∀ c, is_Some (layerMap s2 !! c) ↔ loadable ms c).
  { intros c. split.
    - intros [p Hp]. by eapply loaded_loadable.
    - intros Hl. assert (Hin : c ∈ (map_to_list (layers ms)).*1).
      { apply elem_of_keys. inversion Hl; by eexists. }
      destruct (Hall1 c Hin Hl) as [p Hp]. eauto. }
  split; [exact Hiff|]. split.
  - intros name. split.
    + intros [m Hm]. destruct (Hml2 _ _ Hm) as (r & Hr & Hp). exists r.
      split; [done|]. destruct Hp as [?|Hp]; [by left|right]. by apply Hiff.
    + intros Hl. apply Hall2; [|done]. apply elem_of_keys.
      destruct Hl as (r & Hr & _). by eexists.
  - intros c r Hr Hne Hnone. destruct (layerMap s2 !! c) as [p|] eqn:Hp; [|done].
    assert (Hl : loadable ms c) by (apply Hiff; by eexists).
    inversion Hl as [c0 r0 Hr0 Hp0|c0 r0 Hr0 Hp0 Hl0]; subst;
      assert (r0 = r) by congruence; subst r0; [done|].
    inversion Hl0; congruence.
Qed.

(** A parent cycle in the metadata.  [loadLayer] on a layer whose parent
    chain runs into a cycle (or on a layer that is its own parent) never
    returns: for every recursion budget of the model the outcome is
    [Diverge]; and a [loadLayer] that fails leaves the store as it was. *)
Theorem loadLayer_bad_metadata s :
  (∀ C, cyclic (store s) C → (∀ c, C c → layerMap s !! c = None) →
     ∀ k c, C c → loadLayer k c s = Diverge) ∧
  (∀ c r, layers (store s) !! c = Some r → rec_parent r = c → c ≠ "" →
     layerMap s !! c = None → ∀ k, loadLayer k c s = Diverge) ∧
  (∀ k c err s', loadLayer k c s = Done (Err err, s') →
     s' = s ∧ layerMap s !! c = None).
Proof.
  split; [|split].
  - intros C. apply loadLayer_cyclic.
  - intros c r Hr Hself Hne Hnone k.
    apply (loadLayer_cyclic (λ c', c' = c)); [| |done].
    + intros c' ->. exists r. split; [done|]. split; [congruence|done].
    + by intros c' ->.
  - intros k c err s'. apply loadLayer_Err.
Qed.

(** ** A layer that nothing retains *)

(** [Get] followed by [Release] deletes a layer that nothing retained.
    A layer that is indexed with reference count 0 (a layer without child or
    mount, as construction leaves it) gets its only reference from [Get];
    releasing the handle that [Get] returned drops the count to zero again and
    deletes the layer: when its deletion succeeds it is out of the index, its
    record and its backing store are removed, and for a root layer the result
    is its one [Metadata] record. *)
Theorem Get_Release_unretained e c p n s :
  wf s → layerMap s !! c = Some p → heap s !! p = Some n → referenceCount n = 0 →
  e 0 = delete_ok →
  ∃ h s1 r s2,
    Get c s = Done (Ok h, s1) ∧ count_of s1 c = Some 1 ∧
    Release e h s1 = Done (r, s2) ∧
    layerMap s2 !! c = None ∧ layers (store s2) !! c = None ∧
    cacheID n ∉ driver s2 ∧
    (parent n = None → r = Ok [metadata_of s p]).
Proof.
  intros Hwf Hp Hn Hzero He.
  destruct (inv_index _ _ Hwf _ _ Hp) as (n0 & Hn0 & Hch).
  assert (n0 = n) by congruence. subst n0.
  pose proof (inv_count _ _ Hwf _ _ _ Hp Hn) as Hcount. unfold no_credit in Hcount.
  assert (Hrefs : references n = ∅).
  { apply leibniz_equiv, size_empty_inv. lia. }
  set (h := mkLayer (next_ref s) (chainID n)).
  set (s1 := with_next_ref (S (next_ref s)) (set_node p (reused (next_ref s) n) s)).
  assert (Hget : Get c s = Done (Ok h, s1)) by (by apply Get_retains).
  assert (Hwf1 : wf s1).
  { destruct (Get_wf c s Hwf) as (r' & s' & Hg & Hw). rewrite Hget in Hg.
    by injection Hg as _ <-. }
  exists h, s1.
  destruct (Release_wf e h s1 Hwf1) as (r & s2 & Hrel & _). exists r, s2.
  split; [done|].
  assert (Hl1 : heap s1 !! p = Some (reused (next_ref s) n)).
  { unfold s1. simpl. by rewrite lookup_insert_eq. }
  split.
  { unfold count_of. change (layerMap s1) with (layerMap s). rewrite Hp. simpl.
    rewrite lookup_insert_eq. simpl. by rewrite Hzero. }
  split; [done|].
  rewrite (Release_held e h s1 p (reused (next_ref s) n)) in Hrel;
    [|by rewrite <- Hch in Hp|done|simpl; set_solver].
  set (n1 := deleteReference (reused (next_ref s) n) h) in *.
  set (s1' := set_node p n1 s1) in *.
  assert (Hst : same_static s s1').
  { eapply same_static_trans; [|by apply (same_static_set_node s1 p (reused (next_ref s) n))].
    eapply same_static_trans; [by apply (same_static_set_node s p n (reused (next_ref s) n))|].
    by split. }
  assert (Hl1' : heap s1' !! p = Some n1).
  { unfold s1'. simpl. by rewrite lookup_insert_eq. }
  unfold releaseLayer in Hrel. change (fuel s1') with (S (next_ptr s)) in Hrel.
  rewrite (releaseLayer_loop_drop _ e 0 [] p s1' n1) in Hrel;
    [|done|unfold n1; simpl; lia|unfold n1; simpl; set_solver|by left|done| |].
  2: { eapply chain_ok_static; [exact Hst|]. eapply chain_ok_indexed; [exact Hwf|].
       exists n. split; [done|]. by rewrite Hch. }
  2: { change (next_ptr s1') with (next_ptr s). eapply inv_ptr; eauto. }
  rewrite (metadata_of_static s s1' p Hst) in Hrel. rewrite app_nil_l in Hrel.
  assert (Hgone : layerMap (dropped p n1 s1') !! c = None ∧
                  layers (store (dropped p n1 s1')) !! c = None ∧
                  cacheID n ∉ driver (dropped p n1 s1')).
  { unfold dropped. simpl. rewrite Hch, !lookup_delete_eq. split; [done|].
    split; [done|]. set_solver. }
  destruct Hgone as (G1 & G2 & G3).
  change (parent n1) with (parent n) in Hrel.
  destruct (parent n) as [pp|].
  - destruct (releaseLayer_loop_shrinks _ _ _ _ _ _ _ _ Hrel) as [_ Hidx].
    destruct (releaseLayer_loop_removes _ _ _ _ _ _ _ _ Hrel) as (Hrec & Hdrv & _).
    split; [|split; [|split; [|done]]].
    + destruct (layerMap s2 !! c) as [q|] eqn:E; [|done].
      destruct (Hidx _ _ E) as [E' _]. congruence.
    + destruct (layers (store s2) !! c) as [x|] eqn:E; [|done].
      pose proof (Hrec _ _ E). congruence.
    + intros Hin. apply G3. by apply Hdrv.
  - injection Hrel as <- <-. by split_and!.
Qed.

(** * The gcplogs driver: options, project and instance, dropped logs *)

Lemma ValidateLogOpts_None quote keys :
  gcplogs.ValidateLogOpts quote keys = None ↔ ∀ k, k ∈ keys → k ∈ gcplogs.options.
Proof.
  induction keys as [|k rest IH]; simpl.
  - split; [intros _ k Hk; by apply elem_of_nil in Hk | done].
  - unfold gcplogs.valid_option. case_bool_decide as Hk.
    + rewrite IH. split.
      * intros H k' [->|Hk']%elem_of_cons; [done | by apply H].
      * intros H k' Hk'. apply H. by apply list_elem_of_further.
    + split; [done|]. intros H. exfalso. apply Hk, H, list_elem_of_here.
Qed.

Lemma ValidateLogOpts_Some quote keys msg :
  gcplogs.ValidateLogOpts quote keys = Some msg →
  ∃ k, k ∈ keys ∧ k ∉ gcplogs.options ∧
       msg = quote k ++ " is not a valid option for the gcplogs driver".
Proof.
  induction keys as [|k rest IH]; simpl; [done|].
  unfold gcplogs.valid_option. case_bool_decide as Hk.
  - intros (k' & Hk' & Hr)%IH. exists k'. split; [by apply list_elem_of_further | done].
  - intros [= <-]. exists k. split; [apply list_elem_of_here | done].
Qed.

Lemma range_of_elem cfg keys k :
  gcplogs.range_of cfg keys → k ∈ keys ↔ is_Some (cfg !! k).
Proof.
  intros Hr. rewrite Hr. rewrite list_elem_of_fmap. split.
  - intros ([k' v] & -> & Hkv). apply elem_of_map_to_list in Hkv. by exists v.
  - intros [v Hv]. exists (k, v). split; [done | by apply elem_of_map_to_list].
Qed.

(** [ValidateLogOpts] accepts a configuration exactly when each of its keys
    is one of the nine options of the driver, whatever the values and
    whatever the order in which the map is ranged over; a rejection names,
    quoted, a key of the configuration that is not an option. *)
Theorem ValidateLogOpts_accepts quote cfg keys :
  gcplogs.range_of cfg keys →
  (gcplogs.ValidateLogOpts quote keys = None ↔
     ∀ k, is_Some (cfg !! k) → k ∈ gcplogs.options) ∧
  (∀ msg, gcplogs.ValidateLogOpts quote keys = Some msg →
     ∃ k, is_Some (cfg !! k) ∧ k ∉ gcplogs.options ∧
          msg = quote k ++ " is not a valid option for the gcplogs driver").
Proof.
  intros Hr. split.
  - rewrite ValidateLogOpts_None. split.
    + intros H k Hk. apply H. by apply (range_of_elem cfg).
    + intros H k Hk. apply H. by apply (range_of_elem cfg keys).
  - intros msg (k & Hk & Hn & ->)%ValidateLogOpts_Some. exists k.
    split; [by apply (range_of_elem cfg keys) | done].
Qed.

Lemma initGCP_done md g : gcplogs.once_done (gcplogs.initGCP md g) = true.
Proof.
  unfold gcplogs.initGCP. destruct (gcplogs.once_done g) eqn:Hd; [done|].
  by destruct (gcplogs.md_OnGCE md).
Qed.

Lemma initGCP_once md md' g :
  gcplogs.initGCP md' (gcplogs.initGCP md g) = gcplogs.initGCP md g.
Proof.
  unfold gcplogs.initGCP at 1. by rewrite initGCP_done.
Qed.

Lemma New_globals md e info g :
  snd (gcplogs.New md e info g) = gcplogs.initGCP md g.
Proof.
  unfold gcplogs.New. cbv zeta.
  destruct (decide _); [done|].
  destruct (gcplogs.ne_NewClient e); [done|].
  destruct (gcplogs.ne_Ping e); [done|].
  by destruct (gcplogs.ne_ExtraAttributes e).
Qed.

Lemma New_initialised md e info g :
  gcplogs.once_done g = true →
  gcplogs.New md e info g =
  gcplogs.New (gcplogs.mkMetadataServer false "" "" "" "") e info g.
Proof.
  intros Hd. unfold gcplogs.New, gcplogs.initGCP. by rewrite Hd.
Qed.

(** The metadata server is asked once per process.  After a first [New],
    which may have failed, the package variables are set for good: a later
    [New] leaves them as they are, and its result does not depend on what
    the metadata server would answer then. *)
Theorem New_metadata_once md e info g md1 md2 e' info' :
  let g1 := snd (gcplogs.New md e info g) in
  snd (gcplogs.New md1 e' info' g1) = g1 ∧
  gcplogs.New md1 e' info' g1 = gcplogs.New md2 e' info' g1 ∧
  gcplogs.droppedLogs g1 = gcplogs.droppedLogs g.
Proof.
  intros g1. unfold g1. rewrite !New_globals. split; [apply initGCP_once|]. split.
  - rewrite (New_initialised md1), (New_initialised md2); [done| |]; apply initGCP_done.
  - unfold gcplogs.initGCP. destruct (gcplogs.once_done g); [done|].
    by destruct (gcplogs.md_OnGCE md).
Qed.

(** The [gcp-project] option overrides the project of the metadata server:
    a logger made with the option logs to the project of the option, and an
    option that is present and empty makes [New] fail for want of a
    project, also on an instance whose metadata name one. *)
Theorem New_project_option md e info g p :
  gcplogs.Config info !! gcplogs.projectOptKey = Some p →
  (p = "" → fst (gcplogs.New md e info g) = inl gcplogs.no_project) ∧
  (∀ l, fst (gcplogs.New md e info g) = inr l → gcplogs.client_project l = p ∧ p ≠ "").
Proof.
  intros Hp. unfold gcplogs.New, gcplogs.resolve_project. cbv zeta. rewrite Hp.
  split.
  - intros ->. by rewrite decide_True.
  - intros l. destruct (decide (p = "")); [done|].
    destruct (gcplogs.ne_NewClient e); [done|].
    destruct (gcplogs.ne_Ping e); [done|].
    destruct (gcplogs.ne_ExtraAttributes e); [done|].
    simpl. by intros [= <-].
Qed.

(** Off Compute Engine and without the [gcp-project] option there is no
    project: when the first [New] of a process finds that it does not run
    on Compute Engine, that [New] and every later one without the option
    fail, whatever the metadata server answers later and before any client
    is made. *)
Theorem New_off_GCE md e info md' e' info' :
  gcplogs.md_OnGCE md = false →
  gcplogs.Config info' !! gcplogs.projectOptKey = None →
  fst (gcplogs.New md' e' info' (snd (gcplogs.New md e info gcplogs.globals0)))
  = inl gcplogs.no_project ∧
  (gcplogs.Config info !! gcplogs.projectOptKey = None →
   fst (gcplogs.New md e info gcplogs.globals0) = inl gcplogs.no_project).
Proof.
  intros Hoff Hp.
  assert (Hproj : gcplogs.projectID (gcplogs.initGCP md gcplogs.globals0) = "").
  { unfold gcplogs.initGCP. simpl. by rewrite Hoff. }
  rewrite New_globals. split.
  - unfold gcplogs.New. cbv zeta. rewrite initGCP_once.
    unfold gcplogs.resolve_project. rewrite Hp, Hproj. done.
  - intros Hp'. unfold gcplogs.New. cbv zeta.
    unfold gcplogs.resolve_project. rewrite Hp', Hproj. done.
Qed.

(** The instance of a logger.  On Compute Engine it is the one of the
    metadata server and the [gcp-meta-*] options are ignored; elsewhere it
    is made of the three options, and there is none exactly when all three
    are empty or absent.  The logger carries a [gce_instance] resource
    exactly when the entries carry an instance, with the same id and zone. *)
Theorem New_instance md e info g l :
  fst (gcplogs.New md e info g) = inr l →
  let g1 := snd (gcplogs.New md e info g) in
  let cfg := gcplogs.Config info in
  (gcplogs.onGCE g1 = true →
   gcplogs.instance l = Some (gcplogs.mkInstanceInfo (gcplogs.zone g1)
                                (gcplogs.instanceName g1) (gcplogs.instanceID g1))) ∧
  (gcplogs.onGCE g1 = false →
   (gcplogs.instance l = None ↔
      gcplogs.index cfg gcplogs.logZoneKey = "" ∧
      gcplogs.index cfg gcplogs.logNameKey = "" ∧
      gcplogs.index cfg gcplogs.logIDKey = "") ∧
   ∀ i, gcplogs.instance l = Some i →
        i = gcplogs.mkInstanceInfo (gcplogs.index cfg gcplogs.logZoneKey)
              (gcplogs.index cfg gcplogs.logNameKey) (gcplogs.index cfg gcplogs.logIDKey)) ∧
  gcplogs.commonResource (gcplogs.logger l) =
    (λ i, gcplogs.mkMonitoredResource "gce_instance"
            {[ "instance_id" := gcplogs.ID i; "zone" := gcplogs.Zone i ]})
    <$> gcplogs.instance l.
Proof.
  intros Hl g1 cfg. unfold g1. rewrite New_globals.
  revert Hl. unfold gcplogs.New. cbv zeta.
  destruct (decide _); [done|].
  destruct (gcplogs.ne_NewClient e); [done|].
  destruct (gcplogs.ne_Ping e); [done|].
  destruct (gcplogs.ne_ExtraAttributes e); [done|].
  simpl. intros [= <-]. simpl.
  unfold gcplogs.instance_resource.
  destruct (gcplogs.onGCE (gcplogs.initGCP md g)) eqn:Hon.
  - split; [done|]. split; [done|]. done.
  - split; [done|]. fold cfg. case_bool_decide as Hc.
    + split; [|done]. intros _. split; [|by intros i [= <-]]. split; [done|].
      intros (H1 & H2 & H3). destruct Hc as [?|[?|?]]; done.
    + split; [|done]. intros _. split; [|done]. split; [|done]. intros _.
      split_and!.
      * destruct (decide (gcplogs.index cfg gcplogs.logZoneKey = "")); [done|].
        exfalso. apply Hc. by left.
      * destruct (decide (gcplogs.index cfg gcplogs.logNameKey = "")); [done|].
        exfalso. apply Hc. right. by left.
      * destruct (decide (gcplogs.index cfg gcplogs.logIDKey = "")); [done|].
        exfalso. apply Hc. right. by right.
Qed.

Lemma OnError_overflow err g :
  (0 ≤ gcplogs.droppedLogs g)%Z → (gcplogs.droppedLogs g + 1 < 2 ^ 64)%Z →
  let i := (gcplogs.droppedLogs g + 1)%Z in
  gcplogs.droppedLogs (snd (gcplogs.OnError true err g)) = i ∧
  fst (gcplogs.OnError true err g) =
    (if decide (i mod 1000 = 1)%Z then Some (gcplogs.Dropped i) else None).
Proof.
  intros H0 H1 i. unfold gcplogs.OnError. cbv zeta.
  rewrite (Z.mod_small (gcplogs.droppedLogs g + 1)) by lia. done.
Qed.

Lemma logged_count_step (m : Z) :
  (0 ≤ m)%Z →
  ((m + 1 + 999) / 1000 - (m + 999) / 1000 =
   if decide ((m + 1) mod 1000 = 1) then 1 else 0)%Z.
Proof.
  intros Hm. destruct (decide _) as [H|H]; Z.div_mod_to_equations; lia.
Qed.

(** Dropped logs are reported the first time and then every 1000th time:
    of [n] overflow errors in a row starting with the counter at [c], the
    handler logs those whose number, counted from the start of the
    process, is 1 more than a multiple of 1000, each with that number and
    in order, and stays silent for the others; the counter ends at
    [c + n].  (Below the wrap-around of the 64-bit counter.) *)
Theorem overflows_logged n g :
  (0 ≤ gcplogs.droppedLogs g)%Z →
  (gcplogs.droppedLogs g + Z.of_nat n < 2 ^ 64)%Z →
  let c := gcplogs.droppedLogs g in
  fst (gcplogs.overflows n g) =
    gcplogs.Dropped <$> filter (λ i, i mod 1000 = 1)%Z (seqZ (c + 1) (Z.of_nat n)) ∧
  gcplogs.droppedLogs (snd (gcplogs.overflows n g)) = (c + Z.of_nat n)%Z ∧
  Z.of_nat (length (fst (gcplogs.overflows n g))) =
    ((c + Z.of_nat n + 999) / 1000 - (c + 999) / 1000)%Z.
Proof.
  revert g. induction n as [|n IH]; intros g H0 Hn c.
  - simpl. rewrite Z.add_0_r, Z.sub_diag. done.
  - cbn [gcplogs.overflows].
    destruct (OnError_overflow "" g H0 ltac:(lia)) as [Hc Hl].
    destruct (gcplogs.OnError true "" g) as [l g1] eqn:Hg1. simpl in Hc, Hl.
    destruct (IH g1 ltac:(lia) ltac:(lia)) as (IH1 & IH2 & IH3).
    destruct (gcplogs.overflows n g1) as [ls g2] eqn:Hg2. simpl in IH1, IH2, IH3.
    cbn [fst snd]. rewrite Hc in IH1, IH2, IH3. fold c in IH1, IH2, IH3, Hl.
    replace (Z.of_nat (S n)) with (Z.succ (Z.of_nat n)) by lia.
    rewrite seqZ_cons by lia. rewrite Z.pred_succ, filter_cons.
    replace (Z.succ (c + 1)) with (c + 1 + 1)%Z by lia.
    pose proof (logged_count_step c H0) as Hstep. fold c in Hstep.
    split; [|split; [lia|]].
    + rewrite Hl. destruct (decide _); [rewrite fmap_cons|]; by rewrite IH1.
    + replace (c + Z.succ (Z.of_nat n) + 999)%Z with (c + 1 + Z.of_nat n + 999)%Z by lia.
      rewrite Hl. destruct (decide ((c + 1) mod 1000 = 1)%Z); simpl length; lia.
Qed.

(** * Errors of a pull: fallback, retry and translation *)

(** Induction on an error that goes into the first error of a list, as
    the three functions do. *)
Section error_first_ind.
Import distribution.
Context (Q : error → Prop).
Hypothesis Hnil : Q nil.
Hypothesis Hempty : Q (Errors []).
Hypothesis Hfirst : ∀ e0 v, Q e0 → Q (Errors (e0 :: v)).
Hypothesis HError : ∀ c m, Q (Error c m).
Hypothesis HDoNotRetry : ∀ e, Q e → Q (DoNotRetry e).
Hypothesis HurlError : ∀ e, Q e → Q (urlError e).
Hypothesis HUnexpected : Q UnexpectedHTTPResponseError.
Hypothesis HimageConfig : ∀ e, Q (imageConfigPullError e).
Hypothesis Hunsupported : ∀ mt, Q (unsupportedMediaTypeError mt).
Hypothesis HnotFound : ∀ c m r, Q (notFoundError c m r).
Hypothesis HUnknown : ∀ e, Q (Unknown e).
Hypothesis Hother : ∀ n, Q (other n).

Lemma error_first_ind (e : error) : Q e.
Proof using All.
  revert e. fix IH 1. intros [ |[|e0 v]|c m|e'|e'| |e'|mt|c m r|e'|n].
  - exact Hnil.
  - exact Hempty.
  - exact (Hfirst e0 v (IH e0)).
  - exact (HError c m).
  - exact (HDoNotRetry e' (IH e')).
  - exact (HurlError e' (IH e')).
  - exact HUnexpected.
  - exact (HimageConfig e').
  - exact (Hunsupported mt).
  - exact (HnotFound c m r).
  - exact (HUnknown e').
  - exact (Hother n).
Qed.
End error_first_ind.

(** Fallback is monotone in the kind of endpoint: an error after which a
    pull from the canonical registry goes on to the next endpoint also
    makes a pull from a mirror go on to the next endpoint. *)
Theorem continueOnError_mirror P e :
  distribution.continueOnError P e false = true →
  distribution.continueOnError P e true = true.
Proof.
  induction e using error_first_ind; simpl;
    destruct (distribution.is_context_done P _); try done.
Qed.

(** [retryOnError] returns the error at hand, bare or wrapped in
    [DoNotRetry] and in nothing else, where the error at hand is the one
    given or, for a list of registry errors, its first error and, for a
    URL error, the error it wraps, and so on from there.  The other errors
    of a list and the URL wrapper are dropped. *)
Theorem retryOnError_keeps P e :
  ∃ e', distribution.leads distribution.ByUrlError e' e ∧
        (distribution.retryOnError P e = e' ∨
         distribution.retryOnError P e = distribution.DoNotRetry e').
Proof.
  induction e as [ | | e0 v IH | c m | e IH | e IH | | e | mt | c m r | e | n ] using error_first_ind; simpl.
  all: try (eexists; split; [apply distribution.leads_here|];
            repeat (match goal with |- context [if ?b then _ else _] => destruct b end);
            by eauto).
  - destruct IH as (e' & Hl & Hr). exists e'. split; [|done].
    by apply distribution.leads_first.
  - destruct (distribution.is_no_credentials P e).
    + exists e. split; [|by right].
      apply (distribution.leads_wrapped distribution.ByUrlError), distribution.leads_here.
    + destruct IH as (e' & Hl & Hr). exists e'. split; [|done].
      by apply (distribution.leads_wrapped distribution.ByUrlError).
Qed.

(** [translatePullError] answers for the error at hand: the one given or,
    for a list of registry errors, its first error and, for a
    [DoNotRetry], the error it wraps, and so on from there.  The answer is
    that error itself when the context was cancelled or timed out, a
    not-found error that keeps its code and message when it is a registry
    error with code denied, manifest unknown or name unknown, and an
    unknown error around it otherwise; it is never nil. *)
Theorem translatePullError_answers P e ref :
  let r := fst (distribution.translatePullError P e ref) in
  ∃ e', distribution.leads distribution.ByDoNotRetry e' e ∧
    ((distribution.is_context_done P e' = true ∧ r = e') ∨
     (distribution.is_context_done P e' = false ∧
      ∃ c m, e' = distribution.Error c m ∧
             c ∈ [distribution.ErrorCodeDenied; distribution.ErrorCodeManifestUnknown;
                  distribution.ErrorCodeNameUnknown] ∧
             r = distribution.notFoundError c m ref) ∨
     (distribution.is_context_done P e' = false ∧ r = distribution.Unknown e' ∧
      ∀ c m, e' = distribution.Error c m →
             c ∉ [distribution.ErrorCodeDenied; distribution.ErrorCodeManifestUnknown;
                  distribution.ErrorCodeNameUnknown])).
Proof.
  cbv zeta.
  induction e as [ | | e0 v IH | c m | e IH | e IH | | e | mt | c m r | e | n ] using error_first_ind;
    simpl; destruct (distribution.is_context_done P _) eqn:Hctx.
  all: try (eexists; split; [apply distribution.leads_here|]; by left).
  all: try (eexists; split; [apply distribution.leads_here|];
            right; right; by split_and!).
  - destruct IH as (e' & Hl & Hr). exists e'.
    split; [by apply distribution.leads_first|].
    by destruct (distribution.translatePullError P e0 ref).
  - exists (distribution.Error c m). split; [apply distribution.leads_here|].
    case_bool_decide as Hc; simpl.
    + right; left. split; [done|]. exists c, m. split; [done|]. split; [|done].
      destruct Hc as [-> | [-> | ->]]; set_solver.
    + right; right. split_and!; [done..|]. intros c' m' [= <- <-] Hin.
      apply Hc. set_solver.
  - destruct IH as (e' & Hl & Hr). exists e'. split; [|done].
    by apply (distribution.leads_wrapped distribution.ByDoNotRetry).
Qed.

(** * [Map] *)

Lemma Map_layerMap s : Map s = layerMap s.
Proof.
  unfold Map.
  apply (map_fold_weak_ind (λ (r m : gmap string ptr), r = m)); [done|].
  by intros i x m r _ ->.
Qed.

(** [Map] lists the layers that [Get] finds: a chain ID is a key of the
    map exactly when [Get] returns a handle for it, it maps to the object
    with that chain ID, and a chain ID that is no key makes [Get] fail with
    [ErrLayerDoesNotExist]. *)
Theorem Map_lists_layers c s :
  wf s →
  (is_Some (Map s !! c) ↔ ∃ h s1, Get c s = Done (Ok h, s1)) ∧
  (∀ p, Map s !! c = Some p → ∃ n, heap s !! p = Some n ∧ chainID n = c) ∧
  (Map s !! c = None ↔ Get c s = Done (Err ErrLayerDoesNotExist, s)).
Proof.
  intros Hwf. rewrite Map_layerMap. unfold Get, get, getReference, deref.
  destruct (layerMap s !! c) as [p|] eqn:Hc.
  - destruct (inv_index _ _ Hwf _ _ Hc) as (n & Hn & Hch). rewrite Hn. simpl.
    rewrite lookup_insert_eq. simpl. split; [|split].
    + split; [eauto|]. intros _. by eexists.
    + intros p' [= <-]. eauto.
    + split; [done|]. intros [=].
  - simpl. split; [|split]; [|done|done].
    split; [by intros [? ?]|]. by intros (h & s1 & [=]).
Qed.

(** * The theorems on concrete stores *)

Lemma register_ok_succeeds c : register_succeeds (register_ok c) 10.
Proof. by repeat split. Qed.

Lemma createRW_env_ok_ok : createRW_ok createRW_env_ok None.
Proof.
  unfold createRW_ok. simpl. repeat split; try reflexivity.
  exists "/mnt". split; [reflexivity|]. intros f Hf. discriminate Hf.
Qed.

Lemma store_root_usable : parent_usable store_root "a".
Proof.
  right. exists 0, (mkRoLayer "a" "a" None "c1" 10 1 {[0]}), 1.
  split; [vm_compute; reflexivity|]. split; [vm_compute; reflexivity|].
  split; [simpl; lia|]. split; [vm_compute; reflexivity|].
  unfold maxLayerDepth. lia.
Qed.

Lemma Register_new_witness :
  ∃ s1, Register (H:=toyDigester) (register_ok "c2") [Byte.x62] "a" store_root
        = Done (Ok (mkLayer 1 "a/b"), s1) ∧
    count_of s1 "a" = Some 2 ∧ count_of s1 "a/b" = Some 1.
Proof.
  destruct (Register_new (H:=toyDigester) (register_ok "c2") [Byte.x62] "a" 10 store_root)
    as (h & s1 & Hreg & _ & Hh & Hidx & Hobj & _ & _ & Hcount & _).
  - exact wf_store_root.
  - apply register_ok_succeeds.
  - right. exists 0, (mkRoLayer "a" "a" None "c1" 10 1 {[0]}), 1.
    split; [vm_compute; reflexivity|]. split; [vm_compute; reflexivity|].
    split; [vm_compute; reflexivity|]. unfold maxLayerDepth. lia.
  - vm_compute. reflexivity.
  - exists s1. rewrite Hh in Hreg. split; [exact Hreg|]. split.
    + rewrite Hcount by discriminate. vm_compute. reflexivity.
    + unfold count_of. rewrite Hidx.
      change (computed_chainID (resolved_parent store_root "a") [Byte.x62]) with "a/b".
      rewrite lookup_insert_eq. simpl.
      change (computed_chainID (resolved_parent store_root "a") [Byte.x62]) with "a/b" in Hobj.
      rewrite Hobj. reflexivity.
Defined.

Lemma Register_Release_restores_witness :
  ∃ h s1 r s2,
    Register (H:=toyDigester) (register_ok "c2") [Byte.x62] "a" store_root
    = Done (Ok h, s1) ∧
    Release all_deleted h s1 = Done (Ok [r], s2) ∧
    layerMap s2 = layerMap store_root ∧ driver s2 = driver store_root.
Proof.
  destruct (Register_Release_restores (H:=toyDigester) (register_ok "c2") all_deleted
              [Byte.x62] "a" 10 store_root)
    as (h & s1 & s2 & Hreg & Hrel & Hidx & _ & _ & _ & _ & Hdrv).
  - exact wf_store_root.
  - apply register_ok_succeeds.
  - exact store_root_usable.
  - vm_compute. reflexivity.
  - reflexivity.
  - exists h, s1. eexists. exists s2. split; [exact Hreg|]. split; [exact Hrel|].
    split; [exact Hidx|]. rewrite Hdrv. vm_compute. reflexivity.
Defined.

Lemma Get_Release_restores_witness :
  ∃ h s1, Get "a" store_root = Done (Ok h, s1) ∧ count_of s1 "a" = Some 2 ∧
    Release all_deleted h s1 = Done (Ok [], with_next_ref 2 store_root).
Proof.
  destruct (Get_Release_restores all_deleted "a" 0 (mkRoLayer "a" "a" None "c1" 10 1 {[0]})
              store_root) as (h & s1 & Hget & _ & _ & Hcount & Hrel).
  - exact wf_store_root.
  - vm_compute. reflexivity.
  - vm_compute. reflexivity.
  - simpl. lia.
  - exists h, s1. split; [exact Hget|]. split; [exact Hcount|exact Hrel].
Defined.

Lemma unknown_layer_witness :
  Get "zz" store_root = Done (Err ErrLayerDoesNotExist, store_root) ∧
  Register (H:=toyDigester) (register_ok "c2") [Byte.x62] "zz" store_root
  = Done (Err ErrLayerDoesNotExist, store_root) ∧
  CreateRWLayer createRW_env_ok "box" "zz" None store_root
  = Done (Err ErrLayerDoesNotExist, store_root).
Proof.
  destruct (unknown_layer (H:=toyDigester) "zz" store_root) as (Hget & Hreg & Hcreate).
  - vm_compute. reflexivity.
  - split; [exact Hget|]. split.
    + apply Hreg. discriminate.
    + apply Hcreate; [discriminate|]. vm_compute. reflexivity.
Defined.

Lemma CreateRWLayer_new_witness :
  ∃ s1, CreateRWLayer createRW_env_ok "box" "a" None store_root
        = Done (Ok (mkRWLayer 1 "box"), s1) ∧
    GetMountID "box" s1 = Ok "m1" ∧ count_of s1 "a" = Some 2.
Proof.
  destruct (CreateRWLayer_new createRW_env_ok "box" "a" None store_root)
    as (h & s1 & Hcreate & _ & Hh & _ & _ & Hid & _ & _ & _ & _ & Hcount & _).
  - exact wf_store_root.
  - vm_compute. reflexivity.
  - exact createRW_env_ok_ok.
  - right. exists 0, (mkRoLayer "a" "a" None "c1" 10 1 {[0]}).
    split; vm_compute; reflexivity.
  - exists s1. rewrite Hh in Hcreate. split; [exact Hcreate|]. split; [exact Hid|].
    rewrite Hcount by discriminate. vm_compute. reflexivity.
Defined.

Lemma CreateRWLayer_ReleaseRWLayer_restores_witness :
  ∃ h s1, CreateRWLayer createRW_env_ok "box" "a" None store_root = Done (Ok h, s1) ∧
    ReleaseRWLayer releaseRW_env_ok h s1 = Done (Ok [], with_next_ref 2 store_root).
Proof.
  destruct (CreateRWLayer_ReleaseRWLayer_restores createRW_env_ok releaseRW_env_ok "box" "a"
              None store_root)
    as (h & s1 & s2 & Hcreate & Hrel & _ & _ & _ & _ & _ & _ & Hsame).
  - exact wf_store_root.
  - vm_compute. reflexivity.
  - exact createRW_env_ok_ok.
  - right. exists 0, (mkRoLayer "a" "a" None "c1" 10 1 {[0]}).
    split; [vm_compute; reflexivity|]. split; [vm_compute; reflexivity|]. simpl. lia.
  - by repeat split.
  - exists h, s1. split; [exact Hcreate|]. rewrite Hrel, Hsame; [reflexivity|..].
    + vm_compute. intros Hin. discriminate Hin.
    + vm_compute. intros Hin. discriminate Hin.
    + vm_compute. reflexivity.
Defined.

Lemma GetRWLayer_ReleaseRWLayer_restores_witness :
  ∃ h s1, GetRWLayer "box" store_mounted = (Ok h, s1) ∧
    ReleaseRWLayer releaseRW_env_ok h s1
    = Done (Ok [], with_next_ref 3 store_mounted).
Proof.
  destruct (GetRWLayer_ReleaseRWLayer_restores releaseRW_env_ok "box" store_mounted)
    as [Hheld _].
  - exact wf_store_mounted.
  - destruct (Hheld (mkMountedLayer "box" "m1" "" (Some 0) {[1]}))
      as (h & s1 & Hget & _ & _ & _ & Hrel).
    + vm_compute. reflexivity.
    + reflexivity.
    + simpl. apply non_empty_singleton_L.
    + exists h, s1. split; [exact Hget|exact Hrel].
Defined.

Lemma Release_once_witness :
  ∃ r s1, Release all_deleted (mkLayer 0 "a") store_root = Done (r, s1) ∧
    Release all_deleted (mkLayer 0 "a") s1 = Done (Ok [], s1).
Proof.
  destruct (Release all_deleted (mkLayer 0 "a") store_root) as [[r s1]| | |] eqn:Hrel;
    try (vm_compute in Hrel; discriminate Hrel).
  exists r, s1. split; [reflexivity|].
  destruct (Release_once all_deleted all_deleted (mkLayer 0 "a") store_root r s1 Hrel)
    as [[Hsome _]|[_ Hagain]]; [|exact Hagain].
  exfalso. vm_compute in Hrel. injection Hrel as _ <-. vm_compute in Hsome.
  destruct Hsome as [x Hx]. discriminate Hx.
Defined.

Lemma ReleaseRWLayer_once_witness :
  ∃ r s1, ReleaseRWLayer releaseRW_env_ok (mkRWLayer 1 "box") store_mounted
          = Done (Ok r, s1) ∧
    ReleaseRWLayer releaseRW_env_ok (mkRWLayer 1 "box") s1 = Done (Ok [], s1).
Proof.
  destruct (ReleaseRWLayer releaseRW_env_ok (mkRWLayer 1 "box") store_mounted)
    as [[[r|err] s1]| | |] eqn:Hrel; try (vm_compute in Hrel; discriminate Hrel).
  exists r, s1. split; [reflexivity|].
  destruct (ReleaseRWLayer_once releaseRW_env_ok releaseRW_env_ok (mkRWLayer 1 "box")
              store_mounted r s1 Hrel) as [[Hsome _]|[_ Hagain]]; [|exact Hagain].
  exfalso. vm_compute in Hrel. injection Hrel as _ <-. vm_compute in Hsome.
  destruct Hsome as [x Hx]. discriminate Hx.
Defined.

Lemma Release_delete_fails_witness :
  ∃ s1, Release delete_remove_fails (mkLayer 0 "a") store_root
        = Done (Err (ErrOther "device busy"), s1) ∧
    Get "a" s1 = Done (Err ErrLayerDoesNotExist, s1) ∧
    driver s1 = driver store_root.
Proof.
  destruct (Release_delete_fails delete_remove_fails (mkLayer 0 "a") store_root 0
              (mkRoLayer "a" "a" None "c1" 10 1 {[0]}) (ErrOther "device busy"))
    as (s1 & Hrel & _ & Hget & Hdrv & _).
  - exact wf_store_root.
  - vm_compute. reflexivity.
  - vm_compute. reflexivity.
  - simpl. apply elem_of_singleton. reflexivity.
  - reflexivity.
  - reflexivity.
  - exists s1. split; [exact Hrel|]. split; [exact Hget|exact Hdrv].
Defined.

Lemma recorded_empty ms d : recorded (empty_store ms d).
Proof. intros c p n Hc. simpl in Hc. by rewrite lookup_empty in Hc. Qed.

Lemma depth_bounded_empty ms d : depth_bounded (empty_store ms d).
Proof. intros c p Hc. simpl in Hc. by rewrite lookup_empty in Hc. Qed.

Lemma recorded_kept_witness :
  ∃ s', run (H:=toyDigester)
          [CallRegister (register_ok "c1") [Byte.x61] ""; CallGet "a";
           CallRelease all_deleted (mkLayer 0 "a")] store0 = Done s' ∧
    recorded s'.
Proof.
  destruct (recorded_kept (H:=toyDigester)
              [CallRegister (register_ok "c1") [Byte.x61] ""; CallGet "a";
               CallRelease all_deleted (mkLayer 0 "a")] store0)
    as (s' & Hrun & _ & Hrec).
  - apply wf_empty_store.
  - apply recorded_empty.
  - exists s'. split; [exact Hrun|exact Hrec].
Defined.

Lemma depth_bounded_kept_witness :
  ∃ s', run (H:=toyDigester)
          [CallRegister (register_ok "c1") [Byte.x61] "";
           CallRegister (register_ok "c2") [Byte.x62] "a"] store0 = Done s' ∧
    depth_bounded s'.
Proof.
  destruct (depth_bounded_kept (H:=toyDigester)
              [CallRegister (register_ok "c1") [Byte.x61] "";
               CallRegister (register_ok "c2") [Byte.x62] "a"] store0)
    as (s' & Hrun & _ & Hdepth).
  - apply wf_empty_store.
  - apply depth_bounded_empty.
  - exists s'. split; [exact Hrun|exact Hdepth].
Defined.

Lemma newStore_invariant_witness :
  ∃ s, newStoreFromGraphDriver newStore_ok (store store_mounted) (driver store_mounted)
       = Done (Ok s) ∧ wf s ∧ recorded s.
Proof.
  destruct (newStore_invariant (H:=toyDigester) (address_rank store_mounted)
              (store store_mounted) (driver store_mounted))
    as (s & Hs & Hwf & Hrec & _).
  - exact (consistent_closed store_mounted consistent_store_mounted).
  - exists s. split; [exact Hs|]. split; [exact Hwf|exact Hrec].
Defined.

Lemma acyclic_orphan_metadata : acyclic String.length orphan_metadata.
Proof.
  intros c r Hc Hne. unfold orphan_metadata in Hc. simpl in Hc.
  apply lookup_insert_Some in Hc as [[<- <-]|[_ Hc]]; [done|].
  apply lookup_singleton_Some in Hc as [<- <-]. simpl. lia.
Qed.

Lemma newStore_skips_witness :
  ∃ s, newStoreFromGraphDriver newStore_ok orphan_metadata ∅ = Done (Ok s) ∧
    is_Some (layerMap s !! "a") ∧ layerMap s !! "x/y" = None.
Proof.
  destruct (newStore_skips String.length orphan_metadata ∅)
    as (s & Hs & Hlayers & _ & Horphan).
  - exact acyclic_orphan_metadata.
  - exists s. split; [exact Hs|]. split.
    + apply Hlayers. apply (loadable_root _ "a" (mkLayerRecord "a" 10 "c1" ""));
        reflexivity.
    + apply (Horphan "x/y" (mkLayerRecord "y" 10 "c2" "x")).
      * reflexivity.
      * discriminate.
      * reflexivity.
Defined.

Lemma loadLayer_bad_metadata_witness :
  loadLayer 1 "a" selfparent_store = Diverge ∧
  loadLayer 1000 "a" selfparent_store = Diverge.
Proof.
  destruct (loadLayer_bad_metadata selfparent_store) as (_ & Hself & _).
  split; apply (Hself "a" (mkLayerRecord "a" 10 "c1" "a")).
  all: first [reflexivity | discriminate].
Defined.

Lemma consistent_store_root : consistent store_root.
Proof.
  split.
  - exact wf_store_root.
  - vm_compute. reflexivity.
  - vm_compute. reflexivity.
  - vm_compute. reflexivity.
  - apply map_Forall_to_list.
    replace (map_to_list (mounts store_root)) with (@nil (string * mountedLayer))
      by (vm_compute; reflexivity).
    constructor.
  - apply map_Forall_to_list.
    replace (map_to_list (layerMap store_root)) with [("a", 0)]
      by (vm_compute; reflexivity).
    repeat constructor. simpl. intros n Hn. vm_compute in Hn.
    injection Hn as <-. vm_compute. reflexivity.
Qed.

Lemma wf_restarted_root : wf (restarted store_root).
Proof.
  pose proof (consistent_closed store_root consistent_store_root) as Hclosed.
  destruct (newStore_counted _ _ (driver store_root) Hclosed) as (s & Hs & Hcnt).
  unfold restarted. rewrite Hs.
  exact (constructed_wf _ _ _ _ Hclosed Hcnt).
Qed.

Lemma Get_Release_unretained_witness :
  ∃ h s1 r s2,
    Get "a" (restarted store_root) = Done (Ok h, s1) ∧ count_of s1 "a" = Some 1 ∧
    Release all_deleted h s1 = Done (r, s2) ∧ layerMap s2 !! "a" = None.
Proof.
  destruct (Get_Release_unretained all_deleted "a" 0 (mkRoLayer "a" "a" None "c1" 10 0 ∅)
              (restarted store_root))
    as (h & s1 & r & s2 & Hget & Hcount & Hrel & Hgone & _).
  - exact wf_restarted_root.
  - vm_compute. reflexivity.
  - vm_compute. reflexivity.
  - reflexivity.
  - reflexivity.
  - exists h, s1, r, s2. split; [exact Hget|]. split; [exact Hcount|].
    split; [exact Hrel|exact Hgone].
Defined.

Lemma Map_lists_layers_witness :
  (∃ h s1, Get "a" store_root = Done (Ok h, s1)) ∧
  Get "zz" store_root = Done (Err ErrLayerDoesNotExist, store_root).
Proof.
  split.
  - destruct (Map_lists_layers "a" store_root wf_store_root) as (Hsome & _).
    apply Hsome. exists 0. vm_compute. reflexivity.
  - destruct (Map_lists_layers "zz" store_root wf_store_root) as (_ & _ & Hnone).
    apply Hnone. vm_compute. reflexivity.
Defined.

(** * The theorems on concrete options and errors *)

Lemma ValidateLogOpts_accepts_witness :
  gcplogs.ValidateLogOpts quote_plain ["labels"; "gcp-project"] = None.
Proof.
  destruct (ValidateLogOpts_accepts quote_plain
              {[ "gcp-project" := "p"; "labels" := "tier" ]} ["labels"; "gcp-project"])
    as [Hnone _].
  - unfold gcplogs.range_of. vm_compute. apply perm_swap || reflexivity.
  - apply Hnone. intros k [v Hk].
    apply lookup_insert_Some in Hk as [[<- _]|[_ Hk]].
    + vm_compute. set_solver.
    + apply lookup_singleton_Some in Hk as [<- _]. vm_compute. set_solver.
Defined.

Lemma New_project_option_witness :
  fst (gcplogs.New md_gce newEnv_ok (info_of {[ "gcp-project" := "" ]}) gcplogs.globals0)
  = inl gcplogs.no_project.
Proof.
  destruct (New_project_option md_gce newEnv_ok (info_of {[ "gcp-project" := "" ]})
              gcplogs.globals0 "") as [Hempty _].
  - reflexivity.
  - apply Hempty. reflexivity.
Defined.

Lemma New_off_GCE_witness :
  fst (gcplogs.New md_gce newEnv_ok (info_of ∅)
         (snd (gcplogs.New md_elsewhere newEnv_ok (info_of {[ "gcp-project" := "p" ]})
                 gcplogs.globals0)))
  = inl gcplogs.no_project.
Proof.
  destruct (New_off_GCE md_elsewhere newEnv_ok (info_of {[ "gcp-project" := "p" ]})
              md_gce newEnv_ok (info_of ∅)) as [Hlater _].
  - reflexivity.
  - reflexivity.
  - exact Hlater.
Defined.

Lemma New_instance_witness :
  ∃ l, fst (gcplogs.New md_gce newEnv_ok
              (info_of {[ "gcp-project" := "p"; "gcp-meta-name" := "host7" ]})
              gcplogs.globals0) = inr l ∧
    gcplogs.instance l = Some (gcplogs.mkInstanceInfo "us-east1-b" "vm1" "4711").
Proof.
  eexists. split; [vm_compute; reflexivity|].
  match goal with |- gcplogs.instance ?l = _ =>
    destruct (New_instance md_gce newEnv_ok
                (info_of {[ "gcp-project" := "p"; "gcp-meta-name" := "host7" ]})
                gcplogs.globals0 l) as (Hon & _)
  end.
  - vm_compute. reflexivity.
  - rewrite Hon; reflexivity.
Defined.

Lemma overflows_logged_witness :
  Z.of_nat (length (fst (gcplogs.overflows 1001 gcplogs.globals0))) = 2%Z.
Proof.
  destruct (overflows_logged 1001 gcplogs.globals0) as (_ & _ & Hlen).
  - simpl. lia.
  - simpl. lia.
  - rewrite Hlen. vm_compute. reflexivity.
Defined.

Lemma continueOnError_mirror_witness :
  distribution.continueOnError no_match
    (distribution.Errors [distribution.UnexpectedHTTPResponseError;
                          distribution.Error distribution.ErrorCodeDenied "denied"])
    true = true.
Proof.
  apply continueOnError_mirror. reflexivity.
Defined.
